(** * Maze generator, geometry queries, particles and chase loop

    A shallow embedding of [src/maze.c], [src/assets.c] (particle pool) and
    [src/main.c] (collision, movement, pursuers, spawn placement), with the
    properties of the design document proved over it.

    Conventions.
    - C [int] is [Z].  The product [width * height] that sizes the cells
      in [Maze_Create] is written with its wrap-around ([int_wrap]); the
      other places where the C code would overflow are kept out by
      explicit range hypotheses in the theorems.
    - C [float] is a type [F] with the operations of the class [CFloat].
      The instance [binary32] is IEEE-754 single precision, round to
      nearest even, built on the Standard Library's [SpecFloat]; this is
      the arithmetic the compiled program runs.  The instance [exactQ] is
      exact rational arithmetic, used to state what the formulas mean
      without rounding.
    - C arrays are lists read with [!!!] and written with [<[ _ := _ ]>].
    - [rand()] reads a stream [rand_src : nat -> Z]; the position in the
      stream is threaded through every function that draws from it.
    - [malloc]/[calloc] take a boolean saying whether the request
      succeeded. *)

From Stdlib Require Import ZArith QArith Lia Lqa Bool.
From Stdlib Require Import SpecFloat.
From stdpp Require Import base list relations.

Open Scope Z_scope.

(** ** The C [float] type *)

Class CFloat (F : Type) := {
  fadd : F -> F -> F;
  fsub : F -> F -> F;
  fmul : F -> F -> F;
  fdiv : F -> F -> F;
  fleb : F -> F -> bool;          (* x <= y *)
  fltb : F -> F -> bool;          (* x <  y *)
  f_of_int : Z -> F;              (* (float)i *)
  f_to_int : F -> Z;              (* (int)f, truncation toward zero *)
  f_lit : Z -> positive -> F      (* the literal n/d, e.g. 0.5f = f_lit 1 2 *)
}.

Declare Scope cfloat_scope.
Delimit Scope cfloat_scope with F.
Notation "x + y" := (fadd x y) : cfloat_scope.
Notation "x - y" := (fsub x y) : cfloat_scope.
Notation "x * y" := (fmul x y) : cfloat_scope.
Notation "x / y" := (fdiv x y) : cfloat_scope.
Notation "x <=? y" := (fleb x y) : cfloat_scope.
Notation "x <? y" := (fltb x y) : cfloat_scope.

Definition INT_MAX : Z := 2147483647.
Definition INT_MIN : Z := -2147483648.

(** The value of an [int] product that does not fit in 32 bits: the
    two's-complement wrap-around the hardware delivers (the C standard
    leaves the overflow undefined). *)
Definition int_wrap (z : Z) : Z := (z + 2147483648) mod 4294967296 - 2147483648.

(** The conversion of an [int] to the 64-bit [size_t]. *)
Definition to_size_t (z : Z) : Z := z mod 18446744073709551616.

(** *** IEEE-754 binary32 *)

Module F32.

Definition prec : Z := 24.
Definition emax : Z := 128.

Definition of_int (i : Z) : spec_float := binary_normalize prec emax i 0 false.

(** The correctly rounded quotient of two integers: [SFdiv] rounds the exact
    quotient of its operands once, whatever the size of their mantissas. *)
Definition lit (n : Z) (d : positive) : spec_float :=
  match n with
  | Z0 => S754_zero false
  | Zpos p => SFdiv prec emax (S754_finite false p 0) (S754_finite false d 0)
  | Zneg p => SFdiv prec emax (S754_finite true p 0) (S754_finite false d 0)
  end.

(** The integer part of a finite float. *)
Definition trunc (f : spec_float) : option Z :=
  match f with
  | S754_zero _ => Some 0
  | S754_finite s m e =>
      let a := if 0 <=? e then Z.shiftl (Zpos m) e else Z.shiftr (Zpos m) (- e) in
      Some (if s then - a else a)
  | _ => None
  end.

(** [(int)f].  The conversion of a NaN, an infinity or a value outside the
    range of [int] is undefined in C; the value chosen here is the one the
    x86 conversion instruction delivers. *)
Definition to_int (f : spec_float) : Z :=
  match trunc f with
  | Some z => if (INT_MIN <=? z) && (z <=? INT_MAX) then z else INT_MIN
  | None => INT_MIN
  end.

End F32.

#[export] Instance binary32 : CFloat spec_float := {
  fadd := SFadd F32.prec F32.emax;
  fsub := SFsub F32.prec F32.emax;
  fmul := SFmul F32.prec F32.emax;
  fdiv := SFdiv F32.prec F32.emax;
  fleb := SFleb;
  fltb := SFltb;
  f_of_int := F32.of_int;
  f_to_int := F32.to_int;
  f_lit := F32.lit
}.

(** *** Exact rational arithmetic *)

#[export] Instance exactQ : CFloat Q := {
  fadd := Qplus;
  fsub := Qminus;
  fmul := Qmult;
  fdiv := Qdiv;
  fleb := Qle_bool;
  fltb := fun a b => negb (Qle_bool b a);
  f_of_int := inject_Z;
  f_to_int := fun q => Z.quot (Qnum q) (Zpos (Qden q));
  f_lit := fun n d => Qmake n d
}.

(** ** raylib value types *)

Record Vector2 (F : Type) := mkVector2 { vx : F; vy : F }.
Record Vector3 (F : Type) := mkVector3 { px : F; py : F; pz : F }.
Record Rectangle (F : Type) := mkRectangle { rx : F; ry : F; rwidth : F; rheight : F }.
Record Color := mkColor { cr : Z; cg : Z; cb : Z; ca : Z }.

Arguments mkVector2 {F}.
Arguments vx {F}.
Arguments vy {F}.
Arguments mkVector3 {F}.
Arguments px {F}.
Arguments py {F}.
Arguments pz {F}.
Arguments mkRectangle {F}.
Arguments rx {F}.
Arguments ry {F}.
Arguments rwidth {F}.
Arguments rheight {F}.

(** ** include/maze.h *)

Definition MAZE_NORTH : Z := 1.
Definition MAZE_EAST  : Z := 2.
Definition MAZE_SOUTH : Z := 4.
Definition MAZE_WEST  : Z := 8.
Definition MAZE_ALL   : Z := 15.

Record Maze (F : Type) := mkMaze {
  width : Z;
  height : Z;
  cells : list Z;
  cellSize : F;
  startPos : Vector2 F;
  exitPos : Vector2 F
}.

Arguments mkMaze {F}.
Arguments width {F}.
Arguments height {F}.
Arguments cells {F}.
Arguments cellSize {F}.
Arguments startPos {F}.
Arguments exitPos {F}.

Record WallRect (F : Type) := mkWallRect { rect : Rectangle F; isVertical : bool }.

Arguments mkWallRect {F}.
Arguments rect {F}.
Arguments isVertical {F}.

(** ** Arrays *)

Definition aget {A} `{Inhabited A} (a : list A) (i : Z) : A := a !!! Z.to_nat i.
Definition aset {A} (a : list A) (i : Z) (v : A) : list A := <[Z.to_nat i := v]> a.

(** Storing an [int] into an [unsigned char]. *)
Definition to_uchar (v : Z) : Z := v mod 256.

(** ** src/maze.c *)

Section MazeCode.
Context {F : Type} `{CFloat F}.

(** The stream read by [rand()]. *)
Variable rand_src : nat -> Z.

Definition CellIndex (maze : Maze F) (x y : Z) : Z :=
  if (x <? 0) || (x >=? width maze) || (y <? 0) || (y >=? height maze)
  then -1
  else y * width maze + x.

Definition IsValidUnvisited (maze : Maze F) (x y : Z) (visited : list bool) : bool :=
  let idx := CellIndex maze x y in
  if idx <? 0 then false else negb (aget visited idx).

(** [temp = a[i]; a[i] = a[j]; a[j] = temp;] *)
Definition swap_entries (a : list Z) (i j : Z) : list Z :=
  let temp := aget a i in
  let a1 := aset a i (aget a j) in
  aset a1 j temp.

(** The shuffle loop [for (i = 3; i > 0; i--)] of [GetRandomNeighbor]; the
    first argument is the current value of [i]. *)
Fixpoint shuffle_from (i : nat) (dirs dx dy : list Z) (rng : nat)
  : list Z * list Z * list Z * nat :=
  match i with
  | O => (dirs, dx, dy, rng)
  | S i' =>
      let j := Z.rem (rand_src rng) (Z.of_nat i + 1) in
      shuffle_from i'
        (swap_entries dirs (Z.of_nat i) j)
        (swap_entries dx (Z.of_nat i) j)
        (swap_entries dy (Z.of_nat i) j)
        (S rng)
  end.

(** The scan loop [for (i = 0; i < 4; i++)] of [GetRandomNeighbor], with
    [n] iterations left. *)
Fixpoint scan_from (n : nat) (i : Z) (maze : Maze F) (x y : Z)
  (visited : list bool) (dirs dx dy : list Z) : option Z :=
  match n with
  | O => None
  | S n' =>
      let nx := x + aget dx i in
      let ny := y + aget dy i in
      if IsValidUnvisited maze nx ny visited
      then Some (aget dirs i)
      else scan_from n' (i + 1) maze x y visited dirs dx dy
  end.

(** [Some dir] is the C result 1 with [*outDir = dir]; [None] is 0. *)
Definition GetRandomNeighbor (maze : Maze F) (x y : Z) (visited : list bool)
  (rng : nat) : option Z * nat :=
  let dirs := [MAZE_NORTH; MAZE_EAST; MAZE_SOUTH; MAZE_WEST] in
  let dx := [0; 1; 0; -1] in
  let dy := [-1; 0; 1; 0] in
  let '(dirs, dx, dy, rng) := shuffle_from 3 dirs dx dy rng in
  (scan_from 4 0 maze x y visited dirs dx dy, rng).

(** The initialisation loop [for (i = 0; i < width * height; i++)] of
    [Maze_Create], with [n] iterations left. *)
Fixpoint fill_from (n : nat) (i : Z) (cs : list Z) : list Z :=
  match n with
  | O => cs
  | S n' => fill_from n' (i + 1) (aset cs i MAZE_ALL)
  end.

(** [ok_maze] and [ok_cells] tell whether [malloc] and [calloc] succeeded
    (returned a pointer that is not null).  [width * height] is an [int]
    product: [calloc] receives it converted to [size_t], and the loop
    compares [i] with it. *)
Definition Maze_Create (ok_maze ok_cells : bool) (w h : Z) (cs : F)
  : option (Maze F) :=
  if (w <? 1) || (h <? 1) || (cs <=? f_lit 0 1)%F then None
  else if negb ok_maze then None
  else if negb ok_cells then None
  else
    let n := int_wrap (w * h) in
    Some {| width := w;
            height := h;
            cellSize := cs;
            cells := fill_from (Z.to_nat n) 0 (replicate (Z.to_nat (to_size_t n)) 0);
            startPos := mkVector2 (f_of_int 0) (f_of_int 0);
            exitPos := mkVector2 (f_of_int (w - 1)) (f_of_int (h - 1)) |}.

Definition set_cells (maze : Maze F) (cs : list Z) : Maze F :=
  {| width := width maze;
     height := height maze;
     cellSize := cellSize maze;
     cells := cs;
     startPos := startPos maze;
     exitPos := exitPos maze |}.

(** The state of the loop of [Maze_Generate].  The array [stack] with its
    [stackTop] entries is the list [gs_stack], top first. *)
Record GenState := mkGenState {
  gs_maze : Maze F;
  gs_visited : list bool;
  gs_stack : list (Z * Z);
  gs_rng : nat
}.

(** The search [for (i = 0; i < 4; i++) if (dirs[i] == dir) ...] for the
    index of a direction; [dirIdx] starts at 0. *)
Fixpoint dirIdx_from (n : nat) (i : Z) (dirs : list Z) (dir : Z) : Z :=
  match n with
  | O => 0
  | S n' => if aget dirs i =? dir then i else dirIdx_from n' (i + 1) dirs dir
  end.

(** One iteration of [while (stackTop > 0)]. *)
Definition generate_step (st : GenState) : GenState :=
  match gs_stack st with
  | [] => st
  | (x, y) :: below =>
      let maze := gs_maze st in
      let oppositeDir := [MAZE_SOUTH; MAZE_WEST; MAZE_NORTH; MAZE_EAST] in
      let dirs := [MAZE_NORTH; MAZE_EAST; MAZE_SOUTH; MAZE_WEST] in
      let dx := [0; 1; 0; -1] in
      let dy := [-1; 0; 1; 0] in
      match GetRandomNeighbor maze x y (gs_visited st) (gs_rng st) with
      | (Some dir, rng) =>
          let dirIdx := dirIdx_from 4 0 dirs dir in
          let nx := x + aget dx dirIdx in
          let ny := y + aget dy dirIdx in
          let currIdx := CellIndex maze x y in
          let nextIdx := CellIndex maze nx ny in
          let c1 := aset (cells maze) currIdx
                      (to_uchar (Z.land (aget (cells maze) currIdx) (Z.lnot dir))) in
          let c2 := aset c1 nextIdx
                      (to_uchar (Z.land (aget c1 nextIdx)
                                        (Z.lnot (aget oppositeDir dirIdx)))) in
          {| gs_maze := set_cells maze c2;
             gs_visited := aset (gs_visited st) nextIdx true;
             gs_stack := (nx, ny) :: (x, y) :: below;
             gs_rng := rng |}
      | (None, rng) =>
          {| gs_maze := maze;
             gs_visited := gs_visited st;
             gs_stack := below;
             gs_rng := rng |}
      end
  end.

(** [while (stackTop > 0)], run for at most [fuel] iterations. *)
Fixpoint generate_loop (fuel : nat) (st : GenState) : GenState :=
  match fuel with
  | O => st
  | S fuel' =>
      match gs_stack st with
      | [] => st
      | _ :: _ => generate_loop fuel' (generate_step st)
      end
  end.

(** The state on entry to the loop: cell (0,0) visited and pushed. *)
Definition generate_init (maze : Maze F) (rng : nat) : GenState :=
  let n := Z.to_nat (width maze * height maze) in
  {| gs_maze := maze;
     gs_visited := aset (replicate n false) (CellIndex maze 0 0) true;
     gs_stack := [(0, 0)];
     gs_rng := rng |}.

(** The loop visits or pops a cell at each iteration, so it runs at most
    [2 * width * height] times (theorem [generate_loop_ends]). *)
Definition generate_fuel (maze : Maze F) : nat :=
  Z.to_nat (2 * (width maze * height maze)).

(** [ok_visited] and [ok_stack] tell whether the two allocations succeeded;
    the function returns the maze and the position reached in the stream. *)
Definition Maze_Generate (ok_visited ok_stack : bool) (maze : Maze F) (rng : nat)
  : Maze F * nat :=
  if negb ok_visited then (maze, rng)
  else if negb ok_stack then (maze, rng)
  else
    let st := generate_loop (generate_fuel maze) (generate_init maze rng) in
    (gs_maze st, gs_rng st).

Definition Maze_HasWall (maze : Maze F) (x y : Z) (direction : Z) : bool :=
  let idx := CellIndex maze x y in
  if idx <? 0 then true
  else negb (Z.land (aget (cells maze) idx) direction =? 0).

Definition wallThick : F := f_lit 1 10.

Definition cellCenterX (maze : Maze F) (x : Z) : F :=
  ((f_of_int x - f_of_int (width maze) * f_lit 1 2 + f_lit 1 2) * cellSize maze)%F.

Definition cellCenterZ (maze : Maze F) (y : Z) : F :=
  ((f_of_int y - f_of_int (height maze) * f_lit 1 2 + f_lit 1 2) * cellSize maze)%F.

Definition halfCell (maze : Maze F) : F := (cellSize maze * f_lit 1 2)%F.

Definition northRect (maze : Maze F) (x y : Z) : WallRect F :=
  mkWallRect
    (mkRectangle
       (cellCenterX maze x - halfCell maze - wallThick * f_lit 1 2)%F
       (cellCenterZ maze y - halfCell maze - wallThick * f_lit 1 2)%F
       (cellSize maze + wallThick)%F
       wallThick)
    false.

Definition westRect (maze : Maze F) (x y : Z) : WallRect F :=
  mkWallRect
    (mkRectangle
       (cellCenterX maze x - halfCell maze - wallThick * f_lit 1 2)%F
       (cellCenterZ maze y - halfCell maze - wallThick * f_lit 1 2)%F
       wallThick
       (cellSize maze + wallThick)%F)
    true.

Definition eastRect (maze : Maze F) (x y : Z) : WallRect F :=
  mkWallRect
    (mkRectangle
       (cellCenterX maze x + halfCell maze - wallThick * f_lit 1 2)%F
       (cellCenterZ maze y - halfCell maze - wallThick * f_lit 1 2)%F
       wallThick
       (cellSize maze + wallThick)%F)
    true.

Definition southRect (maze : Maze F) (x y : Z) : WallRect F :=
  mkWallRect
    (mkRectangle
       (cellCenterX maze x - halfCell maze - wallThick * f_lit 1 2)%F
       (cellCenterZ maze y + halfCell maze - wallThick * f_lit 1 2)%F
       (cellSize maze + wallThick)%F
       wallThick)
    false.

(** The body of the two loops of [Maze_GetWallRects] for the cell [(x, y)].
    [out] holds [outRects[0 .. count-1]], so [count] is its length and
    [outRects[count] = r; count++] appends [r]. *)
Definition emit_cell (maze : Maze F) (x y : Z) (out : list (WallRect F))
  : list (WallRect F) :=
  let out :=
    if Maze_HasWall maze x y MAZE_NORTH then out ++ [northRect maze x y] else out in
  let out :=
    if Maze_HasWall maze x y MAZE_WEST then out ++ [westRect maze x y] else out in
  let out :=
    if (x =? width maze - 1) && Maze_HasWall maze x y MAZE_EAST
    then out ++ [eastRect maze x y] else out in
  let out :=
    if (y =? height maze - 1) && Maze_HasWall maze x y MAZE_SOUTH
    then out ++ [southRect maze x y] else out in
  out.

(** [for (x = ...; x < width && count < maxRects; x++)], [n] iterations left. *)
Fixpoint rects_row (n : nat) (x : Z) (maze : Maze F) (y : Z) (maxRects : Z)
  (out : list (WallRect F)) : list (WallRect F) :=
  match n with
  | O => out
  | S n' =>
      if (x <? width maze) && (Z.of_nat (length out) <? maxRects)
      then rects_row n' (x + 1) maze y maxRects (emit_cell maze x y out)
      else out
  end.

(** [for (y = ...; y < height && count < maxRects; y++)], [n] iterations left. *)
Fixpoint rects_rows (n : nat) (y : Z) (maze : Maze F) (maxRects : Z)
  (out : list (WallRect F)) : list (WallRect F) :=
  match n with
  | O => out
  | S n' =>
      if (y <? height maze) && (Z.of_nat (length out) <? maxRects)
      then rects_rows n' (y + 1) maze maxRects
             (rects_row (Z.to_nat (width maze)) 0 maze y maxRects out)
      else out
  end.

(** The rectangles written to [outRects], in order; the C result [count] is
    the length of the list. *)
Definition Maze_GetWallRects (maze : Maze F) (maxRects : Z) : list (WallRect F) :=
  if maxRects <=? 0 then []
  else rects_rows (Z.to_nat (height maze)) 0 maze maxRects [].

Definition Maze_CellToWorld (maze : Maze F) (cellX cellY : Z) : Vector2 F :=
  mkVector2
    ((f_of_int cellX - f_of_int (width maze) * f_lit 1 2 + f_lit 1 2) * cellSize maze)%F
    ((f_of_int cellY - f_of_int (height maze) * f_lit 1 2 + f_lit 1 2) * cellSize maze)%F.

(** The pair [( *outCellX, *outCellY )]. *)
Definition Maze_WorldToCell (maze : Maze F) (worldX worldZ : F) : Z * Z :=
  let cellX := f_to_int (worldX / cellSize maze + f_of_int (width maze) * f_lit 1 2)%F in
  let cellY := f_to_int (worldZ / cellSize maze + f_of_int (height maze) * f_lit 1 2)%F in
  (cellX, cellY).

Definition Maze_IsExit (maze : Maze F) (cellX cellY : Z) : bool :=
  (cellX =? f_to_int (vx (exitPos maze))) && (cellY =? f_to_int (vy (exitPos maze))).

End MazeCode.

Arguments GenState : clear implicits.

(** ** include/assets.h and src/assets.c: the particle pool *)

Record Particle (F : Type) := mkParticle {
  position : Vector3 F;
  velocity : Vector3 F;
  life : F;
  maxLife : F;
  size : F;
  color : Color
}.

Arguments mkParticle {F}.
Arguments position {F}.
Arguments velocity {F}.
Arguments life {F}.
Arguments maxLife {F}.
Arguments size {F}.
Arguments color {F}.

Record ParticleSystem (F : Type) := mkParticleSystem {
  particles : list (Particle F);
  maxParticles : Z;
  activeParticles : Z;
  emitterPos : Vector3 F;
  emitRate : F;
  emitAccumulator : F
}.

Arguments mkParticleSystem {F}.
Arguments particles {F}.
Arguments maxParticles {F}.
Arguments activeParticles {F}.
Arguments emitterPos {F}.
Arguments emitRate {F}.
Arguments emitAccumulator {F}.

Section ParticleCode.
Context {F : Type} `{CFloat F}.

Variable rand_src : nat -> Z.

#[export] Instance Particle_inhabited : Inhabited (Particle F) :=
  populate (mkParticle
              (mkVector3 (f_of_int 0) (f_of_int 0) (f_of_int 0))
              (mkVector3 (f_of_int 0) (f_of_int 0) (f_of_int 0))
              (f_of_int 0) (f_of_int 0) (f_of_int 0) (mkColor 0 0 0 0)).

(** [ok_ps] and [ok_particles] tell whether the two [malloc] calls
    succeeded; [junk] is the indeterminate content of the fresh block. *)
Definition ParticleSystem_Create (ok_ps ok_particles : bool) (junk : Particle F)
  (maxParticles : Z) : option (ParticleSystem F) :=
  if negb ok_ps then None
  else if negb ok_particles then None
  else Some {| particles := replicate (Z.to_nat maxParticles) junk;
               maxParticles := maxParticles;
               activeParticles := 0;
               emitRate := f_lit 15 1;
               emitAccumulator := f_lit 0 1;
               emitterPos := mkVector3 (f_of_int 0) (f_of_int 0) (f_of_int 0) |}.

(** The particle written into the slot [particles[activeParticles]] by one
    iteration of the emission loop; the six draws are taken in the order in
    which they are written in the source. *)
Definition emit_particle (emitter : Vector3 F) (rng : nat) : Particle F * nat :=
  let r1 := rand_src rng in
  let r2 := rand_src (S rng) in
  let r3 := rand_src (S (S rng)) in
  let r4 := rand_src (S (S (S rng))) in
  let r5 := rand_src (S (S (S (S rng)))) in
  let r6 := rand_src (S (S (S (S (S rng))))) in
  ({| position := mkVector3 (px emitter) (py emitter + f_lit 1 4)%F (pz emitter);
      velocity := mkVector3
                    ((f_of_int (Z.rem r1 200) - f_lit 100 1) / f_lit 500 1)%F
                    ((f_of_int (Z.rem r2 300) + f_lit 100 1) / f_lit 500 1)%F
                    ((f_of_int (Z.rem r3 200) - f_lit 100 1) / f_lit 500 1)%F;
      life := f_lit 1 1;
      maxLife := (f_lit 1 2 + f_of_int (Z.rem r4 50) / f_lit 100 1)%F;
      size := (f_lit 5 100 + f_of_int (Z.rem r5 30) / f_lit 1000 1)%F;
      color := mkColor 255 (150 + Z.rem r6 50) 0 255 |},
   S (S (S (S (S (S rng)))))).

(** [for (i = ...; i < toEmit && activeParticles < maxParticles; i++)],
    [n] iterations left. *)
Fixpoint emit_from (n : nat) (i toEmit : Z) (emitter : Vector3 F)
  (ps : ParticleSystem F) (rng : nat) : ParticleSystem F * nat :=
  match n with
  | O => (ps, rng)
  | S n' =>
      if (i <? toEmit) && (activeParticles ps <? maxParticles ps)
      then
        let '(p, rng) := emit_particle emitter rng in
        emit_from n' (i + 1) toEmit emitter
          {| particles := aset (particles ps) (activeParticles ps) p;
             maxParticles := maxParticles ps;
             activeParticles := activeParticles ps + 1;
             emitterPos := emitterPos ps;
             emitRate := emitRate ps;
             emitAccumulator := emitAccumulator ps |}
          rng
      else (ps, rng)
  end.

(** The physics and life update of one particle. *)
Definition age_particle (p : Particle F) (dt : F) : Particle F :=
  let vy' := (py (velocity p) + f_lit (-2) 1 * dt)%F in
  let v := mkVector3 (px (velocity p)) vy' (pz (velocity p)) in
  {| velocity := v;
     position := mkVector3 (px (position p) + px v * dt)%F
                           (py (position p) + py v * dt)%F
                           (pz (position p) + pz v * dt)%F;
     life := (life p - dt)%F;
     maxLife := maxLife p;
     size := size p;
     color := color p |}.

(** [for (i = ...; i < activeParticles; i++)] with the body's [i--] on
    removal, [n] iterations left.  Returns the array and [activeParticles]. *)
Fixpoint update_from (n : nat) (i : Z) (dt : F) (parts : list (Particle F))
  (active : Z) : list (Particle F) * Z :=
  match n with
  | O => (parts, active)
  | S n' =>
      if i <? active then
        let p := age_particle (aget parts i) dt in
        let parts := aset parts i p in
        if (life p <=? f_lit 0 1)%F then
          let parts := aset parts i (aget parts (active - 1)) in
          update_from n' i dt parts (active - 1)
        else update_from n' (i + 1) dt parts active
      else (parts, active)
  end.

Definition ParticleSystem_Update (ps : ParticleSystem F) (emitter : Vector3 F)
  (dt : F) (rng : nat) : ParticleSystem F * nat :=
  let acc := (emitAccumulator ps + emitRate ps * dt)%F in
  let toEmit := f_to_int acc in
  let acc := (acc - f_of_int toEmit)%F in
  let ps1 := {| particles := particles ps;
                maxParticles := maxParticles ps;
                activeParticles := activeParticles ps;
                emitterPos := emitter;
                emitRate := emitRate ps;
                emitAccumulator := acc |} in
  let '(ps2, rng) := emit_from (Z.to_nat toEmit) 0 toEmit emitter ps1 rng in
  let '(parts, active) :=
    update_from (Z.to_nat (activeParticles ps2)) 0 dt (particles ps2)
                (activeParticles ps2) in
  ({| particles := parts;
      maxParticles := maxParticles ps2;
      activeParticles := active;
      emitterPos := emitterPos ps2;
      emitRate := emitRate ps2;
      emitAccumulator := emitAccumulator ps2 |}, rng).

(** A run of calls of [ParticleSystem_Update], one per frame. *)
Fixpoint update_frames (frames : list (Vector3 F * F)) (ps : ParticleSystem F)
  (rng : nat) : ParticleSystem F * nat :=
  match frames with
  | [] => (ps, rng)
  | (pos, dt) :: rest =>
      let '(ps, rng) := ParticleSystem_Update ps pos dt rng in
      update_frames rest ps rng
  end.

End ParticleCode.

(** ** src/main.c *)

Inductive GameState := GAME_STATE_PLAYING | GAME_STATE_WON | GAME_STATE_GAMEOVER.

Record ScaryCharacter (F : Type) := mkScaryCharacter {
  sc_position : Vector3 F;
  sc_speed : F;
  sc_radius : F;
  sc_height : F
}.

Arguments mkScaryCharacter {F}.
Arguments sc_position {F}.
Arguments sc_speed {F}.
Arguments sc_radius {F}.
Arguments sc_height {F}.

Section GameCode.
Context {F : Type} `{CFloat F}.

Variable rand_src : nat -> Z.

(** The functions of [<math.h>] and the constant of [<stdlib.h>] the game
    uses. *)
Variable sqrtf : F -> F.
Variable cosf : F -> F.
Variable sinf : F -> F.
Variable RAND_MAX : Z.

Definition MAZE_WIDTH : Z := 15.
Definition MAZE_HEIGHT : Z := 15.
Definition CELL_SIZE : F := f_lit 3 1.
Definition PLAYER_RADIUS : F := f_lit 30 100.
Definition SCARY_CHAR_COUNT : Z := 3.
Definition SCARY_CHAR_SPEED : F := f_lit 28 10.
Definition SCARY_CHAR_RADIUS : F := f_lit 35 100.
Definition SCARY_CHAR_HEIGHT : F := f_lit 22 10.
Definition SCARY_CHAR_RANDOMNESS : F := f_lit 15 100.

#[export] Instance WallRect_inhabited : Inhabited (WallRect F) :=
  populate (mkWallRect
              (mkRectangle (f_of_int 0) (f_of_int 0) (f_of_int 0) (f_of_int 0))
              false).

#[export] Instance ScaryCharacter_inhabited : Inhabited (ScaryCharacter F) :=
  populate (mkScaryCharacter
              (mkVector3 (f_of_int 0) (f_of_int 0) (f_of_int 0))
              (f_of_int 0) (f_of_int 0) (f_of_int 0)).

Definition clampf (v lo hi : F) : F :=
  if (v <? lo)%F then lo else if (hi <? v)%F then hi else v.

Definition CircleRectIntersect (c : Vector2 F) (r : F) (rect : Rectangle F) : bool :=
  let nx := clampf (vx c) (rx rect) (rx rect + rwidth rect)%F in
  let nz := clampf (vy c) (ry rect) (ry rect + rheight rect)%F in
  let dx := (vx c - nx)%F in
  let dz := (vy c - nz)%F in
  (dx * dx + dz * dz <=? r * r)%F.

Definition CircleCircleIntersect (c1 : Vector2 F) (r1 : F) (c2 : Vector2 F) (r2 : F)
  : bool :=
  let dx := (vx c1 - vx c2)%F in
  let dz := (vy c1 - vy c2)%F in
  let distSq := (dx * dx + dz * dz)%F in
  let radiusSum := (r1 + r2)%F in
  (distSq <=? radiusSum * radiusSum)%F.

(** [for (i = ...; i < count; ++i)] of [CollidesAny], [n] iterations left. *)
Fixpoint collides_from (n : nat) (i : Z) (c : Vector2 F) (r : F)
  (walls : list (WallRect F)) (count : Z) : bool :=
  match n with
  | O => false
  | S n' =>
      if i <? count then
        if CircleRectIntersect c r (rect (aget walls i)) then true
        else collides_from n' (i + 1) c r walls count
      else false
  end.

Definition CollidesAny (c : Vector2 F) (r : F) (walls : list (WallRect F))
  (count : Z) : bool :=
  collides_from (Z.to_nat count) 0 c r walls count.

(** The movement block that [main] applies to the player and to every scary
    character: the X displacement alone, then the Z displacement alone from
    the position reached. *)
Definition move_axes (pXZ step : Vector2 F) (r : F) (walls : list (WallRect F))
  (wallCount : Z) : Vector2 F :=
  let testX := mkVector2 (vx pXZ + vx step)%F (vy pXZ) in
  let pXZ :=
    if negb (CollidesAny testX r walls wallCount)
    then mkVector2 (vx testX) (vy pXZ) else pXZ in
  let testZ := mkVector2 (vx pXZ) (vy pXZ + vy step)%F in
  if negb (CollidesAny testZ r walls wallCount)
  then mkVector2 (vx pXZ) (vy testZ) else pXZ.

(** The steering of one scary character towards [playerPos2D]: the new value
    of [charPos], the character as stored back, and the position reached in
    the stream. *)
Definition steer_char (ch : ScaryCharacter F) (playerPos2D : Vector2 F) (dt : F)
  (walls : list (WallRect F)) (wallCount : Z) (rng : nat)
  : Vector2 F * ScaryCharacter F * nat :=
  let charPos := mkVector2 (px (sc_position ch)) (pz (sc_position ch)) in
  let dirx := (vx playerPos2D - vx charPos)%F in
  let diry := (vy playerPos2D - vy charPos)%F in
  let dist := sqrtf (dirx * dirx + diry * diry)%F in
  if (f_lit 1 1000 <? dist)%F then
    let dirx := (dirx / dist)%F in
    let diry := (diry / dist)%F in
    let randomAngle :=
      (f_of_int (rand_src rng) / f_of_int RAND_MAX * f_lit 2 1
       * f_lit 314159265359 100000000000 * SCARY_CHAR_RANDOMNESS)%F in
    let cosAngle := cosf randomAngle in
    let sinAngle := sinf randomAngle in
    let randomDirx := (dirx * cosAngle - diry * sinAngle)%F in
    let randomDiry := (dirx * sinAngle + diry * cosAngle)%F in
    let dirx := (dirx * (f_lit 1 1 - SCARY_CHAR_RANDOMNESS)
                 + randomDirx * SCARY_CHAR_RANDOMNESS)%F in
    let diry := (diry * (f_lit 1 1 - SCARY_CHAR_RANDOMNESS)
                 + randomDiry * SCARY_CHAR_RANDOMNESS)%F in
    let dirLen := sqrtf (dirx * dirx + diry * diry)%F in
    let '(dirx, diry) :=
      if (f_lit 1 1000 <? dirLen)%F
      then ((dirx / dirLen)%F, (diry / dirLen)%F) else (dirx, diry) in
    let moveStep := mkVector2 (dirx * sc_speed ch * dt)%F
                              (diry * sc_speed ch * dt)%F in
    let charPos := move_axes charPos moveStep (sc_radius ch) walls wallCount in
    (charPos,
     {| sc_position := mkVector3 (vx charPos) (py (sc_position ch)) (vy charPos);
        sc_speed := sc_speed ch;
        sc_radius := sc_radius ch;
        sc_height := sc_height ch |},
     S rng)
  else (charPos, ch, rng).

(** [for (i = ...; i < SCARY_CHAR_COUNT; i++)] of the chase block, with its
    [break] on capture; [n] iterations left. *)
Fixpoint chase_from (n : nat) (i : Z) (count : Z)
  (scaryChars : list (ScaryCharacter F)) (gameState : GameState)
  (playerPos2D : Vector2 F) (dt : F) (walls : list (WallRect F)) (wallCount : Z)
  (rng : nat) : list (ScaryCharacter F) * GameState * nat :=
  match n with
  | O => (scaryChars, gameState, rng)
  | S n' =>
      if i <? count then
        let '(charPos, ch, rng) :=
          steer_char (aget scaryChars i) playerPos2D dt walls wallCount rng in
        let scaryChars := aset scaryChars i ch in
        if CircleCircleIntersect playerPos2D PLAYER_RADIUS charPos (sc_radius ch)
        then (scaryChars, GAME_STATE_GAMEOVER, rng)
        else chase_from n' (i + 1) count scaryChars gameState
               playerPos2D dt walls wallCount rng
      else (scaryChars, gameState, rng)
  end.

(** The chase block of a frame: it runs only in the playing state. *)
Definition update_scary_chars (scaryChars : list (ScaryCharacter F))
  (gameState : GameState) (playerPos2D : Vector2 F) (dt : F)
  (walls : list (WallRect F)) (wallCount : Z) (rng : nat)
  : list (ScaryCharacter F) * GameState * nat :=
  match gameState with
  | GAME_STATE_PLAYING =>
      chase_from (Z.to_nat SCARY_CHAR_COUNT) 0 SCARY_CHAR_COUNT scaryChars
        gameState playerPos2D dt walls wallCount rng
  | _ => (scaryChars, gameState, rng)
  end.

(** The exit test that follows the chase block in the same frame. *)
Definition check_exit (maze : Maze F) (playerPos : Vector3 F) (gameState : GameState)
  : GameState :=
  let '(cellX, cellY) := Maze_WorldToCell maze (px playerPos) (pz playerPos) in
  if Maze_IsExit maze cellX cellY then GAME_STATE_WON else gameState.

(** *** Spawn placement in [InitGame] *)

Definition MIN_DISTANCE_FROM_PLAYER : F := f_lit 30 1.
Definition RELAXED_DISTANCE : F := f_lit 25 1.

(** [for (j = ...; j < i; j++)] looking for an earlier character on the cell,
    [n] iterations left. *)
Fixpoint duplicate_from (n : nat) (j i : Z) (maze : Maze F)
  (scaryChars : list (ScaryCharacter F)) (cellX cellY : Z) : bool :=
  match n with
  | O => false
  | S n' =>
      if j <? i then
        let '(existingCellX, existingCellY) :=
          Maze_WorldToCell maze (px (sc_position (aget scaryChars j)))
                                (pz (sc_position (aget scaryChars j))) in
        if (cellX =? existingCellX) && (cellY =? existingCellY) then true
        else duplicate_from n' (j + 1) i maze scaryChars cellX cellY
      else false
  end.

Definition distFromPlayer (maze : Maze F) (playerStartWorld : Vector2 F)
  (cellX cellY : Z) : F :=
  let charWorldPos := Maze_CellToWorld maze cellX cellY in
  let dx := (vx charWorldPos - vx playerStartWorld)%F in
  let dz := (vy charWorldPos - vy playerStartWorld)%F in
  sqrtf (dx * dx + dz * dz)%F.

(** Whether a pick passes the four tests of the first loop. *)
Definition strict_ok (maze : Maze F) (scaryChars : list (ScaryCharacter F)) (i : Z)
  (playerStartWorld : Vector2 F) (cellX cellY : Z) : bool :=
  let isStart := (cellX =? f_to_int (vx (startPos maze)))
                 && (cellY =? f_to_int (vy (startPos maze))) in
  let isExit := (cellX =? f_to_int (vx (exitPos maze)))
                && (cellY =? f_to_int (vy (exitPos maze))) in
  let isDuplicate := duplicate_from (Z.to_nat i) 0 i maze scaryChars cellX cellY in
  let isFarEnough :=
    (MIN_DISTANCE_FROM_PLAYER <=? distFromPlayer maze playerStartWorld cellX cellY)%F in
  negb isStart && negb isExit && negb isDuplicate && isFarEnough.

(** [while (!validPos && attempts < 200)], with [n = 200 - attempts]. *)
Fixpoint strict_picks (n : nat) (maze : Maze F)
  (scaryChars : list (ScaryCharacter F)) (i : Z) (playerStartWorld : Vector2 F)
  (validPos : bool) (cellX cellY : Z) (rng : nat) : bool * Z * Z * nat :=
  match n with
  | O => (validPos, cellX, cellY, rng)
  | S n' =>
      if validPos then (validPos, cellX, cellY, rng)
      else
        let cellX := Z.rem (rand_src rng) (width maze) in
        let cellY := Z.rem (rand_src (S rng)) (height maze) in
        let validPos := strict_ok maze scaryChars i playerStartWorld cellX cellY in
        strict_picks n' maze scaryChars i playerStartWorld validPos cellX cellY
          (S (S rng))
  end.

(** [for (retry = ...; retry < 50; retry++)] with its [break], [n] iterations
    left. *)
Fixpoint relaxed_picks (n : nat) (maze : Maze F) (playerStartWorld : Vector2 F)
  (cellX cellY : Z) (rng : nat) : bool * Z * Z * nat :=
  match n with
  | O => (false, cellX, cellY, rng)
  | S n' =>
      let cellX := Z.rem (rand_src rng) (width maze) in
      let cellY := Z.rem (rand_src (S rng)) (height maze) in
      if (RELAXED_DISTANCE <=? distFromPlayer maze playerStartWorld cellX cellY)%F
      then (true, cellX, cellY, S (S rng))
      else relaxed_picks n' maze playerStartWorld cellX cellY (S (S rng))
  end.

(** The cell chosen for character [i].  [cellX] and [cellY] are declared
    without a value; the first loop assigns them before they are read, and the
    0 they start from here is never returned. *)
Definition place_cell (maze : Maze F) (scaryChars : list (ScaryCharacter F)) (i : Z)
  (playerStartWorld : Vector2 F) (rng : nat) : Z * Z * nat :=
  let '(validPos, cellX, cellY, rng) :=
    strict_picks 200 maze scaryChars i playerStartWorld false 0 0 rng in
  if negb validPos then
    let '(validPos, cellX, cellY, rng) :=
      relaxed_picks 50 maze playerStartWorld cellX cellY rng in
    if negb validPos then
      (Z.rem (rand_src rng) (width maze),
       Z.rem (rand_src (S rng)) (height maze),
       S (S rng))
    else (cellX, cellY, rng)
  else (cellX, cellY, rng).

(** [for (i = ...; i < scaryCharCount; i++)] of [InitGame], [n] iterations
    left. *)
Fixpoint place_from (n : nat) (i scaryCharCount : Z) (maze : Maze F)
  (scaryChars : list (ScaryCharacter F)) (playerStartWorld : Vector2 F) (rng : nat)
  : list (ScaryCharacter F) * nat :=
  match n with
  | O => (scaryChars, rng)
  | S n' =>
      if i <? scaryCharCount then
        let '(cellX, cellY, rng) := place_cell maze scaryChars i playerStartWorld rng in
        let worldPos := Maze_CellToWorld maze cellX cellY in
        let ch := {| sc_position := mkVector3 (vx worldPos) (f_lit 0 1) (vy worldPos);
                     sc_speed := SCARY_CHAR_SPEED;
                     sc_radius := SCARY_CHAR_RADIUS;
                     sc_height := SCARY_CHAR_HEIGHT |} in
        place_from n' (i + 1) scaryCharCount maze (aset scaryChars i ch)
          playerStartWorld rng
      else (scaryChars, rng)
  end.

(** The placement block of [InitGame]. *)
Definition place_scary_chars (maze : Maze F) (scaryChars : list (ScaryCharacter F))
  (scaryCharCount : Z) (rng : nat) : list (ScaryCharacter F) * nat :=
  if 0 <? scaryCharCount then
    let playerStartWorld :=
      Maze_CellToWorld maze (f_to_int (vx (startPos maze))) (f_to_int (vy (startPos maze))) in
    place_from (Z.to_nat scaryCharCount) 0 scaryCharCount maze scaryChars
      playerStartWorld rng
  else (scaryChars, rng).

End GameCode.

(** * Specification vocabulary *)

Section MazeSpec.
Context {F : Type} `{CFloat F}.

Definition in_grid (maze : Maze F) (x y : Z) : Prop :=
  0 <= x < width maze /\ 0 <= y < height maze.

Definition directions : list Z := [MAZE_NORTH; MAZE_EAST; MAZE_SOUTH; MAZE_WEST].

(** The step from a cell to its neighbour in a direction: the tables [dx],
    [dy] and [oppositeDir] of [Maze_Generate], indexed by the direction. *)
Definition dir_dx (d : Z) : Z :=
  if d =? MAZE_EAST then 1 else if d =? MAZE_WEST then -1 else 0.

Definition dir_dy (d : Z) : Z :=
  if d =? MAZE_SOUTH then 1 else if d =? MAZE_NORTH then -1 else 0.

Definition opposite (d : Z) : Z :=
  if d =? MAZE_NORTH then MAZE_SOUTH
  else if d =? MAZE_EAST then MAZE_WEST
  else if d =? MAZE_SOUTH then MAZE_NORTH
  else MAZE_EAST.

(** No wall between the cell [(x, y)] and its neighbour in direction [d]:
    neither of the two cells has a wall on the shared side.  [Maze_HasWall]
    answers [true] outside the grid, so both cells are in the grid. *)
Definition open_between (maze : Maze F) (x y d : Z) : bool :=
  negb (Maze_HasWall maze x y d)
  && negb (Maze_HasWall maze (x + dir_dx d) (y + dir_dy d) (opposite d)).

(** The edges of the maze graph. *)
Definition passage (maze : Maze F) (c c' : Z * Z) : Prop :=
  exists d, d ∈ directions /\
            c' = (c.1 + dir_dx d, c.2 + dir_dy d) /\
            open_between maze c.1 c.2 d = true.

(** Every pair of adjacent cells, named once: by its western cell and
    [MAZE_EAST], or by its northern cell and [MAZE_SOUTH]. *)
Definition cell_slots (x y : Z) : list (Z * Z * Z) :=
  [(x, y, MAZE_EAST); (x, y, MAZE_SOUTH)].

Definition passage_slots (maze : Maze F) : list (Z * Z * Z) :=
  y ← seqZ 0 (height maze); x ← seqZ 0 (width maze); cell_slots x y.

Definition slot_open (maze : Maze F) (s : Z * Z * Z) : bool :=
  open_between maze s.1.1 s.1.2 s.2.

(** The number of adjacent-cell pairs with no wall between them. *)
Definition open_passages (maze : Maze F) : nat :=
  length (List.filter (slot_open maze) (passage_slots maze)).

(** Adjacent cells agree about their shared wall. *)
Definition walls_agree (maze : Maze F) : Prop :=
  forall x y, in_grid maze x y ->
    (in_grid maze (x + 1) y ->
       Maze_HasWall maze x y MAZE_EAST = Maze_HasWall maze (x + 1) y MAZE_WEST) /\
    (in_grid maze x (y + 1) ->
       Maze_HasWall maze x y MAZE_SOUTH = Maze_HasWall maze x (y + 1) MAZE_NORTH).

(** A cycle of the maze graph: at least three distinct cells, each joined to
    the next by a passage, and the last to the first. *)
Fixpoint path_of (maze : Maze F) (c : Z * Z) (p : list (Z * Z)) (last : Z * Z) : Prop :=
  match p with
  | [] => c = last
  | c' :: p' => passage maze c c' /\ path_of maze c' p' last
  end.

Definition cycle (maze : Maze F) (c : Z * Z) (p : list (Z * Z)) : Prop :=
  NoDup (c :: p) /\ (2 <= length p)%nat /\
  exists last, path_of maze c p last /\ passage maze last c.

(** *** Vocabulary of the proof of [Maze_Generate] *)

(** The test [(c & d) != 0] of [Maze_HasWall]. *)
Definition wall_bit (c d : Z) : bool := negb (Z.land c d =? 0).

Definition visited_at (maze : Maze F) (visited : list bool) (x y : Z) : bool :=
  aget visited (CellIndex maze x y).

Fixpoint count_true (l : list bool) : nat :=
  match l with
  | [] => O
  | b :: l' => ((if b then 1 else 0) + count_true l')%nat
  end.

Definition neighbours_visited (maze : Maze F) (visited : list bool) (x y : Z) : Prop :=
  forall d, d ∈ directions ->
    in_grid maze (x + dir_dx d) (y + dir_dy d) ->
    visited_at maze visited (x + dir_dx d) (y + dir_dy d) = true.

(** The invariant of the loop of [Maze_Generate] on a [w] by [h] grid.
    [rank] is the order in which the cells were visited. *)
Record gen_inv (w h : Z) (st : GenState F) (rank : Z * Z -> nat) : Prop := {
  gi_width : width (gs_maze st) = w;
  gi_height : height (gs_maze st) = h;
  gi_cells_len : length (cells (gs_maze st)) = Z.to_nat (w * h);
  gi_visited_len : length (gs_visited st) = Z.to_nat (w * h);
  gi_range : forall x y, in_grid (gs_maze st) x y ->
      0 <= aget (cells (gs_maze st)) (CellIndex (gs_maze st) x y) <= 15;
  gi_fresh : forall x y, in_grid (gs_maze st) x y ->
      visited_at (gs_maze st) (gs_visited st) x y = false ->
      aget (cells (gs_maze st)) (CellIndex (gs_maze st) x y) = MAZE_ALL;
  gi_agree : forall x y d, d ∈ directions ->
      in_grid (gs_maze st) x y ->
      in_grid (gs_maze st) (x + dir_dx d) (y + dir_dy d) ->
      Maze_HasWall (gs_maze st) x y d
      = Maze_HasWall (gs_maze st) (x + dir_dx d) (y + dir_dy d) (opposite d);
  gi_stack : forall x y, (x, y) ∈ gs_stack st ->
      in_grid (gs_maze st) x y /\ visited_at (gs_maze st) (gs_visited st) x y = true;
  gi_done : forall x y, in_grid (gs_maze st) x y ->
      visited_at (gs_maze st) (gs_visited st) x y = true ->
      (x, y) ∉ gs_stack st ->
      neighbours_visited (gs_maze st) (gs_visited st) x y;
  gi_count : (open_passages (gs_maze st) + 1)%nat = count_true (gs_visited st);
  gi_reach : forall x y, in_grid (gs_maze st) x y ->
      visited_at (gs_maze st) (gs_visited st) x y = true ->
      rtc (passage (gs_maze st)) (0, 0) (x, y);
  gi_rank_bound : forall x y, in_grid (gs_maze st) x y ->
      visited_at (gs_maze st) (gs_visited st) x y = true ->
      (rank (x, y) < count_true (gs_visited st))%nat;
  gi_rank_inj : forall c c', passage (gs_maze st) c c' -> rank c <> rank c';
  gi_parent : forall c c1 c2,
      passage (gs_maze st) c c1 -> passage (gs_maze st) c c2 ->
      (rank c1 < rank c)%nat -> (rank c2 < rank c)%nat -> c1 = c2;
  gi_origin : in_grid (gs_maze st) 0 0 /\
      visited_at (gs_maze st) (gs_visited st) 0 0 = true
}.

(** What an iteration of the loop does when a neighbour is found. *)
Definition carved_cells (maze : Maze F) (x y d : Z) : list Z :=
  let currIdx := CellIndex maze x y in
  let nextIdx := CellIndex maze (x + dir_dx d) (y + dir_dy d) in
  let c1 := aset (cells maze) currIdx
              (to_uchar (Z.land (aget (cells maze) currIdx) (Z.lnot d))) in
  aset c1 nextIdx (to_uchar (Z.land (aget c1 nextIdx) (Z.lnot (opposite d)))).

Definition carve_state (st : GenState F) (x y : Z) (below : list (Z * Z))
  (d : Z) (rng : nat) : GenState F :=
  {| gs_maze := set_cells (gs_maze st) (carved_cells (gs_maze st) x y d);
     gs_visited := aset (gs_visited st)
                     (CellIndex (gs_maze st) (x + dir_dx d) (y + dir_dy d)) true;
     gs_stack := (x + dir_dx d, y + dir_dy d) :: (x, y) :: below;
     gs_rng := rng |}.

(** What it does when there is none. *)
Definition pop_state (st : GenState F) (below : list (Z * Z)) (rng : nat)
  : GenState F :=
  {| gs_maze := gs_maze st;
     gs_visited := gs_visited st;
     gs_stack := below;
     gs_rng := rng |}.

(** The number of iterations the loop still has to run is at most this. *)
Definition gen_measure (w h : Z) (st : GenState F) : nat :=
  (2 * (Z.to_nat (w * h) - count_true (gs_visited st)) + length (gs_stack st))%nat.

End MazeSpec.

(** ** Concrete inputs *)

(** A stream for [rand()]: a linear congruential generator read by position. *)
Definition demo_rand (n : nat) : Z :=
  ((Z.of_nat n * 1103515245 + 12345) / 65536) mod 32768.

(** The maze [Maze_Create(3, 2, 3.0f)] returns, in binary32. *)
Definition demo_maze : Maze spec_float :=
  {| width := 3;
     height := 2;
     cells := replicate 6 MAZE_ALL;
     cellSize := f_lit 3 1;
     startPos := mkVector2 (f_of_int 0) (f_of_int 0);
     exitPos := mkVector2 (f_of_int 2) (f_of_int 1) |}.

(** The maze of the game, [Maze_Create(MAZE_WIDTH, MAZE_HEIGHT, CELL_SIZE)],
    in binary32. *)
Definition game_maze : Maze spec_float :=
  {| width := 15;
     height := 15;
     cells := replicate 225 MAZE_ALL;
     cellSize := f_lit 3 1;
     startPos := mkVector2 (f_of_int 0) (f_of_int 0);
     exitPos := mkVector2 (f_of_int 14) (f_of_int 14) |}.

(** A single row of 8388610 cells of size 1, in binary32. *)
Definition wide_maze : Maze spec_float :=
  {| width := 8388610;
     height := 1;
     cells := replicate (Z.to_nat (8388610 * 1)) MAZE_ALL;
     cellSize := f_lit 1 1;
     startPos := mkVector2 (f_of_int 0) (f_of_int 0);
     exitPos := mkVector2 (f_of_int (8388610 - 1)) (f_of_int (1 - 1)) |}.

(** The round trip from a cell to the world and back. *)
Definition round_trip {F : Type} `{CFloat F} (maze : Maze F) (x y : Z) : Z * Z :=
  let p := Maze_CellToWorld maze x y in
  Maze_WorldToCell maze (vx p) (vy p).

(** The round trip holds on every cell of a maze (a decidable check). *)
Definition round_trip_all {F : Type} `{CFloat F} (maze : Maze F) : bool :=
  forallb (fun y =>
    forallb (fun x =>
      let '(cx, cy) := round_trip maze x y in (cx =? x) && (cy =? y))
      (seqZ 0 (width maze)))
    (seqZ 0 (height maze)).

(** ** Wall rectangles, as the design states them *)

Section RectSpec.
Context {F : Type} `{CFloat F}.

(** The sides of the cell [(x, y)] that get a rectangle: North and West when
    walled, East in the last column and South in the last row when walled. *)
Definition emitted_at (maze : Maze F) (x y : Z) : list Z :=
  (if Maze_HasWall maze x y MAZE_NORTH then [MAZE_NORTH] else []) ++
  (if Maze_HasWall maze x y MAZE_WEST then [MAZE_WEST] else []) ++
  (if (x =? width maze - 1) && Maze_HasWall maze x y MAZE_EAST
   then [MAZE_EAST] else []) ++
  (if (y =? height maze - 1) && Maze_HasWall maze x y MAZE_SOUTH
   then [MAZE_SOUTH] else []).

(** All of them, in cell order. *)
Definition emitted_walls (maze : Maze F) : list (Z * Z * Z) :=
  y ← seqZ 0 (height maze); x ← seqZ 0 (width maze);
  (fun d => (x, y, d)) <$> emitted_at maze x y.

Definition rect_of (maze : Maze F) (k : Z * Z * Z) : WallRect F :=
  let '(x, y, d) := k in
  if d =? MAZE_NORTH then northRect maze x y
  else if d =? MAZE_WEST then westRect maze x y
  else if d =? MAZE_EAST then eastRect maze x y
  else southRect maze x y.

Definition cell_rects (maze : Maze F) (x y : Z) : list (WallRect F) :=
  rect_of maze <$> ((fun d => (x, y, d)) <$> emitted_at maze x y).

End RectSpec.

(** The side [d] of the cell [(x, y)] as a segment of the plane, in exact
    arithmetic: the cell is the square of side [cellSize] whose north-west
    corner is [((x - width/2) * cellSize, (y - height/2) * cellSize)]. *)
Definition wall_segment (maze : Maze Q) (x y d : Z) : (Q * Q) * (Q * Q) :=
  let cs := cellSize maze in
  let X0 := ((inject_Z x - inject_Z (width maze) * (1 # 2)) * cs)%Q in
  let Z0 := ((inject_Z y - inject_Z (height maze) * (1 # 2)) * cs)%Q in
  if d =? MAZE_NORTH then ((X0, Z0), ((X0 + cs)%Q, Z0))
  else if d =? MAZE_WEST then ((X0, Z0), (X0, (Z0 + cs)%Q))
  else if d =? MAZE_EAST then (((X0 + cs)%Q, Z0), ((X0 + cs)%Q, (Z0 + cs)%Q))
  else ((X0, (Z0 + cs)%Q), ((X0 + cs)%Q, (Z0 + cs)%Q)).

(** The rectangle [r] is the segment [seg] grown by [t] on all four sides. *)
Definition grown_by (r : Rectangle Q) (seg : (Q * Q) * (Q * Q)) (t : Q) : Prop :=
  (rx r == fst (fst seg) - t)%Q /\
  (ry r == snd (fst seg) - t)%Q /\
  (rx r + rwidth r == fst (snd seg) + t)%Q /\
  (ry r + rheight r == snd (snd seg) + t)%Q.

(** The corner [(i, j)] of the grid, [i] cells east and [j] cells south of
    the north-west corner of the maze, in exact arithmetic. *)
Definition grid_corner (maze : Maze Q) (i j : Z) : Q * Q :=
  (((inject_Z i - inject_Z (width maze) * (1 # 2)) * cellSize maze)%Q,
   ((inject_Z j - inject_Z (height maze) * (1 # 2)) * cellSize maze)%Q).

(** The point [(a, b)] lies on the segment [seg]. *)
Definition on_segment (seg : (Q * Q) * (Q * Q)) (a b : Q) : Prop :=
  (fst (fst seg) <= a <= fst (snd seg))%Q /\
  (snd (fst seg) <= b <= snd (snd seg))%Q.

(** The point [(u, v)] lies in the rectangle [r]. *)
Definition in_rect (r : Rectangle Q) (u v : Q) : Prop :=
  (rx r <= u <= rx r + rwidth r)%Q /\ (ry r <= v <= ry r + rheight r)%Q.

(** Two rectangles with the same position and size. *)
Definition same_rect (r1 r2 : Rectangle Q) : Prop :=
  (rx r1 == rx r2)%Q /\ (ry r1 == ry r2)%Q /\
  (rwidth r1 == rwidth r2)%Q /\ (rheight r1 == rheight r2)%Q.

(** A fresh maze of two cells in a row, in binary32. *)
Definition pair_maze : Maze spec_float :=
  {| width := 2;
     height := 1;
     cells := replicate 2 MAZE_ALL;
     cellSize := f_lit 3 1;
     startPos := mkVector2 (f_of_int 0) (f_of_int 0);
     exitPos := mkVector2 (f_of_int 1) (f_of_int 0) |}.

(** ** Particle pool *)

Section ParticleSpec.
Context {F : Type} `{CFloat F}.

(** The test [life <= 0.0f] that removes a particle. *)
Definition expired (p : Particle F) : bool := fleb (life p) (f_lit 0 1).

(** The pool is within its capacity and its array has [maxParticles] slots. *)
Definition pool_ok (ps : ParticleSystem F) : Prop :=
  0 <= activeParticles ps <= maxParticles ps /\
  length (particles ps) = Z.to_nat (maxParticles ps).

(** No particle of the active set has [life <= 0]. *)
Definition all_alive (parts : list (Particle F)) (active : Z) : Prop :=
  forall j, 0 <= j < active -> expired (aget parts j) = false.

End ParticleSpec.

Section ParticleSetSpec.
Context {F : Type} `{CFloat F}.

(** The active set: the first [activeParticles] slots of the array. *)
Definition active_set (ps : ParticleSystem F) : list (Particle F) :=
  take (Z.to_nat (activeParticles ps)) (particles ps).

(** The particles of [l] after a step of [dt], without those whose life has
    run out. *)
Definition survivors (dt : F) (l : list (Particle F)) : list (Particle F) :=
  filter (fun p => expired p = false) ((fun p => age_particle p dt) <$> l).

End ParticleSetSpec.

(** A pool of capacity 20 as [ParticleSystem_Create] returns it, in binary32,
    and two frames for it. *)
Definition demo_pool : ParticleSystem spec_float :=
  {| particles := replicate 20 inhabitant;
     maxParticles := 20;
     activeParticles := 0;
     emitterPos := mkVector3 (f_of_int 0) (f_of_int 0) (f_of_int 0);
     emitRate := f_lit 15 1;
     emitAccumulator := f_lit 0 1 |}.

Definition demo_frames : list (Vector3 spec_float * spec_float) :=
  [(mkVector3 (f_lit 1 1) (f_lit 2 1) (f_lit 3 1), f_lit 1 2);
   (mkVector3 (f_lit 1 1) (f_lit 2 1) (f_lit 3 1), f_lit 3 4)].

(** ** Movement, chase and spawn placement *)

Section GameSpec.
Context {F : Type} `{CFloat F}.

Variable rand_src : nat -> Z.
Variable sqrtf : F -> F.
Variable cosf : F -> F.
Variable sinf : F -> F.
Variable RAND_MAX : Z.

(** The circle [(c, r)] touches one of the first [count] rectangles. *)
Definition blocked (c : Vector2 F) (r : F) (walls : list (WallRect F)) (count : Z)
  : Prop :=
  exists k, 0 <= k < count /\ CircleRectIntersect c r (rect (aget walls k)) = true.

(** Every character of a list steered in turn, with no capture test: for
    each the value of [charPos] and the character as stored back. *)
Fixpoint steer_all (chars : list (ScaryCharacter F)) (playerPos2D : Vector2 F)
  (dt : F) (walls : list (WallRect F)) (wallCount : Z) (rng : nat)
  : list (Vector2 F * ScaryCharacter F) * nat :=
  match chars with
  | [] => ([], rng)
  | ch :: rest =>
      let '(charPos, ch', rng1) :=
        steer_char rand_src sqrtf cosf sinf RAND_MAX ch playerPos2D dt walls wallCount rng in
      let '(l, rng2) := steer_all rest playerPos2D dt walls wallCount rng1 in
      ((charPos, ch') :: l, rng2)
  end.

(** The capture test of the chase block on a steered character. *)
Definition captured (playerPos2D : Vector2 F) (m : Vector2 F * ScaryCharacter F)
  : Prop :=
  CircleCircleIntersect playerPos2D PLAYER_RADIUS m.1 (sc_radius m.2) = true.

#[export] Instance captured_dec (playerPos2D : Vector2 F)
  (m : Vector2 F * ScaryCharacter F) : Decision (captured playerPos2D m).
Proof. unfold captured. apply _. Defined.

(** The [k]-th random cell drawn from position [rng] of the stream. *)
Definition pick (maze : Maze F) (rng : nat) (k : nat) : Z * Z :=
  (Z.rem (rand_src (rng + 2 * k)) (width maze),
   Z.rem (rand_src (rng + 2 * k + 1)) (height maze)).

(** The distance test of the second loop. *)
Definition relaxed_ok (maze : Maze F) (playerStartWorld : Vector2 F) (c : Z * Z)
  : bool :=
  fleb RELAXED_DISTANCE (distFromPlayer sqrtf maze playerStartWorld c.1 c.2).

(** How [place_cell] came to the cell [c], leaving the stream at [rng']. *)
Inductive placed (maze : Maze F) (scaryChars : list (ScaryCharacter F)) (i : Z)
  (playerStartWorld : Vector2 F) (rng : nat) (c : Z * Z) (rng' : nat) : Prop :=
  | placed_strict (k : nat) :
      (k < 200)%nat ->
      (forall j, (j < k)%nat ->
         strict_ok sqrtf maze scaryChars i playerStartWorld
                   (pick maze rng j).1 (pick maze rng j).2 = false) ->
      strict_ok sqrtf maze scaryChars i playerStartWorld c.1 c.2 = true ->
      c = pick maze rng k ->
      rng' = (rng + 2 * (k + 1))%nat ->
      placed maze scaryChars i playerStartWorld rng c rng'
  | placed_relaxed (k : nat) :
      (k < 50)%nat ->
      (forall j, (j < 200)%nat ->
         strict_ok sqrtf maze scaryChars i playerStartWorld
                   (pick maze rng j).1 (pick maze rng j).2 = false) ->
      (forall j, (j < k)%nat ->
         relaxed_ok maze playerStartWorld (pick maze rng (200 + j)) = false) ->
      relaxed_ok maze playerStartWorld c = true ->
      c = pick maze rng (200 + k) ->
      rng' = (rng + 2 * (200 + k + 1))%nat ->
      placed maze scaryChars i playerStartWorld rng c rng'
  | placed_anywhere :
      (forall j, (j < 200)%nat ->
         strict_ok sqrtf maze scaryChars i playerStartWorld
                   (pick maze rng j).1 (pick maze rng j).2 = false) ->
      (forall j, (j < 50)%nat ->
         relaxed_ok maze playerStartWorld (pick maze rng (200 + j)) = false) ->
      c = pick maze rng 250 ->
      rng' = (rng + 502)%nat ->
      placed maze scaryChars i playerStartWorld rng c rng'.

End GameSpec.

(** The scene of the sliding scenario, in binary32: one wall rectangle
    spanning x in [0.5, 1.5] and z in [-1, 1]. *)
Definition slide_walls : list (WallRect spec_float) :=
  [mkWallRect (mkRectangle (f_lit 1 2) (f_lit (-1) 1) (f_lit 1 1) (f_lit 2 1)) true].

(** Three characters for the chase: the second stands on the player. *)
Definition demo_chars : list (ScaryCharacter spec_float) :=
  [mkScaryCharacter (mkVector3 (f_lit 9 1) (f_lit 0 1) (f_lit 9 1))
                    (f_lit 28 10) (f_lit 35 100) (f_lit 22 10);
   mkScaryCharacter (mkVector3 (f_lit 0 1) (f_lit 0 1) (f_lit 0 1))
                    (f_lit 28 10) (f_lit 35 100) (f_lit 22 10);
   mkScaryCharacter (mkVector3 (f_lit (-9) 1) (f_lit 0 1) (f_lit 9 1))
                    (f_lit 28 10) (f_lit 35 100) (f_lit 22 10)].

(** Stand-ins for [cosf] and [sinf] in concrete runs; the theorems hold for
    any two functions. *)
Definition demo_cosf (x : spec_float) : spec_float := f_lit 1 1.
Definition demo_sinf (x : spec_float) : spec_float := f_lit 0 1.

(** * Further vocabulary for [Maze_Generate] *)

Section GenerateMore.
Context {F : Type} `{CFloat F}.

(** What the loop of [Maze_Generate] keeps besides [gen_inv], on a [w] by
    [h] grid: the sides that face out of the grid stay walled, the stack is
    no longer than the number of visited cells, the position in the
    random stream together with three draws for each iteration still to run
    is the constant [total], and every visit removes one rectangle from the
    list [Maze_GetWallRects] would write. *)
Record gen_more (w h : Z) (total : nat) (st : GenState F) : Prop := {
  gm_boundary : forall x y d, d ∈ directions ->
      in_grid (gs_maze st) x y ->
      ~ in_grid (gs_maze st) (x + dir_dx d) (y + dir_dy d) ->
      Maze_HasWall (gs_maze st) x y d = true;
  gm_stack : (length (gs_stack st) <= count_true (gs_visited st))%nat;
  gm_rng : (gs_rng st + 3 * gen_measure w h st = total)%nat;
  gm_walls : Z.of_nat (length (emitted_walls (gs_maze st)))
             + Z.of_nat (count_true (gs_visited st))
             = 2 * (w * h) + w + h + 1
}.

End GenerateMore.

(** * Further vocabulary for the collision code *)

Section CollideMore.
Context {F : Type} `{CFloat F}.

(** The circle of a scary character in the XZ plane, as the chase block
    builds it: [(Vector2){position.x, position.z}]. *)
Definition char_pos2d (ch : ScaryCharacter F) : Vector2 F :=
  mkVector2 (px (sc_position ch)) (pz (sc_position ch)).

(** The character touches none of the first [wallCount] rectangles. *)
Definition char_clear (walls : list (WallRect F)) (wallCount : Z)
  (ch : ScaryCharacter F) : Prop :=
  CollidesAny (char_pos2d ch) (sc_radius ch) walls wallCount = false.

End CollideMore.

(** ** Cell centres against wall rectangles *)

(** The centre of every cell, and the rectangle of every side of every
    cell, walled or not. *)
Definition all_centres {F : Type} `{CFloat F} (maze : Maze F) : list (Vector2 F) :=
  y ← seqZ 0 (height maze); x ← seqZ 0 (width maze); [Maze_CellToWorld maze x y].

Definition all_rects {F : Type} `{CFloat F} (maze : Maze F) : list (Rectangle F) :=
  y ← seqZ 0 (height maze); x ← seqZ 0 (width maze); d ← directions;
  [rect (rect_of maze (x, y, d))].

(** No circle of radius [r] on a point of [centres] touches a rectangle of
    [rects] (a decidable check). *)
Definition clear_check {F : Type} `{CFloat F} (centres : list (Vector2 F)) (r : F)
  (rects : list (Rectangle F)) : bool :=
  forallb (fun c => forallb (fun rc => negb (CircleRectIntersect c r rc)) rects)
          centres.

(** ** Corners of the grid against wall rectangles *)

(** The point [(a, b)] is in the rectangle [r], as a test on floats. *)
Definition rect_has_point {F : Type} `{CFloat F} (r : Rectangle F) (a b : F) : bool :=
  (rx r <=? a)%F && (a <=? rx r + rwidth r)%F
  && (ry r <=? b)%F && (b <=? ry r + rheight r)%F.

(** The corner [(i, j)] of the grid, computed as the cell centres are. *)
Definition corner_point {F : Type} `{CFloat F} (maze : Maze F) (i j : Z) : F * F :=
  (((f_of_int i - f_of_int (width maze) * f_lit 1 2) * cellSize maze)%F,
   ((f_of_int j - f_of_int (height maze) * f_lit 1 2) * cellSize maze)%F).

(** The rectangle of the side [d] of the cell [(x, y)] holds the corner
    [(i, j)]. *)
Definition side_has_corner {F : Type} `{CFloat F} (maze : Maze F) (x y d i j : Z)
  : bool :=
  rect_has_point (rect (rect_of maze (x, y, d)))
                 (fst (corner_point maze i j)) (snd (corner_point maze i j)).

(** The rectangle of every side of the cell [(x, y)] holds the two corners
    the side runs between. *)
Definition cell_corners_covered {F : Type} `{CFloat F} (maze : Maze F) (x y : Z)
  : bool :=
  side_has_corner maze x y MAZE_NORTH x y
  && side_has_corner maze x y MAZE_NORTH (x + 1) y
  && side_has_corner maze x y MAZE_WEST x y
  && side_has_corner maze x y MAZE_WEST x (y + 1)
  && side_has_corner maze x y MAZE_EAST (x + 1) y
  && side_has_corner maze x y MAZE_EAST (x + 1) (y + 1)
  && side_has_corner maze x y MAZE_SOUTH x (y + 1)
  && side_has_corner maze x y MAZE_SOUTH (x + 1) (y + 1).

(** The same for every cell of the maze (a decidable check). *)
Definition corners_covered {F : Type} `{CFloat F} (maze : Maze F) : bool :=
  forallb (fun y => forallb (fun x => cell_corners_covered maze x y)
                            (seqZ 0 (width maze)))
          (seqZ 0 (height maze)).

(** ** The distance test of the spawn placement *)


(** * More of [main]: the win block and the timer display *)

Section MainMore.
Context {F : Type} `{CFloat F}.

(** The block [if (Maze_IsExit(maze, cellX, cellY)) { ... }] that ends a
    frame of the playing state: the new [gameState], the new [bestRecord],
    and the value passed to [SaveBestRecord] if it is called. *)
Definition win_block (maze : Maze F) (playerPos : Vector3 F) (gameState : GameState)
  (bestRecord gameTimer : F) : GameState * F * option F :=
  let '(cellX, cellY) := Maze_WorldToCell maze (px playerPos) (pz playerPos) in
  if Maze_IsExit maze cellX cellY then
    if (bestRecord <? f_lit 0 1)%F || (gameTimer <? bestRecord)%F
    then (GAME_STATE_WON, gameTimer, Some gameTimer)
    else (GAME_STATE_WON, bestRecord, None)
  else (gameState, bestRecord, None).

(** [bestRecord] after the games won with the timers [timers], in order. *)
Fixpoint record_after (timers : list F) (bestRecord : F) : F :=
  match timers with
  | [] => bestRecord
  | gameTimer :: rest =>
      record_after rest
        (if (bestRecord <? f_lit 0 1)%F || (gameTimer <? bestRecord)%F
         then gameTimer else bestRecord)
  end.

(** The three numbers of the timer display [%02d:%02d.%02d]:
    [minutes], [seconds] and the one the source calls [milliseconds]. *)
Definition timer_display (gameTimer : F) : Z * Z * Z :=
  let minutes := f_to_int (gameTimer / f_lit 60 1)%F in
  let seconds := Z.rem (f_to_int gameTimer) 60 in
  let milliseconds :=
    f_to_int ((gameTimer - f_of_int (f_to_int gameTimer)) * f_lit 100 1)%F in
  (minutes, seconds, milliseconds).

End MainMore.

Section FrameEnd.
Context {F : Type} `{CFloat F}.

Variable rand_src : nat -> Z.
Variables sqrtf cosf sinf : F -> F.
Variable RAND_MAX : Z.

(** The end of the block [if (gameState == GAME_STATE_PLAYING) { ... }] of a
    frame, from the position [playerPos] the movement code of the block has
    reached: the chase block, then the exit test with the record update.
    The result is the characters, the state, the best record, the value
    passed to [SaveBestRecord] if it is called, and the position in the
    stream. *)
Definition frame_end (maze : Maze F) (scaryChars : list (ScaryCharacter F))
  (gameState : GameState) (playerPos : Vector3 F) (dt : F)
  (walls : list (WallRect F)) (wallCount : Z) (bestRecord gameTimer : F) (rng : nat)
  : list (ScaryCharacter F) * GameState * F * option F * nat :=
  match gameState with
  | GAME_STATE_PLAYING =>
      let '(scaryChars, gameState, rng) :=
        update_scary_chars rand_src sqrtf cosf sinf RAND_MAX scaryChars gameState
          (mkVector2 (px playerPos) (pz playerPos)) dt walls wallCount rng in
      let '(gameState, bestRecord, saved) :=
        win_block maze playerPos gameState bestRecord gameTimer in
      (scaryChars, gameState, bestRecord, saved, rng)
  | _ => (scaryChars, gameState, bestRecord, None, rng)
  end.

End FrameEnd.

(** * More of [src/assets.c] *)

(** ** Emission and rendering of particles *)

Section ParticleMore.
Context {F : Type} `{CFloat F}.

Variable rand_src : nat -> Z.

(** The number [toEmit] that [ParticleSystem_Update] computes from the
    accumulator for a frame of [dt]. *)
Definition toEmit_of (ps : ParticleSystem F) (dt : F) : Z :=
  f_to_int (emitAccumulator ps + emitRate ps * dt)%F.

(** The sum of the values of [toEmit] over a run of calls of
    [ParticleSystem_Update]. *)
Fixpoint requested (frames : list (Vector3 F * F)) (ps : ParticleSystem F)
  (rng : nat) : Z :=
  match frames with
  | [] => 0
  | (pos, dt) :: rest =>
      let '(ps', rng') := ParticleSystem_Update rand_src ps pos dt rng in
      toEmit_of ps dt + requested rest ps' rng'
  end.

(** The value [alpha * 255.0f] that [ParticleSystem_Render] converts to
    [unsigned char] for the colour of a particle, with
    [alpha = p->life / p->maxLife]. *)
Definition render_alpha (p : Particle F) : F :=
  (life p / maxLife p * f_lit 255 1)%F.

End ParticleMore.

(** The time a run of frames takes. *)
Definition elapsed (frames : list (Vector3 Q * Q)) : Q :=
  foldr (fun f acc => (snd f + acc)%Q) 0%Q frames.

(** ** Torches *)

(** How a call that may write through a null pointer ends: it returns [v],
    or it makes the write, after which the C standard promises nothing. *)
Inductive run (A : Type) : Type :=
  | Returns (v : A)
  | NullWrite.

Arguments Returns {A}.
Arguments NullWrite {A}.

Record Torch (F : Type) := mkTorch {
  t_position : Vector3 F;
  t_normal : Vector3 F;
  flickerTime : F;
  baseIntensity : F
}.

Arguments mkTorch {F}.
Arguments t_position {F}.
Arguments t_normal {F}.
Arguments flickerTime {F}.
Arguments baseIntensity {F}.

(** The local type [WallPos] of [Torches_Generate]. *)
Record WallPos (F : Type) := mkWallPos {
  wp_x : Z;
  wp_y : Z;
  wp_direction : Z;
  worldX : F;
  worldZ : F
}.

Arguments mkWallPos {F}.
Arguments wp_x {F}.
Arguments wp_y {F}.
Arguments wp_direction {F}.
Arguments worldX {F}.
Arguments worldZ {F}.

Section TorchCode.
Context {F : Type} `{CFloat F}.

Variable rand_src : nat -> Z.
Variable sinf : F -> F.
Variable RAND_MAX : Z.

#[export] Instance WallPos_inhabited : Inhabited (WallPos F) :=
  populate (mkWallPos 0 0 0 (f_of_int 0) (f_of_int 0)).

#[export] Instance Torch_inhabited : Inhabited (Torch F) :=
  populate (mkTorch (mkVector3 (f_of_int 0) (f_of_int 0) (f_of_int 0))
                    (mkVector3 (f_of_int 0) (f_of_int 0) (f_of_int 0))
                    (f_of_int 0) (f_of_int 0)).

Definition torchHeight : F := f_lit 2 1.
Definition wallOffset : F := f_lit 11 100.
Definition torchPlacementChance : F := f_lit 8 100.

(** The body of the two collecting loops for the cell [(x, y)]: [walls]
    holds [walls[0 .. wallCount-1]] and [walls[wallCount++] = p] appends
    [p].  The locals [worldX], [worldZ] and [halfCell] have the values of
    [cellCenterX], [cellCenterZ] and [halfCell] of [Maze_GetWallRects]. *)
Definition collect_cell (maze : Maze F) (x y : Z) (walls : list (WallPos F))
  : list (WallPos F) :=
  let wX := ((f_of_int x - f_of_int (width maze) * f_lit 1 2 + f_lit 1 2)
             * cellSize maze)%F in
  let wZ := ((f_of_int y - f_of_int (height maze) * f_lit 1 2 + f_lit 1 2)
             * cellSize maze)%F in
  let halfCell := (cellSize maze * f_lit 1 2)%F in
  let walls :=
    if Maze_HasWall maze x y MAZE_NORTH
    then walls ++ [mkWallPos x y 0 wX (wZ - halfCell)%F] else walls in
  let walls :=
    if Maze_HasWall maze x y MAZE_SOUTH
    then walls ++ [mkWallPos x y 1 wX (wZ + halfCell)%F] else walls in
  let walls :=
    if Maze_HasWall maze x y MAZE_WEST
    then walls ++ [mkWallPos x y 2 (wX - halfCell)%F wZ] else walls in
  let walls :=
    if Maze_HasWall maze x y MAZE_EAST
    then walls ++ [mkWallPos x y 3 (wX + halfCell)%F wZ] else walls in
  walls.

(** [for (x = ...; x < maze->width; x++)], [n] iterations left. *)
Fixpoint collect_row (n : nat) (x : Z) (maze : Maze F) (y : Z)
  (walls : list (WallPos F)) : list (WallPos F) :=
  match n with
  | O => walls
  | S n' =>
      if x <? width maze
      then collect_row n' (x + 1) maze y (collect_cell maze x y walls)
      else walls
  end.

(** [for (y = ...; y < maze->height; y++)], [n] iterations left. *)
Fixpoint collect_rows (n : nat) (y : Z) (maze : Maze F)
  (walls : list (WallPos F)) : list (WallPos F) :=
  match n with
  | O => walls
  | S n' =>
      if y <? height maze
      then collect_rows n' (y + 1) maze
             (collect_row (Z.to_nat (width maze)) 0 maze y walls)
      else walls
  end.

(** The torch written to [( *outTorches)[count]] for the wall [wall], after
    the draw that decided to place it: three more draws.  [junk] is the
    indeterminate content of the slot, which the [switch] leaves in place
    for a direction other than 0 to 3. *)
Definition place_torch (maze : Maze F) (wall : WallPos F) (junk : Torch F)
  (rng : nat) : Torch F * nat :=
  let halfCell := (cellSize maze * f_lit 1 2)%F in
  let randomOffset :=
    (f_of_int (rand_src rng) / f_of_int RAND_MAX * (cellSize maze - f_lit 1 2)
     + f_lit 1 4)%F in
  let rng := S rng in
  let '(position, normal) :=
    if wp_direction wall =? 0 then
      (mkVector3 (worldX wall - halfCell + randomOffset)%F torchHeight
                 (worldZ wall - wallOffset)%F,
       mkVector3 (f_of_int 0) (f_of_int 0) (f_of_int 1))
    else if wp_direction wall =? 1 then
      (mkVector3 (worldX wall - halfCell + randomOffset)%F torchHeight
                 (worldZ wall + wallOffset)%F,
       mkVector3 (f_of_int 0) (f_of_int 0) (f_of_int (-1)))
    else if wp_direction wall =? 2 then
      (mkVector3 (worldX wall - wallOffset)%F torchHeight
                 (worldZ wall - halfCell + randomOffset)%F,
       mkVector3 (f_of_int 1) (f_of_int 0) (f_of_int 0))
    else if wp_direction wall =? 3 then
      (mkVector3 (worldX wall + wallOffset)%F torchHeight
                 (worldZ wall - halfCell + randomOffset)%F,
       mkVector3 (f_of_int (-1)) (f_of_int 0) (f_of_int 0))
    else (t_position junk, t_normal junk) in
  let flicker :=
    (f_of_int (Z.rem (rand_src rng) 1000) / f_lit 1000 1 * f_lit 628 100)%F in
  let rng := S rng in
  let base := (f_lit 6 10 + f_of_int (Z.rem (rand_src rng) 30) / f_lit 100 1)%F in
  (mkTorch position normal flicker base, S rng).

(** [for (i = ...; i < wallCount && count < maxTorches; i++)], [n]
    iterations left; [out] holds the [count] torches written so far. *)
Fixpoint torches_from (n : nat) (i : Z) (maze : Maze F) (walls : list (WallPos F))
  (wallCount maxTorches : Z) (junk : Torch F) (out : list (Torch F)) (rng : nat)
  : list (Torch F) * nat :=
  match n with
  | O => (out, rng)
  | S n' =>
      if (i <? wallCount) && (Z.of_nat (length out) <? maxTorches) then
        if (f_of_int (rand_src rng) / f_of_int RAND_MAX <? torchPlacementChance)%F
        then
          let '(t, rng') := place_torch maze (aget walls i) junk (S rng) in
          torches_from n' (i + 1) maze walls wallCount maxTorches junk
            (out ++ [t]) rng'
        else
          torches_from n' (i + 1) maze walls wallCount maxTorches junk out (S rng)
      else (out, rng)
  end.

(** The torches written, in order, and the position reached in the stream;
    the C result [count] is the length of the list.  [ok_torches] and
    [ok_walls] tell whether the allocations of the torches and of the wall
    positions succeeded.  The source tests the first and not the second:
    with a null [walls], [walls[wallCount++] = ...] for the first wall found
    writes through the null pointer.  The block of [walls] has room for
    [width * height * 4] positions, an [int] product; the theorems keep it
    within [INT_MAX]. *)
Definition Torches_Generate (ok_torches ok_walls : bool) (maze : Maze F)
  (maxTorches : Z) (junk : Torch F) (rng : nat) : run (list (Torch F) * nat) :=
  if maxTorches <=? 0 then Returns ([], rng)
  else if negb ok_torches then Returns ([], rng)
  else
    let walls := collect_rows (Z.to_nat (height maze)) 0 maze [] in
    let wallCount := Z.of_nat (length walls) in
    if negb ok_walls && (0 <? wallCount) then NullWrite
    else
      Returns (torches_from (Z.to_nat wallCount) 0 maze walls wallCount maxTorches
                 junk [] rng).

(** The body of the loop of [Torches_Update]. *)
Definition update_torch (t : Torch F) (dt : F) : Torch F :=
  let speed := (f_lit 6 1 + f_lit 4 1 * sinf (flickerTime t * f_lit 1 2))%F in
  let ft := (flickerTime t + dt * speed)%F in
  let ft := if (f_lit 628 100 <? ft)%F then (ft - f_lit 628 100)%F else ft in
  mkTorch (t_position t) (t_normal t) ft (baseIntensity t).

(** [for (i = ...; i < count; i++)], [n] iterations left. *)
Fixpoint torches_update_from (n : nat) (i : Z) (torches : list (Torch F))
  (count : Z) (dt : F) : list (Torch F) :=
  match n with
  | O => torches
  | S n' =>
      if i <? count
      then torches_update_from n' (i + 1)
             (aset torches i (update_torch (aget torches i) dt)) count dt
      else torches
  end.

Definition Torches_Update (torches : list (Torch F)) (count : Z) (dt : F)
  : list (Torch F) :=
  torches_update_from (Z.to_nat count) 0 torches count dt.

End TorchCode.

(** The four normals [Torches_Generate] gives to a torch. *)
Definition axis_normals {F : Type} `{CFloat F} : list (Vector3 F) :=
  [mkVector3 (f_of_int 0) (f_of_int 0) (f_of_int 1);
   mkVector3 (f_of_int 0) (f_of_int 0) (f_of_int (-1));
   mkVector3 (f_of_int 1) (f_of_int 0) (f_of_int 0);
   mkVector3 (f_of_int (-1)) (f_of_int 0) (f_of_int 0)].

(** * [InitGame] *)

(** The variables of [main] that [InitGame] receives by address.  A pointer
    is an [option]: [None] is [NULL]. *)
Record Game (F : Type) := mkGame {
  g_maze : option (Maze F);
  g_walls : option (list (WallRect F));
  g_wallCount : Z;
  g_playerPos : Vector3 F;
  g_yaw : F;
  g_pitch : F;
  g_gameState : GameState;
  g_torches : option (list (Torch F));
  g_torchCount : Z;
  g_particleSystems : option (list (option (ParticleSystem F)));
  g_scaryChars : list (ScaryCharacter F);
  g_gameTimer : F
}.

Arguments mkGame {F}.
Arguments g_maze {F}.
Arguments g_walls {F}.
Arguments g_wallCount {F}.
Arguments g_playerPos {F}.
Arguments g_yaw {F}.
Arguments g_pitch {F}.
Arguments g_gameState {F}.
Arguments g_torches {F}.
Arguments g_torchCount {F}.
Arguments g_particleSystems {F}.
Arguments g_scaryChars {F}.
Arguments g_gameTimer {F}.

(** Whether each allocation of a call of [InitGame] succeeds: the two of
    [Maze_Create], the two of [Maze_Generate], the wall rectangles, the
    torches and the wall positions of [Torches_Generate], the array of
    particle systems, and the two of [ParticleSystem_Create] for the system
    of torch [i]. *)
Record Allocs := mkAllocs {
  al_maze : bool;
  al_cells : bool;
  al_visited : bool;
  al_stack : bool;
  al_walls : bool;
  al_torches : bool;
  al_wallpos : bool;
  al_systems : bool;
  al_system : Z -> bool * bool
}.

Section InitCode.
Context {F : Type} `{CFloat F}.

Variable rand_src : nat -> Z.
Variable sqrtf : F -> F.
Variable RAND_MAX : Z.

(** [for (i = ...; i < *torchCount; i++)
       ( *particleSystems)[i] = ParticleSystem_Create(20);],
    [n] iterations left. *)
Fixpoint create_systems (n : nat) (i : Z) (al : Allocs) (junk : Particle F)
  (systems : list (option (ParticleSystem F))) (torchCount : Z)
  : list (option (ParticleSystem F)) :=
  match n with
  | O => systems
  | S n' =>
      if i <? torchCount
      then create_systems n' (i + 1) al junk
             (aset systems i
                (ParticleSystem_Create (fst (al_system al i)) (snd (al_system al i))
                                       junk 20))
             torchCount
      else systems
  end.

(** [InitGame], from the variables [g] of [main] and the position [rng] in
    the stream to the variables after the call and the position reached.
    The blocks that free the old maze, walls, torches and particle systems
    leave [NULL] in the four pointers.  [junkTorch] and [junkParticle] are
    the indeterminate contents of fresh blocks.  The call ends in
    [NullWrite] when [Torches_Generate] does. *)
Definition InitGame (al : Allocs) (junkTorch : Torch F) (junkParticle : Particle F)
  (g : Game F) (scaryCharCount : Z) (rng : nat) : run (Game F * nat) :=
  match Maze_Create (al_maze al) (al_cells al) MAZE_WIDTH MAZE_HEIGHT CELL_SIZE with
  | None =>
      Returns
        ({| g_maze := None; g_walls := None; g_wallCount := g_wallCount g;
            g_playerPos := g_playerPos g; g_yaw := g_yaw g; g_pitch := g_pitch g;
            g_gameState := g_gameState g;
            g_torches := None; g_torchCount := g_torchCount g;
            g_particleSystems := None;
            g_scaryChars := g_scaryChars g; g_gameTimer := g_gameTimer g |}, rng)
  | Some maze =>
      let '(maze, rng) :=
        Maze_Generate rand_src (al_visited al) (al_stack al) maze rng in
      let maxWalls := MAZE_WIDTH * MAZE_HEIGHT * 4 in
      if negb (al_walls al) then
        Returns
          ({| g_maze := Some maze; g_walls := None; g_wallCount := g_wallCount g;
              g_playerPos := g_playerPos g; g_yaw := g_yaw g; g_pitch := g_pitch g;
              g_gameState := g_gameState g;
              g_torches := None; g_torchCount := g_torchCount g;
              g_particleSystems := None;
              g_scaryChars := g_scaryChars g; g_gameTimer := g_gameTimer g |}, rng)
      else
        let walls := Maze_GetWallRects maze maxWalls in
        let wallCount := Z.of_nat (length walls) in
        let maxTorches := 25 in
        match Torches_Generate rand_src RAND_MAX (al_torches al) (al_wallpos al)
                maze maxTorches junkTorch rng with
        | NullWrite => NullWrite
        | Returns (torches, rng) =>
            let torchCount := Z.of_nat (length torches) in
            let particleSystems :=
              if 0 <? torchCount then
                if al_systems al
                then Some (create_systems (Z.to_nat torchCount) 0 al junkParticle
                             (replicate (Z.to_nat torchCount) None) torchCount)
                else None
              else None in
            let startWorld :=
              Maze_CellToWorld maze (f_to_int (vx (startPos maze)))
                                    (f_to_int (vy (startPos maze))) in
            let playerPos := mkVector3 (vx startWorld) (f_lit 0 1) (vy startWorld) in
            let '(scaryChars, rng) :=
              place_scary_chars rand_src sqrtf maze (g_scaryChars g) scaryCharCount
                rng in
            Returns
              ({| g_maze := Some maze; g_walls := Some walls;
                  g_wallCount := wallCount;
                  g_playerPos := playerPos; g_yaw := f_lit 0 1; g_pitch := f_lit 0 1;
                  g_gameState := GAME_STATE_PLAYING;
                  g_torches := if al_torches al then Some torches else None;
                  g_torchCount := torchCount;
                  g_particleSystems := particleSystems;
                  g_scaryChars := scaryChars; g_gameTimer := f_lit 0 1 |}, rng)
        end
  end.

End InitCode.

(** Every allocation succeeds. *)
Definition all_ok : Allocs :=
  {| al_maze := true; al_cells := true; al_visited := true; al_stack := true;
     al_walls := true; al_torches := true; al_wallpos := true; al_systems := true;
     al_system := fun _ => (true, true) |}.

(** The variables of [main] before its first call of [InitGame], in
    binary32. *)
Definition game_start : Game spec_float :=
  {| g_maze := None; g_walls := None; g_wallCount := 0;
     g_playerPos := mkVector3 (f_lit 0 1) (f_lit 0 1) (f_lit 0 1);
     g_yaw := f_lit 0 1; g_pitch := f_lit 0 1;
     g_gameState := GAME_STATE_PLAYING;
     g_torches := None; g_torchCount := 0;
     g_particleSystems := None;
     g_scaryChars :=
       replicate 3 (mkScaryCharacter (mkVector3 (f_lit 0 1) (f_lit 0 1) (f_lit 0 1))
                                     (f_lit 0 1) (f_lit 0 1) (f_lit 0 1));
     g_gameTimer := f_lit 0 1 |}.

(** * Arrays *)

Lemma aget_aset_eq {A} `{Inhabited A} (a : list A) (i : Z) (v : A) :
  0 <= i < Z.of_nat (length a) -> aget (aset a i v) i = v.
Proof.
  intros Hi. unfold aget, aset.
  apply list_lookup_total_insert_eq. lia.
Qed.

Lemma aget_aset_ne {A} `{Inhabited A} (a : list A) (i j : Z) (v : A) :
  0 <= i -> 0 <= j -> i <> j -> aget (aset a i v) j = aget a j.
Proof.
  intros Hi Hj Hne. unfold aget, aset.
  apply list_lookup_total_insert_ne. lia.
Qed.

Lemma length_aset {A} (a : list A) (i : Z) (v : A) :
  length (aset a i v) = length a.
Proof. apply length_insert. Qed.

Lemma aget_replicate {A} `{Inhabited A} (n : nat) (v : A) (i : Z) :
  0 <= i < Z.of_nat n -> aget (replicate n v) i = v.
Proof.
  intros Hi. unfold aget. apply lookup_total_replicate_2. lia.
Qed.

(** * Cell indices *)

Section CellIndexFacts.
Context {F : Type} `{CFloat F}.
Implicit Types maze : Maze F.

Lemma CellIndex_in maze x y :
  in_grid maze x y -> CellIndex maze x y = y * width maze + x.
Proof.
  intros [Hx Hy]. unfold CellIndex.
  destruct (x <? 0) eqn:E1; [lia|].
  destruct (x >=? width maze) eqn:E2; [lia|].
  destruct (y <? 0) eqn:E3; [lia|].
  destruct (y >=? height maze) eqn:E4; [lia|].
  reflexivity.
Qed.

Lemma CellIndex_out maze x y :
  ~ in_grid maze x y -> CellIndex maze x y = -1.
Proof.
  intros Hn. unfold CellIndex, in_grid in *.
  destruct (x <? 0) eqn:E1; [reflexivity|].
  destruct (x >=? width maze) eqn:E2; [reflexivity|].
  destruct (y <? 0) eqn:E3; [reflexivity|].
  destruct (y >=? height maze) eqn:E4; [reflexivity|].
  lia.
Qed.

Lemma in_grid_dec maze x y : {in_grid maze x y} + {~ in_grid maze x y}.
Proof.
  unfold in_grid.
  destruct (Z_le_dec 0 x), (Z_lt_dec x (width maze)),
           (Z_le_dec 0 y), (Z_lt_dec y (height maze)); (left; lia) || (right; lia).
Qed.

Lemma CellIndex_bounds maze x y :
  in_grid maze x y -> 0 <= CellIndex maze x y < width maze * height maze.
Proof.
  intros Hg. rewrite CellIndex_in by assumption.
  destruct Hg as [Hx Hy]. nia.
Qed.

Lemma CellIndex_inj maze x y x' y' :
  in_grid maze x y -> in_grid maze x' y' ->
  CellIndex maze x y = CellIndex maze x' y' -> x = x' /\ y = y'.
Proof.
  intros Hg Hg' E. rewrite !CellIndex_in in E by assumption.
  destruct Hg as [Hx Hy], Hg' as [Hx' Hy'].
  assert (y = y') by nia. subst y'. lia.
Qed.

Lemma CellIndex_neg_iff maze x y :
  (CellIndex maze x y <? 0) = true <-> ~ in_grid maze x y.
Proof.
  split.
  - intros E Hg. pose proof (CellIndex_bounds _ _ _ Hg). lia.
  - intros Hn. rewrite CellIndex_out by assumption. reflexivity.
Qed.

Lemma CellIndex_set_cells maze cs x y :
  CellIndex (set_cells maze cs) x y = CellIndex maze x y.
Proof. reflexivity. Qed.

End CellIndexFacts.

(** * Wall bits *)

Lemma nibble_cases (c : Z) :
  0 <= c <= 15 ->
  c = 0 \/ c = 1 \/ c = 2 \/ c = 3 \/ c = 4 \/ c = 5 \/ c = 6 \/ c = 7 \/
  c = 8 \/ c = 9 \/ c = 10 \/ c = 11 \/ c = 12 \/ c = 13 \/ c = 14 \/ c = 15.
Proof. lia. Qed.

Lemma direction_cases (d : Z) :
  d ∈ directions ->
  d = MAZE_NORTH \/ d = MAZE_EAST \/ d = MAZE_SOUTH \/ d = MAZE_WEST.
Proof.
  unfold directions. rewrite !elem_of_cons, elem_of_nil. tauto.
Qed.

Lemma direction_elem (d : Z) :
  d = MAZE_NORTH \/ d = MAZE_EAST \/ d = MAZE_SOUTH \/ d = MAZE_WEST ->
  d ∈ directions.
Proof.
  unfold directions. rewrite !elem_of_cons, elem_of_nil. tauto.
Qed.

Ltac each_direction Hd :=
  apply direction_cases in Hd;
  destruct Hd as [Hd | [Hd | [Hd | Hd]]]; rewrite Hd in *; clear Hd.

Ltac each_nibble Hc :=
  apply nibble_cases in Hc;
  repeat (destruct Hc as [Hc | Hc]; [rewrite Hc in *; clear Hc|]);
  [..| rewrite Hc in *; clear Hc].

Lemma clear_bit_range (c d : Z) :
  0 <= c <= 15 -> d ∈ directions ->
  0 <= to_uchar (Z.land c (Z.lnot d)) <= 15.
Proof.
  intros Hc Hd. each_direction Hd; each_nibble Hc; vm_compute; split; discriminate.
Qed.

Lemma clear_bit_spec (c d d' : Z) :
  0 <= c <= 15 -> d ∈ directions -> d' ∈ directions ->
  wall_bit (to_uchar (Z.land c (Z.lnot d))) d' = wall_bit c d' && negb (d' =? d).
Proof.
  intros Hc Hd Hd'. each_direction Hd; each_direction Hd'; each_nibble Hc; reflexivity.
Qed.

Lemma wall_bit_all (d : Z) : d ∈ directions -> wall_bit MAZE_ALL d = true.
Proof. intros Hd. each_direction Hd; reflexivity. Qed.

Lemma opposite_direction (d : Z) : d ∈ directions -> opposite d ∈ directions.
Proof. intros Hd. each_direction Hd; apply direction_elem; vm_compute; tauto. Qed.

Lemma opposite_involutive (d : Z) : d ∈ directions -> opposite (opposite d) = d.
Proof. intros Hd. each_direction Hd; reflexivity. Qed.

Lemma opposite_dx (d : Z) : d ∈ directions -> dir_dx (opposite d) = - dir_dx d.
Proof. intros Hd. each_direction Hd; reflexivity. Qed.

Lemma opposite_dy (d : Z) : d ∈ directions -> dir_dy (opposite d) = - dir_dy d.
Proof. intros Hd. each_direction Hd; reflexivity. Qed.

Lemma opposite_neq (d : Z) : d ∈ directions -> opposite d <> d.
Proof. intros Hd. each_direction Hd; discriminate. Qed.

Lemma direction_step_neq (d : Z) :
  d ∈ directions -> dir_dx d <> 0 \/ dir_dy d <> 0.
Proof. intros Hd. each_direction Hd; vm_compute; (left; discriminate) || (right; discriminate). Qed.

Lemma direction_step_inj (d d' : Z) :
  d ∈ directions -> d' ∈ directions ->
  dir_dx d = dir_dx d' -> dir_dy d = dir_dy d' -> d = d'.
Proof.
  intros Hd Hd'. each_direction Hd; each_direction Hd'; vm_compute; congruence.
Qed.

(** * [GetRandomNeighbor] *)

Section NeighbourFacts.
Context {F : Type} `{CFloat F}.
Implicit Types maze : Maze F.

Variable rand_src : nat -> Z.
Hypothesis rand_nonneg : forall n, 0 <= rand_src n.

Lemma Maze_HasWall_in maze x y d :
  in_grid maze x y ->
  Maze_HasWall maze x y d = wall_bit (aget (cells maze) (CellIndex maze x y)) d.
Proof.
  intros Hg. unfold Maze_HasWall, wall_bit.
  pose proof (CellIndex_bounds _ _ _ Hg).
  destruct (CellIndex maze x y <? 0) eqn:E; [lia | reflexivity].
Qed.

Lemma Maze_HasWall_out maze x y d :
  ~ in_grid maze x y -> Maze_HasWall maze x y d = true.
Proof.
  intros Hn. unfold Maze_HasWall.
  rewrite (proj2 (CellIndex_neg_iff maze x y) Hn). reflexivity.
Qed.

Lemma IsValidUnvisited_spec maze x y visited :
  IsValidUnvisited maze x y visited = true <->
  in_grid maze x y /\ visited_at maze visited x y = false.
Proof.
  unfold IsValidUnvisited, visited_at.
  destruct (in_grid_dec maze x y) as [Hg | Hn].
  - pose proof (CellIndex_bounds _ _ _ Hg).
    destruct (CellIndex maze x y <? 0) eqn:E; [lia|].
    rewrite negb_true_iff. tauto.
  - rewrite (proj2 (CellIndex_neg_iff maze x y) Hn). split; [discriminate | tauto].
Qed.

Lemma small_index_cases (k : Z) :
  0 <= k < 4 -> k = 0 \/ k = 1 \/ k = 2 \/ k = 3.
Proof. lia. Qed.

(** The shuffle keeps the three tables aligned and loses no direction. *)
Lemma shuffle_from_spec rng dirs dx dy rng' :
  shuffle_from rand_src 3 [MAZE_NORTH; MAZE_EAST; MAZE_SOUTH; MAZE_WEST]
               [0; 1; 0; -1] [-1; 0; 1; 0] rng = (dirs, dx, dy, rng') ->
  rng' = (rng + 3)%nat /\
  (forall k, 0 <= k < 4 ->
     aget dirs k ∈ directions /\
     aget dx k = dir_dx (aget dirs k) /\
     aget dy k = dir_dy (aget dirs k)) /\
  (forall d, d ∈ directions -> exists k, 0 <= k < 4 /\ aget dirs k = d).
Proof.
  unfold shuffle_from.
  pose proof (Z.rem_bound_pos (rand_src rng) (Z.of_nat 3 + 1) (rand_nonneg _) eq_refl) as B3.
  pose proof (Z.rem_bound_pos (rand_src (S rng)) (Z.of_nat 2 + 1) (rand_nonneg _) eq_refl) as B2.
  pose proof (Z.rem_bound_pos (rand_src (S (S rng))) (Z.of_nat 1 + 1) (rand_nonneg _) eq_refl) as B1.
  remember (Z.rem (rand_src rng) (Z.of_nat 3 + 1)) as j3 eqn:E3. clear E3.
  remember (Z.rem (rand_src (S rng)) (Z.of_nat 2 + 1)) as j2 eqn:E2. clear E2.
  remember (Z.rem (rand_src (S (S rng))) (Z.of_nat 1 + 1)) as j1 eqn:E1. clear E1.
  change (Z.of_nat 3 + 1) with 4 in B3.
  change (Z.of_nat 2 + 1) with 3 in B2.
  change (Z.of_nat 1 + 1) with 2 in B1.
  assert (C3 : j3 = 0 \/ j3 = 1 \/ j3 = 2 \/ j3 = 3) by lia.
  assert (C2 : j2 = 0 \/ j2 = 1 \/ j2 = 2) by lia.
  assert (C1 : j1 = 0 \/ j1 = 1) by lia.
  clear B1 B2 B3.
  intros E.
  destruct C3 as [-> | [-> | [-> | ->]]];
  destruct C2 as [-> | [-> | ->]];
  destruct C1 as [-> | ->];
  vm_compute in E; injection E as <- <- <- <-;
  (split; [lia |]);
  (split;
   [ intros k Hk; apply small_index_cases in Hk;
     destruct Hk as [-> | [-> | [-> | ->]]];
     (split; [apply direction_elem; vm_compute; tauto | split; reflexivity])
   | intros d Hd; each_direction Hd;
     first [ exists 0; split; [lia | reflexivity]
           | exists 1; split; [lia | reflexivity]
           | exists 2; split; [lia | reflexivity]
           | exists 3; split; [lia | reflexivity] ] ]).
Qed.

Lemma scan_from_spec maze x y visited dirs dx dy n i :
  (forall k, i <= k < i + Z.of_nat n ->
     aget dirs k ∈ directions /\
     aget dx k = dir_dx (aget dirs k) /\
     aget dy k = dir_dy (aget dirs k)) ->
  match scan_from n i maze x y visited dirs dx dy with
  | Some d =>
      d ∈ directions /\
      IsValidUnvisited maze (x + dir_dx d) (y + dir_dy d) visited = true
  | None =>
      forall k, i <= k < i + Z.of_nat n ->
        IsValidUnvisited maze (x + dir_dx (aget dirs k)) (y + dir_dy (aget dirs k))
                         visited = false
  end.
Proof.
  revert i. induction n as [|n IH]; intros i Hk; simpl.
  - intros k Hr. lia.
  - destruct (Hk i ltac:(lia)) as (Hd & Hx & Hy).
    rewrite Hx, Hy.
    destruct (IsValidUnvisited maze (x + dir_dx (aget dirs i))
                (y + dir_dy (aget dirs i)) visited) eqn:E.
    + split; assumption.
    + specialize (IH (i + 1)).
      destruct (scan_from n (i + 1) maze x y visited dirs dx dy).
      * apply IH. intros k Hr. apply Hk. lia.
      * intros k Hr. destruct (Z.eq_dec k i) as [-> | Hne]; [assumption|].
        apply IH; [intros k' Hr'; apply Hk; lia | lia].
Qed.

Lemma GetRandomNeighbor_spec maze x y visited rng r rng' :
  GetRandomNeighbor rand_src maze x y visited rng = (r, rng') ->
  rng' = (rng + 3)%nat /\
  match r with
  | Some d =>
      d ∈ directions /\
      IsValidUnvisited maze (x + dir_dx d) (y + dir_dy d) visited = true
  | None =>
      forall d, d ∈ directions ->
        IsValidUnvisited maze (x + dir_dx d) (y + dir_dy d) visited = false
  end.
Proof.
  unfold GetRandomNeighbor.
  destruct (shuffle_from rand_src 3 _ _ _ rng) as [[[dirs dx] dy] rng1] eqn:E.
  apply shuffle_from_spec in E. destruct E as (-> & Hal & Hall).
  intros E.
  assert (Er : scan_from 4 0 maze x y visited dirs dx dy = r) by congruence.
  assert (En : (rng + 3)%nat = rng') by congruence.
  clear E. subst rng'. split; [reflexivity|].
  pose proof (scan_from_spec maze x y visited dirs dx dy 4 0) as S.
  rewrite Er in S. clear Er.
  destruct r as [d|].
  - apply S. intros k Hk. apply Hal. lia.
  - intros d Hd. destruct (Hall d Hd) as (k & Hk & <-).
    apply S; [intros k' Hk'; apply Hal; lia | lia].
Qed.

End NeighbourFacts.

(** * Counting *)

Lemma count_true_le (l : list bool) : (count_true l <= length l)%nat.
Proof. induction l as [|[] l IH]; simpl; lia. Qed.

Lemma count_true_insert (l : list bool) (i : nat) :
  l !! i = Some false -> count_true (<[i := true]> l) = S (count_true l).
Proof.
  revert i. induction l as [|b l IH]; intros [|i] E; simpl in *; try discriminate.
  - injection E as ->. reflexivity.
  - rewrite (IH i E). lia.
Qed.

Lemma count_true_all (l : list bool) :
  (forall i, (i < length l)%nat -> l !! i = Some true) ->
  count_true l = length l.
Proof.
  induction l as [|b l IH]; intros Hall; simpl; [reflexivity|].
  pose proof (Hall O ltac:(simpl; lia)) as E. simpl in E. injection E as ->.
  rewrite IH; [reflexivity|].
  intros i Hi. apply (Hall (S i)). simpl. lia.
Qed.

Lemma count_true_replicate_false (n : nat) : count_true (replicate n false) = O.
Proof. induction n; simpl; auto. Qed.

Lemma filter_length_one_more {A} (f g : A -> bool) (e : A) (l : list A) :
  NoDup l -> e ∈ l -> f e = false ->
  (forall s, s ∈ l -> g s = true <-> f s = true \/ s = e) ->
  length (List.filter g l) = S (length (List.filter f l)).
Proof.
  intros Hnd He Hfe Hg.
  assert (Hsame : forall l', e ∉ l' ->
            (forall s, s ∈ l' -> g s = true <-> f s = true \/ s = e) ->
            List.filter g l' = List.filter f l').
  { induction l' as [|a l' IH]; intros Hne Hg'; simpl; [reflexivity|].
    rewrite not_elem_of_cons in Hne. destruct Hne as [Hae Hne].
    rewrite IH by (auto; intros s Hs; apply Hg'; right; exact Hs).
    pose proof (Hg' a ltac:(left)) as Ha.
    destruct (g a), (f a); try reflexivity.
    - destruct (proj1 Ha eq_refl); [discriminate | congruence].
    - destruct Ha as [_ Ha]. discriminate Ha. left; reflexivity. }
  induction Hnd as [|a l Hal Hnd IH]; [inversion He|].
  simpl. apply elem_of_cons in He. destruct He as [<- | He].
  - rewrite Hfe.
    assert (g e = true) as -> by (apply Hg; [left | right; reflexivity]).
    simpl. f_equal. f_equal. apply Hsame; [assumption|].
    intros s Hs. apply Hg. right. exact Hs.
  - assert (a <> e) by (intros ->; contradiction).
    pose proof (Hg a ltac:(left)) as Ha.
    assert (g a = f a) as ->.
    { destruct (g a), (f a); try reflexivity.
      - destruct (proj1 Ha eq_refl); [discriminate | congruence].
      - destruct Ha as [_ Ha]. discriminate Ha. left; reflexivity. }
    destruct (f a); simpl; rewrite IH; auto; intros s Hs; apply Hg; right; exact Hs.
Qed.

Lemma filter_none {A} (f : A -> bool) (l : list A) :
  (forall s, s ∈ l -> f s = false) -> List.filter f l = [].
Proof.
  induction l as [|a l IH]; intros Hf; simpl; [reflexivity|].
  rewrite (Hf a) by left. apply IH. intros s Hs. apply Hf. right. exact Hs.
Qed.

(** * The slots of the passages *)

Section SlotFacts.
Context {F : Type} `{CFloat F}.
Implicit Types maze : Maze F.

Lemma elem_of_passage_slots maze a b d :
  (a, b, d) ∈ passage_slots maze <->
  in_grid maze a b /\ (d = MAZE_EAST \/ d = MAZE_SOUTH).
Proof.
  unfold passage_slots, in_grid. rewrite list_elem_of_bind. split.
  - intros (y & Hy & Hin). apply list_elem_of_bind in Hy.
    destruct Hy as (x & Hx & Hxin). apply elem_of_seqZ in Hin, Hxin.
    unfold cell_slots in Hx. rewrite !elem_of_cons, elem_of_nil in Hx.
    destruct Hx as [E | [E | []]]; injection E as -> -> ->; (split; [lia | tauto]).
  - intros [[Ha Hb] Hd]. exists b. split; [|apply elem_of_seqZ; lia].
    apply list_elem_of_bind. exists a. split; [|apply elem_of_seqZ; lia].
    unfold cell_slots. rewrite !elem_of_cons. destruct Hd as [-> | ->]; tauto.
Qed.

Lemma NoDup_passage_slots maze : NoDup (passage_slots maze).
Proof.
  unfold passage_slots. apply NoDup_bind; [| |apply NoDup_seqZ].
  - intros y1 y2 s _ _ H1 H2.
    apply list_elem_of_bind in H1, H2.
    destruct H1 as (x1 & H1 & _), H2 as (x2 & H2 & _).
    unfold cell_slots in *. rewrite !elem_of_cons, elem_of_nil in H1, H2.
    destruct H1 as [-> | [-> | []]]; destruct H2 as [E | [E | []]]; congruence.
  - intros y _. apply NoDup_bind; [| |apply NoDup_seqZ].
    + intros x1 x2 s _ _ H1 H2.
      unfold cell_slots in *. rewrite !elem_of_cons, elem_of_nil in H1, H2.
      destruct H1 as [-> | [-> | []]]; destruct H2 as [E | [E | []]]; congruence.
    + intros x _. unfold cell_slots.
      apply NoDup_cons. split; [|apply NoDup_singleton].
      rewrite elem_of_cons, elem_of_nil. intros [E | []]. discriminate.
Qed.

End SlotFacts.

(** * One iteration of the loop of [Maze_Generate] *)

Section StepFacts.
Context {F : Type} `{CFloat F}.
Implicit Types maze : Maze F.
Implicit Types st : GenState F.

Variable rand_src : nat -> Z.
Hypothesis rand_nonneg : forall n, 0 <= rand_src n.

Lemma generate_step_carve st x y below d rng :
  gs_stack st = (x, y) :: below ->
  GetRandomNeighbor rand_src (gs_maze st) x y (gs_visited st) (gs_rng st)
  = (Some d, rng) ->
  d ∈ directions ->
  generate_step rand_src st = carve_state st x y below d rng.
Proof.
  intros Hs Hg Hd. unfold generate_step. rewrite Hs, Hg.
  each_direction Hd; reflexivity.
Qed.

Lemma generate_step_pop st x y below rng :
  gs_stack st = (x, y) :: below ->
  GetRandomNeighbor rand_src (gs_maze st) x y (gs_visited st) (gs_rng st)
  = (None, rng) ->
  generate_step rand_src st = pop_state st below rng.
Proof.
  intros Hs Hg. unfold generate_step. rewrite Hs, Hg. reflexivity.
Qed.

Lemma in_grid_set_cells maze cs x y :
  in_grid (set_cells maze cs) x y <-> in_grid maze x y.
Proof. reflexivity. Qed.

Lemma neighbour_neq (x y d : Z) :
  d ∈ directions -> (x + dir_dx d, y + dir_dy d) <> (x, y).
Proof.
  intros Hd E. injection E as E1 E2.
  destruct (direction_step_neq d Hd); lia.
Qed.

Section Carve.
Variables (maze : Maze F) (x y d : Z).
Hypothesis Hd : d ∈ directions.
Hypothesis Hcur : in_grid maze x y.
Hypothesis Hnxt : in_grid maze (x + dir_dx d) (y + dir_dy d).
Hypothesis Hlen : length (cells maze) = Z.to_nat (width maze * height maze).
Hypothesis Hrange : forall a b, in_grid maze a b ->
  0 <= aget (cells maze) (CellIndex maze a b) <= 15.

Lemma length_carved_cells :
  length (carved_cells maze x y d) = length (cells maze).
Proof. unfold carved_cells. rewrite !length_aset. reflexivity. Qed.

Lemma carved_cells_at a b :
  in_grid maze a b ->
  aget (carved_cells maze x y d) (CellIndex maze a b) =
  if decide ((a, b) = (x, y)) then
    to_uchar (Z.land (aget (cells maze) (CellIndex maze x y)) (Z.lnot d))
  else if decide ((a, b) = (x + dir_dx d, y + dir_dy d)) then
    to_uchar (Z.land (aget (cells maze) (CellIndex maze (x + dir_dx d) (y + dir_dy d)))
                     (Z.lnot (opposite d)))
  else aget (cells maze) (CellIndex maze a b).
Proof.
  intros Hab. unfold carved_cells.
  pose proof (CellIndex_bounds _ _ _ Hcur) as Bc.
  pose proof (CellIndex_bounds _ _ _ Hnxt) as Bn.
  pose proof (CellIndex_bounds _ _ _ Hab) as Ba.
  assert (Hcn : CellIndex maze x y <> CellIndex maze (x + dir_dx d) (y + dir_dy d)).
  { intros E. apply CellIndex_inj in E; [|assumption..].
    apply (neighbour_neq x y d Hd). destruct E as [E1 E2]. congruence. }
  destruct (decide ((a, b) = (x, y))) as [E | Hne1].
  - injection E as -> ->.
    rewrite aget_aset_ne by lia.
    rewrite aget_aset_eq by lia. reflexivity.
  - destruct (decide ((a, b) = (x + dir_dx d, y + dir_dy d))) as [E | Hne2].
    + injection E as -> ->.
      rewrite aget_aset_eq by (rewrite length_aset; lia).
      rewrite aget_aset_ne by lia. reflexivity.
    + assert (CellIndex maze a b <> CellIndex maze x y).
      { intros E. apply CellIndex_inj in E; [|assumption..]. destruct E; congruence. }
      assert (CellIndex maze a b <> CellIndex maze (x + dir_dx d) (y + dir_dy d)).
      { intros E. apply CellIndex_inj in E; [|assumption..]. destruct E; congruence. }
      rewrite !aget_aset_ne by lia. reflexivity.
Qed.

Lemma carved_cells_range a b :
  in_grid maze a b ->
  0 <= aget (carved_cells maze x y d) (CellIndex maze a b) <= 15.
Proof.
  intros Hab. rewrite carved_cells_at by assumption.
  destruct (decide _); [apply clear_bit_range; auto|].
  destruct (decide _); [apply clear_bit_range; auto using opposite_direction|].
  auto.
Qed.

Lemma Maze_HasWall_carved a b d' :
  d' ∈ directions ->
  Maze_HasWall (set_cells maze (carved_cells maze x y d)) a b d' = false <->
  Maze_HasWall maze a b d' = false \/
  (a, b, d') = (x, y, d) \/
  (a, b, d') = (x + dir_dx d, y + dir_dy d, opposite d).
Proof.
  intros Hd'. destruct (in_grid_dec maze a b) as [Hab | Hn].
  - rewrite (Maze_HasWall_in (set_cells _ _)) by assumption.
    rewrite (Maze_HasWall_in maze) by assumption.
    change (cells (set_cells maze (carved_cells maze x y d)))
      with (carved_cells maze x y d).
    rewrite CellIndex_set_cells, carved_cells_at by assumption.
    destruct (decide ((a, b) = (x, y))) as [E | Hne1].
    + injection E as -> ->.
      rewrite clear_bit_spec by auto.
      rewrite andb_false_iff, negb_false_iff, Z.eqb_eq.
      split.
      * intros [E | ->]; [left; exact E | right; left; reflexivity].
      * intros [E | [E | E]].
        -- left; exact E.
        -- right. congruence.
        -- exfalso. injection E as E1 E2 _.
           apply (neighbour_neq x y d Hd). f_equal; lia.
    + destruct (decide ((a, b) = (x + dir_dx d, y + dir_dy d))) as [E | Hne2].
      * injection E as -> ->.
        rewrite clear_bit_spec by auto using opposite_direction.
        rewrite andb_false_iff, negb_false_iff, Z.eqb_eq.
        split.
        -- intros [E | ->]; [left; exact E | right; right; reflexivity].
        -- intros [E | [E | E]].
           ++ left; exact E.
           ++ exfalso. injection E as E1 E2 _.
              apply (neighbour_neq x y d Hd). f_equal; lia.
           ++ right. congruence.
      * split; [auto|]. intros [E | [E | E]]; [exact E | exfalso..].
        -- apply Hne1. congruence.
        -- apply Hne2. congruence.
  - rewrite !Maze_HasWall_out by assumption.
    split; [discriminate|]. intros [E | [E | E]]; [discriminate|exfalso..].
    + apply Hn. injection E as -> -> _. exact Hcur.
    + apply Hn. injection E as -> -> _. exact Hnxt.
Qed.

Lemma open_between_carved a b d' :
  d' ∈ directions ->
  open_between (set_cells maze (carved_cells maze x y d)) a b d' = true <->
  open_between maze a b d' = true \/
  (a, b, d') = (x, y, d) \/
  (a, b, d') = (x + dir_dx d, y + dir_dy d, opposite d).
Proof.
  intros Hd'. unfold open_between.
  rewrite !andb_true_iff, !negb_true_iff.
  rewrite !Maze_HasWall_carved by auto using opposite_direction.
  pose proof (opposite_dx d Hd) as Ox. pose proof (opposite_dy d Hd) as Oy.
  pose proof (opposite_dx d' Hd') as Ox'. pose proof (opposite_dy d' Hd') as Oy'.
  pose proof (opposite_involutive d Hd) as Oi.
  pose proof (opposite_involutive d' Hd') as Oi'.
  split.
  - intros [[A | [A | A]] [B | [B | B]]]; auto.
    + injection B as B1 B2 B3. right. right.
      rewrite <- B3, Ox', Oy', Oi'.
      replace (x + - dir_dx d') with a by lia.
      replace (y + - dir_dy d') with b by lia. reflexivity.
    + injection B as B1 B2 B3. right. left.
      assert (d' = d) by congruence. subst d'.
      replace x with a by lia. replace y with b by lia. reflexivity.
  - intros [[A B] | [E | E]].
    + auto.
    + injection E as -> -> ->. split; [auto|]. right. right. reflexivity.
    + injection E as -> -> ->. split; [auto|]. right. left.
      rewrite Ox, Oy, Oi.
      replace (x + dir_dx d + - dir_dx d) with x by lia.
      replace (y + dir_dy d + - dir_dy d) with y by lia. reflexivity.
Qed.

End Carve.

Lemma bool_eq_by_false (b1 b2 : bool) :
  (b1 = false <-> b2 = false) -> b1 = b2.
Proof. destruct b1, b2; intuition congruence. Qed.

Lemma flip_slot_eq (a b d' x y d : Z) :
  d ∈ directions -> d' ∈ directions ->
  (a + dir_dx d', b + dir_dy d', opposite d') = (x, y, d) <->
  (a, b, d') = (x + dir_dx d, y + dir_dy d, opposite d).
Proof.
  intros Hd Hd'.
  pose proof (opposite_dx d Hd) as Ox. pose proof (opposite_dy d Hd) as Oy.
  pose proof (opposite_dx d' Hd') as Ox'. pose proof (opposite_dy d' Hd') as Oy'.
  pose proof (opposite_involutive d Hd) as Oi.
  pose proof (opposite_involutive d' Hd') as Oi'.
  split; intros E; injection E as E1 E2 E3.
  - rewrite <- E3, Ox', Oy', Oi'.
    replace (x + - dir_dx d') with a by lia.
    replace (y + - dir_dy d') with b by lia. reflexivity.
  - rewrite E3, Ox, Oy, Oi.
    replace (a + - dir_dx d) with x by lia.
    replace (b + - dir_dy d) with y by lia. reflexivity.
Qed.

Lemma passage_sym maze c c' : passage maze c c' -> passage maze c' c.
Proof.
  intros (d & Hd & -> & Ho). exists (opposite d).
  split; [apply opposite_direction; exact Hd|].
  unfold open_between in *. simpl in *.
  rewrite opposite_dx, opposite_dy, opposite_involutive by assumption.
  replace (c.1 + dir_dx d + - dir_dx d) with c.1 by lia.
  replace (c.2 + dir_dy d + - dir_dy d) with c.2 by lia.
  split; [destruct c; reflexivity|].
  rewrite andb_comm. exact Ho.
Qed.

Lemma passage_step maze x y d :
  d ∈ directions -> open_between maze x y d = true ->
  passage maze (x, y) (x + dir_dx d, y + dir_dy d).
Proof. intros Hd Ho. exists d. simpl. auto. Qed.

Lemma open_between_in_grid maze a b d :
  open_between maze a b d = true ->
  in_grid maze a b /\ in_grid maze (a + dir_dx d) (b + dir_dy d).
Proof.
  unfold open_between. rewrite andb_true_iff, !negb_true_iff. intros [A B].
  split.
  - destruct (in_grid_dec maze a b) as [|Hn]; [assumption|].
    rewrite Maze_HasWall_out in A by assumption. discriminate.
  - destruct (in_grid_dec maze (a + dir_dx d) (b + dir_dy d)) as [|Hn]; [assumption|].
    rewrite Maze_HasWall_out in B by assumption. discriminate.
Qed.

Lemma visited_at_lookup maze visited a b v :
  length visited = Z.to_nat (width maze * height maze) ->
  in_grid maze a b ->
  visited_at maze visited a b = v ->
  visited !! Z.to_nat (CellIndex maze a b) = Some v.
Proof.
  intros Hl Hg E. unfold visited_at, aget in E.
  pose proof (CellIndex_bounds _ _ _ Hg).
  rewrite list_lookup_total_alt in E.
  destruct (visited !! Z.to_nat (CellIndex maze a b)) eqn:L; [simpl in E; congruence|].
  apply lookup_ge_None in L. lia.
Qed.

Lemma inv_passage_visited w h st rank c c' :
  gen_inv w h st rank -> passage (gs_maze st) c c' ->
  in_grid (gs_maze st) c.1 c.2 /\
  visited_at (gs_maze st) (gs_visited st) c.1 c.2 = true.
Proof.
  intros Hinv (d & Hd & _ & Ho).
  destruct (open_between_in_grid _ _ _ _ Ho) as [Hg _].
  split; [assumption|].
  destruct (visited_at (gs_maze st) (gs_visited st) c.1 c.2) eqn:E; [reflexivity|].
  exfalso. unfold open_between in Ho.
  rewrite andb_true_iff, !negb_true_iff in Ho. destruct Ho as [A _].
  rewrite Maze_HasWall_in in A by assumption.
  rewrite (gi_fresh _ _ _ _ Hinv _ _ Hg E), wall_bit_all in A by assumption.
  discriminate.
Qed.

Section CarveInv.
Variables (w h : Z) (st : GenState F) (rank : Z * Z -> nat).
Variables (x y : Z) (below : list (Z * Z)) (d : Z) (rng' : nat).
Hypothesis Hinv : gen_inv w h st rank.
Hypothesis Hstack : gs_stack st = (x, y) :: below.
Hypothesis Hd : d ∈ directions.
Hypothesis Hvalid :
  IsValidUnvisited (gs_maze st) (x + dir_dx d) (y + dir_dy d) (gs_visited st) = true.

Local Abbreviation m := (gs_maze st).
Local Abbreviation vis := (gs_visited st).
Local Abbreviation nx := (x + dir_dx d).
Local Abbreviation ny := (y + dir_dy d).
Local Abbreviation st' := (carve_state st x y below d rng').

Lemma carve_cur : in_grid m x y /\ visited_at m vis x y = true.
Proof.
  apply (gi_stack _ _ _ _ Hinv). rewrite Hstack. left.
Qed.

Lemma carve_nxt : in_grid m nx ny /\ visited_at m vis nx ny = false.
Proof. apply IsValidUnvisited_spec. exact Hvalid. Qed.

Lemma carve_len_cells : length (cells m) = Z.to_nat (width m * height m).
Proof.
  rewrite (gi_cells_len _ _ _ _ Hinv).
  rewrite (gi_width _ _ _ _ Hinv), (gi_height _ _ _ _ Hinv). reflexivity.
Qed.

Lemma carve_len_visited : length vis = Z.to_nat (width m * height m).
Proof.
  rewrite (gi_visited_len _ _ _ _ Hinv).
  rewrite (gi_width _ _ _ _ Hinv), (gi_height _ _ _ _ Hinv). reflexivity.
Qed.

Lemma carve_visited a b :
  in_grid m a b ->
  visited_at (gs_maze st') (gs_visited st') a b =
  if decide ((a, b) = (nx, ny)) then true else visited_at m vis a b.
Proof.
  intros Hab. unfold visited_at. simpl. rewrite CellIndex_set_cells.
  destruct carve_nxt as [Hn _].
  pose proof (CellIndex_bounds _ _ _ Hn). pose proof (CellIndex_bounds _ _ _ Hab).
  pose proof carve_len_visited.
  destruct (decide ((a, b) = (nx, ny))) as [E | Hne].
  - injection E as -> ->. apply aget_aset_eq. lia.
  - apply aget_aset_ne; [lia..|].
    intros E. apply CellIndex_inj in E; [|assumption..]. destruct E; congruence.
Qed.

Lemma carve_visited_mono a b :
  in_grid m a b -> visited_at m vis a b = true ->
  visited_at (gs_maze st') (gs_visited st') a b = true.
Proof.
  intros Hab Hv. rewrite carve_visited by assumption.
  destruct (decide _); auto.
Qed.

Lemma carve_open a b d' :
  d' ∈ directions ->
  open_between (gs_maze st') a b d' = true <->
  open_between m a b d' = true \/
  (a, b, d') = (x, y, d) \/ (a, b, d') = (nx, ny, opposite d).
Proof.
  intros Hd'. destruct carve_cur as [Hc _]. destruct carve_nxt as [Hn _].
  apply open_between_carved; auto using carve_len_cells.
  apply (gi_range _ _ _ _ Hinv).
Qed.

Lemma carve_closed_before : open_between m x y d = false.
Proof.
  destruct carve_nxt as [Hn Hv]. unfold open_between.
  rewrite (Maze_HasWall_in m nx ny) by assumption.
  rewrite (gi_fresh _ _ _ _ Hinv _ _ Hn Hv).
  rewrite wall_bit_all by (apply opposite_direction; exact Hd).
  apply andb_false_r.
Qed.

Lemma carve_closed_before' : open_between m nx ny (opposite d) = false.
Proof.
  destruct carve_nxt as [Hn Hv]. unfold open_between.
  rewrite (Maze_HasWall_in m nx ny) by assumption.
  rewrite (gi_fresh _ _ _ _ Hinv _ _ Hn Hv).
  rewrite wall_bit_all by (apply opposite_direction; exact Hd).
  reflexivity.
Qed.

Lemma carve_passage c c' :
  passage (gs_maze st') c c' <->
  passage m c c' \/
  (c = (x, y) /\ c' = (nx, ny)) \/ (c = (nx, ny) /\ c' = (x, y)).
Proof.
  split.
  - intros (d' & Hd' & E & Ho). apply carve_open in Ho; [|assumption].
    destruct Ho as [Ho | [Es | Es]].
    + left. exists d'. auto.
    + right. left. injection Es as E1 E2 ->. destruct c as [a b]. simpl in *.
      subst. auto.
    + right. right. injection Es as E1 E2 ->. destruct c as [a b]. simpl in *.
      subst a b. split; [reflexivity|]. rewrite E.
      rewrite opposite_dx, opposite_dy by assumption.
      f_equal; lia.
  - intros [(d' & Hd' & E & Ho) | [[-> ->] | [-> ->]]].
    + exists d'. split; [assumption|]. split; [assumption|].
      apply carve_open; auto.
    + exists d. split; [assumption|]. split; [reflexivity|].
      apply carve_open; auto.
    + exists (opposite d). split; [apply opposite_direction; assumption|]. split.
      * simpl. rewrite opposite_dx, opposite_dy by assumption.
        f_equal; lia.
      * apply carve_open; auto using opposite_direction.
Qed.
Lemma carve_agree a b d' :
  d' ∈ directions ->
  in_grid m a b -> in_grid m (a + dir_dx d') (b + dir_dy d') ->
  Maze_HasWall (gs_maze st') a b d'
  = Maze_HasWall (gs_maze st') (a + dir_dx d') (b + dir_dy d') (opposite d').
Proof.
  intros Hd' Hab Hab'. apply bool_eq_by_false.
  destruct carve_cur as [Hc _]. destruct carve_nxt as [Hn _].
  pose proof (gi_range _ _ _ _ Hinv) as Hr.
  simpl.
  rewrite !Maze_HasWall_carved
    by auto using carve_len_cells, opposite_direction.
  rewrite (gi_agree _ _ _ _ Hinv a b d' Hd' Hab Hab').
  rewrite (flip_slot_eq a b d' x y d Hd Hd').
  split; intros [A | [A | A]].
  - left; exact A.
  - right. right. injection A as -> -> ->. reflexivity.
  - right. left. exact A.
  - left; exact A.
  - right. right. exact A.
  - right. left. injection A as A1 A2 A3.
    assert (d' = d).
    { rewrite <- (opposite_involutive d'), <- (opposite_involutive d) by assumption.
      congruence. }
    subst d'. replace a with x by lia. replace b with y by lia. reflexivity.
Qed.

Lemma carve_count_visited :
  count_true (gs_visited st') = S (count_true vis).
Proof.
  simpl. unfold aset. apply count_true_insert.
  destruct carve_nxt as [Hn Hv].
  apply visited_at_lookup; auto using carve_len_visited.
Qed.

Lemma carve_count_open :
  open_passages (gs_maze st') = S (open_passages m).
Proof.
  unfold open_passages.
  change (passage_slots (gs_maze st')) with (passage_slots m).
  destruct carve_cur as [Hc _]. destruct carve_nxt as [Hn _].
  assert (Hcase : d = MAZE_EAST \/ d = MAZE_SOUTH \/ d = MAZE_NORTH \/ d = MAZE_WEST).
  { apply direction_cases in Hd. tauto. }
  assert (HE : opposite MAZE_NORTH = MAZE_SOUTH) by reflexivity.
  assert (HW : opposite MAZE_WEST = MAZE_EAST) by reflexivity.
  assert (Hfwd : d = MAZE_EAST \/ d = MAZE_SOUTH ->
    length (List.filter (slot_open (gs_maze st')) (passage_slots m))
    = S (length (List.filter (slot_open m) (passage_slots m)))).
  { intros Hes.
    apply (filter_length_one_more _ _ (x, y, d)).
    - apply NoDup_passage_slots.
    - apply elem_of_passage_slots. auto.
    - apply carve_closed_before.
    - intros [[a b] d'] Hs. apply elem_of_passage_slots in Hs.
      destruct Hs as [Hab Hd']. unfold slot_open. simpl.
      rewrite carve_open by (apply direction_elem; tauto).
      split; [|tauto]. intros [A | [A | A]]; auto.
      exfalso. injection A as _ _ A. subst d'.
      destruct Hes as [-> | ->], Hd' as [E | E]; discriminate E. }
  assert (Hbwd : d = MAZE_NORTH \/ d = MAZE_WEST ->
    length (List.filter (slot_open (gs_maze st')) (passage_slots m))
    = S (length (List.filter (slot_open m) (passage_slots m)))).
  { intros Hnw.
    apply (filter_length_one_more _ _ (nx, ny, opposite d)).
    - apply NoDup_passage_slots.
    - apply elem_of_passage_slots. split; [assumption|].
      destruct Hnw as [-> | ->]; [right | left]; reflexivity.
    - apply carve_closed_before'.
    - intros [[a b] d'] Hs. apply elem_of_passage_slots in Hs.
      destruct Hs as [Hab Hd']. unfold slot_open. simpl.
      rewrite carve_open by (apply direction_elem; tauto).
      split; [|tauto]. intros [A | [A | A]]; auto.
      exfalso. injection A as _ _ A. subst d'.
      destruct Hnw as [-> | ->], Hd' as [E | E]; discriminate E. }
  tauto.
Qed.

Lemma carve_inv :
  gen_inv w h st'
    (fun c => if decide (c = (nx, ny)) then count_true vis else rank c).
Proof.
  destruct carve_cur as [Hc Hcv]. destruct carve_nxt as [Hn Hnv].
  pose proof (gi_range _ _ _ _ Hinv) as Hr.
  assert (Hold : forall c c', passage m c c' -> c <> (nx, ny) /\ c' <> (nx, ny)).
  { intros c c' Hp. split.
    - destruct (inv_passage_visited _ _ _ _ _ _ Hinv Hp) as [_ Hv].
      intros ->. simpl in Hv. congruence.
    - apply passage_sym in Hp.
      destruct (inv_passage_visited _ _ _ _ _ _ Hinv Hp) as [_ Hv].
      intros ->. simpl in Hv. congruence. }
  assert (Hrk : (rank (x, y) < count_true vis)%nat).
  { apply (gi_rank_bound _ _ _ _ Hinv); assumption. }
  assert (Hxy : (x, y) <> (nx, ny)).
  { intros E. symmetry in E. revert E. apply neighbour_neq. exact Hd. }
  constructor.
  - apply (gi_width _ _ _ _ Hinv).
  - apply (gi_height _ _ _ _ Hinv).
  - simpl. rewrite length_carved_cells. apply (gi_cells_len _ _ _ _ Hinv).
  - simpl. rewrite length_aset. apply (gi_visited_len _ _ _ _ Hinv).
  - intros a b Hab. simpl. rewrite CellIndex_set_cells.
    apply carved_cells_range; auto using carve_len_cells.
  - intros a b Hab Hv. rewrite carve_visited in Hv by exact Hab.
    destruct (decide ((a, b) = (nx, ny))) as [|Hne]; [discriminate|].
    simpl. rewrite CellIndex_set_cells.
    rewrite carved_cells_at by auto using carve_len_cells.
    destruct (decide ((a, b) = (x, y))) as [E | _].
    { injection E as -> ->. congruence. }
    destruct (decide ((a, b) = (nx, ny))) as [E | _]; [contradiction|].
    apply (gi_fresh _ _ _ _ Hinv); assumption.
  - intros a b d' Hd' Hab Hab'. apply carve_agree; assumption.
  - intros a b Hin. simpl in Hin. rewrite elem_of_cons in Hin.
    destruct Hin as [E | Hin].
    + injection E as -> ->. split; [exact Hn|].
      rewrite carve_visited by exact Hn. destruct (decide _); congruence.
    + rewrite <- Hstack in Hin.
      destruct (gi_stack _ _ _ _ Hinv _ _ Hin) as [Hab Hv].
      split; [exact Hab|]. apply carve_visited_mono; assumption.
  - intros a b Hab Hv Hnin. simpl in Hnin.
    rewrite not_elem_of_cons in Hnin. destruct Hnin as [Hne Hnin].
    rewrite <- Hstack in Hnin.
    rewrite carve_visited in Hv by exact Hab.
    destruct (decide ((a, b) = (nx, ny))) as [|_]; [contradiction|].
    intros d' Hd' Hg'.
    apply carve_visited_mono; [exact Hg'|].
    apply (gi_done _ _ _ _ Hinv a b Hab Hv Hnin d' Hd' Hg').
  - rewrite carve_count_visited, carve_count_open.
    rewrite <- (gi_count _ _ _ _ Hinv). reflexivity.
  - intros a b Hab Hv. rewrite carve_visited in Hv by exact Hab.
    assert (Hmono : forall c c', rtc (passage m) c c' -> rtc (passage (gs_maze st')) c c').
    { intros c c' Hrt. induction Hrt as [|c1 c2 c3 Hp _ IH]; [apply rtc_refl|].
      eapply rtc_l; [|exact IH]. apply carve_passage. left. exact Hp. }
    destruct (decide ((a, b) = (nx, ny))) as [E | _].
    + injection E as -> ->.
      eapply rtc_r.
      * apply Hmono. apply (gi_reach _ _ _ _ Hinv x y); assumption.
      * apply carve_passage. right. left. auto.
    + apply Hmono. apply (gi_reach _ _ _ _ Hinv); assumption.
  - intros a b Hab Hv. rewrite carve_visited in Hv by exact Hab.
    rewrite carve_count_visited.
    destruct (decide ((a, b) = (nx, ny))) as [_ | _]; [lia|].
    pose proof (gi_rank_bound _ _ _ _ Hinv a b Hab Hv). lia.
  - intros c c' Hp. apply carve_passage in Hp.
    destruct Hp as [Hp | [[-> ->] | [-> ->]]].
    + destruct (Hold _ _ Hp) as [N1 N2].
      destruct (decide (c = (nx, ny))); [contradiction|].
      destruct (decide (c' = (nx, ny))); [contradiction|].
      apply (gi_rank_inj _ _ _ _ Hinv). exact Hp.
    + destruct (decide ((x, y) = (nx, ny))); [contradiction|].
      destruct (decide ((nx, ny) = (nx, ny))); [lia | contradiction].
    + destruct (decide ((x, y) = (nx, ny))); [contradiction|].
      destruct (decide ((nx, ny) = (nx, ny))); [lia | contradiction].
  - intros c c1 c2 Hp1 Hp2.
    apply carve_passage in Hp1, Hp2.
    assert (Hvis : forall c0 c0', passage m c0 c0' ->
              (rank c0 < count_true vis)%nat).
    { intros c0 c0' Hp.
      destruct (inv_passage_visited _ _ _ _ _ _ Hinv Hp) as [Hg Hv].
      destruct c0 as [a0 b0]. apply (gi_rank_bound _ _ _ _ Hinv); assumption. }
    destruct Hp1 as [Hp1 | [[-> ->] | [-> ->]]];
      destruct Hp2 as [Hp2 | [[E2 ->] | [E2 ->]]];
      try (injection E2 as E2a E2b).
    + destruct (Hold _ _ Hp1) as [N1 N1']. destruct (Hold _ _ Hp2) as [_ N2'].
      destruct (decide (c = (nx, ny))); [contradiction|].
      destruct (decide (c1 = (nx, ny))); [contradiction|].
      destruct (decide (c2 = (nx, ny))); [contradiction|].
      apply (gi_parent _ _ _ _ Hinv). exact Hp1. exact Hp2.
    + subst c.
      destruct (decide ((x, y) = (nx, ny))); [contradiction|].
      destruct (decide ((nx, ny) = (nx, ny))); [|contradiction].
      intros _ Hlt. lia.
    + destruct (Hold _ _ Hp1) as [N1 _]. exfalso. apply N1. subst c. reflexivity.
    + destruct (decide ((x, y) = (nx, ny))); [contradiction|].
      destruct (decide ((nx, ny) = (nx, ny))); [|contradiction].
      intros Hlt _. lia.
    + reflexivity.
    + exfalso. apply Hxy. f_equal; assumption.
    + destruct (Hold _ _ Hp2) as [N2 _]. exfalso. apply N2. reflexivity.
    + exfalso. apply Hxy. f_equal; lia.
    + reflexivity.
  - destruct (gi_origin _ _ _ _ Hinv) as [Ho Hov].
    split; [exact Ho|]. apply carve_visited_mono; assumption.
Qed.

Lemma carve_measure :
  S (gen_measure w h st') = gen_measure w h st.
Proof.
  unfold gen_measure. rewrite carve_count_visited. simpl. rewrite Hstack. simpl.
  pose proof (count_true_le (gs_visited st')) as Hle.
  rewrite carve_count_visited in Hle. simpl in Hle. rewrite length_aset in Hle.
  rewrite (gi_visited_len _ _ _ _ Hinv) in Hle. lia.
Qed.

End CarveInv.

Section PopInv.
Variables (w h : Z) (st : GenState F) (rank : Z * Z -> nat).
Variables (x y : Z) (below : list (Z * Z)) (rng' : nat).
Hypothesis Hinv : gen_inv w h st rank.
Hypothesis Hstack : gs_stack st = (x, y) :: below.
Hypothesis Hnone : forall d, d ∈ directions ->
  IsValidUnvisited (gs_maze st) (x + dir_dx d) (y + dir_dy d) (gs_visited st) = false.

Lemma pop_inv : gen_inv w h (pop_state st below rng') rank.
Proof.
  constructor; simpl.
  - exact (gi_width _ _ _ _ Hinv).
  - exact (gi_height _ _ _ _ Hinv).
  - exact (gi_cells_len _ _ _ _ Hinv).
  - exact (gi_visited_len _ _ _ _ Hinv).
  - exact (gi_range _ _ _ _ Hinv).
  - exact (gi_fresh _ _ _ _ Hinv).
  - exact (gi_agree _ _ _ _ Hinv).
  - intros a b Hin. apply (gi_stack _ _ _ _ Hinv). rewrite Hstack. right. exact Hin.
  - intros a b Hab Hv Hnin.
    destruct (decide ((a, b) = (x, y))) as [E | Hne].
    + injection E as -> ->. intros d Hd Hg.
      specialize (Hnone d Hd).
      destruct (visited_at (gs_maze st) (gs_visited st) (x + dir_dx d) (y + dir_dy d))
        eqn:Ev; [reflexivity|].
      exfalso.
      assert (IsValidUnvisited (gs_maze st) (x + dir_dx d) (y + dir_dy d)
                (gs_visited st) = true) by (apply IsValidUnvisited_spec; auto).
      congruence.
    + apply (gi_done _ _ _ _ Hinv); auto. rewrite Hstack.
      rewrite not_elem_of_cons. auto.
  - exact (gi_count _ _ _ _ Hinv).
  - exact (gi_reach _ _ _ _ Hinv).
  - exact (gi_rank_bound _ _ _ _ Hinv).
  - exact (gi_rank_inj _ _ _ _ Hinv).
  - exact (gi_parent _ _ _ _ Hinv).
  - exact (gi_origin _ _ _ _ Hinv).
Qed.

Lemma pop_measure :
  S (gen_measure w h (pop_state st below rng')) = gen_measure w h st.
Proof.
  unfold gen_measure. simpl. rewrite Hstack. simpl. lia.
Qed.

End PopInv.

Lemma generate_step_inv w h st rank :
  gen_inv w h st rank -> gs_stack st <> [] ->
  exists rank', gen_inv w h (generate_step rand_src st) rank' /\
                S (gen_measure w h (generate_step rand_src st)) = gen_measure w h st.
Proof.
  intros Hinv Hne.
  destruct (gs_stack st) as [|[x y] below] eqn:Hs; [contradiction|].
  destruct (GetRandomNeighbor rand_src (gs_maze st) x y (gs_visited st) (gs_rng st))
    as [[d|] rng] eqn:Hg;
    destruct (GetRandomNeighbor_spec rand_src rand_nonneg _ _ _ _ _ _ _ Hg) as [_ Hr].
  - destruct Hr as [Hd Hv].
    rewrite (generate_step_carve st x y below d rng Hs Hg Hd).
    eexists. split.
    + apply carve_inv; eassumption.
    + eapply carve_measure; eassumption.
  - rewrite (generate_step_pop st x y below rng Hs Hg).
    exists rank. split.
    + eapply pop_inv; eassumption.
    + eapply pop_measure; eassumption.
Qed.

Lemma generate_loop_inv w h fuel st rank :
  gen_inv w h st rank ->
  exists rank', gen_inv w h (generate_loop rand_src fuel st) rank'.
Proof.
  revert st rank. induction fuel as [|fuel IH]; intros st rank Hinv; simpl.
  - exists rank. exact Hinv.
  - destruct (gs_stack st) as [|c below] eqn:Hs; [exists rank; exact Hinv|].
    destruct (generate_step_inv w h st rank Hinv) as (rank' & Hinv' & _).
    { rewrite Hs. discriminate. }
    apply (IH _ rank' Hinv').
Qed.

Lemma generate_loop_stack w h fuel st rank :
  gen_inv w h st rank ->
  (gen_measure w h st <= fuel)%nat ->
  gs_stack (generate_loop rand_src fuel st) = [].
Proof.
  revert st rank. induction fuel as [|fuel IH]; intros st rank Hinv Hm; simpl.
  - unfold gen_measure in Hm. destruct (gs_stack st); [reflexivity|simpl in Hm; lia].
  - destruct (gs_stack st) as [|c below] eqn:Hs; [exact Hs|].
    destruct (generate_step_inv w h st rank Hinv) as (rank' & Hinv' & Hdec).
    { rewrite Hs. discriminate. }
    apply (IH _ rank' Hinv'). lia.
Qed.

(** ** [Maze_Create] *)

Lemma fill_from_lookup n i (l : list Z) j :
  0 <= i -> (Z.to_nat i + n <= length l)%nat ->
  fill_from n i l !! j =
  if decide (Z.to_nat i <= j < Z.to_nat i + n)%nat then Some MAZE_ALL else l !! j.
Proof.
  revert i l. induction n as [|n IH]; intros i l Hi Hlen; simpl.
  - destruct (decide _); [lia | reflexivity].
  - rewrite IH by (rewrite ?length_aset; lia).
    unfold aset. rewrite list_lookup_insert.
    replace (Z.to_nat (i + 1)) with (S (Z.to_nat i)) by lia.
    repeat destruct (decide _); try reflexivity; lia.
Qed.

Lemma fill_from_all n : fill_from n 0 (replicate n 0) = replicate n MAZE_ALL.
Proof.
  apply list_eq. intros j.
  rewrite fill_from_lookup by (rewrite ?length_replicate; simpl; lia).
  destruct (decide _) as [Hj | Hj].
  - symmetry. apply lookup_replicate_2. simpl in Hj. lia.
  - simpl in Hj. assert (n <= j)%nat by lia.
    rewrite (proj1 (lookup_replicate_None n 0 j)) by assumption.
    rewrite (proj1 (lookup_replicate_None n MAZE_ALL j)) by assumption.
    reflexivity.
Qed.

Lemma int_wrap_id z : INT_MIN <= z <= INT_MAX -> int_wrap z = z.
Proof.
  unfold int_wrap, INT_MIN, INT_MAX. intros Hz.
  rewrite Z.mod_small by lia. lia.
Qed.

Lemma to_size_t_id z : 0 <= z <= INT_MAX -> to_size_t z = z.
Proof.
  unfold to_size_t, INT_MAX. intros Hz. apply Z.mod_small. lia.
Qed.

Lemma Maze_Create_Some ok_maze ok_cells w h cs maze :
  Maze_Create ok_maze ok_cells w h cs = Some maze ->
  1 <= w /\ 1 <= h /\
  width maze = w /\ height maze = h /\ cellSize maze = cs /\
  (w * h <= INT_MAX -> cells maze = replicate (Z.to_nat (w * h)) MAZE_ALL) /\
  startPos maze = mkVector2 (f_of_int 0) (f_of_int 0) /\
  exitPos maze = mkVector2 (f_of_int (w - 1)) (f_of_int (h - 1)).
Proof.
  unfold Maze_Create.
  destruct (Z.ltb_spec w 1) as [Hw | Hw]; [discriminate|].
  destruct (Z.ltb_spec h 1) as [Hh | Hh]; [discriminate|].
  simpl. destruct (fleb cs (f_lit 0 1)); [discriminate|].
  destruct ok_maze; [|discriminate]. destruct ok_cells; [|discriminate].
  simpl. intros E. injection E as <-. simpl.
  repeat split; try lia.
  intros Hb. assert (0 <= w * h) by nia.
  rewrite int_wrap_id by (unfold INT_MIN; lia).
  rewrite to_size_t_id by lia. apply fill_from_all.
Qed.

(** ** The state on entry to the loop *)

Section InitInv.
Variables (maze : Maze F) (rng : nat).
Hypothesis Hw : 1 <= width maze.
Hypothesis Hh : 1 <= height maze.
Hypothesis Hcells : cells maze = replicate (Z.to_nat (width maze * height maze)) MAZE_ALL.

Lemma fresh_cell a b :
  in_grid maze a b -> aget (cells maze) (CellIndex maze a b) = MAZE_ALL.
Proof.
  intros Hab. rewrite Hcells. apply aget_replicate.
  pose proof (CellIndex_bounds _ _ _ Hab). lia.
Qed.

Lemma fresh_closed a b d : d ∈ directions -> open_between maze a b d = false.
Proof.
  intros Hd. unfold open_between.
  destruct (in_grid_dec maze a b) as [Hab | Hn].
  - rewrite (Maze_HasWall_in maze a b) by assumption.
    rewrite fresh_cell, wall_bit_all by assumption. reflexivity.
  - rewrite (Maze_HasWall_out maze a b) by assumption. reflexivity.
Qed.

Lemma fresh_no_passage c c' : ~ passage maze c c'.
Proof.
  intros (d & Hd & _ & Ho). rewrite fresh_closed in Ho by assumption. discriminate.
Qed.

Lemma init_visited a b :
  in_grid maze a b ->
  visited_at maze (gs_visited (generate_init maze rng)) a b = true ->
  (a, b) = (0, 0).
Proof.
  intros Hab. unfold visited_at. simpl.
  assert (H0 : in_grid maze 0 0) by (unfold in_grid; lia).
  pose proof (CellIndex_bounds _ _ _ Hab). pose proof (CellIndex_bounds _ _ _ H0).
  destruct (Z.eq_dec (CellIndex maze a b) (CellIndex maze 0 0)) as [E | Hne].
  - intros _. apply CellIndex_inj in E; [|assumption..]. destruct E; congruence.
  - rewrite aget_aset_ne by lia. rewrite aget_replicate by lia. discriminate.
Qed.

Lemma init_inv :
  gen_inv (width maze) (height maze) (generate_init maze rng) (fun _ => O).
Proof.
  assert (H0 : in_grid maze 0 0) by (unfold in_grid; lia).
  pose proof (CellIndex_bounds _ _ _ H0) as B0.
  assert (Hv0 : visited_at maze (gs_visited (generate_init maze rng)) 0 0 = true).
  { unfold visited_at. simpl. apply aget_aset_eq. rewrite length_replicate. lia. }
  assert (Hcount : count_true (gs_visited (generate_init maze rng)) = 1%nat).
  { simpl. unfold aset. rewrite count_true_insert.
    - rewrite count_true_replicate_false. reflexivity.
    - apply lookup_replicate_2. lia. }
  constructor; simpl.
  - reflexivity.
  - reflexivity.
  - rewrite Hcells. apply length_replicate.
  - rewrite length_aset. apply length_replicate.
  - intros a b Hab. rewrite fresh_cell by assumption. unfold MAZE_ALL. lia.
  - intros a b Hab _. apply fresh_cell. assumption.
  - intros a b d Hd Hab Hab'.
    rewrite !Maze_HasWall_in, !fresh_cell by assumption.
    rewrite !wall_bit_all by auto using opposite_direction. reflexivity.
  - intros a b Hin. apply list_elem_of_singleton in Hin. injection Hin as -> ->.
    split; assumption.
  - intros a b Hab Hv Hnin. exfalso. apply Hnin.
    rewrite (init_visited a b Hab Hv). apply list_elem_of_singleton. reflexivity.
  - change (count_true (aset (replicate (Z.to_nat (width maze * height maze)) false)
                             (CellIndex maze 0 0) true))
      with (count_true (gs_visited (generate_init maze rng))).
    rewrite Hcount. unfold open_passages. rewrite filter_none; [reflexivity|].
    intros [[a b] d] Hs. apply elem_of_passage_slots in Hs.
    unfold slot_open. simpl. apply fresh_closed. apply direction_elem. tauto.
  - intros a b Hab Hv. rewrite (init_visited a b Hab Hv). apply rtc_refl.
  - intros a b Hab Hv.
    change (aset (replicate (Z.to_nat (width maze * height maze)) false)
                 (CellIndex maze 0 0) true)
      with (gs_visited (generate_init maze rng)).
    rewrite Hcount. lia.
  - intros c c' Hp. exfalso. exact (fresh_no_passage _ _ Hp).
  - intros c c1 c2 Hp. exfalso. exact (fresh_no_passage _ _ Hp).
  - split; assumption.
Qed.

Lemma init_measure :
  (gen_measure (width maze) (height maze) (generate_init maze rng)
   <= generate_fuel maze)%nat.
Proof.
  unfold gen_measure, generate_fuel.
  assert (Hcount : count_true (gs_visited (generate_init maze rng)) = 1%nat).
  { simpl. unfold aset. rewrite count_true_insert.
    - rewrite count_true_replicate_false. reflexivity.
    - apply lookup_replicate_2.
      assert (H0 : in_grid maze 0 0) by (unfold in_grid; lia).
      pose proof (CellIndex_bounds _ _ _ H0). lia. }
  rewrite Hcount. simpl. nia.
Qed.

End InitInv.

(** ** The state on exit from the loop *)

Section FinalFacts.
Variables (w h : Z) (st : GenState F) (rank : Z * Z -> nat).
Hypothesis Hinv : gen_inv w h st rank.
Hypothesis Hempty : gs_stack st = [].

Lemma final_step a b d :
  d ∈ directions ->
  in_grid (gs_maze st) a b ->
  visited_at (gs_maze st) (gs_visited st) a b = true ->
  in_grid (gs_maze st) (a + dir_dx d) (b + dir_dy d) ->
  visited_at (gs_maze st) (gs_visited st) (a + dir_dx d) (b + dir_dy d) = true.
Proof.
  intros Hd Hab Hv Hg.
  apply (gi_done _ _ _ _ Hinv a b Hab Hv); [|exact Hd|exact Hg].
  rewrite Hempty. apply not_elem_of_nil.
Qed.

Lemma final_row (n : nat) :
  Z.of_nat n < width (gs_maze st) ->
  visited_at (gs_maze st) (gs_visited st) (Z.of_nat n) 0 = true.
Proof.
  destruct (gi_origin _ _ _ _ Hinv) as [[_ H0] Hv0].
  induction n as [|n IH]; intros Hn; [exact Hv0|].
  pose proof (final_step (Z.of_nat n) 0 MAZE_EAST) as Hs.
  change (dir_dx MAZE_EAST) with 1 in Hs. change (0 + dir_dy MAZE_EAST) with 0 in Hs.
  replace (Z.of_nat (S n)) with (Z.of_nat n + 1) by lia.
  apply Hs.
  - apply direction_elem. tauto.
  - unfold in_grid. lia.
  - apply IH. lia.
  - unfold in_grid. lia.
Qed.

Lemma final_cell (n : nat) a :
  0 <= a < width (gs_maze st) ->
  Z.of_nat n < height (gs_maze st) ->
  visited_at (gs_maze st) (gs_visited st) a (Z.of_nat n) = true.
Proof.
  intros Ha. induction n as [|n IH]; intros Hn.
  - replace a with (Z.of_nat (Z.to_nat a)) by lia. apply final_row. lia.
  - pose proof (final_step a (Z.of_nat n) MAZE_SOUTH) as Hs.
    change (dir_dy MAZE_SOUTH) with 1 in Hs. change (dir_dx MAZE_SOUTH) with 0 in Hs.
    rewrite Z.add_0_r in Hs.
    replace (Z.of_nat (S n)) with (Z.of_nat n + 1) by lia.
    apply Hs.
    + apply direction_elem. tauto.
    + unfold in_grid. lia.
    + apply IH. lia.
    + unfold in_grid. lia.
Qed.

Lemma final_all_visited a b :
  in_grid (gs_maze st) a b ->
  visited_at (gs_maze st) (gs_visited st) a b = true.
Proof.
  intros [Ha Hb]. replace b with (Z.of_nat (Z.to_nat b)) by lia.
  apply final_cell; lia.
Qed.

Lemma final_count_visited :
  count_true (gs_visited st) = Z.to_nat (w * h).
Proof.
  rewrite <- (gi_visited_len _ _ _ _ Hinv). apply count_true_all.
  intros i Hi. rewrite (gi_visited_len _ _ _ _ Hinv) in Hi.
  pose proof (gi_width _ _ _ _ Hinv) as Ew. pose proof (gi_height _ _ _ _ Hinv) as Eh.
  destruct (gi_origin _ _ _ _ Hinv) as [[Hw0 Hh0] _].
  set (a := Z.of_nat i mod w). set (b := Z.of_nat i / w).
  assert (Hw : 0 < w) by lia.
  assert (Hab : in_grid (gs_maze st) a b).
  { unfold in_grid. rewrite Ew, Eh.
    pose proof (Z.mod_pos_bound (Z.of_nat i) w Hw).
    assert (0 <= b) by (apply Z.div_pos; lia).
    assert (b < h).
    { apply Z.div_lt_upper_bound; [lia|]. nia. }
    unfold a. lia. }
  assert (Ei : CellIndex (gs_maze st) a b = Z.of_nat i).
  { rewrite CellIndex_in by assumption. rewrite Ew.
    unfold a, b. pose proof (Z.div_mod (Z.of_nat i) w ltac:(lia)). lia. }
  pose proof (final_all_visited a b Hab) as Hv.
  apply (visited_at_lookup _ _ _ _ true) in Hv; [|rewrite Ew, Eh; apply (gi_visited_len _ _ _ _ Hinv)|exact Hab].
  rewrite Ei in Hv. rewrite Nat2Z.id in Hv. exact Hv.
Qed.

Lemma final_open_passages :
  Z.of_nat (open_passages (gs_maze st)) = w * h - 1.
Proof.
  pose proof (gi_count _ _ _ _ Hinv) as Hc. rewrite final_count_visited in Hc.
  destruct (gi_origin _ _ _ _ Hinv) as [[Hw0 Hh0] _].
  rewrite (gi_width _ _ _ _ Hinv) in Hw0. rewrite (gi_height _ _ _ _ Hinv) in Hh0.
  assert (0 < w * h) by nia. lia.
Qed.

Lemma rtc_passage_sym c c' :
  rtc (passage (gs_maze st)) c c' -> rtc (passage (gs_maze st)) c' c.
Proof.
  induction 1 as [|c1 c2 c3 Hp _ IH]; [apply rtc_refl|].
  eapply rtc_r; [exact IH|]. apply passage_sym. exact Hp.
Qed.

Lemma final_connected a b a' b' :
  in_grid (gs_maze st) a b -> in_grid (gs_maze st) a' b' ->
  rtc (passage (gs_maze st)) (a, b) (a', b').
Proof.
  intros Hab Hab'.
  eapply rtc_trans.
  - apply rtc_passage_sym. apply (gi_reach _ _ _ _ Hinv a b Hab).
    apply final_all_visited. exact Hab.
  - apply (gi_reach _ _ _ _ Hinv a' b' Hab'). apply final_all_visited. exact Hab'.
Qed.

End FinalFacts.

(** ** No cycle *)

Section NoCycle.
Variables (maze : Maze F) (rank : Z * Z -> nat).
Hypothesis Hinj : forall c c', passage maze c c' -> rank c <> rank c'.
Hypothesis Hparent : forall c c1 c2,
  passage maze c c1 -> passage maze c c2 ->
  (rank c1 < rank c)%nat -> (rank c2 < rank c)%nat -> c1 = c2.

Lemma path_of_app c p q mid last :
  path_of maze c p mid -> path_of maze mid q last -> path_of maze c (p ++ q) last.
Proof.
  revert c. induction p as [|c' p IH]; intros c; simpl.
  - intros ->. auto.
  - intros [Hp Hr] Hq. split; [exact Hp|]. apply IH; assumption.
Qed.

Lemma path_of_last c p last :
  path_of maze c p last -> p <> [] -> last ∈ p.
Proof.
  revert c. induction p as [|c' p IH]; intros c; simpl; [contradiction|].
  intros [_ Hr] _. destruct p as [|c'' p].
  - simpl in Hr. subst. left.
  - right. apply (IH c'); [exact Hr | discriminate].
Qed.

Lemma cycle_rotate c c1 p :
  cycle maze c (c1 :: p) -> cycle maze c1 (p ++ [c]).
Proof.
  intros (Hnd & Hlen & last & Hpath & Hclose).
  simpl in Hpath. destruct Hpath as [Hp Hr].
  split; [|split].
  - apply NoDup_cons in Hnd. destruct Hnd as [Hnin Hnd].
    apply NoDup_cons in Hnd. destruct Hnd as [Hnin1 Hnd1].
    apply NoDup_cons. split.
    + rewrite elem_of_app, list_elem_of_singleton. intros [Hin | E]; [contradiction|].
      apply Hnin. subst. left.
    + apply NoDup_app. split; [exact Hnd1|]. split; [|apply NoDup_singleton].
      intros u Hu Hu'. apply list_elem_of_singleton in Hu'. subst u.
      apply Hnin. right. exact Hu.
  - rewrite length_app. simpl in *. lia.
  - exists c. split; [|exact Hp].
    eapply path_of_app; [exact Hr|]. simpl. auto.
Qed.

Lemma cycle_rotate_to l1 : forall v l2 c p,
  c :: p = l1 ++ v :: l2 -> cycle maze c p -> cycle maze v (l2 ++ l1).
Proof.
  induction l1 as [|u l1 IH]; intros v l2 c p E Hc.
  - simpl in E. injection E as -> ->. rewrite app_nil_r. exact Hc.
  - simpl in E. injection E as -> ->.
    destruct l1 as [|u' l1].
    + simpl in *. apply cycle_rotate. exact Hc.
    + simpl in Hc. apply cycle_rotate in Hc.
      rewrite <- app_assoc in Hc. simpl in Hc.
      replace (l2 ++ u :: u' :: l1) with ((l2 ++ [u]) ++ u' :: l1)
        by (rewrite <- app_assoc; reflexivity).
      apply (IH v (l2 ++ [u]) u' (l1 ++ v :: l2 ++ [u])); [reflexivity | exact Hc].
Qed.

Lemma rank_max_exists (l : list (Z * Z)) :
  l <> [] -> exists v, v ∈ l /\ forall u, u ∈ l -> (rank u <= rank v)%nat.
Proof.
  induction l as [|a l IH]; [contradiction|]. intros _.
  destruct l as [|b l].
  - exists a. split; [left|]. intros u Hu. apply list_elem_of_singleton in Hu. subst. lia.
  - destruct IH as (v & Hv & Hmax); [discriminate|].
    destruct (le_lt_dec (rank a) (rank v)) as [Hle | Hlt].
    + exists v. split; [right; exact Hv|]. intros u Hu.
      apply elem_of_cons in Hu. destruct Hu as [-> | Hu]; auto.
    + exists a. split; [left|]. intros u Hu.
      apply elem_of_cons in Hu. destruct Hu as [-> | Hu]; [lia|].
      specialize (Hmax u Hu). lia.
Qed.

Lemma no_cycle c p : ~ cycle maze c p.
Proof.
  intros Hc.
  destruct (rank_max_exists (c :: p)) as (v & Hv & Hmax); [discriminate|].
  apply list_elem_of_split in Hv. destruct Hv as (l1 & l2 & E).
  pose proof (cycle_rotate_to l1 v l2 c p E Hc) as Hc'.
  assert (Hsub : forall u, u ∈ l2 ++ l1 -> (rank u <= rank v)%nat).
  { intros u Hu. apply Hmax. rewrite E.
    rewrite elem_of_app in Hu. rewrite elem_of_app, elem_of_cons. tauto. }
  destruct Hc' as (Hnd & Hlen & last & Hpath & Hclose).
  destruct (l2 ++ l1) as [|q1 q] eqn:Eq; [simpl in Hlen; lia|].
  destruct q as [|q2 q]; [simpl in Hlen; lia|].
  simpl in Hpath. destruct Hpath as [Hp1 [Hp2 Hrest]].
  assert (Hlast : last ∈ q2 :: q).
  { apply (path_of_last q1 (q2 :: q) last); [simpl; auto | discriminate]. }
  assert (Hne : q1 <> last).
  { intros ->. apply NoDup_cons in Hnd. destruct Hnd as [_ Hnd].
    apply NoDup_cons in Hnd. destruct Hnd as [Hnin _]. contradiction. }
  apply Hne. apply (Hparent v q1 last).
  - exact Hp1.
  - apply passage_sym. exact Hclose.
  - pose proof (Hsub q1 ltac:(left)). pose proof (Hinj _ _ Hp1). lia.
  - pose proof (Hsub last ltac:(right; exact Hlast)).
    pose proof (Hinj _ _ Hclose). lia.
Qed.

End NoCycle.

(** ** [Maze_Generate] *)

Lemma gi_walls_agree w h st rank : gen_inv w h st rank -> walls_agree (gs_maze st).
Proof.
  intros Hinv a b Hab. split; intros Hab'.
  - pose proof (gi_agree _ _ _ _ Hinv a b MAZE_EAST) as A.
    change (dir_dx MAZE_EAST) with 1 in A. change (dir_dy MAZE_EAST) with 0 in A.
    rewrite Z.add_0_r in A. apply A; auto. apply direction_elem. tauto.
  - pose proof (gi_agree _ _ _ _ Hinv a b MAZE_SOUTH) as A.
    change (dir_dx MAZE_SOUTH) with 0 in A. change (dir_dy MAZE_SOUTH) with 1 in A.
    rewrite Z.add_0_r in A. apply A; auto. apply direction_elem. tauto.
Qed.

Lemma created_init_inv ok_maze ok_cells w h cs maze rng :
  w * h <= INT_MAX ->
  Maze_Create ok_maze ok_cells w h cs = Some maze ->
  width maze = w /\ height maze = h /\
  gen_inv w h (generate_init maze rng) (fun _ => O) /\
  (gen_measure w h (generate_init maze rng) <= generate_fuel maze)%nat.
Proof.
  intros Hb Hc. apply Maze_Create_Some in Hc.
  destruct Hc as (Hw & Hh & Ew & Eh & _ & Ecells & _).
  specialize (Ecells Hb).
  split; [exact Ew|]. split; [exact Eh|].
  subst w h.
  split; [apply init_inv | apply init_measure]; assumption.
Qed.

(** The loop of [Maze_Generate] has ended when the fuel given to it is used
    up: the stack is empty. *)
Lemma generate_loop_ends ok_maze ok_cells w h cs maze rng :
  w * h <= INT_MAX ->
  Maze_Create ok_maze ok_cells w h cs = Some maze ->
  gs_stack (generate_loop rand_src (generate_fuel maze) (generate_init maze rng)) = [].
Proof.
  intros Hb Hc.
  destruct (created_init_inv _ _ _ _ _ _ rng Hb Hc) as (_ & _ & Hinv & Hm).
  eapply generate_loop_stack; eassumption.
Qed.

(** C1.  A maze made by [Maze_Create] and carved by [Maze_Generate] is a
    spanning tree of the grid: the loop of the generator ends, the number of
    adjacent-cell pairs with no wall between them is [w * h - 1], every cell
    is joined to every other cell by a chain of such pairs, and there is no
    cycle. *)
Theorem Maze_Generate_spanning_tree (w h : Z) (cs : F) (maze : Maze F) (rng : nat) :
  w * h <= INT_MAX ->
  Maze_Create true true w h cs = Some maze ->
  let maze' := fst (Maze_Generate rand_src true true maze rng) in
  gs_stack (generate_loop rand_src (generate_fuel maze) (generate_init maze rng)) = [] /\
  Z.of_nat (open_passages maze') = w * h - 1 /\
  (forall x y x' y', 0 <= x < w -> 0 <= y < h -> 0 <= x' < w -> 0 <= y' < h ->
     rtc (passage maze') (x, y) (x', y')) /\
  (forall c p, ~ cycle maze' c p).
Proof.
  intros Hb Hc maze'.
  destruct (created_init_inv _ _ _ _ _ _ rng Hb Hc) as (Ew & Eh & Hinv & Hm).
  pose proof (generate_loop_stack _ _ _ _ _ Hinv Hm) as Hend.
  destruct (generate_loop_inv w h (generate_fuel maze) _ _ Hinv) as (rank & Hfin).
  assert (Em : maze' = gs_maze (generate_loop rand_src (generate_fuel maze)
                                  (generate_init maze rng))) by reflexivity.
  rewrite Em. split; [exact Hend|]. split; [|split].
  - eapply final_open_passages; eassumption.
  - intros x y x' y' Hx Hy Hx' Hy'.
    eapply final_connected; try eassumption; unfold in_grid;
      rewrite (gi_width _ _ _ _ Hfin), (gi_height _ _ _ _ Hfin); lia.
  - apply (no_cycle _ rank).
    + exact (gi_rank_inj _ _ _ _ Hfin).
    + exact (gi_parent _ _ _ _ Hfin).
Qed.

(** C10.  Adjacent cells agree about their shared wall in the maze returned
    by [Maze_Create], after any number [k] of iterations of the loop of
    [Maze_Generate], and in the maze that [Maze_Generate] returns, whether
    its allocations succeed or not. *)
Theorem walls_agree_throughout (ok_maze ok_cells ok_visited ok_stack : bool)
  (w h : Z) (cs : F) (maze : Maze F) (rng : nat) (k : nat) :
  w * h <= INT_MAX ->
  Maze_Create ok_maze ok_cells w h cs = Some maze ->
  walls_agree maze /\
  walls_agree (gs_maze (generate_loop rand_src k (generate_init maze rng))) /\
  walls_agree (fst (Maze_Generate rand_src ok_visited ok_stack maze rng)).
Proof.
  intros Hb Hc.
  destruct (created_init_inv _ _ _ _ _ _ rng Hb Hc) as (Ew & Eh & Hinv & Hm).
  assert (H0 : walls_agree maze) by exact (gi_walls_agree _ _ _ _ Hinv).
  split; [exact H0|]. split.
  - destruct (generate_loop_inv w h k _ _ Hinv) as (rank & Hk).
    exact (gi_walls_agree _ _ _ _ Hk).
  - unfold Maze_Generate.
    destruct ok_visited; [|exact H0]. destruct ok_stack; [|exact H0]. simpl.
    destruct (generate_loop_inv w h (generate_fuel maze) _ _ Hinv) as (rank & Hk).
    exact (gi_walls_agree _ _ _ _ Hk).
Qed.

End StepFacts.

Lemma demo_rand_nonneg (n : nat) : 0 <= demo_rand n.
Proof. unfold demo_rand. apply Z.mod_pos_bound. reflexivity. Qed.

Lemma Maze_Generate_spanning_tree_witness :
  (forall n, 0 <= demo_rand n) /\
  3 * 2 <= INT_MAX /\
  Maze_Create true true 3 2 (f_lit 3 1) = Some demo_maze /\
  let maze' := fst (Maze_Generate demo_rand true true demo_maze 0) in
  gs_stack (generate_loop demo_rand (generate_fuel demo_maze)
              (generate_init demo_maze 0)) = [] /\
  Z.of_nat (open_passages maze') = 3 * 2 - 1 /\
  (forall x y x' y', 0 <= x < 3 -> 0 <= y < 2 -> 0 <= x' < 3 -> 0 <= y' < 2 ->
     rtc (passage maze') (x, y) (x', y')) /\
  (forall c p, ~ cycle maze' c p).
Proof.
  split; [exact demo_rand_nonneg|].
  split; [vm_compute; discriminate|].
  split; [reflexivity|].
  apply (Maze_Generate_spanning_tree demo_rand demo_rand_nonneg 3 2 (f_lit 3 1)).
  - vm_compute; discriminate.
  - reflexivity.
Defined.

Lemma walls_agree_throughout_witness :
  (forall n, 0 <= demo_rand n) /\
  3 * 2 <= INT_MAX /\
  Maze_Create true true 3 2 (f_lit 3 1) = Some demo_maze /\
  walls_agree demo_maze /\
  walls_agree (gs_maze (generate_loop demo_rand 4 (generate_init demo_maze 0))) /\
  walls_agree (fst (Maze_Generate demo_rand true true demo_maze 0)).
Proof.
  split; [exact demo_rand_nonneg|].
  split; [vm_compute; discriminate|].
  split; [reflexivity|].
  apply (walls_agree_throughout demo_rand demo_rand_nonneg true true true true
           3 2 (f_lit 3 1)).
  - vm_compute; discriminate.
  - reflexivity.
Defined.

(** * Creation, bounds and coordinate mappings *)

(** ** Integers in binary32 *)

Lemma digits2_pos_iter_xO (m : positive) (k : positive) :
  digits2_pos (Pos.iter xO m k) = (digits2_pos m + k)%positive.
Proof.
  induction k as [|k IH] using Pos.peano_ind.
  - cbn. lia.
  - rewrite Pos.iter_succ. cbn [digits2_pos]. rewrite IH. lia.
Qed.

Lemma Zpos_iter_xO (m : positive) (k : positive) :
  Zpos (Pos.iter xO m k) = Zpos m * 2 ^ Zpos k.
Proof.
  induction k as [|k IH] using Pos.peano_ind.
  - cbn. lia.
  - rewrite Pos.iter_succ, Pos2Z.inj_xO, IH, Pos2Z.inj_succ, Z.pow_succ_r by lia. lia.
Qed.

Lemma digits2_pos_lower (m : positive) :
  2 ^ (Zpos (digits2_pos m) - 1) <= Zpos m.
Proof.
  induction m as [m IH | m IH |]; cbn [digits2_pos].
  - rewrite Pos2Z.inj_succ.
    replace (Z.succ (Zpos (digits2_pos m)) - 1) with (Z.succ (Zpos (digits2_pos m) - 1))
      by lia.
    rewrite Z.pow_succ_r by lia. lia.
  - rewrite Pos2Z.inj_succ.
    replace (Z.succ (Zpos (digits2_pos m)) - 1) with (Z.succ (Zpos (digits2_pos m) - 1))
      by lia.
    rewrite Z.pow_succ_r by lia. lia.
  - cbn. lia.
Qed.

(** An integer of at most 24 bits is a binary32 number: the conversion to
    [float] and back returns it. *)
Lemma F32_small_int (m : positive) :
  Zpos m < 16777216 -> F32.to_int (F32.of_int (Zpos m)) = Zpos m.
Proof.
  intros Hm.
  pose proof (digits2_pos_lower m) as Hlow.
  assert (Hd : Zpos (digits2_pos m) <= 24).
  { destruct (Z.le_gt_cases (Zpos (digits2_pos m)) 24) as [|Hgt]; [assumption|].
    assert (2 ^ 24 <= 2 ^ (Zpos (digits2_pos m) - 1))
      by (apply Z.pow_le_mono_r; lia).
    change (2 ^ 24) with 16777216 in *. lia. }
  unfold F32.of_int, binary_normalize, binary_round, binary_round_aux, shr_fexp,
    shl_align, fexp, emin, F32.prec, F32.emax.
  change IntDef.Z.add with Z.add. change IntDef.Z.sub with Z.sub.
  change IntDef.Z.max with Z.max. change IntDef.Z.leb with Z.leb.
  rewrite Z.add_0_r, Z.sub_0_r.
  rewrite Z.max_l by lia.
  destruct (Zpos (digits2_pos m) - 24) as [|p|p] eqn:E; [| lia |].
  - (* 24 digits *)
    cbn [Zdigits2 shr_record_of_loc].
    rewrite Z.add_0_r, Z.max_l by lia. rewrite E.
    change (0 - 0) with 0. cbn [shr].
    cbn [shr_m loc_of_shr_record round_nearest_even Zdigits2 shr_record_of_loc].
    rewrite Z.add_0_r, Z.max_l by lia. rewrite E.
    change (0 - 0) with 0. cbn [shr shr_m].
    change (0 <=? 128 - 24) with true. cbv iota.
    unfold F32.to_int, F32.trunc.
    change (0 <=? 0) with true. cbv iota. rewrite Z.shiftl_0_r.
    unfold INT_MIN, INT_MAX.
    destruct (Z.leb_spec (-2147483648) (Zpos m)); [|lia].
    destruct (Z.leb_spec (Zpos m) 2147483647); [|lia]. reflexivity.
  - (* fewer digits: the mantissa is shifted left *)
    assert (Ed : Zpos (digits2_pos (Pos.iter xO m p)) = 24).
    { rewrite digits2_pos_iter_xO. lia. }
    cbn [Zdigits2 shr_record_of_loc].
    rewrite Ed.
    replace (24 + Z.neg p) with (Zpos (digits2_pos m)) by lia.
    rewrite Z.max_l by lia. rewrite E, Z.sub_diag. cbn [shr].
    cbn [shr_m loc_of_shr_record round_nearest_even Zdigits2 shr_record_of_loc].
    rewrite Ed.
    replace (24 + Z.neg p) with (Zpos (digits2_pos m)) by lia.
    rewrite Z.max_l by lia. rewrite E, Z.sub_diag. cbn [shr shr_m].
    destruct (Z.leb_spec (Z.neg p) (128 - 24)); [|lia].
    unfold F32.to_int, F32.trunc.
    destruct (Z.leb_spec 0 (Z.neg p)); [lia|].
    rewrite Zpos_iter_xO. change (- Z.neg p) with (Zpos p).
    rewrite Z.shiftr_div_pow2 by lia.
    rewrite Z.div_mul by (apply Z.pow_nonzero; lia).
    unfold INT_MIN, INT_MAX.
    destruct (Z.leb_spec (-2147483648) (Zpos m)); [|lia].
    destruct (Z.leb_spec (Zpos m) 2147483647); [|lia]. reflexivity.
Qed.

Lemma F32_int_round_trip (n : Z) :
  0 <= n <= 16777216 -> F32.to_int (F32.of_int n) = n.
Proof.
  intros Hn. destruct (Z.eq_dec n 16777216) as [-> | Hne]; [vm_compute; reflexivity|].
  destruct n as [|m|m]; [reflexivity | apply F32_small_int; lia | lia].
Qed.

Section CreateFacts.
Context {F : Type} `{CFloat F}.
Implicit Types maze : Maze F.

Lemma Maze_Create_None (ok_maze ok_cells : bool) (w h : Z) (cs : F) :
  Maze_Create ok_maze ok_cells w h cs = None <->
  w < 1 \/ h < 1 \/ fleb cs (f_lit 0 1) = true \/
  ok_maze = false \/ ok_cells = false.
Proof.
  unfold Maze_Create.
  destruct (Z.ltb_spec w 1) as [Hw | Hw]; simpl; [split; auto; lia|].
  destruct (Z.ltb_spec h 1) as [Hh | Hh]; simpl; [split; auto; lia|].
  destruct (fleb cs (f_lit 0 1)); simpl; [split; auto|].
  destruct ok_maze; simpl; [|split; auto].
  destruct ok_cells; simpl; [|split; auto].
  split; [discriminate|].
  intros [A | [A | [A | [A | A]]]]; try lia; discriminate.
Qed.

(** The exit test of a maze [Maze_Create] returns, when the conversion of
    [w - 1] and [h - 1] to [float] and back is exact. *)
Lemma Maze_Create_exit (ok_maze ok_cells : bool) (w h : Z) (cs : F) maze :
  Maze_Create ok_maze ok_cells w h cs = Some maze ->
  f_to_int (f_of_int (w - 1) : F) = w - 1 ->
  f_to_int (f_of_int (h - 1) : F) = h - 1 ->
  f_to_int (vx (exitPos maze)) = w - 1 /\
  f_to_int (vy (exitPos maze)) = h - 1 /\
  (forall x y, Maze_IsExit maze x y = true <-> x = w - 1 /\ y = h - 1).
Proof.
  intros Hc Ex Ey. apply Maze_Create_Some in Hc.
  destruct Hc as (_ & _ & _ & _ & _ & _ & _ & Ee).
  unfold Maze_IsExit. rewrite Ee. cbn [vx vy]. rewrite Ex, Ey.
  split; [reflexivity|]. split; [reflexivity|].
  intros x y. rewrite andb_true_iff, !Z.eqb_eq. tauto.
Qed.

(** Outside the grid every wall query answers [true]. *)
Lemma Maze_HasWall_outside maze x y d :
  ~ (0 <= x < width maze /\ 0 <= y < height maze) -> Maze_HasWall maze x y d = true.
Proof. apply Maze_HasWall_out. Qed.

End CreateFacts.

(** C4, as stated, fails in two ways.  [width * height] is an [int]
    product: for 65536 by 65536 it wraps to 0, [calloc] is asked for no
    cell, and a maze without cells is returned.  And [exitPos] holds
    [float]s: in a row of 16777218 cells, [width - 1 = 16777217] is not a
    binary32 number, the exit is stored as 16777216, and the cell
    [(width - 1, height - 1)] is not the exit. *)
Lemma Maze_Create_incomplete :
  (exists maze : Maze spec_float,
     Maze_Create true true 65536 65536 (f_lit 3 1) = Some maze /\
     width maze = 65536 /\ height maze = 65536 /\ cells maze = []) /\
  (exists maze : Maze spec_float,
     Maze_Create true true 16777218 1 (f_lit 1 1) = Some maze /\
     f_to_int (vx (exitPos maze)) = 16777216 /\
     Maze_IsExit maze (16777218 - 1) (1 - 1) = false).
Proof.
  split.
  - eexists. split; [reflexivity|]. repeat split; reflexivity.
  - destruct (Maze_Create true true 16777218 1 (f_lit 1 1 : spec_float))
      as [maze|] eqn:Hc.
    + exists maze. split; [reflexivity|].
      apply Maze_Create_Some in Hc.
      destruct Hc as (_ & _ & _ & _ & _ & _ & _ & Ee).
      unfold Maze_IsExit. rewrite Ee. cbn [vx vy].
      split; vm_compute; reflexivity.
    + apply Maze_Create_None in Hc.
      destruct Hc as [A | [A | [A | [A | A]]]]; try lia; discriminate A.
Qed.

(** C4.  [Maze_Create] returns null exactly when a dimension is below 1, the
    cell size is [<= 0], or one of its two allocations fails.  A maze it
    returns has the dimensions and cell size asked for, start (0,0) and exit
    [((float)(w - 1), (float)(h - 1))]; when [w * h] fits an [int] it has
    [w * h] cells, each with all four walls.  The exit is the cell
    [(w - 1, h - 1)] in exact arithmetic, and in binary32 as long as
    [w - 1] and [h - 1] are at most [2^24]. *)
Theorem Maze_Create_null_or_complete :
  (forall (F : Type) (HF : CFloat F) (ok_maze ok_cells : bool) (w h : Z) (cs : F),
     (Maze_Create ok_maze ok_cells w h cs = None <->
        w < 1 \/ h < 1 \/ fleb cs (f_lit 0 1) = true \/
        ok_maze = false \/ ok_cells = false) /\
     (forall maze : Maze F, Maze_Create ok_maze ok_cells w h cs = Some maze ->
        width maze = w /\ height maze = h /\ cellSize maze = cs /\
        startPos maze = mkVector2 (f_of_int 0) (f_of_int 0) /\
        exitPos maze = mkVector2 (f_of_int (w - 1)) (f_of_int (h - 1)) /\
        (w * h <= INT_MAX ->
           Z.of_nat (length (cells maze)) = w * h /\
           (forall i, 0 <= i < w * h -> aget (cells maze) i = MAZE_ALL) /\
           (forall x y d, in_grid maze x y -> d ∈ directions ->
              Maze_HasWall maze x y d = true)))) /\
  (forall (ok_maze ok_cells : bool) (w h : Z) (cs : Q) (maze : Maze Q),
     Maze_Create ok_maze ok_cells w h cs = Some maze ->
     f_to_int (vx (startPos maze)) = 0 /\ f_to_int (vy (startPos maze)) = 0 /\
     f_to_int (vx (exitPos maze)) = w - 1 /\ f_to_int (vy (exitPos maze)) = h - 1 /\
     (forall x y, Maze_IsExit maze x y = true <-> x = w - 1 /\ y = h - 1)) /\
  (forall (ok_maze ok_cells : bool) (w h : Z) (cs : spec_float)
          (maze : Maze spec_float),
     Maze_Create ok_maze ok_cells w h cs = Some maze ->
     w - 1 <= 16777216 -> h - 1 <= 16777216 ->
     f_to_int (vx (startPos maze)) = 0 /\ f_to_int (vy (startPos maze)) = 0 /\
     f_to_int (vx (exitPos maze)) = w - 1 /\ f_to_int (vy (exitPos maze)) = h - 1 /\
     (forall x y, Maze_IsExit maze x y = true <-> x = w - 1 /\ y = h - 1)).
Proof.
  split; [|split].
  - intros F HF ok_maze ok_cells w h cs. split; [apply Maze_Create_None|].
    intros maze Hc. apply Maze_Create_Some in Hc.
    destruct Hc as (Hw & Hh & Ew & Eh & Ecs & Ecells & Es & Ee).
    split; [exact Ew|]. split; [exact Eh|]. split; [exact Ecs|].
    split; [exact Es|]. split; [exact Ee|].
    intros Hb. specialize (Ecells Hb). assert (0 <= w * h) by nia.
    split; [rewrite Ecells, length_replicate; lia|].
    split; [intros i Hi; rewrite Ecells; apply aget_replicate; lia|].
    intros x y d Hxy Hd. rewrite <- Ew, <- Eh in Ecells.
    rewrite Maze_HasWall_in by exact Hxy.
    rewrite (fresh_cell maze ltac:(lia) ltac:(lia) Ecells) by exact Hxy.
    apply wall_bit_all. exact Hd.
  - intros ok_maze ok_cells w h cs maze Hc.
    assert (Hq : forall n : Z, @f_to_int Q exactQ (f_of_int n) = n).
    { intros n. cbn [f_to_int f_of_int exactQ inject_Z Qnum Qden]. apply Z.quot_1_r. }
    destruct (Maze_Create_exit _ _ _ _ _ _ Hc (Hq _) (Hq _)) as (A & B & C).
    apply Maze_Create_Some in Hc.
    destruct Hc as (_ & _ & _ & _ & _ & _ & Es & _).
    rewrite Es. cbn [vx vy]. rewrite (Hq 0). auto.
  - intros ok_maze ok_cells w h cs maze Hc Hw Hh.
    pose proof (Maze_Create_Some _ _ _ _ _ _ Hc) as (Hw1 & Hh1 & _ & _ & _ & _ & Es & _).
    assert (Hf : forall n : Z, 0 <= n <= 16777216 ->
              @f_to_int spec_float binary32 (f_of_int n) = n)
      by exact F32_int_round_trip.
    destruct (Maze_Create_exit _ _ _ _ _ _ Hc (Hf (w - 1) ltac:(lia))
                (Hf (h - 1) ltac:(lia)))
      as (A & B & C).
    rewrite Es. cbn [vx vy]. rewrite (Hf 0) by lia. auto.
Qed.

Lemma Maze_Create_null_or_complete_witness :
  Maze_Create true true 3 2 (f_lit 3 1) = Some demo_maze /\
  3 * 2 <= INT_MAX /\ 3 - 1 <= 16777216 /\ 2 - 1 <= 16777216 /\
  Z.of_nat (length (cells demo_maze)) = 3 * 2 /\
  f_to_int (vx (exitPos demo_maze)) = 3 - 1 /\
  f_to_int (vy (exitPos demo_maze)) = 2 - 1.
Proof.
  assert (Hc : Maze_Create true true 3 2 (f_lit 3 1) = Some demo_maze) by reflexivity.
  assert (Hb : 3 * 2 <= INT_MAX) by (vm_compute; discriminate).
  assert (Hw : 3 - 1 <= 16777216) by lia.
  assert (Hh : 2 - 1 <= 16777216) by lia.
  split; [exact Hc|]. split; [exact Hb|]. split; [exact Hw|]. split; [exact Hh|].
  destruct Maze_Create_null_or_complete as (A & _ & C).
  destruct (A spec_float binary32 true true 3 2 (f_lit 3 1)) as [_ A'].
  destruct (A' demo_maze Hc) as (_ & _ & _ & _ & _ & Hcells).
  destruct (Hcells Hb) as (Hlen & _).
  destruct (C true true 3 2 (f_lit 3 1) demo_maze Hc Hw Hh) as (_ & _ & Ex & Ey & _).
  split; [exact Hlen|]. split; [exact Ex | exact Ey].
Defined.

(** * Exact arithmetic *)

Lemma Q_to_int_half (q : Q) (x : Z) :
  0 <= x -> (q == inject_Z x + (1 # 2))%Q -> @f_to_int Q exactQ q = x.
Proof.
  intros Hx E. simpl. destruct q as [n d]. unfold Qeq in E. simpl in *.
  assert (Hn : n * 2 = (x * 2 + 1) * Zpos d) by lia.
  assert (0 <= n) by nia.
  rewrite Z.quot_div_nonneg by lia.
  symmetry. apply Z.div_unique with (r := n - x * Zpos d). lia. lia.
Qed.

Lemma Q_to_int_ge (q : Q) (w : Z) :
  0 <= w -> (inject_Z w <= q)%Q -> w <= @f_to_int Q exactQ q.
Proof.
  intros Hw E. simpl. destruct q as [n d]. unfold Qle in E. simpl in *.
  assert (0 <= n) by nia.
  rewrite Z.quot_div_nonneg by lia.
  apply Z.div_le_lower_bound; lia.
Qed.

Lemma Q_to_int_le_neg (q : Q) :
  (q <= inject_Z (-1))%Q -> @f_to_int Q exactQ q <= -1.
Proof.
  intros E. simpl. destruct q as [n d]. unfold Qle in E. simpl in *.
  assert (Hn : n <= - Zpos d) by lia.
  replace n with (- (- n)) by lia. rewrite Z.quot_opp_l by lia.
  rewrite Z.quot_div_nonneg by lia.
  assert (1 <= (- n) / Zpos d) by (apply Z.div_le_lower_bound; lia).
  lia.
Qed.

Lemma exact_axis_round_trip (w x : Z) (cs : Q) :
  0 <= x -> ~ (cs == 0)%Q ->
  @f_to_int Q exactQ
    (((inject_Z x - inject_Z w * (1 # 2) + (1 # 2)) * cs) / cs
     + inject_Z w * (1 # 2))%Q = x.
Proof.
  intros Hx Hcs. apply Q_to_int_half; [exact Hx|]. field. exact Hcs.
Qed.

Lemma exact_round_trip (maze : Maze Q) (x y : Z) :
  (0 < cellSize maze)%Q -> 0 <= x -> 0 <= y ->
  Maze_WorldToCell maze (vx (Maze_CellToWorld maze x y))
                        (vy (Maze_CellToWorld maze x y)) = (x, y).
Proof.
  intros Hcs Hx Hy.
  assert (Hne : ~ (cellSize maze == 0)%Q).
  { intros E. rewrite E in Hcs. discriminate Hcs. }
  unfold Maze_WorldToCell, Maze_CellToWorld. cbn [vx vy fadd fsub fmul fdiv f_of_int f_lit exactQ].
  f_equal; apply exact_axis_round_trip; assumption.
Qed.

(** * binary32 *)

Lemma round_trip_all_spec {F : Type} `{CFloat F} (maze : Maze F) :
  round_trip_all maze = true ->
  forall x y, 0 <= x < width maze -> 0 <= y < height maze ->
    Maze_WorldToCell maze (vx (Maze_CellToWorld maze x y))
                          (vy (Maze_CellToWorld maze x y)) = (x, y).
Proof.
  unfold round_trip_all. intros Hall x y Hx Hy.
  rewrite forallb_forall in Hall.
  specialize (Hall y). rewrite forallb_forall in Hall.
  assert (Hy' : In y (seqZ 0 (height maze))).
  { apply list_elem_of_In, elem_of_seqZ. lia. }
  assert (Hx' : In x (seqZ 0 (width maze))).
  { apply list_elem_of_In, elem_of_seqZ. lia. }
  specialize (Hall Hy' x Hx'). unfold round_trip in Hall.
  destruct (Maze_WorldToCell maze _ _) as [cx cy].
  apply andb_true_iff in Hall. destruct Hall as [A B].
  apply Z.eqb_eq in A, B. congruence.
Qed.

Lemma Maze_Create_ok {F : Type} `{CFloat F} (w h : Z) (cs : F) :
  1 <= w -> 1 <= h -> w * h <= INT_MAX -> fleb cs (f_lit 0 1) = false ->
  Maze_Create true true w h cs =
  Some {| width := w;
          height := h;
          cells := replicate (Z.to_nat (w * h)) MAZE_ALL;
          cellSize := cs;
          startPos := mkVector2 (f_of_int 0) (f_of_int 0);
          exitPos := mkVector2 (f_of_int (w - 1)) (f_of_int (h - 1)) |}.
Proof.
  intros Hw Hh Hb Hcs. unfold Maze_Create.
  destruct (Z.ltb_spec w 1); [lia|]. destruct (Z.ltb_spec h 1); [lia|].
  rewrite Hcs. cbn [orb negb]. cbv zeta. assert (0 <= w * h) by nia.
  rewrite int_wrap_id by (unfold INT_MIN; lia).
  rewrite to_size_t_id by lia. rewrite fill_from_all. reflexivity.
Qed.

Lemma game_maze_created :
  Maze_Create true true MAZE_WIDTH MAZE_HEIGHT CELL_SIZE = Some game_maze.
Proof. reflexivity. Qed.

Lemma wide_maze_created :
  Maze_Create true true 8388610 1 (f_lit 1 1) = Some wide_maze.
Proof.
  exact (Maze_Create_ok 8388610 1 (f_lit 1 1 : spec_float)
           ltac:(lia) ltac:(lia) ltac:(vm_compute; discriminate) eq_refl).
Qed.

(** C2, as stated, fails: in a row of 8388610 cells of size 1 the cell
    (8388609, 0) comes back as (8388610, 0); binary32 has no half-integers
    between 2^23 and 2^24, and [8388609.5f] is [8388610.0f]. *)
Lemma round_trip_fails_on_wide_maze :
  Maze_Create true true 8388610 1 (f_lit 1 1) = Some wide_maze /\
  0 <= 8388609 < width wide_maze /\ 0 <= 0 < height wide_maze /\
  Maze_WorldToCell wide_maze (vx (Maze_CellToWorld wide_maze 8388609 0))
                             (vy (Maze_CellToWorld wide_maze 8388609 0))
  = (8388610, 0).
Proof.
  split; [exact wide_maze_created|].
  split; [cbn [width wide_maze]; lia|].
  split; [cbn [height wide_maze]; lia|].
  unfold Maze_WorldToCell, Maze_CellToWorld.
  cbn [width height cellSize wide_maze vx vy].
  vm_compute. reflexivity.
Qed.

(** C2.  In exact arithmetic [Maze_WorldToCell] undoes [Maze_CellToWorld] on
    every cell of every maze with a positive cell size; in binary32 it does
    so on every cell of the maze of the game. *)
Theorem round_trip_exact_and_game :
  (forall (maze : Maze Q) (x y : Z),
     (0 < cellSize maze)%Q -> 0 <= x < width maze -> 0 <= y < height maze ->
     Maze_WorldToCell maze (vx (Maze_CellToWorld maze x y))
                           (vy (Maze_CellToWorld maze x y)) = (x, y)) /\
  (Maze_Create true true MAZE_WIDTH MAZE_HEIGHT CELL_SIZE = Some game_maze /\
   forall x y : Z,
     0 <= x < width game_maze -> 0 <= y < height game_maze ->
     Maze_WorldToCell game_maze (vx (Maze_CellToWorld game_maze x y))
                                (vy (Maze_CellToWorld game_maze x y)) = (x, y)).
Proof.
  split.
  - intros maze x y Hcs Hx Hy. apply exact_round_trip; [exact Hcs | lia | lia].
  - split; [exact game_maze_created|].
    apply round_trip_all_spec. vm_compute. reflexivity.
Qed.

Lemma round_trip_exact_and_game_witness :
  let maze : Maze Q :=
    {| width := 4; height := 3; cells := replicate 12 MAZE_ALL;
       cellSize := 3 # 1;
       startPos := mkVector2 0%Q 0%Q; exitPos := mkVector2 (3 # 1) (2 # 1) |} in
  (0 < cellSize maze)%Q /\ 0 <= 2 < width maze /\ 0 <= 1 < height maze /\
  Maze_WorldToCell maze (vx (Maze_CellToWorld maze 2 1))
                        (vy (Maze_CellToWorld maze 2 1)) = (2, 1).
Proof.
  intros maze.
  assert (Hcs : (0 < cellSize maze)%Q) by reflexivity.
  assert (Hx : 0 <= 2 < width maze) by (simpl; lia).
  assert (Hy : 0 <= 1 < height maze) by (simpl; lia).
  split; [exact Hcs|]. split; [exact Hx|]. split; [exact Hy|].
  exact (proj1 round_trip_exact_and_game maze 2 1 Hcs Hx Hy).
Defined.

(** C6, as stated, fails in its second half: nothing clamps the result of
    [Maze_WorldToCell].  With the maze of the game, which spans
    [-22.5, 22.5], the world point (100, 0) maps to column 40. *)
Lemma WorldToCell_is_not_clamped :
  Maze_Create true true MAZE_WIDTH MAZE_HEIGHT CELL_SIZE = Some game_maze /\
  Maze_WorldToCell game_maze (f_lit 100 1) (f_lit 0 1) = (40, 7) /\
  ~ (0 <= 40 < width game_maze).
Proof.
  split; [exact game_maze_created|]. split; [vm_compute; reflexivity|].
  simpl. lia.
Qed.

(** C6.  Outside the grid [Maze_HasWall] answers [true] for every direction.
    [Maze_WorldToCell] returns the truncation of [world / cellSize + size / 2]
    as it is, with no clamp: in exact arithmetic, with a positive cell size,
    a point on or beyond the east (south) edge of the maze maps to a column
    (row) that is at least [width] ([height]), and a point a whole cell or
    more beyond the west (north) edge to a negative one. *)
Theorem out_of_bounds_queries :
  (forall (F : Type) (HF : CFloat F) (maze : Maze F) (x y d : Z),
     ~ (0 <= x < width maze /\ 0 <= y < height maze) ->
     Maze_HasWall maze x y d = true) /\
  (forall (F : Type) (HF : CFloat F) (maze : Maze F) (wx wz : F),
     Maze_WorldToCell maze wx wz
     = (f_to_int (wx / cellSize maze + f_of_int (width maze) * f_lit 1 2)%F,
        f_to_int (wz / cellSize maze + f_of_int (height maze) * f_lit 1 2)%F)) /\
  (forall (maze : Maze Q) (wx wz : Q),
     (0 < cellSize maze)%Q -> 0 <= width maze -> 0 <= height maze ->
     ((inject_Z (width maze) * (1 # 2) * cellSize maze <= wx)%Q ->
        width maze <= fst (Maze_WorldToCell maze wx wz)) /\
     ((inject_Z (height maze) * (1 # 2) * cellSize maze <= wz)%Q ->
        height maze <= snd (Maze_WorldToCell maze wx wz)) /\
     ((wx <= - (inject_Z (width maze) * (1 # 2) + 1) * cellSize maze)%Q ->
        fst (Maze_WorldToCell maze wx wz) <= -1) /\
     ((wz <= - (inject_Z (height maze) * (1 # 2) + 1) * cellSize maze)%Q ->
        snd (Maze_WorldToCell maze wx wz) <= -1)).
Proof.
  split; [|split].
  - intros F HF maze x y d Hout. apply Maze_HasWall_out. exact Hout.
  - intros F HF maze wx wz. reflexivity.
  - intros maze wx wz Hcs Hw Hh.
    unfold Maze_WorldToCell.
    cbn [fst snd fadd fsub fmul fdiv f_of_int f_lit exactQ].
    assert (Hge : forall (n : Z) (v : Q), 0 <= n ->
              (inject_Z n * (1 # 2) * cellSize maze <= v)%Q ->
              n <= @f_to_int Q exactQ (v / cellSize maze + inject_Z n * (1 # 2))%Q).
    { intros n v Hn Hv. apply Q_to_int_ge; [exact Hn|].
      assert (inject_Z n * (1 # 2) <= v / cellSize maze)%Q
        by (apply Qle_shift_div_l; assumption).
      assert (E : (inject_Z n == inject_Z n * (1 # 2) + inject_Z n * (1 # 2))%Q)
        by ring.
      rewrite E at 1. apply Qplus_le_compat; [assumption | apply Qle_refl]. }
    assert (Hle : forall (n : Z) (v : Q),
              (v <= - (inject_Z n * (1 # 2) + 1) * cellSize maze)%Q ->
              @f_to_int Q exactQ (v / cellSize maze + inject_Z n * (1 # 2))%Q <= -1).
    { intros n v Hv. apply Q_to_int_le_neg.
      assert (v / cellSize maze <= - (inject_Z n * (1 # 2) + 1))%Q
        by (apply Qle_shift_div_r; assumption).
      assert (E : (inject_Z (-1) == - (inject_Z n * (1 # 2) + 1) + inject_Z n * (1 # 2))%Q)
        by ring.
      rewrite E. apply Qplus_le_compat; [assumption | apply Qle_refl]. }
    repeat split; auto.
Qed.

Lemma out_of_bounds_queries_witness :
  let maze : Maze Q :=
    {| width := 4; height := 3; cells := replicate 12 MAZE_ALL;
       cellSize := 3 # 1;
       startPos := mkVector2 0%Q 0%Q; exitPos := mkVector2 (3 # 1) (2 # 1) |} in
  ~ (0 <= 15 < width game_maze /\ 0 <= 3 < height game_maze) /\
  Maze_HasWall game_maze 15 3 MAZE_WEST = true /\
  (0 < cellSize maze)%Q /\ 0 <= width maze /\ 0 <= height maze /\
  (inject_Z (width maze) * (1 # 2) * cellSize maze <= 6)%Q /\
  width maze <= fst (Maze_WorldToCell maze (6 # 1) 0%Q).
Proof.
  intros maze.
  assert (Hout : ~ (0 <= 15 < width game_maze /\ 0 <= 3 < height game_maze))
    by (simpl; lia).
  assert (Hcs : (0 < cellSize maze)%Q) by reflexivity.
  assert (Hw : 0 <= width maze) by (simpl; lia).
  assert (Hh : 0 <= height maze) by (simpl; lia).
  assert (Hx : (inject_Z (width maze) * (1 # 2) * cellSize maze <= 6)%Q)
    by (vm_compute; discriminate).
  split; [exact Hout|].
  split; [exact (proj1 out_of_bounds_queries spec_float binary32 game_maze 15 3
                   MAZE_WEST Hout)|].
  split; [exact Hcs|]. split; [exact Hw|]. split; [exact Hh|]. split; [exact Hx|].
  exact (proj1 (proj2 (proj2 out_of_bounds_queries) maze (6 # 1) 0%Q Hcs Hw Hh) Hx).
Defined.

(** * [Maze_GetWallRects] *)

Section RectFacts.
Context {F : Type} `{CFloat F}.
Implicit Types maze : Maze F.

Lemma emit_cell_spec maze x y out :
  emit_cell maze x y out = out ++ cell_rects maze x y.
Proof.
  unfold emit_cell, cell_rects, emitted_at.
  destruct (Maze_HasWall maze x y MAZE_NORTH), (Maze_HasWall maze x y MAZE_WEST),
    ((x =? width maze - 1) && Maze_HasWall maze x y MAZE_EAST),
    ((y =? height maze - 1) && Maze_HasWall maze x y MAZE_SOUTH);
    simpl; rewrite <- ?app_assoc, ?app_nil_r; reflexivity.
Qed.

Lemma length_emitted_at maze x y : (length (emitted_at maze x y) <= 4)%nat.
Proof.
  unfold emitted_at.
  destruct (Maze_HasWall maze x y MAZE_NORTH), (Maze_HasWall maze x y MAZE_WEST),
    ((x =? width maze - 1) && Maze_HasWall maze x y MAZE_EAST),
    ((y =? height maze - 1) && Maze_HasWall maze x y MAZE_SOUTH); simpl; lia.
Qed.

Lemma length_cell_rects maze x y : (length (cell_rects maze x y) <= 4)%nat.
Proof.
  unfold cell_rects. rewrite !length_fmap. apply length_emitted_at.
Qed.

Lemma rects_row_spec maze y maxRects n x out :
  x + Z.of_nat n = width maze ->
  Z.of_nat (length out) + 4 * Z.of_nat n <= maxRects ->
  rects_row n x maze y maxRects out
  = out ++ (x' ← seqZ x (Z.of_nat n); cell_rects maze x' y) /\
  Z.of_nat (length (rects_row n x maze y maxRects out))
  <= Z.of_nat (length out) + 4 * Z.of_nat n.
Proof.
  revert x out. induction n as [|n IH]; intros x out Hx Hcap.
  - cbn [rects_row]. rewrite seqZ_nil by lia. cbn. rewrite app_nil_r.
    split; [reflexivity | lia].
  - cbn [rects_row].
    destruct (Z.ltb_spec x (width maze)); [|lia].
    destruct (Z.ltb_spec (Z.of_nat (length out)) maxRects); [|lia].
    cbn [andb]. rewrite emit_cell_spec.
    pose proof (length_cell_rects maze x y) as Hl.
    destruct (IH (x + 1) (out ++ cell_rects maze x y)) as [E L].
    { lia. }
    { rewrite length_app. lia. }
    rewrite E. split.
    + rewrite (seqZ_cons x) by lia. rewrite bind_cons. rewrite <- app_assoc.
      replace (Z.pred (Z.of_nat (S n))) with (Z.of_nat n) by lia.
      reflexivity.
    + rewrite E in L. rewrite !length_app in L |- *. lia.
Qed.

Lemma rects_rows_spec maze maxRects n y out :
  0 <= width maze ->
  y + Z.of_nat n = height maze ->
  Z.of_nat (length out) + 4 * (width maze * Z.of_nat n) <= maxRects ->
  (1 <= width maze \/ n = O) ->
  rects_rows n y maze maxRects out
  = out ++ (y' ← seqZ y (Z.of_nat n); x' ← seqZ 0 (width maze); cell_rects maze x' y').
Proof.
  intros Hw. revert y out. induction n as [|n IH]; intros y out Hy Hcap Hpos.
  - cbn [rects_rows]. rewrite (seqZ_nil y) by lia. cbn. rewrite app_nil_r. reflexivity.
  - cbn [rects_rows].
    destruct Hpos as [Hpos | Hpos]; [|discriminate].
    destruct (Z.ltb_spec y (height maze)); [|lia].
    destruct (Z.ltb_spec (Z.of_nat (length out)) maxRects); [|nia].
    cbn [andb].
    destruct (rects_row_spec maze y maxRects (Z.to_nat (width maze)) 0 out) as [E L].
    { lia. }
    { nia. }
    rewrite IH.
    + rewrite E. rewrite (seqZ_cons y) by lia. rewrite bind_cons. rewrite <- app_assoc.
      replace (Z.pred (Z.of_nat (S n))) with (Z.of_nat n) by lia.
      replace (Z.of_nat (Z.to_nat (width maze))) with (width maze) by lia.
      reflexivity.
    + lia.
    + nia.
    + left. exact Hpos.
Qed.

(** The same when the capacity is just the number of rectangles there are
    to write: a guard that fails then has nothing left to stop. *)
Lemma rects_row_fits maze y maxRects n x out :
  x + Z.of_nat n = width maze ->
  Z.of_nat (length out)
  + Z.of_nat (length (x' ← seqZ x (Z.of_nat n); cell_rects maze x' y)) <= maxRects ->
  rects_row n x maze y maxRects out
  = out ++ (x' ← seqZ x (Z.of_nat n); cell_rects maze x' y).
Proof.
  revert x out. induction n as [|n IH]; intros x out Hx Hcap.
  - cbn [rects_row]. rewrite seqZ_nil by lia. cbn. rewrite app_nil_r. reflexivity.
  - cbn [rects_row].
    rewrite (seqZ_cons x) in Hcap |- * by lia. rewrite bind_cons in Hcap |- *.
    replace (Z.pred (Z.of_nat (S n))) with (Z.of_nat n) in Hcap |- * by lia.
    change (Z.succ x) with (x + 1) in Hcap |- *.
    rewrite length_app in Hcap.
    destruct (Z.ltb_spec x (width maze)); [|lia].
    destruct (Z.ltb_spec (Z.of_nat (length out)) maxRects) as [Hroom | Hfull];
      cbn [andb].
    + rewrite emit_cell_spec, IH; [rewrite <- app_assoc; reflexivity | lia |].
      rewrite length_app. lia.
    + destruct (cell_rects maze x y ++ _) as [|r l] eqn:E;
        [rewrite app_nil_r; reflexivity|].
      apply (f_equal length) in E. rewrite length_app in E. cbn [length] in E. lia.
Qed.

Lemma rects_rows_fits maze maxRects n y out :
  y + Z.of_nat n = height maze ->
  Z.of_nat (length out)
  + Z.of_nat (length (y' ← seqZ y (Z.of_nat n); x' ← seqZ 0 (width maze);
                      cell_rects maze x' y')) <= maxRects ->
  rects_rows n y maze maxRects out
  = out ++ (y' ← seqZ y (Z.of_nat n); x' ← seqZ 0 (width maze); cell_rects maze x' y').
Proof.
  revert y out. induction n as [|n IH]; intros y out Hy Hcap.
  - cbn [rects_rows]. rewrite (seqZ_nil y) by lia. cbn. rewrite app_nil_r. reflexivity.
  - cbn [rects_rows].
    rewrite (seqZ_cons y) in Hcap |- * by lia. rewrite bind_cons in Hcap |- *.
    replace (Z.pred (Z.of_nat (S n))) with (Z.of_nat n) in Hcap |- * by lia.
    change (Z.succ y) with (y + 1) in Hcap |- *.
    rewrite length_app in Hcap.
    assert (Erow : seqZ 0 (width maze) = seqZ 0 (Z.of_nat (Z.to_nat (width maze)))).
    { destruct (Z.le_gt_cases 0 (width maze)).
      - rewrite Z2Nat.id by lia. reflexivity.
      - rewrite !seqZ_nil by lia. reflexivity. }
    destruct (Z.ltb_spec y (height maze)); [|lia].
    destruct (Z.ltb_spec (Z.of_nat (length out)) maxRects) as [Hroom | Hfull];
      cbn [andb].
    + destruct (Z.le_gt_cases 0 (width maze)) as [Hw | Hw].
      * rewrite rects_row_fits; [| lia | rewrite <- Erow; lia].
        rewrite <- Erow. rewrite IH; [rewrite <- app_assoc; reflexivity | lia |].
        rewrite length_app. lia.
      * replace (Z.to_nat (width maze)) with O by lia. cbn [rects_row].
        assert (Enil : (x' ← seqZ 0 (width maze); cell_rects maze x' y) = [])
          by (rewrite seqZ_nil by lia; reflexivity).
        rewrite Enil in Hcap |- *. cbn [app length] in Hcap |- *.
        rewrite IH; [reflexivity | lia | lia].
    + destruct ((_ ≫= _) ++ _) as [|r l] eqn:E in |- *;
        [rewrite app_nil_r; reflexivity|].
      rewrite <- length_app in Hcap. rewrite E in Hcap. cbn [length] in Hcap. lia.
Qed.

Lemma length_bind_le {A B} (f : A -> list B) (k : nat) (l : list A) :
  (forall a, (length (f a) <= k)%nat) -> (length (l ≫= f) <= k * length l)%nat.
Proof.
  intros Hf. induction l as [|a l IH]; [cbn; lia|].
  rewrite bind_cons, length_app. cbn [length]. specialize (Hf a). lia.
Qed.

Lemma fmap_bind_comm {A B C} (f : B -> C) (g : A -> list B) (l : list A) :
  f <$> (l ≫= g) = l ≫= (fun a => f <$> g a).
Proof.
  induction l as [|a l IH]; [reflexivity|].
  rewrite !bind_cons, fmap_app, IH. reflexivity.
Qed.

Lemma cell_rects_walls maze :
  (y ← seqZ 0 (height maze); x ← seqZ 0 (width maze); cell_rects maze x y)
  = rect_of maze <$> emitted_walls maze.
Proof.
  unfold emitted_walls. rewrite fmap_bind_comm.
  apply list_bind_ext; [|reflexivity]. intros y.
  rewrite fmap_bind_comm. reflexivity.
Qed.

Lemma Maze_GetWallRects_spec maze maxRects :
  1 <= width maze -> 1 <= height maze ->
  4 * (width maze * height maze) <= maxRects ->
  Maze_GetWallRects maze maxRects = rect_of maze <$> emitted_walls maze.
Proof.
  intros Hw Hh Hcap. unfold Maze_GetWallRects.
  destruct (Z.leb_spec maxRects 0); [nia|].
  assert (Eh : Z.of_nat (Z.to_nat (height maze)) = height maze) by lia.
  rewrite rects_rows_spec.
  - rewrite Eh. apply cell_rects_walls.
  - lia.
  - lia.
  - rewrite Eh. simpl length. lia.
  - left. exact Hw.
Qed.

Lemma Maze_GetWallRects_fits maze maxRects :
  Z.of_nat (length (emitted_walls maze)) <= maxRects ->
  Maze_GetWallRects maze maxRects = rect_of maze <$> emitted_walls maze.
Proof.
  intros Hcap. rewrite <- cell_rects_walls.
  rewrite <- (length_fmap (rect_of maze)), <- cell_rects_walls in Hcap.
  unfold Maze_GetWallRects.
  assert (Erows : seqZ 0 (height maze) = seqZ 0 (Z.of_nat (Z.to_nat (height maze)))).
  { destruct (Z.le_gt_cases 0 (height maze)).
    - rewrite Z2Nat.id by lia. reflexivity.
    - rewrite !seqZ_nil by lia. reflexivity. }
  destruct (Z.leb_spec maxRects 0) as [Hle | Hgt].
  - destruct (_ ≫= _) as [|r l]; [reflexivity|]. cbn [length] in Hcap. lia.
  - destruct (Z.le_gt_cases 0 (height maze)) as [Hh | Hh].
    + rewrite rects_rows_fits; [rewrite <- Erows; reflexivity | lia |].
      rewrite <- Erows. cbn [length]. lia.
    + replace (Z.to_nat (height maze)) with O by lia. cbn [rects_rows].
      rewrite (seqZ_nil 0 (height maze)) by lia. reflexivity.
Qed.

Lemma length_emitted_walls maze :
  0 <= width maze -> 0 <= height maze ->
  Z.of_nat (length (emitted_walls maze)) <= 4 * (width maze * height maze).
Proof.
  intros Hw Hh. unfold emitted_walls.
  pose proof (length_bind_le
                (fun y => x ← seqZ 0 (width maze);
                          (fun d => (x, y, d)) <$> emitted_at maze x y)
                (4 * Z.to_nat (width maze)) (seqZ 0 (height maze))) as L.
  rewrite length_seqZ in L.
  assert (Z.of_nat (4 * Z.to_nat (width maze) * Z.to_nat (height maze))
          = 4 * (width maze * height maze)) by nia.
  cut (length (seqZ 0 (height maze) ≫=
         (fun y => x ← seqZ 0 (width maze);
                   (fun d => (x, y, d)) <$> emitted_at maze x y))
       <= 4 * Z.to_nat (width maze) * Z.to_nat (height maze))%nat; [lia|].
  apply L. intros y.
  pose proof (length_bind_le (fun x => (fun d => (x, y, d)) <$> emitted_at maze x y)
                4 (seqZ 0 (width maze))) as L'.
  rewrite length_seqZ in L'. apply L'. intros x. rewrite length_fmap.
  apply length_emitted_at.
Qed.

Lemma elem_of_emitted_at maze x y d :
  d ∈ emitted_at maze x y <->
  Maze_HasWall maze x y d = true /\
  (d = MAZE_NORTH \/ d = MAZE_WEST \/
   (d = MAZE_EAST /\ x = width maze - 1) \/
   (d = MAZE_SOUTH /\ y = height maze - 1)).
Proof.
  unfold emitted_at. rewrite !elem_of_app.
  destruct (Z.eqb_spec x (width maze - 1)) as [Ex | Ex];
  destruct (Z.eqb_spec y (height maze - 1)) as [Ey | Ey];
  destruct (Maze_HasWall maze x y MAZE_NORTH) eqn:HN;
  destruct (Maze_HasWall maze x y MAZE_WEST) eqn:HW;
  destruct (Maze_HasWall maze x y MAZE_EAST) eqn:HE;
  destruct (Maze_HasWall maze x y MAZE_SOUTH) eqn:HS;
  cbn [andb]; rewrite ?list_elem_of_singleton, ?elem_of_nil;
  (split;
   [ intros [A | [A | [A | A]]]; try contradiction; subst d; auto 8
   | intros [Hd [A | [A | [[A B] | [A B]]]]]; subst d; auto; try congruence ]).
Qed.

Lemma NoDup_emitted_at maze x y : NoDup (emitted_at maze x y).
Proof.
  unfold emitted_at.
  destruct (Maze_HasWall maze x y MAZE_NORTH), (Maze_HasWall maze x y MAZE_WEST),
    ((x =? width maze - 1) && Maze_HasWall maze x y MAZE_EAST),
    ((y =? height maze - 1) && Maze_HasWall maze x y MAZE_SOUTH);
    simpl;
    repeat (apply NoDup_cons; split;
            [rewrite ?elem_of_cons, ?elem_of_nil; intuition discriminate|]);
    apply NoDup_nil_2.
Qed.

Lemma elem_of_emitted_walls maze x y d :
  (x, y, d) ∈ emitted_walls maze <->
  in_grid maze x y /\ Maze_HasWall maze x y d = true /\
  (d = MAZE_NORTH \/ d = MAZE_WEST \/
   (d = MAZE_EAST /\ x = width maze - 1) \/
   (d = MAZE_SOUTH /\ y = height maze - 1)).
Proof.
  unfold emitted_walls, in_grid. rewrite list_elem_of_bind. split.
  - intros (y' & Hin & Hy). apply list_elem_of_bind in Hin.
    destruct Hin as (x' & Hin & Hx). apply list_elem_of_fmap in Hin.
    destruct Hin as (d' & E & Hd). injection E as -> -> ->.
    apply elem_of_seqZ in Hx, Hy. apply elem_of_emitted_at in Hd.
    split; [lia | exact Hd].
  - intros [[Hx Hy] Hd]. exists y. split; [|apply elem_of_seqZ; lia].
    apply list_elem_of_bind. exists x. split; [|apply elem_of_seqZ; lia].
    apply list_elem_of_fmap. exists d. split; [reflexivity|].
    apply elem_of_emitted_at. exact Hd.
Qed.

Lemma NoDup_emitted_walls maze : NoDup (emitted_walls maze).
Proof.
  unfold emitted_walls. apply NoDup_bind; [| |apply NoDup_seqZ].
  - intros y1 y2 k _ _ H1 H2.
    apply list_elem_of_bind in H1, H2.
    destruct H1 as (x1 & H1 & _), H2 as (x2 & H2 & _).
    apply list_elem_of_fmap in H1, H2.
    destruct H1 as (d1 & -> & _), H2 as (d2 & E & _). congruence.
  - intros y _. apply NoDup_bind; [| |apply NoDup_seqZ].
    + intros x1 x2 k _ _ H1 H2. apply list_elem_of_fmap in H1, H2.
      destruct H1 as (d1 & -> & _), H2 as (d2 & E & _). congruence.
    + intros x _. apply NoDup_fmap_2; [|apply NoDup_emitted_at].
      intros d1 d2 E. congruence.
Qed.

End RectFacts.

Lemma rect_grown_exact (maze : Maze Q) (x y d : Z) :
  d ∈ directions ->
  grown_by (rect (rect_of maze (x, y, d))) (wall_segment maze x y d) (1 # 20).
Proof.
  intros Hd. unfold grown_by, rect_of, wall_segment.
  each_direction Hd;
    cbn [Z.eqb Pos.eqb MAZE_NORTH MAZE_EAST MAZE_SOUTH MAZE_WEST rect rx ry
         rwidth rheight fst snd northRect westRect eastRect southRect];
    unfold cellCenterX, cellCenterZ, halfCell, wallThick;
    cbn [fadd fsub fmul fdiv f_of_int f_lit exactQ];
    repeat split; ring.
Qed.

(** C5, as stated, fails when the capacity passed to the function is too
    small: the scan stops at the first cell it reaches with the buffer full.
    For a fresh maze of two cells and [maxRects = 1] it writes the three
    rectangles of the first cell and none of the four of the second. *)
Lemma GetWallRects_stops_when_full :
  Maze_Create true true 2 1 (f_lit 3 1) = Some pair_maze /\
  length (Maze_GetWallRects pair_maze 1) = 3%nat /\
  length (rect_of pair_maze <$> emitted_walls pair_maze) = 7%nat /\
  Maze_GetWallRects pair_maze 1 <> rect_of pair_maze <$> emitted_walls pair_maze.
Proof.
  split; [reflexivity|]. split; [reflexivity|]. split; [reflexivity|].
  intros E. apply (f_equal length) in E. vm_compute in E. discriminate E.
Qed.

(** ** The rectangles in exact arithmetic *)

Lemma Qcell_cancel (cs : Q) (a b : Z) :
  (0 < cs)%Q -> (inject_Z a * cs == inject_Z b * cs)%Q -> a = b.
Proof.
  intros Hcs E. apply inject_Z_injective.
  assert (E' : ((inject_Z a - inject_Z b) * cs == 0)%Q) by lra.
  apply Qmult_integral in E'. destruct E' as [E' | E']; lra.
Qed.

Ltac unfold_rects :=
  unfold same_rect, in_rect, on_segment, grown_by, grid_corner, rect_of,
    wall_segment in *;
  cbn [Z.eqb Pos.eqb MAZE_NORTH MAZE_EAST MAZE_SOUTH MAZE_WEST rect rx ry
       rwidth rheight fst snd northRect westRect eastRect southRect] in *;
  unfold cellCenterX, cellCenterZ, halfCell, wallThick in *;
  cbn [fadd fsub fmul fdiv f_of_int f_lit exactQ] in *.

(** The two sides of a wall between adjacent cells have the same rectangle. *)
Lemma shared_side_rects (maze : Maze Q) (x y : Z) :
  same_rect (rect (rect_of maze (x, y, MAZE_EAST)))
            (rect (rect_of maze (x + 1, y, MAZE_WEST))) /\
  same_rect (rect (rect_of maze (x, y, MAZE_SOUTH)))
            (rect (rect_of maze (x, y + 1, MAZE_NORTH))).
Proof.
  unfold_rects. rewrite !inject_Z_plus. change (inject_Z 1) with 1%Q.
  repeat split; ring.
Qed.

(** Every side runs from one corner of the grid to the next. *)
Lemma side_meets_corners (maze : Maze Q) (x y : Z) :
  (0 <= cellSize maze)%Q ->
  let on d i j :=
    on_segment (wall_segment maze x y d)
               (fst (grid_corner maze i j)) (snd (grid_corner maze i j)) in
  (on MAZE_NORTH x y /\ on MAZE_NORTH (x + 1) y) /\
  (on MAZE_WEST x y /\ on MAZE_WEST x (y + 1)) /\
  (on MAZE_EAST (x + 1) y /\ on MAZE_EAST (x + 1) (y + 1)) /\
  (on MAZE_SOUTH x (y + 1) /\ on MAZE_SOUTH (x + 1) (y + 1)).
Proof.
  intros Hcs on. subst on. cbv beta. unfold_rects.
  rewrite !inject_Z_plus. change (inject_Z 1) with 1%Q.
  repeat split; lra.
Qed.

(** A rectangle holds the square of side 0.1 around every point of its
    side. *)
Lemma rect_covers_side (maze : Maze Q) (x y d : Z) (a b u v : Q) :
  d ∈ directions ->
  on_segment (wall_segment maze x y d) a b ->
  (a - (1 # 20) <= u <= a + (1 # 20))%Q ->
  (b - (1 # 20) <= v <= b + (1 # 20))%Q ->
  in_rect (rect (rect_of maze (x, y, d))) u v.
Proof.
  intros Hd Hon Hu Hv. each_direction Hd; unfold_rects; lra.
Qed.

(** No two of the rectangles written coincide. *)
Lemma emitted_rects_differ (maze : Maze Q) (k1 k2 : Z * Z * Z) :
  (0 < cellSize maze)%Q ->
  k1 ∈ emitted_walls maze -> k2 ∈ emitted_walls maze ->
  same_rect (rect (rect_of maze k1)) (rect (rect_of maze k2)) ->
  k1 = k2.
Proof.
  intros Hcs H1 H2 E.
  destruct k1 as [[x1 y1] d1], k2 as [[x2 y2] d2].
  apply elem_of_emitted_walls in H1, H2.
  destruct H1 as ([Hx1 Hy1] & _ & D1), H2 as ([Hx2 Hy2] & _ & D2).
  assert (Hx : forall a b : Z,
            (inject_Z a * cellSize maze == inject_Z b * cellSize maze)%Q -> a = b)
    by (intros a b; apply Qcell_cancel; exact Hcs).
  destruct D1 as [-> | [-> | [[-> Ex1] | [-> Ey1]]]];
  destruct D2 as [-> | [-> | [[-> Ex2] | [-> Ey2]]]];
    unfold_rects; destruct E as (A & B & C & D);
    try (exfalso; lra);
    first
      [ assert (x1 = x2) by (apply Hx; lra)
      | assert (x1 = x2 + 1)
          by (apply Hx; rewrite inject_Z_plus; change (inject_Z 1) with 1%Q; lra)
      | assert (x1 + 1 = x2)
          by (apply Hx; rewrite inject_Z_plus; change (inject_Z 1) with 1%Q; lra) ];
    first
      [ assert (y1 = y2) by (apply Hx; lra)
      | assert (y1 = y2 + 1)
          by (apply Hx; rewrite inject_Z_plus; change (inject_Z 1) with 1%Q; lra)
      | assert (y1 + 1 = y2)
          by (apply Hx; rewrite inject_Z_plus; change (inject_Z 1) with 1%Q; lra) ];
    first [ lia | subst; reflexivity ].
Qed.

(** In binary32, with the dimensions and the cell size of the game, the
    rectangle of every side holds the two corners of the grid the side runs
    between. *)
Lemma game_corners_covered : corners_covered game_maze = true.
Proof. vm_compute. reflexivity. Qed.

Lemma game_cell_corners (maze : Maze spec_float) (x y : Z) :
  width maze = MAZE_WIDTH -> height maze = MAZE_HEIGHT -> cellSize maze = CELL_SIZE ->
  0 <= x < MAZE_WIDTH -> 0 <= y < MAZE_HEIGHT ->
  cell_corners_covered maze x y = true.
Proof.
  intros Ew Eh Ec Hx Hy.
  assert (E : cell_corners_covered maze x y = cell_corners_covered game_maze x y).
  { unfold cell_corners_covered, side_has_corner, corner_point, rect_of.
    cbn [Z.eqb Pos.eqb MAZE_NORTH MAZE_EAST MAZE_SOUTH MAZE_WEST].
    unfold northRect, westRect, eastRect, southRect, cellCenterX, cellCenterZ,
      halfCell.
    rewrite Ew, Eh, Ec. reflexivity. }
  rewrite E.
  pose proof game_corners_covered as Hall. unfold corners_covered in Hall.
  rewrite forallb_forall in Hall.
  unfold MAZE_WIDTH, MAZE_HEIGHT in Hx, Hy.
  specialize (Hall y ltac:(apply list_elem_of_In, elem_of_seqZ;
                           cbn [height game_maze]; lia)).
  rewrite forallb_forall in Hall.
  exact (Hall x ltac:(apply list_elem_of_In, elem_of_seqZ;
                      cbn [width game_maze]; lia)).
Qed.

(** C5.  When the capacity holds the rectangles there are to write (four
    per cell always do), [Maze_GetWallRects] writes, in cell order, one
    rectangle for each walled North and West side of every cell, for each
    walled East side in the last column and for each walled South side in
    the last row, and no other; no side is written twice, and a wall
    between two cells of the grid is written as the West or North side of
    one of them, never as the East or South side of the other.  In exact
    arithmetic each rectangle is the wall segment grown by half the wall
    thickness (0.05) on all four sides; the two sides of a shared wall have
    the same rectangle; every side runs between two corners of the grid
    and its rectangle holds the square of side 0.1 around each, where the
    rectangles of the walls that meet there overlap; and with a positive
    cell size no two of the rectangles written coincide.  In binary32, for
    the mazes of the game, the rectangle of every side holds the two
    corners of the grid the side runs between. *)
Theorem GetWallRects_emits_each_wall_once :
  (forall (F : Type) (HF : CFloat F) (maze : Maze F),
     (forall maxRects : Z,
        Z.of_nat (length (emitted_walls maze)) <= maxRects ->
        Maze_GetWallRects maze maxRects = rect_of maze <$> emitted_walls maze) /\
     (0 <= width maze -> 0 <= height maze ->
      Z.of_nat (length (emitted_walls maze)) <= 4 * (width maze * height maze)) /\
     NoDup (emitted_walls maze) /\
     (forall x y d,
        (x, y, d) ∈ emitted_walls maze <->
        (0 <= x < width maze /\ 0 <= y < height maze) /\
        Maze_HasWall maze x y d = true /\
        (d = MAZE_NORTH \/ d = MAZE_WEST \/
         (d = MAZE_EAST /\ x = width maze - 1) \/
         (d = MAZE_SOUTH /\ y = height maze - 1))) /\
     (forall x y, in_grid maze x y -> in_grid maze (x + 1) y ->
        ((x, y, MAZE_EAST) ∉ emitted_walls maze) /\
        ((x + 1, y, MAZE_WEST) ∈ emitted_walls maze <->
         Maze_HasWall maze (x + 1) y MAZE_WEST = true)) /\
     (forall x y, in_grid maze x y -> in_grid maze x (y + 1) ->
        ((x, y, MAZE_SOUTH) ∉ emitted_walls maze) /\
        ((x, y + 1, MAZE_NORTH) ∈ emitted_walls maze <->
         Maze_HasWall maze x (y + 1) MAZE_NORTH = true))) /\
  (forall (maze : Maze Q),
     (forall x y d, d ∈ directions ->
        grown_by (rect (rect_of maze (x, y, d))) (wall_segment maze x y d) (1 # 20)) /\
     (forall x y,
        same_rect (rect (rect_of maze (x, y, MAZE_EAST)))
                  (rect (rect_of maze (x + 1, y, MAZE_WEST))) /\
        same_rect (rect (rect_of maze (x, y, MAZE_SOUTH)))
                  (rect (rect_of maze (x, y + 1, MAZE_NORTH)))) /\
     ((0 <= cellSize maze)%Q ->
      forall x y,
        let on d i j :=
          on_segment (wall_segment maze x y d)
                     (fst (grid_corner maze i j)) (snd (grid_corner maze i j)) in
        (on MAZE_NORTH x y /\ on MAZE_NORTH (x + 1) y) /\
        (on MAZE_WEST x y /\ on MAZE_WEST x (y + 1)) /\
        (on MAZE_EAST (x + 1) y /\ on MAZE_EAST (x + 1) (y + 1)) /\
        (on MAZE_SOUTH x (y + 1) /\ on MAZE_SOUTH (x + 1) (y + 1))) /\
     (forall x y d a b u v, d ∈ directions ->
        on_segment (wall_segment maze x y d) a b ->
        (a - (1 # 20) <= u <= a + (1 # 20))%Q ->
        (b - (1 # 20) <= v <= b + (1 # 20))%Q ->
        in_rect (rect (rect_of maze (x, y, d))) u v) /\
     ((0 < cellSize maze)%Q ->
      forall k1 k2, k1 ∈ emitted_walls maze -> k2 ∈ emitted_walls maze ->
        same_rect (rect (rect_of maze k1)) (rect (rect_of maze k2)) -> k1 = k2)) /\
  (forall (maze : Maze spec_float) (x y : Z),
     width maze = MAZE_WIDTH -> height maze = MAZE_HEIGHT ->
     cellSize maze = CELL_SIZE ->
     0 <= x < MAZE_WIDTH -> 0 <= y < MAZE_HEIGHT ->
     cell_corners_covered maze x y = true).
Proof.
  split; [|split; [|exact game_cell_corners]].
  - intros F HF maze.
    split; [intros maxRects; apply Maze_GetWallRects_fits|].
    split; [apply length_emitted_walls|].
    split; [apply NoDup_emitted_walls|].
    split; [intros x y d; apply elem_of_emitted_walls|].
    split.
    + intros x y [Hx Hy] [Hx' Hy']. rewrite !elem_of_emitted_walls. split.
      * intros (_ & _ & [D | [D | [[_ D] | [D _]]]]); try discriminate D. lia.
      * unfold in_grid. split; [tauto|]. intros Hwall. auto.
    + intros x y [Hx Hy] [Hx' Hy']. rewrite !elem_of_emitted_walls. split.
      * intros (_ & _ & [D | [D | [[D _] | [_ D]]]]); try discriminate D. lia.
      * unfold in_grid. split; [tauto|]. intros Hwall. auto.
  - intros maze.
    split; [intros x y d; apply rect_grown_exact|].
    split; [apply shared_side_rects|].
    split; [intros Hcs x y; apply side_meets_corners; exact Hcs|].
    split; [apply rect_covers_side|].
    intros Hcs k1 k2. apply emitted_rects_differ. exact Hcs.
Qed.

Lemma GetWallRects_emits_each_wall_once_witness :
  Z.of_nat (length (emitted_walls pair_maze)) <= 7 /\
  Maze_GetWallRects pair_maze 7 = rect_of pair_maze <$> emitted_walls pair_maze /\
  length (Maze_GetWallRects pair_maze 7) = 7%nat.
Proof.
  assert (Hc : Z.of_nat (length (emitted_walls pair_maze)) <= 7)
    by (vm_compute; discriminate).
  split; [exact Hc|].
  split; [|reflexivity].
  exact (proj1 (proj1 GetWallRects_emits_each_wall_once spec_float binary32 pair_maze)
           7 Hc).
Defined.

(** * The particle pool *)

Section ParticleFacts.
Context {F : Type} `{CFloat F}.
Implicit Types ps : ParticleSystem F.

Variable rand_src : nat -> Z.

Lemma emit_from_ok n i toEmit emitter ps rng :
  pool_ok ps ->
  pool_ok (fst (emit_from rand_src n i toEmit emitter ps rng)) /\
  maxParticles (fst (emit_from rand_src n i toEmit emitter ps rng)) = maxParticles ps /\
  activeParticles ps <= activeParticles (fst (emit_from rand_src n i toEmit emitter ps rng)).
Proof.
  revert i ps rng. induction n as [|n IH]; intros i ps rng Hok; cbn [emit_from].
  - simpl. split; [exact Hok|]. split; [reflexivity | lia].
  - destruct (Z.ltb_spec i toEmit); cbn [andb];
      [|simpl; split; [exact Hok|]; split; [reflexivity | lia]].
    destruct (Z.ltb_spec (activeParticles ps) (maxParticles ps));
      [|simpl; split; [exact Hok|]; split; [reflexivity | lia]].
    destruct (emit_particle rand_src emitter rng) as [p rng1].
    destruct Hok as [Hr Hl].
    match goal with |- context [emit_from _ n (i + 1) toEmit emitter ?ps1 rng1] =>
      destruct (IH (i + 1) ps1 rng1) as (A & B & C) end.
    { split; simpl; [lia|]. rewrite length_aset. exact Hl. }
    simpl in B, C. split; [exact A|]. split; [exact B | lia].
Qed.

Lemma update_from_spec n i dt (parts : list (Particle F)) active :
  0 <= i <= active -> active <= Z.of_nat (length parts) ->
  active - i <= Z.of_nat n ->
  all_alive parts i ->
  let r := update_from n i dt parts active in
  length (fst r) = length parts /\
  0 <= snd r <= active /\
  all_alive (fst r) (snd r).
Proof.
  revert i parts active. induction n as [|n IH]; intros i parts active Hi Hlen Hfuel Hal;
    cbn [update_from].
  - simpl. split; [reflexivity|]. split; [lia|].
    intros j Hj. apply Hal. lia.
  - destruct (Z.ltb_spec i active) as [Hlt | Hge].
    + set (p := age_particle (aget parts i) dt).
      destruct (fleb (life p) (f_lit 0 1)) eqn:Edead.
      * match goal with |- context [update_from n i dt ?parts2 (active - 1)] =>
          destruct (IH i parts2 (active - 1)) as (A & B & C) end.
        { lia. }
        { rewrite !length_aset. lia. }
        { lia. }
        { intros j Hj. rewrite !aget_aset_ne by lia. apply Hal. exact Hj. }
        cbn zeta. rewrite !length_aset in A.
        split; [exact A|]. split; [lia | exact C].
      * match goal with |- context [update_from n (i + 1) dt ?parts1 active] =>
          destruct (IH (i + 1) parts1 active) as (A & B & C) end.
        { lia. }
        { rewrite length_aset. lia. }
        { lia. }
        { intros j Hj. destruct (Z.eq_dec j i) as [-> | Hne].
          - rewrite aget_aset_eq by lia. exact Edead.
          - rewrite aget_aset_ne by lia. apply Hal. lia. }
        cbn zeta. rewrite length_aset in A.
        split; [exact A|]. split; [lia | exact C].
    + simpl. split; [reflexivity|]. split; [lia|].
      intros j Hj. apply Hal. lia.
Qed.

Lemma ParticleSystem_Update_ok ps emitter dt rng :
  pool_ok ps ->
  let ps' := fst (ParticleSystem_Update rand_src ps emitter dt rng) in
  pool_ok ps' /\ maxParticles ps' = maxParticles ps /\
  all_alive (particles ps') (activeParticles ps').
Proof.
  intros Hok. unfold ParticleSystem_Update.
  match goal with |- context [emit_from rand_src ?n 0 ?t emitter ?ps1 rng] =>
    pose proof (emit_from_ok n 0 t emitter ps1 rng) as He;
    destruct (emit_from rand_src n 0 t emitter ps1 rng) as [ps2 rng2] end.
  simpl in He. destruct (He Hok) as ([Hr Hl] & Em & _). clear He.
  pose proof (update_from_spec (Z.to_nat (activeParticles ps2)) 0 dt
                (particles ps2) (activeParticles ps2)) as Hu.
  destruct (update_from (Z.to_nat (activeParticles ps2)) 0 dt (particles ps2)
              (activeParticles ps2)) as [parts active].
  simpl in Hu. destruct Hu as (A & B & C).
  { lia. }
  { lia. }
  { lia. }
  { intros j Hj. lia. }
  simpl. split; [|split; [exact Em | exact C]].
  split; simpl; [lia|]. rewrite A. exact Hl.
Qed.

Lemma update_frames_ok frames ps rng :
  pool_ok ps -> all_alive (particles ps) (activeParticles ps) ->
  let ps' := fst (update_frames rand_src frames ps rng) in
  pool_ok ps' /\ maxParticles ps' = maxParticles ps /\
  all_alive (particles ps') (activeParticles ps').
Proof.
  revert ps rng. induction frames as [|[pos dt] frames IH]; intros ps rng Hok Hal.
  - simpl. auto.
  - cbn [update_frames].
    pose proof (ParticleSystem_Update_ok ps pos dt rng Hok) as Hu.
    destruct (ParticleSystem_Update rand_src ps pos dt rng) as [ps1 rng1].
    simpl in Hu. destruct Hu as (Hok1 & Em & Hal1).
    destruct (IH ps1 rng1 Hok1 Hal1) as (A & B & C).
    split; [exact A|]. split; [congruence | exact C].
Qed.

Lemma rev_case {A} (l : list A) : l = [] \/ exists mid q, l = mid ++ [q].
Proof.
  induction l as [|q mid _] using rev_ind; [left; reflexivity|].
  right. exists mid, q. reflexivity.
Qed.

Lemma aget_middle {A} `{Inhabited A} (pre tl : list A) (x : A) (i : Z) :
  i = Z.of_nat (length pre) -> aget (pre ++ x :: tl) i = x.
Proof.
  intros ->. unfold aget. apply list_lookup_total_middle. lia.
Qed.

Lemma aset_middle {A} (pre tl : list A) (x v : A) (i : Z) :
  i = Z.of_nat (length pre) -> aset (pre ++ x :: tl) i v = pre ++ v :: tl.
Proof.
  intros ->. unfold aset. rewrite Nat2Z.id.
  replace (length pre) with (length pre + 0)%nat at 1 by lia.
  rewrite insert_app_r. reflexivity.
Qed.

Lemma survivors_app dt (l1 l2 : list (Particle F)) :
  survivors dt (l1 ++ l2) = survivors dt l1 ++ survivors dt l2.
Proof. unfold survivors. rewrite fmap_app, filter_app. reflexivity. Qed.

Lemma survivors_cons_alive dt p (l : list (Particle F)) :
  expired (age_particle p dt) = false ->
  survivors dt (p :: l) = age_particle p dt :: survivors dt l.
Proof.
  intros E. unfold survivors. rewrite fmap_cons. apply filter_cons_True. exact E.
Qed.

Lemma survivors_cons_dead dt p (l : list (Particle F)) :
  expired (age_particle p dt) = true ->
  survivors dt (p :: l) = survivors dt l.
Proof.
  intros E. unfold survivors. rewrite fmap_cons. apply filter_cons_False.
  rewrite E. discriminate.
Qed.

(** The update loop on an array split into the particles already updated,
    those still to update, and the free slots. *)
Lemma update_from_perm n dt (pre seg post : list (Particle F)) :
  (length seg <= n)%nat ->
  let r := update_from n (Z.of_nat (length pre)) dt (pre ++ seg ++ post)
             (Z.of_nat (length pre + length seg)) in
  take (Z.to_nat (snd r)) (fst r) ≡ₚ pre ++ survivors dt seg.
Proof.
  revert pre seg post. induction n as [|n IH]; intros pre seg post Hn; cbn [update_from].
  - destruct seg; [|simpl in Hn; lia]. cbn [fst snd length app survivors].
    rewrite Nat.add_0_r, Nat2Z.id.
    unfold survivors. rewrite fmap_nil, filter_nil, app_nil_r.
    rewrite take_app_length. reflexivity.
  - destruct seg as [|p0 rest].
    + cbn [length app]. rewrite Nat.add_0_r, Z.ltb_irrefl.
      cbn [fst snd]. rewrite Nat2Z.id.
      unfold survivors. rewrite fmap_nil, filter_nil, app_nil_r.
      rewrite take_app_length. reflexivity.
    + destruct (Z.ltb_spec (Z.of_nat (length pre)) (Z.of_nat (length pre + length (p0 :: rest))));
        [|simpl in *; lia].
      cbn [app].
      rewrite (aget_middle pre (rest ++ post) p0) by reflexivity.
      rewrite (aset_middle pre (rest ++ post) p0) by reflexivity.
      set (p := age_particle p0 dt).
      destruct (fleb (life p) (f_lit 0 1)) eqn:Edead.
      * rewrite (survivors_cons_dead dt p0 rest Edead).
        destruct (rev_case rest) as [-> | (mid & q & ->)].
        -- cbn [app length].
           replace (Z.of_nat (length pre + 1) - 1) with (Z.of_nat (length pre)) by lia.
           rewrite (aget_middle pre post p) by reflexivity.
           rewrite (aset_middle pre post p) by reflexivity.
           specialize (IH pre [] (p :: post)). cbn [app length] in IH.
           replace (Z.of_nat (length pre + 0)) with (Z.of_nat (length pre)) in IH by lia.
           apply IH. lia.
        -- rewrite <- !app_assoc. cbn [app].
           replace (Z.of_nat (length pre + length (p0 :: mid ++ [q])) - 1)
             with (Z.of_nat (length (pre ++ p :: mid)))
             by (cbn [length]; rewrite !length_app; cbn [length]; lia).
           replace (pre ++ p :: mid ++ q :: post) with ((pre ++ p :: mid) ++ q :: post)
             by (rewrite <- app_assoc; reflexivity).
           rewrite (aget_middle (pre ++ p :: mid) post q) by reflexivity.
           rewrite <- app_assoc. cbn [app].
           rewrite (aset_middle pre (mid ++ q :: post) p) by reflexivity.
           specialize (IH pre (q :: mid) (q :: post)).
           replace (pre ++ (q :: mid) ++ q :: post) with (pre ++ q :: mid ++ q :: post) in IH
             by reflexivity.
           replace (Z.of_nat (length (pre ++ p :: mid)))
             with (Z.of_nat (length pre + length (q :: mid)))
             by (rewrite length_app; cbn [length]; lia).
           cbn zeta in IH. rewrite IH.
           ++ apply Permutation_app_head.
              rewrite survivors_app.
              change (q :: mid) with ([q] ++ mid). rewrite survivors_app.
              apply Permutation_app_comm.
           ++ cbn [length] in *. rewrite length_app in Hn. cbn [length] in Hn. lia.
      * rewrite (survivors_cons_alive dt p0 rest Edead).
        specialize (IH (pre ++ [p]) rest post).
        rewrite <- app_assoc in IH. cbn [app] in IH.
        rewrite length_app in IH. cbn [length] in IH.
        replace (Z.of_nat (length pre) + 1) with (Z.of_nat (length pre + 1)) by lia.
        replace (Z.of_nat (length pre + length (p0 :: rest)))
          with (Z.of_nat (length pre + 1 + length rest)) by (cbn [length]; lia).
        cbn zeta in IH. rewrite IH.
        -- rewrite <- app_assoc. reflexivity.
        -- cbn [length] in Hn. lia.
Qed.

Lemma emit_from_active n i toEmit emitter ps rng (act free : list (Particle F)) :
  particles ps = act ++ free ->
  activeParticles ps = Z.of_nat (length act) ->
  maxParticles ps = Z.of_nat (length (act ++ free)) ->
  exists emitted free',
    particles (fst (emit_from rand_src n i toEmit emitter ps rng))
    = act ++ emitted ++ free' /\
    activeParticles (fst (emit_from rand_src n i toEmit emitter ps rng))
    = Z.of_nat (length act + length emitted).
Proof.
  revert i ps rng act free. induction n as [|n IH]; intros i ps rng act free Hp Ha Hm;
    cbn [emit_from].
  - exists [], free. simpl. rewrite Nat.add_0_r. auto.
  - destruct (Z.ltb_spec i toEmit); cbn [andb];
      [|exists [], free; simpl; rewrite Nat.add_0_r; auto].
    destruct (Z.ltb_spec (activeParticles ps) (maxParticles ps));
      [|exists [], free; simpl; rewrite Nat.add_0_r; auto].
    destruct (emit_particle rand_src emitter rng) as [p rng1].
    destruct free as [|x free].
    { rewrite app_nil_r in Hm. lia. }
    match goal with |- context [emit_from _ n (i + 1) toEmit emitter ?ps1 rng1] =>
      destruct (IH (i + 1) ps1 rng1 (act ++ [p]) free) as (emitted & free' & A & B) end.
    + simpl. rewrite Hp, Ha. rewrite (aset_middle act free x) by reflexivity.
      rewrite <- app_assoc. reflexivity.
    + simpl. rewrite Ha, length_app. simpl. lia.
    + simpl. rewrite Hm. rewrite ?length_app. simpl. rewrite ?length_app. simpl. lia.
    + exists (p :: emitted), free'. rewrite A, B.
      rewrite <- app_assoc, length_app. simpl. split; [reflexivity|]. f_equal. lia.
Qed.

Lemma ParticleSystem_Update_perm ps emitter dt rng :
  pool_ok ps ->
  exists emitted,
    active_set (fst (ParticleSystem_Update rand_src ps emitter dt rng))
    ≡ₚ survivors dt (active_set ps ++ emitted).
Proof.
  intros [Hr Hl]. unfold ParticleSystem_Update.
  set (act := take (Z.to_nat (activeParticles ps)) (particles ps)).
  set (free := drop (Z.to_nat (activeParticles ps)) (particles ps)).
  assert (Hp : particles ps = act ++ free) by (symmetry; apply take_drop).
  assert (Hla : activeParticles ps = Z.of_nat (length act)).
  { unfold act. rewrite length_take_le by lia. lia. }
  match goal with |- context [emit_from rand_src ?n 0 ?t emitter ?ps1 rng] =>
    destruct (emit_from_active n 0 t emitter ps1 rng act free) as (emitted & free' & A & B);
    [exact Hp | exact Hla | simpl; rewrite <- Hp, Hl; lia |];
    destruct (emit_from rand_src n 0 t emitter ps1 rng) as [ps2 rng2] end.
  simpl in A, B. exists emitted.
  pose proof (update_from_perm (Z.to_nat (activeParticles ps2)) dt [] (act ++ emitted) free') as P.
  cbn [length app] in P. rewrite <- app_assoc in P.
  rewrite A, B. rewrite length_app in P.
  change (Z.of_nat 0) with 0 in P.
  replace (Z.of_nat (0 + (length act + length emitted)))
    with (Z.of_nat (length act + length emitted)) in P by lia.
  rewrite B in P. rewrite Nat2Z.id in P. rewrite Nat2Z.id.
  specialize (P ltac:(lia)). cbn zeta in P.
  destruct (update_from (length act + length emitted) 0 dt (act ++ emitted ++ free')
              (Z.of_nat (length act + length emitted))) as [parts active].
  unfold active_set. simpl. simpl in P. exact P.
Qed.

(** C3.  A particle system created with a capacity [maxParticles >= 0] keeps
    [0 <= activeParticles <= maxParticles] through any run of calls of
    [ParticleSystem_Update], whatever the emitter positions and time steps,
    and after each call no particle of the active set has [life <= 0].  The
    next call leaves in the active set, in some order, exactly the particles
    of the set and the newly emitted ones that its time step does not bring
    to [life <= 0]: expired particles are removed and no other. *)
Theorem particle_pool_bounded (junk : Particle F) (cap : Z)
  (ps : ParticleSystem F) (frames : list (Vector3 F * F)) (rng : nat) :
  0 <= cap ->
  ParticleSystem_Create true true junk cap = Some ps ->
  let ps' := fst (update_frames rand_src frames ps rng) in
  maxParticles ps' = cap /\
  0 <= activeParticles ps' <= maxParticles ps' /\
  Z.of_nat (length (particles ps')) = cap /\
  (forall j, 0 <= j < activeParticles ps' ->
     fleb (life (aget (particles ps') j)) (f_lit 0 1) = false) /\
  (forall (pos : Vector3 F) (dt : F) (rng' : nat),
     exists emitted,
       active_set (fst (ParticleSystem_Update rand_src ps' pos dt rng'))
       ≡ₚ survivors dt (active_set ps' ++ emitted)).
Proof.
  intros Hcap Hc. unfold ParticleSystem_Create in Hc. simpl in Hc.
  injection Hc as <-.
  match goal with |- context [update_frames rand_src frames ?ps0 rng] =>
    destruct (update_frames_ok frames ps0 rng) as (Hok & Em & Hal) end.
  { split; simpl; [lia|]. apply length_replicate. }
  { intros j Hj. simpl in Hj. lia. }
  simpl in Em. cbn zeta. pose proof Hok as [Hr Hl].
  split; [exact Em|]. split; [exact Hr|].
  split; [rewrite Hl, Em; lia|]. split; [exact Hal|].
  intros pos dt rng'. apply ParticleSystem_Update_perm. exact Hok.
Qed.

End ParticleFacts.

Lemma particle_pool_bounded_witness :
  0 <= 20 /\
  ParticleSystem_Create true true inhabitant 20 = Some demo_pool /\
  let ps' := fst (update_frames demo_rand demo_frames demo_pool 0) in
  maxParticles ps' = 20 /\ 0 <= activeParticles ps' <= maxParticles ps'.
Proof.
  assert (H0 : 0 <= 20) by lia.
  assert (Hc : ParticleSystem_Create true true inhabitant 20 = Some demo_pool)
    by reflexivity.
  split; [exact H0|]. split; [exact Hc|].
  destruct (particle_pool_bounded demo_rand inhabitant 20 demo_pool demo_frames 0 H0 Hc)
    as (A & B & _).
  split; [exact A | exact B].
Defined.

(** * Collision and movement *)

Section MoveFacts.
Context {F : Type} `{CFloat F}.

Lemma collides_from_spec n i c r (walls : list (WallRect F)) count :
  collides_from n i c r walls count = true <->
  exists k, i <= k < count /\ k < i + Z.of_nat n /\
            CircleRectIntersect c r (rect (aget walls k)) = true.
Proof.
  revert i. induction n as [|n IH]; intros i; cbn [collides_from].
  - split; [discriminate|]. intros (k & Hk & Hn & _). lia.
  - destruct (Z.ltb_spec i count) as [Hlt | Hge].
    + destruct (CircleRectIntersect c r (rect (aget walls i))) eqn:E.
      * split; [|reflexivity]. intros _. exists i. split; [lia|]. split; [lia | exact E].
      * rewrite IH. split.
        -- intros (k & Hk & Hn & Hc). exists k. split; [lia|]. split; [lia | exact Hc].
        -- intros (k & Hk & Hn & Hc). exists k.
           destruct (Z.eq_dec k i) as [-> | Hne]; [congruence|].
           split; [lia|]. split; [lia | exact Hc].
    + split; [discriminate|]. intros (k & Hk & _). lia.
Qed.

Lemma CollidesAny_spec c r (walls : list (WallRect F)) count :
  CollidesAny c r walls count = true <-> blocked c r walls count.
Proof.
  unfold CollidesAny, blocked. rewrite collides_from_spec. split.
  - intros (k & Hk & _ & Hc). exists k. auto.
  - intros (k & Hk & Hc). exists k. split; [exact Hk|]. split; [lia | exact Hc].
Qed.

Lemma CollidesAny_false c r (walls : list (WallRect F)) count :
  CollidesAny c r walls count = false <-> ~ blocked c r walls count.
Proof.
  rewrite <- CollidesAny_spec. destruct (CollidesAny c r walls count); split;
    intros; congruence.
Qed.

Lemma move_axes_eq (pXZ step : Vector2 F) r (walls : list (WallRect F)) wallCount :
  move_axes pXZ step r walls wallCount =
  let x' := if CollidesAny (mkVector2 (vx pXZ + vx step)%F (vy pXZ)) r walls wallCount
            then vx pXZ else (vx pXZ + vx step)%F in
  let z' := if CollidesAny (mkVector2 x' (vy pXZ + vy step)%F) r walls wallCount
            then vy pXZ else (vy pXZ + vy step)%F in
  mkVector2 x' z'.
Proof.
  unfold move_axes.
  destruct (CollidesAny (mkVector2 (vx pXZ + vx step)%F (vy pXZ)) r walls wallCount);
    cbn [negb vx vy];
    match goal with |- context [CollidesAny ?c r walls wallCount] =>
      destruct (CollidesAny c r walls wallCount) end;
    cbn [negb vx vy]; destruct pXZ; reflexivity.
Qed.

End MoveFacts.

(** C7.  The movement block tries the X displacement alone and keeps it iff
    the moved circle touches no wall rectangle, then tries the Z displacement
    alone from the position reached and keeps it iff that circle touches no
    wall rectangle.  In binary32, a circle of radius 0.3 at (0,0) moving by
    (1,1) against the rectangle x in [0.5,1.5], z in [-1,1] is blocked on X,
    moves on Z, and ends at (0,1). *)
Theorem move_axes_slides :
  (forall (F : Type) (HF : CFloat F) (pXZ step : Vector2 F) (r : F)
          (walls : list (WallRect F)) (wallCount : Z),
     let p' := move_axes pXZ step r walls wallCount in
     let testX := mkVector2 (vx pXZ + vx step)%F (vy pXZ) in
     let testZ := mkVector2 (vx p') (vy pXZ + vy step)%F in
     (~ blocked testX r walls wallCount -> vx p' = (vx pXZ + vx step)%F) /\
     (blocked testX r walls wallCount -> vx p' = vx pXZ) /\
     (~ blocked testZ r walls wallCount -> vy p' = (vy pXZ + vy step)%F) /\
     (blocked testZ r walls wallCount -> vy p' = vy pXZ)) /\
  (let start : Vector2 spec_float := mkVector2 (f_lit 0 1) (f_lit 0 1) in
   let step : Vector2 spec_float := mkVector2 (f_lit 1 1) (f_lit 1 1) in
   CollidesAny (mkVector2 (f_lit 1 1) (f_lit 0 1)) (f_lit 3 10) slide_walls 1 = true /\
   CollidesAny (mkVector2 (f_lit 0 1) (f_lit 1 1)) (f_lit 3 10) slide_walls 1 = false /\
   move_axes start step (f_lit 3 10) slide_walls 1
   = mkVector2 (f_lit 0 1) (f_lit 1 1)).
Proof.
  split.
  - intros F HF pXZ step r walls wallCount p' testX testZ.
    pose proof (move_axes_eq pXZ step r walls wallCount) as E.
    fold p' testX in E. cbn zeta in E.
    assert (Ex : vx p' = if CollidesAny testX r walls wallCount
                         then vx pXZ else (vx pXZ + vx step)%F)
      by (rewrite E; reflexivity).
    assert (Ez : vy p' = if CollidesAny testZ r walls wallCount
                         then vy pXZ else (vy pXZ + vy step)%F).
    { unfold testZ. rewrite Ex. rewrite E. reflexivity. }
    rewrite Ex, Ez.
    split; [|split; [|split]].
    + intros Hb. apply CollidesAny_false in Hb. rewrite Hb. reflexivity.
    + intros Hb. apply CollidesAny_spec in Hb. rewrite Hb. reflexivity.
    + intros Hb. apply CollidesAny_false in Hb. rewrite Hb. reflexivity.
    + intros Hb. apply CollidesAny_spec in Hb. rewrite Hb. reflexivity.
  - cbn zeta. split; [vm_compute; reflexivity|].
    split; vm_compute; reflexivity.
Qed.

Lemma move_axes_slides_witness :
  blocked (mkVector2 (f_lit 0 1 + f_lit 1 1)%F (f_lit 0 1)) (f_lit 3 10) slide_walls 1 /\
  vx (move_axes (mkVector2 (f_lit 0 1) (f_lit 0 1)) (mkVector2 (f_lit 1 1) (f_lit 1 1))
                (f_lit 3 10) slide_walls 1) = f_lit 0 1.
Proof.
  assert (Hb : blocked (mkVector2 (f_lit 0 1 + f_lit 1 1)%F (f_lit 0 1)) (f_lit 3 10)
                       slide_walls 1).
  { exists 0. split; [lia | vm_compute; reflexivity]. }
  split; [exact Hb|].
  exact (proj1 (proj2 (proj1 move_axes_slides spec_float binary32
                         (mkVector2 (f_lit 0 1) (f_lit 0 1))
                         (mkVector2 (f_lit 1 1) (f_lit 1 1))
                         (f_lit 3 10) slide_walls 1)) Hb).
Defined.

(** * The chase block *)

Section ChaseFacts.
Context {F : Type} `{CFloat F}.

Variable rand_src : nat -> Z.
Variable sqrtf : F -> F.
Variable cosf : F -> F.
Variable sinf : F -> F.
Variable RAND_MAX : Z.

Local Abbreviation steer := (steer_char rand_src sqrtf cosf sinf RAND_MAX).
Local Abbreviation steers := (steer_all rand_src sqrtf cosf sinf RAND_MAX).
Local Abbreviation chase := (chase_from rand_src sqrtf cosf sinf RAND_MAX).

(** The loop on an array split into the characters already handled and those
    still to handle. *)
Lemma chase_from_spec (todo : list (ScaryCharacter F)) :
  forall (done : list (ScaryCharacter F)) (n : nat) (player : Vector2 F) (dt : F)
         (walls : list (WallRect F)) (wallCount : Z) (rng : nat),
  (length todo <= n)%nat ->
  chase n (Z.of_nat (length done)) (Z.of_nat (length done + length todo))
        (done ++ todo) GAME_STATE_PLAYING player dt walls wallCount rng
  = match list_find (captured player) (steers todo player dt walls wallCount rng).1 with
    | Some (k, _) =>
        (done ++ (snd <$> (steers (take (S k) todo) player dt walls wallCount rng).1)
              ++ drop (S k) todo,
         GAME_STATE_GAMEOVER,
         (steers (take (S k) todo) player dt walls wallCount rng).2)
    | None =>
        (done ++ (snd <$> (steers todo player dt walls wallCount rng).1),
         GAME_STATE_PLAYING,
         (steers todo player dt walls wallCount rng).2)
    end.
Proof.
  induction todo as [|ch rest IH]; intros done n player dt walls wallCount rng Hn.
  - cbn [length steer_all fst snd list_find fmap list_fmap].
    rewrite Nat.add_0_r, !app_nil_r.
    destruct n; cbn [chase_from]; [reflexivity|].
    rewrite Z.ltb_irrefl. reflexivity.
  - destruct n as [|n]; [simpl in Hn; lia|]. cbn [chase_from].
    destruct (Z.ltb_spec (Z.of_nat (length done)) (Z.of_nat (length done + length (ch :: rest))));
      [|simpl in *; lia].
    rewrite (aget_middle done rest ch) by reflexivity.
    cbn [steer_all].
    destruct (steer ch player dt walls wallCount rng) as [[charPos ch'] rng1] eqn:Es.
    rewrite (aset_middle done rest ch) by reflexivity.
    destruct (steers rest player dt walls wallCount rng1) as [l rng2] eqn:Er.
    cbn [fst snd].
    unfold list_find at 1. cbn [list_rect]. fold (list_find (captured player) l).
    destruct (decide (captured player (charPos, ch'))) as [Hc | Hc].
    + unfold captured in Hc. cbn [fst snd] in Hc. rewrite Hc.
      cbn [take steer_all]. rewrite Es. cbn [steer_all fst snd fmap list_fmap drop app].
      reflexivity.
    + unfold captured in Hc. cbn [fst snd] in Hc.
      apply not_true_is_false in Hc. rewrite Hc.
      specialize (IH (done ++ [ch']) n player dt walls wallCount rng1).
      rewrite length_app in IH. cbn [length] in IH.
      rewrite <- app_assoc in IH. cbn [app] in IH.
      replace (Z.of_nat (length done) + 1) with (Z.of_nat (length done + 1)) by lia.
      replace (Z.of_nat (length done + length (ch :: rest)))
        with (Z.of_nat (length done + 1 + length rest)) by (cbn [length]; lia).
      rewrite IH by (simpl in Hn; lia). rewrite Er. cbn [fst snd].
      destruct (list_find (captured player) l) as [[k m]|]; cbn [fmap option_fmap option_map prod_map fst snd].
      * cbn [take steer_all]. rewrite Es.
        destruct (steers (take (S k) rest) player dt walls wallCount rng1) as [l' rng'].
        cbn [fst snd fmap list_fmap drop]. rewrite <- app_assoc. reflexivity.
      * cbn [fmap list_fmap]. rewrite <- app_assoc. reflexivity.
Qed.

End ChaseFacts.

Lemma CircleCircleIntersect_exact (c1 c2 : Vector2 Q) (r1 r2 : Q) :
  CircleCircleIntersect c1 r1 c2 r2 = true <->
  ((vx c1 - vx c2) * (vx c1 - vx c2) + (vy c1 - vy c2) * (vy c1 - vy c2)
   <= (r1 + r2) * (r1 + r2))%Q.
Proof.
  unfold CircleCircleIntersect. cbn [fadd fsub fmul fleb exactQ].
  apply Qle_bool_iff.
Qed.

(** C8.  In the playing state the chase block steers the characters in order
    and tests each one, once steered, against the player's circle.  At the
    first character [k] whose circle meets the player's the state becomes
    [GAME_STATE_GAMEOVER] and the loop stops: the characters after [k] are
    neither steered nor tested and no further random number is drawn.  If no
    character meets the player the state stays [GAME_STATE_PLAYING].  In any
    other state the block does nothing.  The test is
    [dx*dx + dz*dz <= (r1 + r2)*(r1 + r2)], which holds when the distance
    equals the sum of the radii. *)
Theorem capture_ends_the_chase :
  (forall (F : Type) (HF : CFloat F) (rand_src : nat -> Z) (sqrtf cosf sinf : F -> F)
          (RAND_MAX : Z) (scaryChars : list (ScaryCharacter F)) (player : Vector2 F)
          (dt : F) (walls : list (WallRect F)) (wallCount : Z) (rng : nat),
     length scaryChars = Z.to_nat SCARY_CHAR_COUNT ->
     update_scary_chars rand_src sqrtf cosf sinf RAND_MAX scaryChars
       GAME_STATE_PLAYING player dt walls wallCount rng
     = match list_find (captured player)
               (steer_all rand_src sqrtf cosf sinf RAND_MAX scaryChars
                          player dt walls wallCount rng).1 with
       | Some (k, _) =>
           ((snd <$> (steer_all rand_src sqrtf cosf sinf RAND_MAX
                                (take (S k) scaryChars) player dt walls wallCount rng).1)
              ++ drop (S k) scaryChars,
            GAME_STATE_GAMEOVER,
            (steer_all rand_src sqrtf cosf sinf RAND_MAX
                       (take (S k) scaryChars) player dt walls wallCount rng).2)
       | None =>
           (snd <$> (steer_all rand_src sqrtf cosf sinf RAND_MAX scaryChars
                               player dt walls wallCount rng).1,
            GAME_STATE_PLAYING,
            (steer_all rand_src sqrtf cosf sinf RAND_MAX scaryChars
                       player dt walls wallCount rng).2)
       end) /\
  (forall (F : Type) (HF : CFloat F) (rand_src : nat -> Z) (sqrtf cosf sinf : F -> F)
          (RAND_MAX : Z) (scaryChars : list (ScaryCharacter F)) (gameState : GameState)
          (player : Vector2 F) (dt : F) (walls : list (WallRect F)) (wallCount : Z)
          (rng : nat),
     gameState <> GAME_STATE_PLAYING ->
     update_scary_chars rand_src sqrtf cosf sinf RAND_MAX scaryChars
       gameState player dt walls wallCount rng = (scaryChars, gameState, rng)) /\
  (forall (c1 c2 : Vector2 Q) (r1 r2 : Q),
     CircleCircleIntersect c1 r1 c2 r2 = true <->
     ((vx c1 - vx c2) * (vx c1 - vx c2) + (vy c1 - vy c2) * (vy c1 - vy c2)
      <= (r1 + r2) * (r1 + r2))%Q) /\
  (let touching : Vector2 spec_float :=
     mkVector2 (PLAYER_RADIUS + SCARY_CHAR_RADIUS)%F (f_lit 0 1) in
   CircleCircleIntersect (mkVector2 (f_lit 0 1) (f_lit 0 1)) PLAYER_RADIUS
                         touching SCARY_CHAR_RADIUS = true).
Proof.
  split; [|split; [|split]].
  - intros F HF rand_src sqrtf cosf sinf RAND_MAX scaryChars player dt walls
           wallCount rng Hlen.
    unfold update_scary_chars.
    pose proof (chase_from_spec rand_src sqrtf cosf sinf RAND_MAX scaryChars []
                  (Z.to_nat SCARY_CHAR_COUNT) player dt walls wallCount rng) as E.
    cbn [length app Nat.add] in E. rewrite Hlen in E.
    change (Z.of_nat 0) with 0 in E.
    change (Z.of_nat (Z.to_nat SCARY_CHAR_COUNT)) with SCARY_CHAR_COUNT in E.
    rewrite E by lia. reflexivity.
  - intros F HF rand_src sqrtf cosf sinf RAND_MAX scaryChars gameState player dt
           walls wallCount rng Hne.
    unfold update_scary_chars. destruct gameState; [contradiction | reflexivity..].
  - exact CircleCircleIntersect_exact.
  - vm_compute. reflexivity.
Qed.

Lemma capture_ends_the_chase_witness :
  length demo_chars = Z.to_nat SCARY_CHAR_COUNT /\
  (update_scary_chars demo_rand (SFsqrt F32.prec F32.emax) demo_cosf demo_sinf 32767
     demo_chars GAME_STATE_PLAYING (mkVector2 (f_lit 0 1) (f_lit 0 1)) (f_lit 1 60)
     [] 0 0).1.2 = GAME_STATE_GAMEOVER.
Proof.
  assert (Hl : length demo_chars = Z.to_nat SCARY_CHAR_COUNT) by reflexivity.
  split; [exact Hl|].
  rewrite (proj1 capture_ends_the_chase spec_float binary32 demo_rand
             (SFsqrt F32.prec F32.emax) demo_cosf demo_sinf 32767 demo_chars
             (mkVector2 (f_lit 0 1) (f_lit 0 1)) (f_lit 1 60) [] 0 0%nat Hl).
  vm_compute. reflexivity.
Defined.

(** * Spawn placement *)

Section PlaceFacts.
Context {F : Type} `{CFloat F}.

Variable rand_src : nat -> Z.
Hypothesis rand_nonneg : forall n, 0 <= rand_src n.
Variable sqrtf : F -> F.

Variable maze : Maze F.
Hypothesis Hw : 1 <= width maze.
Hypothesis Hh : 1 <= height maze.

Local Abbreviation pick_at := (pick rand_src maze).

Lemma pick_in_grid rng k :
  0 <= (pick_at rng k).1 < width maze /\ 0 <= (pick_at rng k).2 < height maze.
Proof.
  unfold pick. cbn [fst snd].
  split; (apply Z.rem_bound_pos; [apply rand_nonneg | lia]).
Qed.

Lemma pick_0 rng :
  pick_at rng 0 = (Z.rem (rand_src rng) (width maze),
                   Z.rem (rand_src (S rng)) (height maze)).
Proof.
  unfold pick.
  replace (rng + 2 * 0)%nat with rng by lia.
  replace (rng + 1)%nat with (S rng) by lia.
  reflexivity.
Qed.

Lemma pick_shift rng j : pick_at (S (S rng)) j = pick_at rng (S j).
Proof.
  unfold pick.
  replace (S (S rng) + 2 * j)%nat with (rng + 2 * S j)%nat by lia.
  replace (rng + 2 * S j + 1)%nat with (S (rng + 2 * S j)) by lia.
  replace (rng + 2 * S j + 1)%nat with (S (rng + 2 * S j)) by lia.
  reflexivity.
Qed.

Section OneCharacter.
Variables (scaryChars : list (ScaryCharacter F)) (i : Z) (start : Vector2 F).

Local Abbreviation ok := (fun c : Z * Z => strict_ok sqrtf maze scaryChars i start c.1 c.2).
Local Abbreviation rok := (relaxed_ok sqrtf maze start).

Lemma strict_picks_valid n cx cy rng :
  strict_picks rand_src sqrtf n maze scaryChars i start true cx cy rng
  = (true, cx, cy, rng).
Proof. destruct n; reflexivity. Qed.

Lemma strict_picks_spec n : forall cx0 cy0 rng,
  let r := strict_picks rand_src sqrtf n maze scaryChars i start false cx0 cy0 rng in
  (r.1.1.1 = true /\
   exists k, (k < n)%nat /\
     (forall j, (j < k)%nat -> ok (pick_at rng j) = false) /\
     ok (r.1.1.2, r.1.2) = true /\
     (r.1.1.2, r.1.2) = pick_at rng k /\
     r.2 = (rng + 2 * (k + 1))%nat) \/
  (r.1.1.1 = false /\
   (forall j, (j < n)%nat -> ok (pick_at rng j) = false) /\
   r.2 = (rng + 2 * n)%nat).
Proof.
  induction n as [|n IH]; intros cx0 cy0 rng; cbn [strict_picks].
  - right. cbn [fst snd]. split; [reflexivity|]. split; [intros j Hj; lia | lia].
  - cbn zeta. pose proof (pick_0 rng) as P0.
    set (a := Z.rem (rand_src rng) (width maze)) in *.
    set (b := Z.rem (rand_src (S rng)) (height maze)) in *.
    destruct (strict_ok sqrtf maze scaryChars i start a b) eqn:E.
    + rewrite strict_picks_valid. cbn [fst snd]. left. split; [reflexivity|].
      exists O. split; [lia|]. split; [intros j Hj; lia|].
      split; [exact E|]. split; [symmetry; exact P0 | lia].
    + assert (E0 : ok (pick_at rng 0) = false) by (rewrite P0; exact E).
      destruct (IH a b (S (S rng))) as [(Hv & k & Hk & Hbefore & Hok & Hc & Hr)
                                       | (Hv & Hall & Hr)].
      * left. split; [exact Hv|]. exists (S k). split; [lia|].
        split; [|split; [exact Hok|split]].
        -- intros [|j] Hj; [exact E0|]. rewrite <- pick_shift. apply Hbefore. lia.
        -- rewrite Hc. apply pick_shift.
        -- rewrite Hr. lia.
      * right. split; [exact Hv|]. split.
        -- intros [|j] Hj; [exact E0|]. rewrite <- pick_shift. apply Hall. lia.
        -- rewrite Hr. lia.
Qed.

Lemma relaxed_picks_spec n : forall cx0 cy0 rng,
  let r := relaxed_picks rand_src sqrtf n maze start cx0 cy0 rng in
  (r.1.1.1 = true /\
   exists k, (k < n)%nat /\
     (forall j, (j < k)%nat -> rok (pick_at rng j) = false) /\
     rok (r.1.1.2, r.1.2) = true /\
     (r.1.1.2, r.1.2) = pick_at rng k /\
     r.2 = (rng + 2 * (k + 1))%nat) \/
  (r.1.1.1 = false /\
   (forall j, (j < n)%nat -> rok (pick_at rng j) = false) /\
   r.2 = (rng + 2 * n)%nat).
Proof.
  induction n as [|n IH]; intros cx0 cy0 rng; cbn [relaxed_picks].
  - right. cbn [fst snd]. split; [reflexivity|]. split; [intros j Hj; lia | lia].
  - cbn zeta. pose proof (pick_0 rng) as P0.
    set (a := Z.rem (rand_src rng) (width maze)) in *.
    set (b := Z.rem (rand_src (S rng)) (height maze)) in *.
    assert (Ec : rok (pick_at rng 0)
                 = fleb RELAXED_DISTANCE (distFromPlayer sqrtf maze start a b))
      by (rewrite P0; reflexivity).
    rewrite <- Ec.
    destruct (rok (pick_at rng 0)) eqn:E.
    + cbn [fst snd]. left. split; [reflexivity|].
      exists O. split; [lia|]. split; [intros j Hj; lia|].
      rewrite <- P0. split; [exact E|]. split; [reflexivity | lia].
    + destruct (IH a b (S (S rng)))
        as [(Hv & k & Hk & Hbefore & Hok & Hc & Hr) | (Hv & Hall & Hr)].
      * left. split; [exact Hv|]. exists (S k). split; [lia|].
        split; [|split; [exact Hok|split]].
        -- intros [|j] Hj; [exact E|]. rewrite <- pick_shift. apply Hbefore. lia.
        -- rewrite Hc. apply pick_shift.
        -- rewrite Hr. lia.
      * right. split; [exact Hv|]. split.
        -- intros [|j] Hj; [exact E|]. rewrite <- pick_shift. apply Hall. lia.
        -- rewrite Hr. lia.
Qed.



Lemma pick_offset rng m j : pick_at (rng + 2 * m) j = pick_at rng (m + j).
Proof.
  unfold pick.
  replace (rng + 2 * m + 2 * j)%nat with (rng + 2 * (m + j))%nat by lia.
  reflexivity.
Qed.

Lemma place_cell_spec rng :
  let r := place_cell rand_src sqrtf maze scaryChars i start rng in
  placed rand_src sqrtf maze scaryChars i start rng (r.1.1, r.1.2) r.2.
Proof.
  unfold place_cell.
  pose proof (strict_picks_spec 200 0 0 rng) as S1. cbv zeta in S1.
  destruct (strict_picks rand_src sqrtf 200 maze scaryChars i start false 0 0 rng)
    as [[[v cx] cy] rng1].
  cbn [fst snd] in S1.
  destruct S1 as [(-> & k & Hk & Hbefore & Hok & Hc & ->) | (-> & Hall & ->)].
  - cbn [negb fst snd].
    apply (placed_strict _ _ _ _ _ _ _ _ _ k);
      [exact Hk | exact Hbefore | exact Hok | exact Hc | reflexivity].
  - cbn [negb].
    pose proof (relaxed_picks_spec 50 cx cy (rng + 2 * 200)) as S2. cbv zeta in S2.
    destruct (relaxed_picks rand_src sqrtf 50 maze start cx cy (rng + 2 * 200))
      as [[[v2 cx2] cy2] rng2].
    cbn [fst snd] in S2.
    destruct S2 as [(-> & k & Hk & Hbefore & Hok & Hc & ->) | (-> & Hall2 & ->)].
    + cbn [negb fst snd].
      apply (placed_relaxed _ _ _ _ _ _ _ _ _ k).
      * exact Hk.
      * exact Hall.
      * intros j Hj. rewrite <- pick_offset. apply Hbefore. exact Hj.
      * exact Hok.
      * rewrite Hc. apply pick_offset.
      * lia.
    + cbn [negb fst snd]. apply placed_anywhere.
      * exact Hall.
      * intros j Hj. rewrite <- pick_offset. apply Hall2. exact Hj.
      * rewrite <- pick_0.
        replace (rng + 2 * 200 + 2 * 50)%nat with (rng + 2 * 250)%nat by lia.
        rewrite pick_offset. replace (250 + 0)%nat with 250%nat by lia. reflexivity.
      * lia.
Qed.

Lemma placed_in_grid rng c rng' :
  placed rand_src sqrtf maze scaryChars i start rng c rng' ->
  (0 <= c.1 < width maze /\ 0 <= c.2 < height maze) /\
  (rng < rng' <= rng + 502)%nat.
Proof.
  intros [k Hk _ _ -> -> | k Hk _ _ _ -> -> | _ _ -> ->];
    (split; [apply pick_in_grid | lia]).
Qed.

End OneCharacter.


End PlaceFacts.

(** ** The distance test of the placement *)

Lemma Qsquare_nonneg (x : Q) : (0 <= x * x)%Q.
Proof.
  destruct (Qlt_le_dec x 0) as [Hn | Hp].
  - assert (E : (x * x == (- x) * (- x))%Q) by ring. rewrite E.
    apply Qmult_le_0_compat; lra.
  - apply Qmult_le_0_compat; lra.
Qed.






(** * More on [Maze_Generate] *)

Section GenerateMoreFacts.
Context {F : Type} `{CFloat F}.
Implicit Types maze : Maze F.

Variable rand_src : nat -> Z.
Hypothesis rand_nonneg : forall n, 0 <= rand_src n.

Section CarveMore.
Variables (w h : Z) (st : GenState F) (rank : Z * Z -> nat).
Variables (x y : Z) (below : list (Z * Z)) (d : Z) (rng' : nat).
Hypothesis Hinv : gen_inv w h st rank.
Hypothesis Hstack : gs_stack st = (x, y) :: below.
Hypothesis Hd : d ∈ directions.
Hypothesis Hvalid :
  IsValidUnvisited (gs_maze st) (x + dir_dx d) (y + dir_dy d) (gs_visited st) = true.

Local Abbreviation m := (gs_maze st).
Local Abbreviation nx := (x + dir_dx d).
Local Abbreviation ny := (y + dir_dy d).
Local Abbreviation st' := (carve_state st x y below d rng').

Lemma carve_wall a b d' :
  d' ∈ directions ->
  Maze_HasWall (gs_maze st') a b d' = false <->
  Maze_HasWall m a b d' = false \/
  (a, b, d') = (x, y, d) \/ (a, b, d') = (nx, ny, opposite d).
Proof.
  intros Hd'.
  destruct (carve_cur w h st rank x y below Hinv Hstack) as [Hc _].
  destruct (carve_nxt st x y d Hvalid) as [Hn _].
  apply (Maze_HasWall_carved m x y d Hd Hc Hn); [|apply (gi_range _ _ _ _ Hinv)|exact Hd'].
  rewrite (gi_cells_len _ _ _ _ Hinv), (gi_width _ _ _ _ Hinv), (gi_height _ _ _ _ Hinv).
  reflexivity.
Qed.

Lemma carve_walls_before :
  Maze_HasWall m x y d = true /\ Maze_HasWall m nx ny (opposite d) = true.
Proof.
  destruct (carve_cur w h st rank x y below Hinv Hstack) as [Hc _].
  destruct (carve_nxt st x y d Hvalid) as [Hn Hv].
  assert (E : Maze_HasWall m nx ny (opposite d) = true).
  { rewrite (Maze_HasWall_in m nx ny) by assumption.
    rewrite (gi_fresh _ _ _ _ Hinv _ _ Hn Hv).
    apply wall_bit_all, opposite_direction, Hd. }
  split; [|exact E].
  rewrite (gi_agree _ _ _ _ Hinv x y d Hd Hc Hn). exact E.
Qed.

End CarveMore.

Lemma triple_eq (a b c a' b' c' : Z) :
  (a, b, c) = (a', b', c') <-> a = a' /\ b = b' /\ c = c'.
Proof.
  split; [intros E; injection E; auto | intros (-> & -> & ->); reflexivity].
Qed.

Section CarveEmitted.
Variables (w h : Z) (st : GenState F) (rank : Z * Z -> nat).
Variables (x y : Z) (below : list (Z * Z)) (d : Z) (rng' : nat).
Hypothesis Hinv : gen_inv w h st rank.
Hypothesis Hstack : gs_stack st = (x, y) :: below.
Hypothesis Hd : d ∈ directions.
Hypothesis Hvalid :
  IsValidUnvisited (gs_maze st) (x + dir_dx d) (y + dir_dy d) (gs_visited st) = true.

Local Abbreviation m := (gs_maze st).
Local Abbreviation nx := (x + dir_dx d).
Local Abbreviation ny := (y + dir_dy d).
Local Abbreviation st' := (carve_state st x y below d rng').

(** The wall removed by a visit is on the list of rectangles under one name
    only: as the North or West side of one of the two cells. *)
Lemma carve_emitted_perm (e : Z * Z * Z) :
  (e = (x, y, d) /\ (d = MAZE_NORTH \/ d = MAZE_WEST)) \/
  (e = (nx, ny, opposite d) /\ (d = MAZE_SOUTH \/ d = MAZE_EAST)) ->
  emitted_walls m ≡ₚ e :: emitted_walls (gs_maze st').
Proof.
  intros He.
  destruct (carve_cur w h st rank x y below Hinv Hstack) as [Hc _].
  destruct (carve_nxt st x y d Hvalid) as [Hn _].
  destruct (carve_walls_before w h st rank x y below d Hinv Hstack Hd Hvalid)
    as [Hb1 Hb2].
  pose proof (carve_wall w h st rank x y below d rng' Hinv Hstack Hd Hvalid) as CW.
  assert (Hdirs : forall a b d',
            d' = MAZE_NORTH \/ d' = MAZE_WEST \/
            (d' = MAZE_EAST /\ a = width m - 1) \/
            (d' = MAZE_SOUTH /\ b = height m - 1) -> d' ∈ directions).
  { intros a b d' Hs. apply direction_elem. tauto. }
  assert (He' : e.1.1 = x /\ e.1.2 = y /\ e.2 = d /\ (d = MAZE_NORTH \/ d = MAZE_WEST) \/
                e.1.1 = nx /\ e.1.2 = ny /\ e.2 = opposite d /\
                (d = MAZE_SOUTH \/ d = MAZE_EAST)).
  { destruct He as [[-> Hx] | [-> Hx]]; [left | right]; cbn [fst snd]; auto. }
  clear He. destruct e as [[ea eb] ed]. cbn [fst snd] in He'.
  unfold in_grid in Hc, Hn.
  apply NoDup_Permutation.
  - apply NoDup_emitted_walls.
  - apply NoDup_cons. split; [|apply NoDup_emitted_walls].
    rewrite elem_of_emitted_walls. intros (_ & Hw & Hs).
    assert (Maze_HasWall (gs_maze st') ea eb ed = false); [|congruence].
    apply CW; [exact (Hdirs _ _ _ Hs)|].
    rewrite !triple_eq.
    destruct He' as [(-> & -> & -> & _) | (-> & -> & -> & _)]; auto.
  - intros [[a b] d']. rewrite elem_of_cons, !elem_of_emitted_walls, triple_eq.
    change (width (gs_maze st')) with (width m).
    change (height (gs_maze st')) with (height m).
    unfold in_grid.
    change (width (gs_maze st')) with (width m).
    change (height (gs_maze st')) with (height m).
    split.
    + intros (Hg & Hw & Hs).
      destruct (Maze_HasWall (gs_maze st') a b d') eqn:E'; [right; auto|].
      left. apply CW in E'; [|exact (Hdirs _ _ _ Hs)].
      rewrite !triple_eq in E'.
      destruct E' as [E' | [(-> & -> & ->) | (-> & -> & ->)]]; [congruence| |].
      * destruct He' as [(-> & -> & -> & _) | (_ & _ & _ & Hx)]; [auto|].
        exfalso.
        destruct Hx as [-> | ->];
          cbn [dir_dx dir_dy MAZE_NORTH MAZE_EAST MAZE_SOUTH MAZE_WEST Z.eqb Pos.eqb] in Hn;
          unfold MAZE_NORTH, MAZE_EAST, MAZE_SOUTH, MAZE_WEST in Hs;
          destruct Hs as [Hs | [Hs | [[Hs ?] | [Hs ?]]]]; try discriminate Hs; lia.
      * destruct He' as [(_ & _ & _ & Hx) | (-> & -> & -> & _)]; [|auto].
        exfalso.
        destruct Hx as [-> | ->];
          cbn [dir_dx dir_dy opposite MAZE_NORTH MAZE_EAST MAZE_SOUTH MAZE_WEST
               Z.eqb Pos.eqb] in Hs;
          unfold MAZE_NORTH, MAZE_EAST, MAZE_SOUTH, MAZE_WEST in Hs;
          destruct Hs as [Hs | [Hs | [[Hs ?] | [Hs ?]]]]; try discriminate Hs; lia.
    + intros [(-> & -> & ->) | (Hg & Hw & Hs)].
      * destruct He' as [(-> & -> & -> & Hx) | (-> & -> & -> & Hx)].
        -- split; [exact Hc|]. split; [exact Hb1|]. tauto.
        -- split; [exact Hn|]. split; [exact Hb2|].
           destruct Hx as [-> | ->]; [left | right; left]; reflexivity.
      * split; [exact Hg|]. split; [|exact Hs].
        destruct (Maze_HasWall m a b d') eqn:E; [reflexivity|].
        assert (Maze_HasWall (gs_maze st') a b d' = false); [|congruence].
        apply CW; [exact (Hdirs _ _ _ Hs)|]. left. exact E.
Qed.

Lemma carve_emitted_length :
  length (emitted_walls m) = S (length (emitted_walls (gs_maze st'))).
Proof.
  assert (exists e : Z * Z * Z,
            (e = (x, y, d) /\ (d = MAZE_NORTH \/ d = MAZE_WEST)) \/
            (e = (nx, ny, opposite d) /\ (d = MAZE_SOUTH \/ d = MAZE_EAST)))
    as [e He].
  { destruct (direction_cases d Hd) as [E | [E | [E | E]]].
    - exists (x, y, d). auto.
    - exists (nx, ny, opposite d). auto.
    - exists (nx, ny, opposite d). auto.
    - exists (x, y, d). auto. }
  rewrite (Permutation_length (carve_emitted_perm e He)). reflexivity.
Qed.

End CarveEmitted.

Section CarveMoreInv.
Variables (w h : Z) (st : GenState F) (rank : Z * Z -> nat) (total : nat).
Variables (x y : Z) (below : list (Z * Z)) (d : Z).
Hypothesis Hinv : gen_inv w h st rank.
Hypothesis Hmore : gen_more w h total st.
Hypothesis Hstack : gs_stack st = (x, y) :: below.
Hypothesis Hd : d ∈ directions.
Hypothesis Hvalid :
  IsValidUnvisited (gs_maze st) (x + dir_dx d) (y + dir_dy d) (gs_visited st) = true.

Local Abbreviation m := (gs_maze st).
Local Abbreviation nx := (x + dir_dx d).
Local Abbreviation ny := (y + dir_dy d).
Local Abbreviation st' := (carve_state st x y below d (gs_rng st + 3)).

Lemma carve_more : gen_more w h total st'.
Proof.
  destruct (carve_cur w h st rank x y below Hinv Hstack) as [Hc _].
  destruct (carve_nxt st x y d Hvalid) as [Hn _].
  pose proof (carve_count_visited w h st rank x y below d (gs_rng st + 3)%nat
                Hinv Hvalid) as Hcount.
  split.
  - intros a b d' Hd' Hg Hout.
    change (in_grid m a b) in Hg.
    change (~ in_grid m (a + dir_dx d') (b + dir_dy d')) in Hout.
    destruct (Maze_HasWall (gs_maze st') a b d') eqn:E; [reflexivity|].
    apply (carve_wall w h st rank x y below d _ Hinv Hstack Hd Hvalid) in E;
      [|exact Hd'].
    rewrite !triple_eq in E.
    destruct E as [E | [(-> & -> & ->) | (-> & -> & ->)]].
    + rewrite (gm_boundary _ _ _ _ Hmore a b d' Hd' Hg Hout) in E. discriminate E.
    + contradiction.
    + exfalso. apply Hout.
      rewrite opposite_dx, opposite_dy by exact Hd.
      replace (nx + - dir_dx d) with x by lia.
      replace (ny + - dir_dy d) with y by lia.
      exact Hc.
  - pose proof (gm_stack _ _ _ _ Hmore) as Hs. rewrite Hstack in Hs.
    rewrite Hcount. cbn [gs_stack carve_state length] in *. lia.
  - pose proof (gm_rng _ _ _ _ Hmore) as Hr.
    pose proof (carve_measure w h st rank x y below d (gs_rng st + 3)%nat
                  Hinv Hstack Hvalid) as Hm.
    cbn [gs_rng carve_state]. lia.
  - pose proof (gm_walls _ _ _ _ Hmore) as Hw.
    pose proof (carve_emitted_length w h st rank x y below d (gs_rng st + 3)%nat
                  Hinv Hstack Hd Hvalid) as Hl.
    rewrite Hcount. lia.
Qed.

End CarveMoreInv.

Lemma pop_more w h total (st : GenState F) x y below :
  gen_more w h total st -> gs_stack st = (x, y) :: below ->
  gen_more w h total (pop_state st below (gs_rng st + 3)).
Proof.
  intros Hmore Hstack. split.
  - exact (gm_boundary _ _ _ _ Hmore).
  - pose proof (gm_stack _ _ _ _ Hmore) as Hs. rewrite Hstack in Hs.
    cbn [gs_stack gs_visited pop_state length] in *. lia.
  - pose proof (gm_rng _ _ _ _ Hmore) as Hr.
    pose proof (pop_measure w h st x y below (gs_rng st + 3)%nat Hstack) as Hm.
    cbn [gs_rng pop_state]. lia.
  - exact (gm_walls _ _ _ _ Hmore).
Qed.

Lemma generate_step_more w h total (st : GenState F) rank :
  gen_inv w h st rank -> gen_more w h total st -> gs_stack st <> [] ->
  gen_more w h total (generate_step rand_src st).
Proof.
  intros Hinv Hmore Hne.
  destruct (gs_stack st) as [|[x y] below] eqn:Hs; [contradiction|].
  destruct (GetRandomNeighbor rand_src (gs_maze st) x y (gs_visited st) (gs_rng st))
    as [[d|] rng] eqn:Hg;
    destruct (GetRandomNeighbor_spec rand_src rand_nonneg _ _ _ _ _ _ _ Hg) as [-> Hr].
  - destruct Hr as [Hd Hv].
    rewrite (generate_step_carve rand_src st x y below d _ Hs Hg Hd).
    exact (carve_more w h st rank total x y below d Hinv Hmore Hs Hd Hv).
  - rewrite (generate_step_pop rand_src st x y below _ Hs Hg).
    apply (pop_more w h total st x y below Hmore Hs).
Qed.

Lemma generate_loop_more w h total fuel (st : GenState F) rank :
  gen_inv w h st rank -> gen_more w h total st ->
  gen_more w h total (generate_loop rand_src fuel st).
Proof.
  revert st rank. induction fuel as [|fuel IH]; intros st rank Hinv Hmore; simpl.
  - exact Hmore.
  - destruct (gs_stack st) as [|c below] eqn:Hs; [exact Hmore|].
    destruct (generate_step_inv rand_src rand_nonneg w h st rank Hinv)
      as (rank' & Hinv' & _).
    { rewrite Hs. discriminate. }
    apply (IH _ rank' Hinv').
    apply (generate_step_more w h total st rank Hinv Hmore).
    rewrite Hs. discriminate.
Qed.

(** With an empty stack every cell has been visited, so nothing is left to
    run. *)
Lemma empty_stack_measure w h (st : GenState F) rank :
  gen_inv w h st rank -> gs_stack st = [] -> gen_measure w h st = O.
Proof.
  intros Hinv Hs. unfold gen_measure.
  rewrite (final_count_visited w h st rank Hinv Hs), Hs. simpl. lia.
Qed.

Lemma generate_loop_measure w h k (st : GenState F) rank :
  gen_inv w h st rank -> (k <= gen_measure w h st)%nat ->
  gen_measure w h (generate_loop rand_src k st) = (gen_measure w h st - k)%nat.
Proof.
  revert st rank. induction k as [|k IH]; intros st rank Hinv Hk; simpl.
  - lia.
  - destruct (gs_stack st) as [|c below] eqn:Hs.
    + rewrite (empty_stack_measure w h st rank Hinv Hs) in Hk. lia.
    + destruct (generate_step_inv rand_src rand_nonneg w h st rank Hinv)
        as (rank' & Hinv' & Hdec).
      { rewrite Hs. discriminate. }
      rewrite (IH _ rank' Hinv') by lia. lia.
Qed.

Lemma length_bind_const {A B} (g : A -> list B) (l : list A) (c : Z) :
  (forall a, a ∈ l -> Z.of_nat (length (g a)) = c) ->
  Z.of_nat (length (l ≫= g)) = c * Z.of_nat (length l).
Proof.
  induction l as [|a l IH]; intros Hc.
  - simpl. lia.
  - rewrite bind_cons, length_app, Nat2Z.inj_add, IH, (Hc a).
    + cbn [length]. lia.
    + apply elem_of_cons. left. reflexivity.
    + intros a' Ha'. apply Hc. apply elem_of_cons. right. exact Ha'.
Qed.

Lemma seqZ_last (n : Z) : 1 <= n -> seqZ 0 n = seqZ 0 (n - 1) ++ [n - 1].
Proof.
  intros Hn. replace n with ((n - 1) + 1) at 1 by lia.
  rewrite seqZ_app by lia. reflexivity.
Qed.

Section FreshCount.
Variable maze : Maze F.
Hypothesis Hw : 1 <= width maze.
Hypothesis Hh : 1 <= height maze.
Hypothesis Hcells :
  cells maze = replicate (Z.to_nat (width maze * height maze)) MAZE_ALL.

Lemma fresh_wall x y d :
  in_grid maze x y -> d ∈ directions -> Maze_HasWall maze x y d = true.
Proof.
  intros Hg Hd. rewrite Maze_HasWall_in by exact Hg.
  rewrite (fresh_cell maze Hw Hh Hcells) by exact Hg.
  apply wall_bit_all. exact Hd.
Qed.

Lemma fresh_emitted_at x y :
  in_grid maze x y ->
  Z.of_nat (length (emitted_at maze x y)) =
  2 + (if x =? width maze - 1 then 1 else 0) + (if y =? height maze - 1 then 1 else 0).
Proof.
  intros Hg. unfold emitted_at.
  rewrite !fresh_wall by (try exact Hg; apply direction_elem; auto).
  rewrite !andb_true_r.
  destruct (x =? width maze - 1), (y =? height maze - 1); reflexivity.
Qed.

Lemma fresh_row_length y :
  0 <= y < height maze ->
  Z.of_nat (length (x ← seqZ 0 (width maze);
                    (fun d => (x, y, d)) <$> emitted_at maze x y)) =
  (2 + (if y =? height maze - 1 then 1 else 0)) * width maze + 1.
Proof.
  intros Hy. rewrite (seqZ_last (width maze)) by exact Hw.
  rewrite bind_app, length_app, Nat2Z.inj_add.
  rewrite (length_bind_const _ _ (2 + (if y =? height maze - 1 then 1 else 0))).
  - rewrite length_seqZ. cbn [mbind list_bind app]. rewrite app_nil_r, length_fmap.
    rewrite fresh_emitted_at by (unfold in_grid; lia).
    rewrite Z.eqb_refl, Z2Nat.id by lia. destruct (y =? height maze - 1); lia.
  - intros x Hx. apply elem_of_seqZ in Hx. rewrite length_fmap.
    rewrite fresh_emitted_at by (unfold in_grid; lia).
    destruct (Z.eqb_spec x (width maze - 1)); lia.
Qed.

Lemma fresh_emitted_length :
  Z.of_nat (length (emitted_walls maze)) =
  2 * (width maze * height maze) + width maze + height maze.
Proof.
  unfold emitted_walls. rewrite (seqZ_last (height maze)) by exact Hh.
  rewrite bind_app, length_app, Nat2Z.inj_add.
  rewrite (length_bind_const _ _ (2 * width maze + 1)).
  - rewrite length_seqZ. cbn [mbind list_bind app]. rewrite app_nil_r.
    change (foldr _ _ _) with
      (x ← seqZ 0 (width maze);
       (fun d => (x, height maze - 1, d)) <$> emitted_at maze x (height maze - 1)).
    rewrite fresh_row_length by lia.
    rewrite Z.eqb_refl, Z2Nat.id by lia. lia.
  - intros y Hy. apply elem_of_seqZ in Hy.
    rewrite fresh_row_length by lia.
    destruct (Z.eqb_spec y (height maze - 1)); lia.
Qed.

Lemma init_more rng :
  gen_more (width maze) (height maze)
    (rng + 3 * gen_measure (width maze) (height maze) (generate_init maze rng))
    (generate_init maze rng).
Proof.
  assert (Hn : (0 < Z.to_nat (width maze * height maze))%nat) by nia.
  assert (H00 : in_grid maze 0 0) by (unfold in_grid; lia).
  assert (Hcount : count_true (gs_visited (generate_init maze rng)) = 1%nat).
  { cbn [gs_visited generate_init]. unfold aset.
    rewrite count_true_insert, count_true_replicate_false; [reflexivity|].
    rewrite (CellIndex_in maze 0 0 H00).
    apply lookup_replicate_2. lia. }
  split.
  - intros x y d Hd Hg _. apply fresh_wall; assumption.
  - rewrite Hcount. cbn [gs_stack generate_init length]. lia.
  - reflexivity.
  - rewrite Hcount. cbn [gs_maze generate_init].
    rewrite fresh_emitted_length. lia.
Qed.

End FreshCount.

(** ** From [Maze_Create] to the end of the loop *)

Section Generated.
Variables (ok_maze ok_cells : bool) (w h : Z) (cs : F) (maze : Maze F) (rng : nat).
Hypothesis Hbound : w * h <= INT_MAX.
Hypothesis Hcreate : Maze_Create ok_maze ok_cells w h cs = Some maze.

Lemma created_measure :
  gen_measure w h (generate_init maze rng) = Z.to_nat (2 * (w * h) - 1).
Proof.
  destruct (Maze_Create_Some _ _ _ _ _ _ Hcreate)
    as (Hw & Hh & Ew & Eh & _ & Ecells & _).
  unfold gen_measure, generate_init. cbn [gs_visited gs_stack length].
  assert (H00 : in_grid maze 0 0) by (unfold in_grid; lia).
  unfold aset. rewrite count_true_insert, count_true_replicate_false.
  - nia.
  - rewrite (CellIndex_in maze 0 0 H00). apply lookup_replicate_2. nia.
Qed.

Lemma created_more :
  gen_more w h (rng + 3 * Z.to_nat (2 * (w * h) - 1)) (generate_init maze rng).
Proof.
  destruct (Maze_Create_Some _ _ _ _ _ _ Hcreate)
    as (Hw & Hh & Ew & Eh & _ & Ecells & _).
  specialize (Ecells Hbound).
  rewrite <- created_measure.
  rewrite <- Ew, <- Eh in *.
  apply init_more; assumption.
Qed.

Lemma generated_inv k :
  exists rank,
    gen_inv w h (generate_loop rand_src k (generate_init maze rng)) rank /\
    gen_more w h (rng + 3 * Z.to_nat (2 * (w * h) - 1))
      (generate_loop rand_src k (generate_init maze rng)).
Proof.
  destruct (created_init_inv _ _ _ _ _ _ rng Hbound Hcreate) as (_ & _ & Hinv & _).
  destruct (generate_loop_inv rand_src rand_nonneg w h k _ _ Hinv) as (rank & Hk).
  exists rank. split; [exact Hk|].
  exact (generate_loop_more w h _ k _ _ Hinv created_more).
Qed.

Lemma generated_dims k :
  width (gs_maze (generate_loop rand_src k (generate_init maze rng))) = w /\
  height (gs_maze (generate_loop rand_src k (generate_init maze rng))) = h /\
  1 <= w /\ 1 <= h.
Proof.
  destruct (generated_inv k) as (rank & Hinv & _).
  destruct (Maze_Create_Some _ _ _ _ _ _ Hcreate) as (Hw & Hh & _).
  split; [exact (gi_width _ _ _ _ Hinv)|].
  split; [exact (gi_height _ _ _ _ Hinv)|]. split; assumption.
Qed.

Lemma generated_boundary k x y d :
  d ∈ directions -> 0 <= x < w -> 0 <= y < h ->
  ~ (0 <= x + dir_dx d < w /\ 0 <= y + dir_dy d < h) ->
  Maze_HasWall (gs_maze (generate_loop rand_src k (generate_init maze rng))) x y d
  = true.
Proof.
  intros Hd Hx Hy Hout.
  destruct (generated_inv k) as (rank & Hinv & Hmore).
  destruct (generated_dims k) as (Ew & Eh & _).
  apply (gm_boundary _ _ _ _ Hmore); [exact Hd| |]; unfold in_grid; rewrite Ew, Eh;
    [lia | exact Hout].
Qed.

End Generated.

(** The outer walls are never carved: in the maze [Maze_Create] returns,
    after any number [k] of iterations of the loop of [Maze_Generate], and
    in the maze it returns (whether its allocations succeed or not), every
    cell of row 0 has its North wall, every cell of the last row its South
    wall, every cell of column 0 its West wall and every cell of the last
    column its East wall. *)
Theorem Maze_Generate_keeps_outer_walls (ok_maze ok_cells ok_visited ok_stack : bool)
  (w h : Z) (cs : F) (maze : Maze F) (rng : nat) (k : nat) :
  w * h <= INT_MAX ->
  Maze_Create ok_maze ok_cells w h cs = Some maze ->
  forall maze' : Maze F,
    maze' = gs_maze (generate_loop rand_src k (generate_init maze rng)) \/
    maze' = fst (Maze_Generate rand_src ok_visited ok_stack maze rng) ->
    (forall x, 0 <= x < w ->
       Maze_HasWall maze' x 0 MAZE_NORTH = true /\
       Maze_HasWall maze' x (h - 1) MAZE_SOUTH = true) /\
    (forall y, 0 <= y < h ->
       Maze_HasWall maze' 0 y MAZE_WEST = true /\
       Maze_HasWall maze' (w - 1) y MAZE_EAST = true).
Proof.
  intros Hb Hc maze' Hm'.
  assert (Hk : exists k', maze' = gs_maze (generate_loop rand_src k' (generate_init maze rng))).
  { destruct Hm' as [-> | ->]; [exists k; reflexivity|].
    unfold Maze_Generate.
    destruct ok_visited; [|exists O; reflexivity].
    destruct ok_stack; [|exists O; reflexivity].
    exists (generate_fuel maze). reflexivity. }
  destruct Hk as [k' ->].
  destruct (generated_dims _ _ _ _ _ _ rng Hb Hc k') as (_ & _ & Hw & Hh).
  assert (B : forall x y d, d ∈ directions -> 0 <= x < w -> 0 <= y < h ->
                ~ (0 <= x + dir_dx d < w /\ 0 <= y + dir_dy d < h) ->
                Maze_HasWall (gs_maze (generate_loop rand_src k' (generate_init maze rng)))
                  x y d = true)
    by (intros; eapply generated_boundary; eassumption).
  split.
  - intros x Hx. split; apply B; try lia;
      try (apply direction_elem; auto; fail); cbn; lia.
  - intros y Hy. split; apply B; try lia;
      try (apply direction_elem; auto; fail); cbn; lia.
Qed.

(** The backtracking stack fits its allocation: after any number [k] of
    iterations of the loop of [Maze_Generate] the stack holds at most
    [w * h] cells, the size of the array allocated for it, and every cell on
    it is a cell of the grid. *)
Theorem Maze_Generate_stack_fits (ok_maze ok_cells : bool)
  (w h : Z) (cs : F) (maze : Maze F) (rng : nat) (k : nat) :
  w * h <= INT_MAX ->
  Maze_Create ok_maze ok_cells w h cs = Some maze ->
  let st := generate_loop rand_src k (generate_init maze rng) in
  Z.of_nat (length (gs_stack st)) <= w * h /\
  (forall x y, (x, y) ∈ gs_stack st -> 0 <= x < w /\ 0 <= y < h).
Proof.
  intros Hb Hc st.
  destruct (generated_inv _ _ _ _ _ _ rng Hb Hc k) as (rank & Hinv & Hmore).
  destruct (generated_dims _ _ _ _ _ _ rng Hb Hc k) as (Ew & Eh & Hw & Hh).
  fold st in Hinv, Hmore, Ew, Eh. split.
  - pose proof (gm_stack _ _ _ _ Hmore) as Hs.
    pose proof (count_true_le (gs_visited st)) as Hle.
    rewrite (gi_visited_len _ _ _ _ Hinv) in Hle. nia.
  - intros x y Hin. destruct (gi_stack _ _ _ _ Hinv x y Hin) as [Hg _].
    unfold in_grid in Hg. rewrite Ew, Eh in Hg. exact Hg.
Qed.

(** The loop of [Maze_Generate] runs exactly [2 * w * h - 1] times, one
    iteration for each cell visited after the first and one for each cell
    popped, and every iteration draws three random numbers in
    [GetRandomNeighbor]: [Maze_Generate] leaves the stream [3 * (2 * w * h - 1)]
    positions further. *)
Theorem Maze_Generate_runs_exactly (ok_maze ok_cells : bool)
  (w h : Z) (cs : F) (maze : Maze F) (rng : nat) :
  w * h <= INT_MAX ->
  Maze_Create ok_maze ok_cells w h cs = Some maze ->
  (forall k, Z.of_nat k < 2 * (w * h) - 1 ->
     gs_stack (generate_loop rand_src k (generate_init maze rng)) <> []) /\
  gs_stack (generate_loop rand_src (Z.to_nat (2 * (w * h) - 1))
              (generate_init maze rng)) = [] /\
  snd (Maze_Generate rand_src true true maze rng)
  = (rng + 3 * Z.to_nat (2 * (w * h) - 1))%nat.
Proof.
  intros Hb Hc.
  destruct (created_init_inv _ _ _ _ _ _ rng Hb Hc) as (Ew & Eh & Hinv & Hfuel).
  pose proof (created_measure _ _ _ _ _ _ rng Hb Hc) as Hm.
  split; [|split].
  - intros k Hk Hs.
    destruct (generated_inv _ _ _ _ _ _ rng Hb Hc k) as (rank & Hinvk & _).
    pose proof (empty_stack_measure w h _ rank Hinvk Hs) as H0.
    rewrite (generate_loop_measure w h k _ _ Hinv) in H0 by lia. lia.
  - eapply generate_loop_stack; [exact rand_nonneg | exact Hinv | lia].
  - unfold Maze_Generate. cbn [negb snd].
    destruct (generated_inv _ _ _ _ _ _ rng Hb Hc (generate_fuel maze))
      as (rank & Hinvk & Hmore).
    pose proof (generate_loop_stack rand_src rand_nonneg w h _ _ _ Hinv Hfuel) as Hs.
    pose proof (empty_stack_measure w h _ rank Hinvk Hs) as H0.
    pose proof (gm_rng _ _ _ _ Hmore) as Hr. lia.
Qed.

Lemma generated_wall_list (ok_maze ok_cells : bool)
  (w h : Z) (cs : F) (maze : Maze F) (rng : nat) (maxRects : Z) :
  w * h <= INT_MAX ->
  Maze_Create ok_maze ok_cells w h cs = Some maze ->
  4 * (w * h) <= maxRects ->
  let maze' := fst (Maze_Generate rand_src true true maze rng) in
  Maze_GetWallRects maze' maxRects = rect_of maze' <$> emitted_walls maze' /\
  Z.of_nat (length (emitted_walls maze')) = (w + 1) * (h + 1).
Proof.
  intros Hb Hc Hcap maze'. subst maze'.
  destruct (created_init_inv _ _ _ _ _ _ rng Hb Hc) as (_ & _ & Hinv & Hfuel).
  unfold Maze_Generate. cbn [negb fst].
  destruct (generated_inv _ _ _ _ _ _ rng Hb Hc (generate_fuel maze))
    as (rank & Hinvk & Hmore).
  destruct (generated_dims _ _ _ _ _ _ rng Hb Hc (generate_fuel maze))
    as (Ew & Eh & Hw & Hh).
  pose proof (generate_loop_stack rand_src rand_nonneg w h _ _ _ Hinv Hfuel) as Hs.
  split.
  - apply Maze_GetWallRects_spec; rewrite ?Ew, ?Eh; lia.
  - pose proof (gm_walls _ _ _ _ Hmore) as Hwalls.
    rewrite (final_count_visited w h _ rank Hinvk Hs) in Hwalls. nia.
Qed.

(** A generated maze always yields the same number of collision
    rectangles: when both allocations of [Maze_Generate] succeed and the
    buffer holds at least four rectangles per cell, [Maze_GetWallRects]
    writes exactly [(w + 1) * (h + 1)] rectangles, whatever the random
    numbers were (256 for the 15 by 15 maze of the game). *)
Theorem generated_maze_wall_count (ok_maze ok_cells : bool)
  (w h : Z) (cs : F) (maze : Maze F) (rng : nat) (maxRects : Z) :
  w * h <= INT_MAX ->
  Maze_Create ok_maze ok_cells w h cs = Some maze ->
  4 * (w * h) <= maxRects ->
  Z.of_nat (length (Maze_GetWallRects
                      (fst (Maze_Generate rand_src true true maze rng)) maxRects))
  = (w + 1) * (h + 1).
Proof.
  intros Hb Hc Hcap.
  destruct (generated_wall_list _ _ _ _ _ _ rng maxRects Hb Hc Hcap) as [E L].
  rewrite E, length_fmap. exact L.
Qed.

(** [GetRandomNeighbor] always draws three random numbers.  When it returns
    1 the direction it stores leads to a cell of the grid that is not yet
    visited; it returns 0 only when no direction does. *)
Theorem GetRandomNeighbor_finds_unvisited (maze : Maze F) (x y : Z)
  (visited : list bool) (rng : nat) :
  let r := GetRandomNeighbor rand_src maze x y visited rng in
  snd r = (rng + 3)%nat /\
  match fst r with
  | Some dir =>
      dir ∈ directions /\
      (0 <= x + dir_dx dir < width maze /\ 0 <= y + dir_dy dir < height maze) /\
      aget visited (CellIndex maze (x + dir_dx dir) (y + dir_dy dir)) = false
  | None =>
      forall dir, dir ∈ directions ->
        0 <= x + dir_dx dir < width maze -> 0 <= y + dir_dy dir < height maze ->
        aget visited (CellIndex maze (x + dir_dx dir) (y + dir_dy dir)) = true
  end.
Proof.
  intros r.
  destruct (GetRandomNeighbor_spec rand_src rand_nonneg maze x y visited rng
              (fst r) (snd r)) as [Hrng Hr].
  { subst r. destruct (GetRandomNeighbor _ _ _ _ _ _); reflexivity. }
  split; [exact Hrng|].
  destruct (fst r) as [dir|].
  - destruct Hr as [Hd Hv]. apply IsValidUnvisited_spec in Hv.
    destruct Hv as [Hg Hv]. auto.
  - intros dir Hd Hx Hy. specialize (Hr dir Hd).
    destruct (aget visited (CellIndex maze (x + dir_dx dir) (y + dir_dy dir))) eqn:E;
      [reflexivity|].
    assert (IsValidUnvisited maze (x + dir_dx dir) (y + dir_dy dir) visited = true);
      [|congruence].
    apply IsValidUnvisited_spec. split; [split; assumption | exact E].
Qed.

End GenerateMoreFacts.

Lemma Maze_Generate_keeps_outer_walls_witness :
  (forall n, 0 <= demo_rand n) /\
  3 * 2 <= INT_MAX /\
  Maze_Create true true 3 2 (f_lit 3 1) = Some demo_maze /\
  let maze' := fst (Maze_Generate demo_rand true true demo_maze 0) in
  (forall x, 0 <= x < 3 ->
     Maze_HasWall maze' x 0 MAZE_NORTH = true /\
     Maze_HasWall maze' x (2 - 1) MAZE_SOUTH = true) /\
  (forall y, 0 <= y < 2 ->
     Maze_HasWall maze' 0 y MAZE_WEST = true /\
     Maze_HasWall maze' (3 - 1) y MAZE_EAST = true).
Proof.
  split; [exact demo_rand_nonneg|].
  split; [vm_compute; discriminate|].
  split; [reflexivity|].
  intros maze'.
  apply (Maze_Generate_keeps_outer_walls demo_rand demo_rand_nonneg
           true true true true 3 2 (f_lit 3 1) demo_maze 0%nat 0%nat).
  - vm_compute; discriminate.
  - reflexivity.
  - right. reflexivity.
Defined.

Lemma Maze_Generate_stack_fits_witness :
  (forall n, 0 <= demo_rand n) /\
  3 * 2 <= INT_MAX /\
  Maze_Create true true 3 2 (f_lit 3 1) = Some demo_maze /\
  let st := generate_loop demo_rand 5 (generate_init demo_maze 0) in
  Z.of_nat (length (gs_stack st)) <= 3 * 2 /\
  (forall x y, (x, y) ∈ gs_stack st -> 0 <= x < 3 /\ 0 <= y < 2).
Proof.
  split; [exact demo_rand_nonneg|].
  split; [vm_compute; discriminate|].
  split; [reflexivity|].
  apply (Maze_Generate_stack_fits demo_rand demo_rand_nonneg
           true true 3 2 (f_lit 3 1) demo_maze 0%nat 5%nat).
  - vm_compute; discriminate.
  - reflexivity.
Defined.

Lemma Maze_Generate_runs_exactly_witness :
  (forall n, 0 <= demo_rand n) /\
  3 * 2 <= INT_MAX /\
  Maze_Create true true 3 2 (f_lit 3 1) = Some demo_maze /\
  gs_stack (generate_loop demo_rand (Z.to_nat (2 * (3 * 2) - 1))
              (generate_init demo_maze 0)) = [] /\
  snd (Maze_Generate demo_rand true true demo_maze 0)
  = (0 + 3 * Z.to_nat (2 * (3 * 2) - 1))%nat.
Proof.
  split; [exact demo_rand_nonneg|].
  split; [vm_compute; discriminate|].
  split; [reflexivity|].
  apply (Maze_Generate_runs_exactly demo_rand demo_rand_nonneg
           true true 3 2 (f_lit 3 1) demo_maze 0%nat).
  - vm_compute; discriminate.
  - reflexivity.
Defined.

Lemma generated_maze_wall_count_witness :
  (forall n, 0 <= demo_rand n) /\
  3 * 2 <= INT_MAX /\
  Maze_Create true true 3 2 (f_lit 3 1) = Some demo_maze /\
  4 * (3 * 2) <= 24 /\
  Z.of_nat (length (Maze_GetWallRects
                      (fst (Maze_Generate demo_rand true true demo_maze 0)) 24))
  = (3 + 1) * (2 + 1).
Proof.
  split; [exact demo_rand_nonneg|].
  split; [vm_compute; discriminate|].
  split; [reflexivity|].
  split; [lia|].
  apply (generated_maze_wall_count demo_rand demo_rand_nonneg
           true true 3 2 (f_lit 3 1) demo_maze 0%nat 24).
  - vm_compute; discriminate.
  - reflexivity.
  - lia.
Defined.

Lemma GetRandomNeighbor_finds_unvisited_witness :
  (forall n, 0 <= demo_rand n) /\
  snd (GetRandomNeighbor demo_rand demo_maze 0 0
         [true; false; false; false; false; false] 0) = (0 + 3)%nat.
Proof.
  split; [exact demo_rand_nonneg|].
  exact (proj1 (GetRandomNeighbor_finds_unvisited demo_rand demo_rand_nonneg
                  demo_maze 0 0 [true; false; false; false; false; false] 0%nat)).
Defined.

(** * Movement never enters a wall *)

Section ClearFacts.
Context {F : Type} `{CFloat F}.

Lemma CollidesAny_eta (p : Vector2 F) r (walls : list (WallRect F)) count :
  CollidesAny (mkVector2 (vx p) (vy p)) r walls count = CollidesAny p r walls count.
Proof. destruct p; reflexivity. Qed.

Lemma move_axes_clear (pXZ step : Vector2 F) r (walls : list (WallRect F)) wallCount :
  CollidesAny pXZ r walls wallCount = false ->
  CollidesAny (move_axes pXZ step r walls wallCount) r walls wallCount = false.
Proof.
  intros Hstart. unfold move_axes.
  destruct (CollidesAny (mkVector2 (vx pXZ + vx step)%F (vy pXZ)) r walls wallCount)
    eqn:EX; cbn [negb vx vy].
  - destruct (CollidesAny (mkVector2 (vx pXZ) (vy pXZ + vy step)%F) r walls wallCount)
      eqn:EZ; cbn [negb vx vy]; assumption.
  - destruct (CollidesAny (mkVector2 (vx pXZ + vx step)%F (vy pXZ + vy step)%F)
                r walls wallCount) eqn:EZ; cbn [negb vx vy]; assumption.
Qed.

Variable rand_src : nat -> Z.
Variables sqrtf cosf sinf : F -> F.
Variable RAND_MAX : Z.

Lemma steer_char_clear (ch : ScaryCharacter F) player dt
  (walls : list (WallRect F)) wallCount rng :
  char_clear walls wallCount ch ->
  char_clear walls wallCount
    (steer_char rand_src sqrtf cosf sinf RAND_MAX ch player dt walls wallCount rng).1.2.
Proof.
  unfold char_clear, char_pos2d, steer_char. intros Hc.
  destruct (fltb _ _); [|exact Hc].
  destruct (if fltb _ _ then _ else _) as [dirx diry].
  cbn [fst snd sc_position sc_radius px pz].
  rewrite CollidesAny_eta. apply move_axes_clear. exact Hc.
Qed.

Lemma chase_from_clear n : forall i count (chars : list (ScaryCharacter F))
  gameState player dt (walls : list (WallRect F)) wallCount rng,
  0 <= i -> count <= Z.of_nat (length chars) ->
  (forall j, 0 <= j < count -> char_clear walls wallCount (aget chars j)) ->
  forall j, 0 <= j < count ->
    char_clear walls wallCount
      (aget (chase_from rand_src sqrtf cosf sinf RAND_MAX n i count chars gameState
               player dt walls wallCount rng).1.1 j).
Proof.
  induction n as [|n IH]; intros i count chars gameState player dt walls wallCount rng
    Hi Hlen Hall j Hj; cbn [chase_from].
  - apply Hall. exact Hj.
  - destruct (Z.ltb_spec i count) as [Hlt | Hge]; [|apply Hall; exact Hj].
    pose proof (steer_char_clear (aget chars i) player dt walls wallCount rng
                  (Hall i ltac:(lia))) as Hst.
    destruct (steer_char rand_src sqrtf cosf sinf RAND_MAX (aget chars i) player dt
                walls wallCount rng) as [[charPos ch'] rng'].
    cbn [fst snd] in Hst.
    assert (Hall' : forall j, 0 <= j < count ->
              char_clear walls wallCount (aget (aset chars i ch') j)).
    { intros j' Hj'. destruct (Z.eq_dec j' i) as [-> | Hne].
      - rewrite aget_aset_eq by lia. exact Hst.
      - rewrite aget_aset_ne by lia. apply Hall. exact Hj'. }
    destruct (CircleCircleIntersect _ _ _ _).
    + apply Hall'. exact Hj.
    + apply IH; [lia | rewrite length_aset; exact Hlen | exact Hall' | exact Hj].
Qed.

End ClearFacts.

(** A move never ends inside a wall.  The movement block, applied to a
    circle that touches no wall rectangle, leaves it on a position where it
    touches none, whatever the step; and the chase block of a frame leaves
    every scary character that touched no wall rectangle before it on a
    position where it touches none. *)
Theorem movement_keeps_clear :
  forall (F : Type) (HF : CFloat F) (walls : list (WallRect F)) (wallCount : Z),
    (forall (pXZ step : Vector2 F) (r : F),
       CollidesAny pXZ r walls wallCount = false ->
       CollidesAny (move_axes pXZ step r walls wallCount) r walls wallCount = false) /\
    (forall (rand_src : nat -> Z) (sqrtf cosf sinf : F -> F) (RAND_MAX : Z)
            (scaryChars : list (ScaryCharacter F)) (gameState : GameState)
            (player : Vector2 F) (dt : F) (rng : nat),
       length scaryChars = Z.to_nat SCARY_CHAR_COUNT ->
       (forall i, 0 <= i < SCARY_CHAR_COUNT ->
          char_clear walls wallCount (aget scaryChars i)) ->
       forall i, 0 <= i < SCARY_CHAR_COUNT ->
         char_clear walls wallCount
           (aget (update_scary_chars rand_src sqrtf cosf sinf RAND_MAX scaryChars
                    gameState player dt walls wallCount rng).1.1 i)).
Proof.
  intros F HF walls wallCount. split.
  - intros pXZ step r. apply move_axes_clear.
  - intros rand_src sqrtf cosf sinf RAND_MAX scaryChars gameState player dt rng
      Hlen Hall i Hi.
    unfold update_scary_chars. destruct gameState; cbn [fst]; try (apply Hall; exact Hi).
    apply chase_from_clear; [lia | rewrite Hlen; reflexivity | exact Hall | exact Hi].
Qed.

Lemma movement_keeps_clear_witness :
  CollidesAny (mkVector2 (f_lit 0 1) (f_lit 0 1)) (f_lit 3 10) slide_walls 1 = false /\
  CollidesAny
    (move_axes (mkVector2 (f_lit 0 1) (f_lit 0 1)) (mkVector2 (f_lit 1 1) (f_lit 1 1))
               (f_lit 3 10) slide_walls 1)
    (f_lit 3 10) slide_walls 1 = false.
Proof.
  assert (H0 : CollidesAny (mkVector2 (f_lit 0 1) (f_lit 0 1)) (f_lit 3 10)
                 slide_walls 1 = false) by (vm_compute; reflexivity).
  split; [exact H0|].
  exact (proj1 (movement_keeps_clear spec_float binary32 slide_walls 1) _ _ _ H0).
Defined.

(** * What [CircleRectIntersect] decides *)

Lemma Qfltb_spec (a b : Q) : reflect (a < b)%Q (@fltb Q exactQ a b).
Proof.
  cbn [fltb exactQ]. destruct (Qle_bool b a) eqn:E; cbn [negb]; constructor.
  - apply Qle_bool_iff in E. lra.
  - apply Qnot_le_lt. intros Hle. apply Qle_bool_iff in Hle. congruence.
Qed.

Lemma Qfleb_spec (a b : Q) : reflect (a <= b)%Q (@fleb Q exactQ a b).
Proof.
  cbn [fleb exactQ]. destruct (Qle_bool a b) eqn:E; constructor.
  - apply Qle_bool_iff. exact E.
  - intros Hle. apply Qle_bool_iff in Hle. congruence.
Qed.

(** [clampf] returns the point of [[lo, hi]] nearest to [v]. *)
Lemma clampf_exact (v lo hi : Q) :
  (lo <= hi)%Q ->
  (lo <= @clampf Q exactQ v lo hi <= hi)%Q /\
  forall a, (lo <= a <= hi)%Q ->
    ((v - @clampf Q exactQ v lo hi) * (v - @clampf Q exactQ v lo hi)
     <= (v - a) * (v - a))%Q.
Proof.
  intros Hle. unfold clampf.
  destruct (Qfltb_spec v lo) as [H1 | H1]; [|destruct (Qfltb_spec hi v) as [H2 | H2]].
  - split; [lra|]. intros a [Ha1 Ha2].
    assert (0 <= (a - lo) * (lo - v))%Q by (apply Qmult_le_0_compat; lra).
    assert (0 <= (a - lo) * (a - lo))%Q by (apply Qmult_le_0_compat; lra).
    lra.
  - split; [lra|]. intros a [Ha1 Ha2].
    assert (0 <= (hi - a) * (v - hi))%Q by (apply Qmult_le_0_compat; lra).
    assert (0 <= (hi - a) * (hi - a))%Q by (apply Qmult_le_0_compat; lra).
    lra.
  - split; [lra|]. intros a [Ha1 Ha2].
    assert (E : (v - v == 0)%Q) by ring. rewrite E.
    pose proof (Qsquare_nonneg (v - a)). lra.
Qed.

(** In exact arithmetic [CircleRectIntersect] answers [true] exactly when
    the disc of centre [c] and radius [r] and the rectangle have a point in
    common: some point of the rectangle is at squared distance at most
    [r * r] from [c].  The rectangle must have a width and a height that are
    not negative. *)
Theorem CircleRectIntersect_meets (c : Vector2 Q) (r : Q) (rect : Rectangle Q) :
  (0 <= rwidth rect)%Q -> (0 <= rheight rect)%Q ->
  CircleRectIntersect c r rect = true <->
  exists a b : Q,
    (rx rect <= a <= rx rect + rwidth rect)%Q /\
    (ry rect <= b <= ry rect + rheight rect)%Q /\
    ((vx c - a) * (vx c - a) + (vy c - b) * (vy c - b) <= r * r)%Q.
Proof.
  intros Hw Hh. unfold CircleRectIntersect.
  cbn [fadd fsub fmul exactQ].
  destruct (clampf_exact (vx c) (rx rect) (rx rect + rwidth rect) ltac:(lra))
    as [Hxa Hxm].
  destruct (clampf_exact (vy c) (ry rect) (ry rect + rheight rect) ltac:(lra))
    as [Hza Hzm].
  destruct (Qfleb_spec
    ((vx c - clampf (vx c) (rx rect) (rx rect + rwidth rect)) *
     (vx c - clampf (vx c) (rx rect) (rx rect + rwidth rect)) +
     (vy c - clampf (vy c) (ry rect) (ry rect + rheight rect)) *
     (vy c - clampf (vy c) (ry rect) (ry rect + rheight rect)))%Q (r * r)%Q)
    as [Hle | Hnle].
  - split; [intros _|reflexivity].
    exists (clampf (vx c) (rx rect) (rx rect + rwidth rect)%Q),
           (clampf (vy c) (ry rect) (ry rect + rheight rect)%Q). auto.
  - split; [discriminate|]. intros (a & b & Ha & Hb & Hd). exfalso. apply Hnle.
    specialize (Hxm a Ha). specialize (Hzm b Hb). lra.
Qed.

Lemma CircleRectIntersect_meets_witness :
  let rc : Rectangle Q := mkRectangle (1 # 2) (- 1 # 1) (1 # 1) (2 # 1) in
  let c : Vector2 Q := mkVector2 (0 # 1) (0 # 1) in
  (0 <= rwidth rc)%Q /\ (0 <= rheight rc)%Q /\
  (CircleRectIntersect c (3 # 10) rc = true <->
   exists a b : Q,
     (rx rc <= a <= rx rc + rwidth rc)%Q /\
     (ry rc <= b <= ry rc + rheight rc)%Q /\
     ((vx c - a) * (vx c - a) + (vy c - b) * (vy c - b) <= (3 # 10) * (3 # 10))%Q).
Proof.
  intros rc c.
  assert (Hw : (0 <= rwidth rc)%Q) by (cbn; lra).
  assert (Hh : (0 <= rheight rc)%Q) by (cbn; lra).
  split; [exact Hw|]. split; [exact Hh|].
  exact (CircleRectIntersect_meets c (3 # 10) rc Hw Hh).
Defined.

(** * Cell centres are clear of the walls *)

Section RectElements.
Context {F : Type} `{CFloat F}.
Implicit Types maze : Maze F.

(** A wall rectangle of the maze: the rectangle of a side of a cell. *)
Local Abbreviation side_rect maze wr :=
  (exists x y d, in_grid maze x y /\ d ∈ directions /\ wr = rect_of maze (x, y, d)).

Lemma emit_cell_elements maze x y out :
  in_grid maze x y ->
  Forall (fun wr => side_rect maze wr) out ->
  Forall (fun wr => side_rect maze wr) (emit_cell maze x y out).
Proof.
  intros Hg Hout. rewrite emit_cell_spec. apply Forall_app. split; [exact Hout|].
  unfold cell_rects. apply Forall_fmap, Forall_fmap, Forall_forall.
  intros d Hd. cbn. exists x, y, d. split; [exact Hg|]. split; [|reflexivity].
  apply elem_of_emitted_at in Hd. destruct Hd as [_ Hd].
  apply direction_elem. tauto.
Qed.

Lemma rects_row_elements maze y maxRects n : forall x out,
  0 <= x -> 0 <= y < height maze ->
  Forall (fun wr => side_rect maze wr) out ->
  Forall (fun wr => side_rect maze wr) (rects_row n x maze y maxRects out).
Proof.
  induction n as [|n IH]; intros x out Hx Hy Hout; cbn [rects_row]; [exact Hout|].
  destruct (Z.ltb_spec x (width maze)); [|exact Hout].
  destruct (Z.of_nat (length out) <? maxRects); [|exact Hout]. cbn [andb].
  apply IH; [lia | exact Hy|].
  apply emit_cell_elements; [unfold in_grid; lia | exact Hout].
Qed.

Lemma rects_rows_elements maze maxRects n : forall y out,
  0 <= y ->
  Forall (fun wr => side_rect maze wr) out ->
  Forall (fun wr => side_rect maze wr) (rects_rows n y maze maxRects out).
Proof.
  induction n as [|n IH]; intros y out Hy Hout; cbn [rects_rows]; [exact Hout|].
  destruct (Z.ltb_spec y (height maze)); [|exact Hout].
  destruct (Z.of_nat (length out) <? maxRects); [|exact Hout]. cbn [andb].
  apply IH; [lia|].
  apply rects_row_elements; [lia | lia | exact Hout].
Qed.

Lemma GetWallRects_elements maze maxRects :
  Forall (fun wr => side_rect maze wr) (Maze_GetWallRects maze maxRects).
Proof.
  unfold Maze_GetWallRects. destruct (maxRects <=? 0); [constructor|].
  apply rects_rows_elements; [lia | constructor].
Qed.

(** A circle that misses the rectangle of every side of every cell collides
    with nothing [Maze_GetWallRects] writes. *)
Lemma clear_of_sides maze maxRects (c : Vector2 F) (r : F) :
  (forall x y d, in_grid maze x y -> d ∈ directions ->
     CircleRectIntersect c r (rect (rect_of maze (x, y, d))) = false) ->
  CollidesAny c r (Maze_GetWallRects maze maxRects)
    (Z.of_nat (length (Maze_GetWallRects maze maxRects))) = false.
Proof.
  intros Hall. apply CollidesAny_false. intros (k & Hk & Hhit).
  pose proof (GetWallRects_elements maze maxRects) as Hel.
  rewrite Forall_forall in Hel.
  destruct (Hel (aget (Maze_GetWallRects maze maxRects) k)) as (x & y & d & Hg & Hd & E).
  - unfold aget. apply list_elem_of_lookup_total_2. lia.
  - rewrite E, Hall in Hhit by assumption. discriminate Hhit.
Qed.

End RectElements.

(** Along the axis across a wall, the centre of a cell is at least half a
    cell away from the wall's line, so further than [r] from every point of
    the wall's rectangle. *)
Lemma axis_gap (cs r : Q) (n k k' : Z) (lo nz : Q) :
  (0 < cs)%Q -> (0 <= r)%Q -> (r < cs * (1 # 2) - (1 # 20))%Q ->
  (lo == (inject_Z k' - inject_Z n * (1 # 2) + (1 # 2)) * cs
         - cs * (1 # 2) - (1 # 10) * (1 # 2) \/
   lo == (inject_Z k' - inject_Z n * (1 # 2) + (1 # 2)) * cs
         + cs * (1 # 2) - (1 # 10) * (1 # 2))%Q ->
  (lo <= nz <= lo + (1 # 10))%Q ->
  (r * r <
   ((inject_Z k - inject_Z n * (1 # 2) + (1 # 2)) * cs - nz) *
   ((inject_Z k - inject_Z n * (1 # 2) + (1 # 2)) * cs - nz))%Q.
Proof.
  intros Hcs Hr Hlt Hlo Hnz.
  set (t := ((inject_Z k - inject_Z n * (1 # 2) + (1 # 2)) * cs - nz)%Q).
  assert (Hgap : (cs * (1 # 2) - (1 # 20) <= t \/ t <= - (cs * (1 # 2) - (1 # 20)))%Q).
  { subst t. destruct Hlo as [Hlo | Hlo].
    - destruct (Z_le_gt_dec k' k) as [Hk | Hk].
      + left. rewrite Zle_Qle in Hk.
        assert (0 <= (inject_Z k - inject_Z k') * cs)%Q
          by (apply Qmult_le_0_compat; lra).
        lra.
      + right. assert (Hk' : (k + 1 <= k')%Z) by lia.
        rewrite Zle_Qle, inject_Z_plus in Hk'. change (inject_Z 1) with 1%Q in Hk'.
        assert (0 <= (inject_Z k' - inject_Z k - 1) * cs)%Q
          by (apply Qmult_le_0_compat; lra).
        lra.
    - destruct (Z_le_gt_dec (k' + 1) k) as [Hk | Hk].
      + left. rewrite Zle_Qle, inject_Z_plus in Hk. change (inject_Z 1) with 1%Q in Hk.
        assert (0 <= (inject_Z k - inject_Z k' - 1) * cs)%Q
          by (apply Qmult_le_0_compat; lra).
        lra.
      + right. assert (Hk' : (k <= k')%Z) by lia.
        rewrite Zle_Qle in Hk'.
        assert (0 <= (inject_Z k' - inject_Z k) * cs)%Q
          by (apply Qmult_le_0_compat; lra).
        lra. }
  destruct Hgap as [Hg | Hg].
  - assert (0 < (t - r) * (t + r))%Q by (apply Qmult_lt_0_compat; lra). lra.
  - assert (0 < (- t - r) * (- t + r))%Q by (apply Qmult_lt_0_compat; lra). lra.
Qed.

Lemma centre_misses_rect (maze : Maze Q) (r : Q) (x y x' y' d : Z) :
  (0 < cellSize maze)%Q -> (0 <= r)%Q ->
  (r < cellSize maze * (1 # 2) - (1 # 20))%Q ->
  d ∈ directions ->
  CircleRectIntersect (Maze_CellToWorld maze x y) r (rect (rect_of maze (x', y', d)))
  = false.
Proof.
  intros Hcs Hr Hlt Hd. unfold CircleRectIntersect.
  match goal with |- fleb ?a ?b = false => destruct (Qfleb_spec a b) as [Hle | Hn] end;
    [exfalso | reflexivity].
  revert Hle. unfold rect_of.
  each_direction Hd;
    cbn [Z.eqb Pos.eqb MAZE_NORTH MAZE_EAST MAZE_SOUTH MAZE_WEST rect rx ry
         rwidth rheight northRect westRect eastRect southRect Maze_CellToWorld vx vy];
    unfold cellCenterX, cellCenterZ, halfCell, wallThick;
    cbn [fadd fsub fmul exactQ f_of_int f_lit];
    match goal with
    | |- ((?cx - clampf ?cx ?xlo ?xhi) * _ + (?cz - clampf ?cz ?zlo ?zhi) * _ <= _)%Q -> _ =>
        pose proof (Qsquare_nonneg (cx - clampf cx xlo xhi)) as Hsx;
        pose proof (Qsquare_nonneg (cz - clampf cz zlo zhi)) as Hsz;
        pose proof (fun Hz => proj1 (clampf_exact cx xlo xhi Hz)) as Hcx;
        pose proof (fun Hz => proj1 (clampf_exact cz zlo zhi Hz)) as Hcz
    end; intros Hle.
  - (* North: the rectangle is thin along z *)
    pose proof (axis_gap (cellSize maze) r (height maze) y y' _ _ Hcs Hr Hlt
                  (or_introl (Qeq_refl _)) (Hcz ltac:(lra))) as G.
    lra.
  - (* East: thin along x *)
    pose proof (axis_gap (cellSize maze) r (width maze) x x' _ _ Hcs Hr Hlt
                  (or_intror (Qeq_refl _)) (Hcx ltac:(lra))) as G.
    lra.
  - (* South *)
    pose proof (axis_gap (cellSize maze) r (height maze) y y' _ _ Hcs Hr Hlt
                  (or_intror (Qeq_refl _)) (Hcz ltac:(lra))) as G.
    lra.
  - (* West *)
    pose proof (axis_gap (cellSize maze) r (width maze) x x' _ _ Hcs Hr Hlt
                  (or_introl (Qeq_refl _)) (Hcx ltac:(lra))) as G.
    lra.
Qed.

Lemma clear_check_spec {F : Type} `{CFloat F} (centres : list (Vector2 F)) (r : F)
  (rects : list (Rectangle F)) (c : Vector2 F) (rc : Rectangle F) :
  clear_check centres r rects = true -> c ∈ centres -> rc ∈ rects ->
  CircleRectIntersect c r rc = false.
Proof.
  unfold clear_check. intros Hall Hc Hrc.
  rewrite forallb_forall in Hall.
  specialize (Hall c (proj1 (list_elem_of_In _ _) Hc)).
  rewrite forallb_forall in Hall.
  specialize (Hall rc (proj1 (list_elem_of_In _ _) Hrc)).
  apply negb_true_iff. exact Hall.
Qed.

Lemma elem_of_all_centres {F : Type} `{CFloat F} (maze : Maze F) (x y : Z) :
  in_grid maze x y -> Maze_CellToWorld maze x y ∈ all_centres maze.
Proof.
  intros [Hx Hy]. unfold all_centres.
  apply list_elem_of_bind. exists y. split; [|apply elem_of_seqZ; lia].
  apply list_elem_of_bind. exists x. split; [|apply elem_of_seqZ; lia].
  apply list_elem_of_singleton. reflexivity.
Qed.

Lemma elem_of_all_rects {F : Type} `{CFloat F} (maze : Maze F) (x y d : Z) :
  in_grid maze x y -> d ∈ directions ->
  rect (rect_of maze (x, y, d)) ∈ all_rects maze.
Proof.
  intros [Hx Hy] Hd. unfold all_rects.
  apply list_elem_of_bind. exists y. split; [|apply elem_of_seqZ; lia].
  apply list_elem_of_bind. exists x. split; [|apply elem_of_seqZ; lia].
  apply list_elem_of_bind. exists d. split; [|exact Hd].
  apply list_elem_of_singleton. reflexivity.
Qed.

(** The geometry of a maze depends on its dimensions and cell size only. *)
Lemma same_geometry {F : Type} `{CFloat F} (m1 m2 : Maze F) :
  width m1 = width m2 -> height m1 = height m2 -> cellSize m1 = cellSize m2 ->
  (forall x y, Maze_CellToWorld m1 x y = Maze_CellToWorld m2 x y) /\
  (forall k, rect_of m1 k = rect_of m2 k).
Proof.
  intros Ew Eh Ec. split.
  - intros x y. unfold Maze_CellToWorld. rewrite Ew, Eh, Ec. reflexivity.
  - intros [[x y] d].
    unfold rect_of, northRect, westRect, eastRect, southRect,
      cellCenterX, cellCenterZ, halfCell.
    rewrite Ew, Eh, Ec. reflexivity.
Qed.

Lemma game_centres_clear :
  clear_check (all_centres game_maze) SCARY_CHAR_RADIUS (all_rects game_maze) = true.
Proof. vm_cast_no_check (eq_refl true). Qed.

Lemma game_start_clear :
  clear_check [Maze_CellToWorld game_maze 0 0] PLAYER_RADIUS (all_rects game_maze)
  = true.
Proof. vm_cast_no_check (eq_refl true). Qed.

Lemma game_cells_clear (maze : Maze spec_float) (maxRects : Z) :
  width maze = MAZE_WIDTH -> height maze = MAZE_HEIGHT -> cellSize maze = CELL_SIZE ->
  let walls := Maze_GetWallRects maze maxRects in
  let wallCount := Z.of_nat (length walls) in
  (forall x y, 0 <= x < MAZE_WIDTH -> 0 <= y < MAZE_HEIGHT ->
     CollidesAny (Maze_CellToWorld maze x y) SCARY_CHAR_RADIUS walls wallCount
     = false) /\
  CollidesAny (Maze_CellToWorld maze 0 0) PLAYER_RADIUS walls wallCount = false.
Proof.
  intros Ew Eh Ec walls wallCount.
  destruct (same_geometry maze game_maze Ew Eh Ec) as [Ecw Ero].
  assert (Hg : forall a b, in_grid maze a b -> in_grid game_maze a b).
  { intros a b. unfold in_grid. rewrite Ew, Eh. tauto. }
  split.
  - intros x y Hx Hy. apply clear_of_sides. intros x' y' d Hxy Hd.
    rewrite Ecw, Ero.
    apply (clear_check_spec _ _ _ _ _ game_centres_clear).
    + apply elem_of_all_centres. split; assumption.
    + apply elem_of_all_rects; [apply Hg; exact Hxy | exact Hd].
  - apply clear_of_sides. intros x' y' d Hxy Hd.
    rewrite Ecw, Ero.
    apply (clear_check_spec _ _ _ _ _ game_start_clear).
    + apply list_elem_of_singleton. reflexivity.
    + apply elem_of_all_rects; [apply Hg; exact Hxy | exact Hd].
Qed.

(** The centre of a cell is clear of every wall.  In exact arithmetic, for
    every maze with a positive cell size, a circle whose radius is below
    half a cell less half the wall thickness (0.05), centred on the centre
    of any cell, touches none of the rectangles [Maze_GetWallRects] writes.
    In binary32, for every maze with the dimensions and cell size of the
    game and whatever walls it has, a scary character (radius 0.35) on the
    centre of any cell and the player (radius 0.30) on the centre of the
    start cell (0,0) touch none of them. *)
Theorem cell_centres_are_clear :
  (forall (maze : Maze Q) (r : Q) (maxRects x y : Z),
     (0 < cellSize maze)%Q -> (0 <= r)%Q ->
     (r < cellSize maze * (1 # 2) - (1 # 20))%Q ->
     CollidesAny (Maze_CellToWorld maze x y) r (Maze_GetWallRects maze maxRects)
       (Z.of_nat (length (Maze_GetWallRects maze maxRects))) = false) /\
  (forall (maze : Maze spec_float) (maxRects : Z),
     width maze = MAZE_WIDTH -> height maze = MAZE_HEIGHT ->
     cellSize maze = CELL_SIZE ->
     let walls := Maze_GetWallRects maze maxRects in
     let wallCount := Z.of_nat (length walls) in
     (forall x y, 0 <= x < MAZE_WIDTH -> 0 <= y < MAZE_HEIGHT ->
        CollidesAny (Maze_CellToWorld maze x y) SCARY_CHAR_RADIUS walls wallCount
        = false) /\
     CollidesAny (Maze_CellToWorld maze 0 0) PLAYER_RADIUS walls wallCount = false).
Proof.
  split.
  - intros maze r maxRects x y Hcs Hr Hlt. apply clear_of_sides.
    intros x' y' d _ Hd. apply centre_misses_rect; assumption.
  - intros maze maxRects Ew Eh Ec walls wallCount.
    apply game_cells_clear; assumption.
Qed.

Lemma cell_centres_are_clear_witness :
  let maze : Maze Q :=
    {| width := 4; height := 3; cells := replicate 12 MAZE_ALL;
       cellSize := 3 # 1;
       startPos := mkVector2 0%Q 0%Q; exitPos := mkVector2 (3 # 1) (2 # 1) |} in
  (0 < cellSize maze)%Q /\ (0 <= 3 # 10)%Q /\
  (3 # 10 < cellSize maze * (1 # 2) - (1 # 20))%Q /\
  CollidesAny (Maze_CellToWorld maze 2 1) (3 # 10) (Maze_GetWallRects maze 48)
    (Z.of_nat (length (Maze_GetWallRects maze 48))) = false.
Proof.
  intros maze.
  assert (H1 : (0 < cellSize maze)%Q) by reflexivity.
  assert (H2 : (0 <= 3 # 10)%Q) by (intros E; discriminate E).
  assert (H3 : (3 # 10 < cellSize maze * (1 # 2) - (1 # 20))%Q) by reflexivity.
  split; [exact H1|]. split; [exact H2|]. split; [exact H3|].
  exact (proj1 cell_centres_are_clear maze (3 # 10) 48 2 1 H1 H2 H3).
Defined.

(** * Truncation in exact arithmetic *)

Lemma Q_trunc_floor (q : Q) :
  (0 <= q)%Q ->
  0 <= @f_to_int Q exactQ q /\
  (inject_Z (@f_to_int Q exactQ q) <= q < inject_Z (@f_to_int Q exactQ q) + 1)%Q.
Proof.
  intros Hq. cbn [f_to_int exactQ]. destruct q as [n d]. cbn [Qnum Qden].
  unfold Qle in Hq. simpl in Hq.
  assert (Hn : 0 <= n) by lia.
  rewrite Z.quot_div_nonneg by lia.
  pose proof (Z.mul_div_le n (Zpos d) ltac:(lia)) as H1.
  pose proof (Z.mul_succ_div_gt n (Zpos d) ltac:(lia)) as H2.
  split; [apply Z.div_pos; lia|].
  unfold Qle, Qlt. simpl. split; nia.
Qed.

Lemma Q_trunc_below_one (q : Q) : (q < 1)%Q -> @f_to_int Q exactQ q <= 0.
Proof.
  intros Hq. destruct (Qlt_le_dec q 0) as [Hneg | Hpos].
  - cbn [f_to_int exactQ]. destruct q as [n d]. cbn [Qnum Qden].
    unfold Qlt in Hneg. simpl in Hneg.
    replace n with (- (- n)) by lia. rewrite Z.quot_opp_l by lia.
    rewrite Z.quot_div_nonneg by lia.
    assert (0 <= (- n) / Zpos d) by (apply Z.div_pos; lia). lia.
  - destruct (Q_trunc_floor q Hpos) as [_ [Hlo _]].
    assert (Hlt : (inject_Z (@f_to_int Q exactQ q) < inject_Z 1)%Q)
      by (change (inject_Z 1) with 1%Q; lra).
    rewrite <- Zlt_Qlt in Hlt. lia.
Qed.

Lemma Q_trunc_eq_pos (q : Q) (n : Z) :
  1 <= n ->
  @f_to_int Q exactQ q = n <-> (inject_Z n <= q < inject_Z n + 1)%Q.
Proof.
  intros Hn. split.
  - intros E. destruct (Qlt_le_dec q 1) as [Hlt | Hge].
    + pose proof (Q_trunc_below_one q Hlt). lia.
    + destruct (Q_trunc_floor q ltac:(lra)) as [_ Hfl]. rewrite E in Hfl. exact Hfl.
  - intros [Hlo Hhi].
    assert (Hn' : (inject_Z 1 <= inject_Z n)%Q) by (rewrite <- Zle_Qle; exact Hn).
    change (inject_Z 1) with 1%Q in Hn'.
    destruct (Q_trunc_floor q ltac:(lra)) as [_ [Flo Fhi]].
    assert (A : (inject_Z (@f_to_int Q exactQ q) < inject_Z (n + 1))%Q)
      by (rewrite inject_Z_plus; change (inject_Z 1) with 1%Q; lra).
    assert (B : (inject_Z n < inject_Z (@f_to_int Q exactQ q + 1))%Q)
      by (rewrite inject_Z_plus; change (inject_Z 1) with 1%Q; lra).
    rewrite <- Zlt_Qlt in A, B. lia.
Qed.

Lemma Q_trunc_inject (n : Z) : @f_to_int Q exactQ (inject_Z n) = n.
Proof. cbn. apply Z.quot_1_r. Qed.

(** * The win block *)

Lemma Qdiv_between (p cs lo hi : Q) :
  (0 < cs)%Q ->
  (lo * cs <= p < hi * cs)%Q <-> (lo <= p / cs < hi)%Q.
Proof.
  intros Hcs.
  assert (E : (p == (p / cs) * cs)%Q) by (field; lra).
  split.
  - intros [A B]. rewrite E in A, B.
    apply Qmult_le_r in A; [|exact Hcs]. apply Qmult_lt_r in B; [|exact Hcs].
    split; assumption.
  - intros [A B]. rewrite E. split.
    + apply Qmult_le_r; assumption.
    + apply Qmult_lt_r; assumption.
Qed.

Lemma Maze_Create_positive {F : Type} `{CFloat F} ok_maze ok_cells w h (cs : F) maze :
  Maze_Create ok_maze ok_cells w h cs = Some maze -> fleb cs (f_lit 0 1) = false.
Proof.
  unfold Maze_Create. destruct (w <? 1), (h <? 1), (fleb cs (f_lit 0 1));
    cbn [orb]; try discriminate. reflexivity.
Qed.

(** Whether the exact coordinate [p] falls in the last of [n] cells. *)
Lemma last_cell_exact (cs p : Q) (n : Z) :
  (0 < cs)%Q -> 2 <= n ->
  @f_to_int Q exactQ (p / cs + inject_Z n * (1 # 2))%Q = n - 1 <->
  ((inject_Z n * (1 # 2) - 1) * cs <= p < inject_Z n * (1 # 2) * cs)%Q.
Proof.
  intros Hcs Hn. rewrite Q_trunc_eq_pos by lia.
  rewrite (Qdiv_between p cs _ _ Hcs).
  unfold Z.sub. rewrite inject_Z_plus. change (inject_Z (- (1))) with (- (1))%Q.
  split; intros [A B]; split; lra.
Qed.

(** In exact arithmetic the game is won exactly in the square of the exit
    cell.  For a maze [Maze_Create] returns, with at least two columns and
    two rows, the block that ends a frame sets [GAME_STATE_WON] when the
    player's position [(x, z)] satisfies
    [(w/2 - 1) * cellSize <= x < w/2 * cellSize] and
    [(h/2 - 1) * cellSize <= z < h/2 * cellSize]; at any other position it
    leaves the state and the best record as they are and saves nothing. *)
Theorem game_is_won_in_the_exit_square (w h : Z) (cs : Q) (maze : Maze Q)
  (playerPos : Vector3 Q) (gameState : GameState) (bestRecord gameTimer : Q) :
  Maze_Create true true w h cs = Some maze -> 2 <= w -> 2 <= h ->
  let inside :=
    ((inject_Z w * (1 # 2) - 1) * cs <= px playerPos < inject_Z w * (1 # 2) * cs)%Q /\
    ((inject_Z h * (1 # 2) - 1) * cs <= pz playerPos < inject_Z h * (1 # 2) * cs)%Q in
  (inside -> (win_block maze playerPos gameState bestRecord gameTimer).1.1
             = GAME_STATE_WON) /\
  (~ inside -> win_block maze playerPos gameState bestRecord gameTimer
               = (gameState, bestRecord, None)).
Proof.
  intros Hc Hw Hh inside.
  pose proof (Maze_Create_positive _ _ _ _ _ _ Hc) as Hpos.
  destruct (Maze_Create_Some _ _ _ _ _ _ Hc) as (_ & _ & Ew & Eh & Ecs & _ & _ & Ee).
  assert (Hcs : (0 < cs)%Q).
  { destruct (Qfleb_spec cs (f_lit 0 1)) as [Hle | Hn]; [discriminate Hpos|].
    change (@f_lit Q exactQ 0 1) with 0%Q in Hn. lra. }
  unfold win_block, Maze_WorldToCell, Maze_IsExit.
  rewrite Ew, Eh, Ecs, Ee.
  cbn [vx vy fadd fmul fdiv f_of_int f_lit exactQ].
  rewrite !Q_trunc_inject.
  pose proof (last_cell_exact cs (px playerPos) w Hcs Hw) as Lx.
  pose proof (last_cell_exact cs (pz playerPos) h Hcs Hh) as Lz.
  destruct (Z.eqb_spec (@f_to_int Q exactQ (px playerPos / cs + inject_Z w * (1 # 2))%Q)
              (w - 1)) as [Ex | Ex];
  destruct (Z.eqb_spec (@f_to_int Q exactQ (pz playerPos / cs + inject_Z h * (1 # 2))%Q)
              (h - 1)) as [Ez | Ez]; cbn [andb].
  - split; [intros _|].
    + destruct (_ || _); reflexivity.
    + intros Hn. exfalso. apply Hn. split; [apply Lx; exact Ex | apply Lz; exact Ez].
  - split; [|reflexivity]. intros [_ Hz]. exfalso. apply Ez, Lz, Hz.
  - split; [|reflexivity]. intros [Hx _]. exfalso. apply Ex, Lx, Hx.
  - split; [|reflexivity]. intros [Hx _]. exfalso. apply Ex, Lx, Hx.
Qed.

Lemma game_is_won_in_the_exit_square_witness :
  let maze : Maze Q :=
    {| width := 4; height := 2; cells := replicate (Z.to_nat (4 * 2)) MAZE_ALL;
       cellSize := 3 # 1;
       startPos := mkVector2 (inject_Z 0) (inject_Z 0);
       exitPos := mkVector2 (inject_Z (4 - 1)) (inject_Z (2 - 1)) |} in
  Maze_Create true true 4 2 (3 # 1) = Some maze /\ 2 <= 4 /\ 2 <= 2 /\
  (win_block maze (mkVector3 (9 # 2) 0%Q (3 # 2)) GAME_STATE_PLAYING (- 1 # 1) (42 # 1)).1.1
  = GAME_STATE_WON.
Proof.
  intros maze.
  assert (Hc : Maze_Create true true 4 2 (3 # 1) = Some maze) by reflexivity.
  split; [exact Hc|]. split; [lia|]. split; [lia|].
  apply (proj1 (game_is_won_in_the_exit_square 4 2 (3 # 1) maze
                  (mkVector3 (9 # 2) 0%Q (3 # 2)) GAME_STATE_PLAYING (- 1 # 1) (42 # 1)
                  Hc ltac:(lia) ltac:(lia))).
  cbn [px pz]. split; split; reflexivity || (intros E; discriminate E).
Defined.

(** * The best record *)

Lemma record_after_exact (timers : list Q) : forall bestRecord : Q,
  (forall t, t ∈ timers -> (0 <= t)%Q) ->
  let b := record_after timers bestRecord in
  (forall t, t ∈ timers -> (b <= t)%Q) /\
  ((bestRecord < 0)%Q -> timers = [] \/ b ∈ timers) /\
  ((0 <= bestRecord)%Q -> (b <= bestRecord)%Q /\ (b = bestRecord \/ b ∈ timers)).
Proof.
  induction timers as [|t rest IH]; intros bestRecord Hpos; cbn [record_after].
  - split; [intros t Ht; apply elem_of_nil in Ht; contradiction|].
    split; [auto|]. intros _. split; [lra | auto].
  - assert (Ht : (0 <= t)%Q) by (apply Hpos, elem_of_cons; auto).
    assert (Hrest : forall t', t' ∈ rest -> (0 <= t')%Q)
      by (intros t' Ht'; apply Hpos, elem_of_cons; auto).
    change (@f_lit Q exactQ 0 1) with 0%Q.
    destruct (Qfltb_spec bestRecord 0) as [Hneg | Hnn]; cbn [orb];
      [|destruct (Qfltb_spec t bestRecord) as [Hlt | Hge]].
    + destruct (IH t Hrest) as (A & _ & C). destruct (C Ht) as [C1 C2].
      split; [|split].
      * intros t' Ht'. apply elem_of_cons in Ht'. destruct Ht' as [-> | Ht']; auto.
      * intros _. right. apply elem_of_cons. tauto.
      * intros H0. lra.
    + destruct (IH t Hrest) as (A & _ & C). destruct (C Ht) as [C1 C2].
      split; [|split].
      * intros t' Ht'. apply elem_of_cons in Ht'. destruct Ht' as [-> | Ht']; auto.
      * intros H0. lra.
      * intros _. split; [lra|]. right. apply elem_of_cons. tauto.
    + destruct (IH bestRecord Hrest) as (A & _ & C).
      destruct (C ltac:(lra)) as [C1 C2].
      split; [|split].
      * intros t' Ht'. apply elem_of_cons in Ht'.
        destruct Ht' as [-> | Ht']; [lra | auto].
      * intros H0. lra.
      * intros _. split; [exact C1|]. destruct C2 as [C2 | C2]; [auto|].
        right. apply elem_of_cons. auto.
Qed.

(** The best record is the least winning time.  The block run on the exit
    cell replaces [bestRecord] by [gameTimer] when there is no record yet
    ([bestRecord < 0]) or the timer is below it, and calls [SaveBestRecord]
    exactly then.  In exact arithmetic, after any run of games won with
    timers that are not negative, [bestRecord] is at most each of those
    timers; starting from no record it is one of them, and starting from a
    record it is that record or one of them, whichever is least. *)
Theorem best_record_is_least_time :
  (forall (F : Type) (HF : CFloat F) (maze : Maze F) (playerPos : Vector3 F)
          (gameState : GameState) (bestRecord gameTimer : F),
     Maze_IsExit maze (Maze_WorldToCell maze (px playerPos) (pz playerPos)).1
                      (Maze_WorldToCell maze (px playerPos) (pz playerPos)).2 = true ->
     let r := win_block maze playerPos gameState bestRecord gameTimer in
     r.1.1 = GAME_STATE_WON /\
     r.1.2 = record_after [gameTimer] bestRecord /\
     (r.2 = Some gameTimer /\ r.1.2 = gameTimer \/ r.2 = None /\ r.1.2 = bestRecord)) /\
  (forall (timers : list Q) (bestRecord : Q),
     (forall t, t ∈ timers -> (0 <= t)%Q) ->
     let b := record_after timers bestRecord in
     (forall t, t ∈ timers -> (b <= t)%Q) /\
     ((bestRecord < 0)%Q -> timers <> [] -> b ∈ timers) /\
     ((0 <= bestRecord)%Q -> (b <= bestRecord)%Q /\ (b = bestRecord \/ b ∈ timers))).
Proof.
  split.
  - intros F HF maze playerPos gameState bestRecord gameTimer.
    unfold win_block. destruct (Maze_WorldToCell maze _ _) as [cellX cellY].
    cbn [fst snd record_after]. intros ->.
    destruct (_ || _); cbn [fst snd]; auto.
  - intros timers bestRecord Hpos b.
    destruct (record_after_exact timers bestRecord Hpos) as (A & B & C).
    split; [exact A|]. split; [|exact C].
    intros Hneg Hne. destruct (B Hneg) as [E | E]; [contradiction | exact E].
Qed.

Lemma best_record_is_least_time_witness :
  (forall t : Q, t ∈ [73 # 2; 12 # 1; 55 # 1] -> (0 <= t)%Q) /\
  (forall t : Q, t ∈ [73 # 2; 12 # 1; 55 # 1] ->
     (record_after [73 # 2; 12 # 1; 55 # 1] (- 1 # 1) <= t)%Q).
Proof.
  assert (Hpos : forall t : Q, t ∈ [73 # 2; 12 # 1; 55 # 1] -> (0 <= t)%Q).
  { intros t Ht. rewrite !elem_of_cons, elem_of_nil in Ht.
    destruct Ht as [-> | [-> | [-> | []]]]; intros E; discriminate E. }
  split; [exact Hpos|].
  exact (proj1 (proj2 best_record_is_least_time [73 # 2; 12 # 1; 55 # 1] (- 1 # 1) Hpos)).
Defined.

(** * The timer display *)

(** In exact arithmetic the display shows the timer rounded down to a
    hundredth of a second.  For a timer [t >= 0] the three numbers printed
    as [minutes:seconds.hundredths] satisfy [0 <= seconds < 60],
    [0 <= hundredths < 100], [0 <= minutes], and
    [(6000 * minutes + 100 * seconds + hundredths) / 100 <= t], with [t]
    below that value plus one hundredth. *)
Theorem timer_display_rounds_down (t : Q) :
  (0 <= t)%Q ->
  let '(minutes, seconds, hundredths) := timer_display t in
  0 <= minutes /\ 0 <= seconds < 60 /\ 0 <= hundredths < 100 /\
  (inject_Z (6000 * minutes + 100 * seconds + hundredths) * (1 # 100) <= t
   < inject_Z (6000 * minutes + 100 * seconds + hundredths + 1) * (1 # 100))%Q.
Proof.
  intros Ht. unfold timer_display.
  cbn [fsub fmul fdiv f_of_int f_lit exactQ].
  set (T := @f_to_int Q exactQ t).
  set (m := @f_to_int Q exactQ (t / (60 # 1))%Q).
  set (c := @f_to_int Q exactQ ((t - inject_Z T) * (100 # 1))%Q).
  destruct (Q_trunc_floor t Ht) as [HT [Tlo Thi]]. fold T in HT, Tlo, Thi.
  assert (Hdiv : (0 <= t / (60 # 1))%Q).
  { apply Qle_shift_div_l; [reflexivity | lra]. }
  destruct (Q_trunc_floor _ Hdiv) as [Hm Mfl]. fold m in Hm, Mfl.
  apply Qdiv_between in Mfl; [|reflexivity]. destruct Mfl as [Mlo Mhi].
  assert (Hfrac : (0 <= (t - inject_Z T) * (100 # 1))%Q) by lra.
  destruct (Q_trunc_floor _ Hfrac) as [Hc [Clo Chi]]. fold c in Hc, Clo, Chi.
  (* the integer part lies between 60 m and 60 m + 59 *)
  assert (A : (inject_Z (m * 60) < inject_Z (T + 1))%Q).
  { rewrite inject_Z_mult, inject_Z_plus.
    change (inject_Z 60) with (60 # 1). change (inject_Z 1) with 1%Q. lra. }
  assert (B : (inject_Z T < inject_Z ((m + 1) * 60))%Q).
  { rewrite inject_Z_mult, inject_Z_plus.
    change (inject_Z 60) with (60 # 1). change (inject_Z 1) with 1%Q. lra. }
  rewrite <- Zlt_Qlt in A, B.
  assert (Hc100 : (inject_Z c < inject_Z 100)%Q)
    by (change (inject_Z 100) with (100 # 1); lra).
  rewrite <- Zlt_Qlt in Hc100.
  assert (Es : Z.rem T 60 = T - 60 * m).
  { rewrite Z.rem_mod_nonneg by lia.
    symmetry. apply (Z.mod_unique_pos T 60 m); lia. }
  rewrite Es.
  split; [exact Hm|]. split; [lia|]. split; [lia|].
  replace (6000 * m + 100 * (T - 60 * m) + c) with (100 * T + c) by lia.
  rewrite !inject_Z_plus, inject_Z_mult.
  change (inject_Z 100) with (100 # 1). change (inject_Z 1) with 1%Q.
  split; lra.
Qed.

Lemma timer_display_rounds_down_witness :
  (0 <= 7531 # 100)%Q /\
  let '(minutes, seconds, hundredths) := timer_display (7531 # 100 : Q) in
  0 <= minutes /\ 0 <= seconds < 60 /\ 0 <= hundredths < 100 /\
  (inject_Z (6000 * minutes + 100 * seconds + hundredths) * (1 # 100) <= 7531 # 100
   < inject_Z (6000 * minutes + 100 * seconds + hundredths + 1) * (1 # 100))%Q.
Proof.
  assert (H0 : (0 <= 7531 # 100)%Q) by (intros E; discriminate E).
  split; [exact H0|].
  exact (timer_display_rounds_down (7531 # 100) H0).
Defined.

(** * The end of a frame *)

(** In the frame in which a character captures the player the exit test
    still runs, on the state the chase block has left.  If the player's cell
    is the exit, the frame ends in [GAME_STATE_WON], not
    [GAME_STATE_GAMEOVER], and the best record is updated with the timer as
    after any win; otherwise the frame ends in [GAME_STATE_GAMEOVER] with
    the record as it was.  Either way the characters and the position in
    the stream are those the chase block left. *)
Theorem check_exit_after_capture :
  forall (F : Type) (HF : CFloat F) (rand_src : nat -> Z) (sqrtf cosf sinf : F -> F)
         (RAND_MAX : Z) (maze : Maze F) (scaryChars : list (ScaryCharacter F))
         (playerPos : Vector3 F) (dt : F) (walls : list (WallRect F)) (wallCount : Z)
         (bestRecord gameTimer : F) (rng : nat),
    let chase :=
      update_scary_chars rand_src sqrtf cosf sinf RAND_MAX scaryChars
        GAME_STATE_PLAYING (mkVector2 (px playerPos) (pz playerPos)) dt
        walls wallCount rng in
    let r :=
      frame_end rand_src sqrtf cosf sinf RAND_MAX maze scaryChars
        GAME_STATE_PLAYING playerPos dt walls wallCount bestRecord gameTimer rng in
    let onExit :=
      Maze_IsExit maze (Maze_WorldToCell maze (px playerPos) (pz playerPos)).1
                       (Maze_WorldToCell maze (px playerPos) (pz playerPos)).2 in
    chase.1.2 = GAME_STATE_GAMEOVER ->
    r.1.1.1.1 = chase.1.1 /\ r.2 = chase.2 /\
    (onExit = true ->
       r.1.1.1.2 = GAME_STATE_WON /\
       r.1.1.2 = record_after [gameTimer] bestRecord) /\
    (onExit = false ->
       r.1.1.1.2 = GAME_STATE_GAMEOVER /\ r.1.1.2 = bestRecord /\ r.1.2 = None).
Proof.
  intros F HF rand_src sqrtf cosf sinf RAND_MAX maze scaryChars playerPos dt
    walls wallCount bestRecord gameTimer rng chase r onExit.
  subst r onExit. unfold frame_end. fold chase.
  destruct chase as [[chars gs] rng']. cbn [fst snd]. intros ->.
  unfold win_block.
  destruct (Maze_WorldToCell maze (px playerPos) (pz playerPos)) as [cellX cellY].
  cbn [fst snd record_after].
  destruct (Maze_IsExit maze cellX cellY).
  - destruct ((bestRecord <? f_lit 0 1)%F || (gameTimer <? bestRecord)%F);
      cbn [fst snd]; repeat split; try reflexivity; discriminate.
  - cbn [fst snd]. repeat split; try reflexivity; discriminate.
Qed.

Lemma check_exit_after_capture_witness :
  let exitCentre := Maze_CellToWorld game_maze 14 14 in
  let playerPos := mkVector3 (vx exitCentre) (f_lit 0 1) (vy exitCentre) in
  let chars :=
    replicate 3 (mkScaryCharacter playerPos SCARY_CHAR_SPEED SCARY_CHAR_RADIUS
                   SCARY_CHAR_HEIGHT) in
  let chase :=
    update_scary_chars demo_rand (SFsqrt F32.prec F32.emax) demo_cosf demo_sinf 32767
      chars GAME_STATE_PLAYING (mkVector2 (px playerPos) (pz playerPos))
      (f_lit 1 60) [] 0 0 in
  let r :=
    frame_end demo_rand (SFsqrt F32.prec F32.emax) demo_cosf demo_sinf 32767
      game_maze chars GAME_STATE_PLAYING playerPos (f_lit 1 60) [] 0
      (f_lit (-1) 1) (f_lit 25 2) 0 in
  chase.1.2 = GAME_STATE_GAMEOVER /\
  Maze_IsExit game_maze (Maze_WorldToCell game_maze (px playerPos) (pz playerPos)).1
                        (Maze_WorldToCell game_maze (px playerPos) (pz playerPos)).2
  = true /\
  r.1.1.1.2 = GAME_STATE_WON /\
  r.1.1.2 = record_after [f_lit 25 2] (f_lit (-1) 1).
Proof.
  cbv zeta.
  pose proof (check_exit_after_capture spec_float binary32 demo_rand
                (SFsqrt F32.prec F32.emax) demo_cosf demo_sinf 32767 game_maze
                (replicate 3
                   (mkScaryCharacter
                      (mkVector3 (vx (Maze_CellToWorld game_maze 14 14)) (f_lit 0 1)
                                 (vy (Maze_CellToWorld game_maze 14 14)))
                      SCARY_CHAR_SPEED SCARY_CHAR_RADIUS SCARY_CHAR_HEIGHT))
                (mkVector3 (vx (Maze_CellToWorld game_maze 14 14)) (f_lit 0 1)
                           (vy (Maze_CellToWorld game_maze 14 14)))
                (f_lit 1 60) [] 0 (f_lit (-1) 1) (f_lit 25 2) 0%nat) as T.
  cbv zeta in T.
  match type of T with
  | ?A -> _ => assert (Hcap : A) by (vm_compute; reflexivity)
  end.
  destruct (T Hcap) as (_ & _ & Hwon & _).
  match type of Hwon with
  | ?A -> _ => assert (Hexit : A) by (vm_compute; reflexivity)
  end.
  split; [exact Hcap|]. split; [exact Hexit|]. exact (Hwon Hexit).
Defined.

(** * Emission *)

Section EmitFacts.
Context {F : Type} `{CFloat F}.
Implicit Types ps : ParticleSystem F.

Variable rand_src : nat -> Z.

Lemma emit_particle_rng (emitter : Vector3 F) (rng : nat) :
  snd (emit_particle rand_src emitter rng) = (rng + 6)%nat.
Proof. unfold emit_particle. cbn [snd]. lia. Qed.

(** The emission loop adds one particle for each of its iterations, six
    draws each, until [toEmit] are added or the pool is full. *)
Lemma emit_from_count n : forall i toEmit emitter ps rng,
  0 <= i -> activeParticles ps <= maxParticles ps ->
  let e := Z.min (Z.min (Z.of_nat n) (Z.max 0 (toEmit - i)))
                 (maxParticles ps - activeParticles ps) in
  let r := emit_from rand_src n i toEmit emitter ps rng in
  activeParticles (fst r) = activeParticles ps + e /\
  snd r = (rng + 6 * Z.to_nat e)%nat /\
  maxParticles (fst r) = maxParticles ps /\
  emitAccumulator (fst r) = emitAccumulator ps /\
  emitRate (fst r) = emitRate ps /\
  emitterPos (fst r) = emitterPos ps.
Proof.
  induction n as [|n IH]; intros i toEmit emitter ps rng Hi Hcap e r; subst r;
    cbn [emit_from].
  - subst e. cbn [fst snd]. replace (Z.min _ _) with 0 by lia.
    simpl. repeat split; lia.
  - destruct (Z.ltb_spec i toEmit) as [Hlt | Hge]; cbn [andb].
    + destruct (Z.ltb_spec (activeParticles ps) (maxParticles ps)) as [Hfree | Hfull].
      * pose proof (emit_particle_rng emitter rng) as Hrng.
        destruct (emit_particle rand_src emitter rng) as [p rng1].
        cbn [snd] in Hrng. subst rng1.
        match goal with |- context [emit_from _ n (i + 1) toEmit emitter ?ps1 ?rng1] =>
          destruct (IH (i + 1) toEmit emitter ps1 rng1) as (A & B & C & D & E & G) end.
        { lia. }
        { cbn [activeParticles maxParticles]. lia. }
        cbn [activeParticles maxParticles emitAccumulator emitRate emitterPos]
          in A, B, C, D, E, G.
        rewrite A, B, C, D, E, G. subst e. repeat split; lia.
      * subst e. cbn [fst snd]. replace (Z.min _ _) with 0 by lia.
        simpl. repeat split; lia.
    + subst e. cbn [fst snd]. replace (Z.min _ _) with 0 by lia.
      simpl. repeat split; lia.
Qed.

Lemma ParticleSystem_Update_emission ps emitter dt rng :
  0 <= activeParticles ps <= maxParticles ps ->
  let r := ParticleSystem_Update rand_src ps emitter dt rng in
  snd r = (rng + 6 * Z.to_nat (Z.min (Z.max 0 (toEmit_of ps dt))
                                      (maxParticles ps - activeParticles ps)))%nat /\
  emitAccumulator (fst r)
  = (emitAccumulator ps + emitRate ps * dt - f_of_int (toEmit_of ps dt))%F /\
  emitRate (fst r) = emitRate ps /\
  emitterPos (fst r) = emitter /\
  maxParticles (fst r) = maxParticles ps.
Proof.
  intros Hok r. subst r. unfold ParticleSystem_Update, toEmit_of.
  match goal with |- context [emit_from rand_src ?n 0 ?t emitter ?ps1 rng] =>
    pose proof (emit_from_count n 0 t emitter ps1 rng ltac:(lia)) as He;
    destruct (emit_from rand_src n 0 t emitter ps1 rng) as [ps2 rng2] end.
  cbn [activeParticles maxParticles emitAccumulator emitRate emitterPos fst snd] in He.
  destruct (He ltac:(lia)) as (A & B & C & D & E & G). clear He.
  destruct (update_from _ _ _ _ _) as [parts active].
  cbn [fst snd activeParticles maxParticles emitAccumulator emitRate emitterPos].
  rewrite B, C, D, E, G. repeat split. f_equal. f_equal. lia.
Qed.

End EmitFacts.

(** The emission loop of [ParticleSystem_Update] adds
    [min (max 0 toEmit) (maxParticles - activeParticles)] particles, with
    six random draws for each, and the whole call draws no other number.
    The call stores the emitter position, leaves the emission rate and the
    capacity as they are, and takes [toEmit] off the accumulator whether
    the particles were added or not. *)
Theorem emission_fills_free_slots :
  forall (F : Type) (HF : CFloat F) (rand_src : nat -> Z) (ps : ParticleSystem F)
         (emitter : Vector3 F) (dt : F) (rng : nat),
    0 <= activeParticles ps <= maxParticles ps ->
    let toEmit := toEmit_of ps dt in
    let added := Z.min (Z.max 0 toEmit) (maxParticles ps - activeParticles ps) in
    let loop := emit_from rand_src (Z.to_nat toEmit) 0 toEmit emitter ps rng in
    let r := ParticleSystem_Update rand_src ps emitter dt rng in
    activeParticles (fst loop) = activeParticles ps + added /\
    snd loop = (rng + 6 * Z.to_nat added)%nat /\
    snd r = (rng + 6 * Z.to_nat added)%nat /\
    emitAccumulator (fst r)
    = (emitAccumulator ps + emitRate ps * dt - f_of_int toEmit)%F /\
    emitRate (fst r) = emitRate ps /\
    emitterPos (fst r) = emitter /\
    maxParticles (fst r) = maxParticles ps.
Proof.
  intros F HF rand_src ps emitter dt rng Hok toEmit added loop r.
  destruct (emit_from_count rand_src (Z.to_nat toEmit) 0 toEmit emitter ps rng
              ltac:(lia) ltac:(lia)) as (A & B & _).
  destruct (ParticleSystem_Update_emission rand_src ps emitter dt rng Hok)
    as (C & D & E & G & I).
  fold toEmit in C, D. fold r in C, D, E, G, I. fold loop in A, B.
  split; [rewrite A; subst added; lia|].
  split; [rewrite B; subst added; f_equal; f_equal; lia|].
  split; [exact C|]. split; [exact D|]. split; [exact E|]. split; [exact G | exact I].
Qed.

Lemma emission_fills_free_slots_witness :
  0 <= activeParticles demo_pool <= maxParticles demo_pool /\
  snd (ParticleSystem_Update demo_rand demo_pool
         (mkVector3 (f_lit 1 1) (f_lit 2 1) (f_lit 3 1)) (f_lit 1 2) 0)
  = (0 + 6 * Z.to_nat (Z.min (Z.max 0 (toEmit_of demo_pool (f_lit 1 2)))
                              (maxParticles demo_pool - activeParticles demo_pool)))%nat.
Proof.
  assert (Hok : 0 <= activeParticles demo_pool <= maxParticles demo_pool)
    by (cbn; lia).
  split; [exact Hok|].
  exact (proj1 (proj2 (proj2 (emission_fills_free_slots spec_float binary32 demo_rand
                                demo_pool (mkVector3 (f_lit 1 1) (f_lit 2 1) (f_lit 3 1))
                                (f_lit 1 2) 0%nat Hok)))).
Defined.

(** * The emission rate in exact arithmetic *)

Section RateFacts.
Variable rand_src : nat -> Z.

Lemma requested_exact (frames : list (Vector3 Q * Q)) :
  forall (ps : ParticleSystem Q) (rng : nat),
    pool_ok ps ->
    (0 <= emitRate ps)%Q ->
    (0 <= emitAccumulator ps < 1)%Q ->
    (forall f, f ∈ frames -> (0 <= snd f)%Q) ->
    let ps' := fst (update_frames rand_src frames ps rng) in
    0 <= requested rand_src frames ps rng /\
    (0 <= emitAccumulator ps' < 1)%Q /\
    (inject_Z (requested rand_src frames ps rng) + emitAccumulator ps'
     == emitAccumulator ps + emitRate ps * elapsed frames)%Q.
Proof.
  induction frames as [|[pos dt] rest IH]; intros ps rng Hok Hrate Hacc Hdt;
    cbn [requested update_frames elapsed foldr].
  - cbn [fst]. split; [lia|]. split; [exact Hacc|]. change (inject_Z 0) with 0%Q. ring.
  - assert (Hdt0 : (0 <= dt)%Q) by (apply (Hdt (pos, dt)), elem_of_cons; auto).
    destruct (ParticleSystem_Update_emission rand_src ps pos dt rng (proj1 Hok))
      as (_ & Eacc & Erate & _ & _).
    destruct (ParticleSystem_Update_ok rand_src ps pos dt rng Hok) as (Hok' & _ & _).
    destruct (ParticleSystem_Update rand_src ps pos dt rng) as [ps1 rng1].
    cbn [fst snd] in Eacc, Erate, Hok'.
    assert (Hprod : (0 <= emitRate ps * dt)%Q) by (apply Qmult_le_0_compat; assumption).
    destruct (Q_trunc_floor (emitAccumulator ps + emitRate ps * dt)%Q ltac:(lra))
      as [Hn [Flo Fhi]].
    unfold toEmit_of in *.
    cbn [fadd fsub fmul f_of_int exactQ] in Eacc |- *.
    destruct (IH ps1 rng1 Hok') as (R & A & E).
    { rewrite Erate. exact Hrate. }
    { rewrite Eacc. lra. }
    { intros f Hf. apply Hdt, elem_of_cons. auto. }
    split; [lia|]. split; [exact A|].
    rewrite inject_Z_plus. cbn [snd].
    rewrite Erate, Eacc in E.
    change (foldr _ 0%Q rest) with (elapsed rest).
    assert (X : (emitRate ps * (dt + elapsed rest)
                 == emitRate ps * dt + emitRate ps * elapsed rest)%Q) by ring.
    rewrite X. lra.
Qed.

End RateFacts.

(** In exact arithmetic the number of particles asked for does not depend
    on how time is cut into frames: for a system made by
    [ParticleSystem_Create] (15 particles per second) and any run of frames
    whose time steps are not negative, the values of [toEmit] add up to
    [15 * T] rounded down, where [T] is the time the frames take. *)
Theorem requested_particles_follow_time (rand_src : nat -> Z) (junk : Particle Q)
  (cap : Z) (ps : ParticleSystem Q) (frames : list (Vector3 Q * Q)) (rng : nat) :
  0 <= cap ->
  ParticleSystem_Create true true junk cap = Some ps ->
  (forall f, f ∈ frames -> (0 <= snd f)%Q) ->
  let n := requested rand_src frames ps rng in
  0 <= n /\ (inject_Z n <= (15 # 1) * elapsed frames < inject_Z n + 1)%Q.
Proof.
  intros Hcap Hc Hdt n.
  unfold ParticleSystem_Create in Hc. cbn [negb] in Hc. injection Hc as <-.
  match goal with n := requested _ _ ?ps0 _ |- _ =>
    destruct (requested_exact rand_src frames ps0 rng) as (R & A & E) end.
  - split; cbn [activeParticles maxParticles particles]; [lia|].
    apply length_replicate.
  - cbn. intros E; discriminate E.
  - cbn. split; [intros E; discriminate E | reflexivity].
  - exact Hdt.
  - fold n in R, E. cbn [emitAccumulator emitRate f_lit exactQ] in E.
    split; [exact R|]. lra.
Qed.

Lemma requested_particles_follow_time_witness :
  let ps : ParticleSystem Q :=
    {| particles := replicate (Z.to_nat 20) inhabitant;
       maxParticles := 20; activeParticles := 0;
       emitRate := f_lit 15 1; emitAccumulator := f_lit 0 1;
       emitterPos := mkVector3 (f_of_int 0) (f_of_int 0) (f_of_int 0) |} in
  let frames : list (Vector3 Q * Q) :=
    [(mkVector3 0%Q 0%Q 0%Q, 1 # 60); (mkVector3 0%Q 0%Q 0%Q, 1 # 10)] in
  0 <= 20 /\
  ParticleSystem_Create true true inhabitant 20 = Some ps /\
  (forall f, f ∈ frames -> (0 <= snd f)%Q) /\
  let n := requested demo_rand frames ps 0 in
  0 <= n /\ (inject_Z n <= (15 # 1) * elapsed frames < inject_Z n + 1)%Q.
Proof.
  intros ps frames.
  assert (Hc : ParticleSystem_Create true true inhabitant 20 = Some ps) by reflexivity.
  assert (Hdt : forall f, f ∈ frames -> (0 <= snd f)%Q).
  { intros f Hf. subst frames. rewrite !elem_of_cons, elem_of_nil in Hf.
    destruct Hf as [-> | [-> | []]]; intros E; discriminate E. }
  split; [lia|]. split; [exact Hc|]. split; [exact Hdt|].
  exact (requested_particles_follow_time demo_rand inhabitant 20 ps frames 0%nat
           ltac:(lia) Hc Hdt).
Defined.

(** * The particles as emitted, in binary32 *)

Lemma range_forall (P : Z -> bool) (n : Z) :
  forallb P (seqZ 0 n) = true -> forall k, 0 <= k < n -> P k = true.
Proof.
  intros Hall k Hk. rewrite forallb_forall in Hall. apply Hall.
  apply list_elem_of_In, elem_of_seqZ. lia.
Qed.

Lemma rem_range (r n : Z) : 0 <= r -> 0 < n -> 0 <= Z.rem r n < n.
Proof. intros Hr Hn. apply Z.rem_bound_pos; lia. Qed.

(** Every particle [ParticleSystem_Update] emits is within the ranges its
    formulas aim at, in binary32 and for every value [rand()] can return:
    the horizontal velocities lie in [[-0.2, 0.2)], the vertical velocity
    in [[0.2, 0.8)], [life] is 1, [maxLife] lies in [[0.5, 1)], [size] in
    [[0.05, 0.08)], and the colour is (255, g, 0, 255) with
    [150 <= g < 200], so every component fits an [unsigned char]. *)
Theorem emitted_particle_in_range (rand_src : nat -> Z) (emitter : Vector3 spec_float)
  (rng : nat) :
  (forall n, 0 <= rand_src n) ->
  let p := fst (emit_particle rand_src emitter rng) in
  let within (lo v hi : spec_float) := SFleb lo v && SFltb v hi in
  within (f_lit (-1) 5) (px (velocity p)) (f_lit 1 5) = true /\
  within (f_lit 1 5) (py (velocity p)) (f_lit 4 5) = true /\
  within (f_lit (-1) 5) (pz (velocity p)) (f_lit 1 5) = true /\
  life p = f_lit 1 1 /\
  within (f_lit 1 2) (maxLife p) (f_lit 1 1) = true /\
  within (f_lit 5 100) (size p) (f_lit 8 100) = true /\
  cr (color p) = 255 /\ 150 <= cg (color p) < 200 /\
  cb (color p) = 0 /\ ca (color p) = 255.
Proof.
  intros Hrand p within. subst p. unfold emit_particle.
  cbn [fst velocity life maxLife size color px py pz cr cg cb ca].
  pose proof (rem_range (rand_src rng) 200 (Hrand _) ltac:(lia)) as H1.
  pose proof (rem_range (rand_src (S rng)) 300 (Hrand _) ltac:(lia)) as H2.
  pose proof (rem_range (rand_src (S (S rng))) 200 (Hrand _) ltac:(lia)) as H3.
  pose proof (rem_range (rand_src (S (S (S rng)))) 50 (Hrand _) ltac:(lia)) as H4.
  pose proof (rem_range (rand_src (S (S (S (S rng))))) 30 (Hrand _) ltac:(lia)) as H5.
  pose proof (rem_range (rand_src (S (S (S (S (S rng)))))) 50 (Hrand _) ltac:(lia)) as H6.
  assert (C1 : forall k, 0 <= k < 200 ->
            within (f_lit (-1) 5) ((f_of_int k - f_lit 100 1) / f_lit 500 1)%F
                   (f_lit 1 5) = true).
  { apply (range_forall (fun k =>
      within (f_lit (-1) 5) ((f_of_int k - f_lit 100 1) / f_lit 500 1)%F (f_lit 1 5))).
    vm_compute. reflexivity. }
  assert (C2 : forall k, 0 <= k < 300 ->
            within (f_lit 1 5) ((f_of_int k + f_lit 100 1) / f_lit 500 1)%F
                   (f_lit 4 5) = true).
  { apply (range_forall (fun k =>
      within (f_lit 1 5) ((f_of_int k + f_lit 100 1) / f_lit 500 1)%F (f_lit 4 5))).
    vm_compute. reflexivity. }
  assert (C4 : forall k, 0 <= k < 50 ->
            within (f_lit 1 2) (f_lit 1 2 + f_of_int k / f_lit 100 1)%F
                   (f_lit 1 1) = true).
  { apply (range_forall (fun k =>
      within (f_lit 1 2) (f_lit 1 2 + f_of_int k / f_lit 100 1)%F (f_lit 1 1))).
    vm_compute. reflexivity. }
  assert (C5 : forall k, 0 <= k < 30 ->
            within (f_lit 5 100) (f_lit 5 100 + f_of_int k / f_lit 1000 1)%F
                   (f_lit 8 100) = true).
  { apply (range_forall (fun k =>
      within (f_lit 5 100) (f_lit 5 100 + f_of_int k / f_lit 1000 1)%F (f_lit 8 100))).
    vm_compute. reflexivity. }
  split; [apply C1; exact H1|]. split; [apply C2; exact H2|].
  split; [apply C1; exact H3|]. split; [reflexivity|].
  split; [apply C4; exact H4|]. split; [apply C5; exact H5|].
  split; [reflexivity|]. split; [lia|]. split; reflexivity.
Qed.

Lemma emitted_particle_in_range_witness :
  let emitter : Vector3 spec_float := mkVector3 (f_lit 1 1) (f_lit 2 1) (f_lit 3 1) in
  (forall n, 0 <= demo_rand n) /\
  life (fst (emit_particle demo_rand emitter 0)) = f_lit 1 1 /\
  150 <= cg (color (fst (emit_particle demo_rand emitter 0))) < 200.
Proof.
  intros emitter.
  split; [exact demo_rand_nonneg|].
  pose proof (emitted_particle_in_range demo_rand emitter 0%nat demo_rand_nonneg)
    as (_ & _ & _ & Hl & _ & _ & _ & Hg & _).
  split; [exact Hl | exact Hg].
Defined.

(** * The alpha value of the renderer *)

Lemma render_alpha_above (p : Particle Q) :
  (0 < maxLife p)%Q ->
  ((255 # 1) < render_alpha p)%Q <-> (maxLife p < life p)%Q.
Proof.
  intros Hm. unfold render_alpha. cbn [fmul fdiv f_lit exactQ].
  assert (E : (life p == (life p / maxLife p) * maxLife p)%Q) by (field; lra).
  split.
  - intros Hlt.
    assert (Hq : (1 < life p / maxLife p)%Q) by lra.
    rewrite E.
    assert (0 < (life p / maxLife p - 1) * maxLife p)%Q
      by (apply Qmult_lt_0_compat; lra).
    lra.
  - intros Hlt. rewrite E in Hlt.
    assert (Hq : (1 < life p / maxLife p)%Q).
    { apply Qnot_le_lt. intros Hle.
      assert (0 <= (1 - life p / maxLife p) * maxLife p)%Q
        by (apply Qmult_le_0_compat; lra).
      lra. }
    lra.
Qed.

(** [ParticleSystem_Render] converts [life / maxLife * 255] to
    [unsigned char] for the alpha of a particle.  In exact arithmetic that
    value is above 255, the largest [unsigned char], exactly when [life]
    is above [maxLife].  A particle is emitted with [life = 1] and a
    smaller [maxLife], and the same call of [ParticleSystem_Update] ages it
    by [dt]: what the frame renders has a value above 255 exactly when
    [maxLife < 1 - dt], which holds for every particle when [dt] is below
    a hundredth of a second, whatever [rand()] returns. *)
Theorem render_alpha_exceeds_byte :
  (forall p : Particle Q,
     (0 < maxLife p)%Q ->
     ((255 # 1) < render_alpha p)%Q <-> (maxLife p < life p)%Q) /\
  (forall (rand_src : nat -> Z) (emitter : Vector3 Q) (rng : nat) (dt : Q),
     (forall n, 0 <= rand_src n) ->
     let e := fst (emit_particle rand_src emitter rng) in
     let p := age_particle e dt in
     (((255 # 1) < render_alpha p)%Q <-> (maxLife e < 1 - dt)%Q) /\
     ((1 # 2) <= maxLife e <= 99 # 100)%Q /\
     ((dt < 1 # 100)%Q -> ((255 # 1) < render_alpha p)%Q)).
Proof.
  split; [exact render_alpha_above|].
  intros rand_src emitter rng dt Hrand e p.
  pose proof (rem_range (rand_src (S (S (S rng)))) 50 (Hrand _) ltac:(lia)) as H4.
  assert (Em : (maxLife e == (1 # 2) + inject_Z (Z.rem (rand_src (S (S (S rng)))) 50)
                                       * (1 # 100))%Q).
  { subst e. unfold emit_particle. cbn [fst maxLife fadd fdiv f_lit f_of_int exactQ].
    field. }
  assert (Hlo : (0 <= inject_Z (Z.rem (rand_src (S (S (S rng)))) 50))%Q).
  { change 0%Q with (inject_Z 0). rewrite <- Zle_Qle. lia. }
  assert (Hhi : (inject_Z (Z.rem (rand_src (S (S (S rng)))) 50) <= 49 # 1)%Q).
  { change (49 # 1)%Q with (inject_Z 49). rewrite <- Zle_Qle. lia. }
  assert (Hrange : ((1 # 2) <= maxLife e <= 99 # 100)%Q) by (rewrite Em; lra).
  assert (El : (life p == 1 - dt)%Q).
  { subst p e. unfold age_particle, emit_particle.
    cbn [fst life fsub f_lit exactQ]. lra. }
  assert (Ep : maxLife p = maxLife e) by reflexivity.
  assert (Hiff : ((255 # 1) < render_alpha p)%Q <-> (maxLife e < 1 - dt)%Q).
  { rewrite (render_alpha_above p) by (rewrite Ep; lra).
    rewrite Ep, El. reflexivity. }
  split; [exact Hiff|]. split; [exact Hrange|].
  intros Hdt. apply Hiff. lra.
Qed.

Lemma render_alpha_exceeds_byte_witness :
  let p : Particle Q :=
    mkParticle (mkVector3 0%Q 0%Q 0%Q) (mkVector3 0%Q 0%Q 0%Q)
               (119 # 120) (1 # 2) (1 # 20) (mkColor 255 150 0 255) in
  let emitter : Vector3 Q := mkVector3 1%Q (2 # 1) (3 # 1) in
  (0 < maxLife p)%Q /\
  (((255 # 1) < render_alpha p)%Q <-> (maxLife p < life p)%Q) /\
  (forall n, 0 <= demo_rand n) /\
  ((255 # 1)
   < render_alpha (age_particle (fst (emit_particle demo_rand emitter 0)) (1 # 120)))%Q.
Proof.
  intros p emitter.
  assert (Hm : (0 < maxLife p)%Q) by reflexivity.
  split; [exact Hm|].
  split; [exact (proj1 render_alpha_exceeds_byte p Hm)|].
  split; [exact demo_rand_nonneg|].
  exact (proj2 (proj2 (proj2 render_alpha_exceeds_byte demo_rand emitter 0%nat
                         (1 # 120)%Q demo_rand_nonneg)) eq_refl).
Defined.

(** * Torches *)

Section TorchFacts.
Context {F : Type} `{CFloat F}.
Implicit Types maze : Maze F.

Variable rand_src : nat -> Z.
Variable RAND_MAX : Z.

(** A wall position as the collecting loops write it: a side of a cell of
    the grid, with a direction from 0 to 3. *)
Local Abbreviation wall_ok maze :=
  (fun wp : WallPos F => in_grid maze (wp_x wp) (wp_y wp) /\ 0 <= wp_direction wp <= 3).

Lemma collect_cell_spec maze x y (walls : list (WallPos F)) :
  in_grid maze x y ->
  exists new, collect_cell maze x y walls = walls ++ new /\
              (length new <= 4)%nat /\ Forall (wall_ok maze) new.
Proof.
  intros Hg. unfold collect_cell. cbv zeta.
  destruct (Maze_HasWall maze x y MAZE_NORTH), (Maze_HasWall maze x y MAZE_SOUTH),
    (Maze_HasWall maze x y MAZE_WEST), (Maze_HasWall maze x y MAZE_EAST);
    rewrite <- ?app_assoc; eexists; (split; [try reflexivity; symmetry; apply app_nil_r|]);
    (split; [cbn; lia|]);
    repeat (apply Forall_cons; split; [cbn; split; [exact Hg | lia]|]);
    apply Forall_nil_2.
Qed.

Lemma collect_row_spec maze y n : forall x (walls : list (WallPos F)),
  0 <= x -> 0 <= y < height maze ->
  exists new, collect_row n x maze y walls = walls ++ new /\
              Z.of_nat (length new) <= 4 * Z.of_nat n /\ Forall (wall_ok maze) new.
Proof.
  induction n as [|n IH]; intros x walls Hx Hy; cbn [collect_row].
  - exists []. rewrite app_nil_r. split; [reflexivity|]. split; [simpl; lia | constructor].
  - destruct (Z.ltb_spec x (width maze)) as [Hlt | Hge].
    + destruct (collect_cell_spec maze x y walls) as (new1 & E1 & L1 & F1);
        [unfold in_grid; lia|].
      destruct (IH (x + 1) (collect_cell maze x y walls)) as (new2 & E2 & L2 & F2);
        [lia | exact Hy|].
      exists (new1 ++ new2). rewrite E2, E1, <- app_assoc.
      split; [reflexivity|]. split; [rewrite length_app; lia|].
      apply Forall_app. split; assumption.
    + exists []. rewrite app_nil_r. split; [reflexivity|].
      split; [simpl; lia | constructor].
Qed.

Lemma collect_rows_spec maze n : forall y (walls : list (WallPos F)),
  0 <= y -> 0 <= width maze ->
  exists new, collect_rows n y maze walls = walls ++ new /\
              Z.of_nat (length new) <= 4 * (width maze * Z.of_nat n) /\
              Forall (wall_ok maze) new.
Proof.
  induction n as [|n IH]; intros y walls Hy Hw; cbn [collect_rows].
  - exists []. rewrite app_nil_r. split; [reflexivity|]. split; [simpl; lia | constructor].
  - destruct (Z.ltb_spec y (height maze)) as [Hlt | Hge].
    + destruct (collect_row_spec maze y (Z.to_nat (width maze)) 0 walls)
        as (new1 & E1 & L1 & F1); [lia | lia|].
      destruct (IH (y + 1) (collect_row (Z.to_nat (width maze)) 0 maze y walls))
        as (new2 & E2 & L2 & F2); [lia | exact Hw|].
      exists (new1 ++ new2). rewrite E2, E1, <- app_assoc.
      split; [reflexivity|]. split; [rewrite length_app; nia|].
      apply Forall_app. split; assumption.
    + exists []. rewrite app_nil_r. split; [reflexivity|].
      split; [simpl; nia | constructor].
Qed.

(** A walled side of a cell of the grid is collected. *)
Lemma collect_cell_grows maze x y d (walls : list (WallPos F)) :
  d ∈ directions -> Maze_HasWall maze x y d = true ->
  (length walls < length (collect_cell maze x y walls))%nat.
Proof.
  intros Hd Hwall. unfold collect_cell. cbv zeta.
  each_direction Hd; rewrite Hwall;
    destruct (Maze_HasWall maze x y MAZE_NORTH), (Maze_HasWall maze x y MAZE_SOUTH),
      (Maze_HasWall maze x y MAZE_WEST), (Maze_HasWall maze x y MAZE_EAST);
    try discriminate Hwall; rewrite ?length_app; cbn [length]; lia.
Qed.

Lemma collect_row_grows maze y x d n : forall x0 (walls : list (WallPos F)),
  0 <= x0 <= x -> x < x0 + Z.of_nat n -> x < width maze -> 0 <= y < height maze ->
  d ∈ directions -> Maze_HasWall maze x y d = true ->
  (length walls < length (collect_row n x0 maze y walls))%nat.
Proof.
  induction n as [|n IH]; intros x0 walls Hx0 Hn Hx Hy Hd Hwall; [lia|].
  cbn [collect_row]. destruct (Z.ltb_spec x0 (width maze)); [|lia].
  destruct (Z.eq_dec x0 x) as [-> | Hne].
  - pose proof (collect_cell_grows maze x y d walls Hd Hwall) as G.
    destruct (collect_row_spec maze y n (x + 1) (collect_cell maze x y walls))
      as (new & E & _); [lia | exact Hy|].
    rewrite E, length_app. lia.
  - destruct (collect_cell_spec maze x0 y walls) as (new & E & _);
      [unfold in_grid; lia|].
    pose proof (IH (x0 + 1) (collect_cell maze x0 y walls) ltac:(lia) ltac:(lia)
                  Hx Hy Hd Hwall) as G.
    rewrite E in G |- *. rewrite length_app in G. lia.
Qed.

Lemma collect_rows_grows maze x y d n : forall y0 (walls : list (WallPos F)),
  0 <= y0 <= y -> y < y0 + Z.of_nat n -> in_grid maze x y ->
  d ∈ directions -> Maze_HasWall maze x y d = true ->
  (length walls < length (collect_rows n y0 maze walls))%nat.
Proof.
  induction n as [|n IH]; intros y0 walls Hy0 Hn [Hx Hy] Hd Hwall; [lia|].
  cbn [collect_rows]. destruct (Z.ltb_spec y0 (height maze)); [|lia].
  destruct (Z.eq_dec y0 y) as [-> | Hne].
  - pose proof (collect_row_grows maze y x d (Z.to_nat (width maze)) 0 walls
                  ltac:(lia) ltac:(lia) ltac:(lia) Hy Hd Hwall) as G.
    destruct (collect_rows_spec maze n (y + 1)
                (collect_row (Z.to_nat (width maze)) 0 maze y walls))
      as (new & E & _); [lia | lia|].
    rewrite E, length_app. lia.
  - destruct (collect_row_spec maze y0 (Z.to_nat (width maze)) 0 walls)
      as (new & E & _); [lia | lia|].
    pose proof (IH (y0 + 1) (collect_row (Z.to_nat (width maze)) 0 maze y0 walls)
                  ltac:(lia) ltac:(lia) (conj Hx Hy) Hd Hwall) as G.
    rewrite E in G |- *. rewrite length_app in G. lia.
Qed.

Lemma place_torch_rng maze (wall : WallPos F) junk rng :
  snd (place_torch rand_src RAND_MAX maze wall junk rng) = (rng + 3)%nat.
Proof.
  unfold place_torch. cbv zeta.
  destruct (if wp_direction wall =? 0 then _ else _) as [position normal].
  cbn [snd]. lia.
Qed.

(** The torch loop: what it keeps for the torches written, how many it
    writes and how many numbers it draws. *)
Lemma torches_from_spec maze (walls : list (WallPos F)) wallCount maxTorches junk
  (P : Torch F -> Prop) n :
  (forall i rng, 0 <= i < wallCount ->
     P (fst (place_torch rand_src RAND_MAX maze (aget walls i) junk rng))) ->
  forall i (out : list (Torch F)) rng,
    0 <= i -> Forall P out ->
    let r := torches_from rand_src RAND_MAX n i maze walls wallCount maxTorches junk
               out rng in
    Forall P (fst r) /\
    (length out <= length (fst r))%nat /\
    Z.of_nat (length (fst r)) <= Z.max maxTorches (Z.of_nat (length out)) /\
    exists examined : nat,
      Z.of_nat examined <= Z.max 0 (wallCount - i) /\
      (examined <= n)%nat /\
      (length (fst r) - length out <= examined)%nat /\
      snd r = (rng + examined + 3 * (length (fst r) - length out))%nat.
Proof.
  intros Hplace. induction n as [|n IH]; intros i out rng Hi Hout r; subst r;
    cbn [torches_from].
  - cbn [fst snd]. split; [exact Hout|]. split; [lia|]. split; [lia|].
    exists O. repeat split; lia.
  - destruct (Z.ltb_spec i wallCount) as [Hlt | Hge]; cbn [andb].
    2: { cbn [fst snd]. split; [exact Hout|]. split; [lia|]. split; [lia|].
         exists O. repeat split; lia. }
    destruct (Z.ltb_spec (Z.of_nat (length out)) maxTorches) as [Hroom | Hfull].
    2: { cbn [fst snd]. split; [exact Hout|]. split; [lia|]. split; [lia|].
         exists O. repeat split; lia. }
    destruct (fltb _ _).
    + pose proof (place_torch_rng maze (aget walls i) junk (S rng)) as Hrng.
      pose proof (Hplace i (S rng) ltac:(lia)) as Hp.
      destruct (place_torch rand_src RAND_MAX maze (aget walls i) junk (S rng))
        as [t rng'].
      cbn [fst snd] in Hrng, Hp. subst rng'.
      destruct (IH (i + 1) (out ++ [t]) (S rng + 3)%nat ltac:(lia))
        as (A & B & C & ex & D1 & D2 & D3 & D4).
      { apply Forall_app. split; [exact Hout | repeat constructor; exact Hp]. }
      rewrite length_app in B, C, D3, D4. cbn [length] in B, C, D3, D4.
      split; [exact A|]. split; [lia|]. split; [lia|].
      exists (S ex). split; [lia|]. split; [lia|]. split; [lia|]. rewrite D4. lia.
    + destruct (IH (i + 1) out (S rng) ltac:(lia) Hout)
        as (A & B & C & ex & D1 & D2 & D3 & D4).
      split; [exact A|]. split; [lia|]. split; [lia|].
      exists (S ex). split; [lia|]. split; [lia|]. split; [lia|]. rewrite D4. lia.
Qed.

End TorchFacts.

Lemma place_torch_shape {F : Type} `{CFloat F} (rand_src : nat -> Z) (RAND_MAX : Z)
  (maze : Maze F) (wall : WallPos F) (junk : Torch F) (rng : nat) :
  0 <= wp_direction wall <= 3 ->
  py (t_position (fst (place_torch rand_src RAND_MAX maze wall junk rng))) = torchHeight /\
  t_normal (fst (place_torch rand_src RAND_MAX maze wall junk rng)) ∈ axis_normals.
Proof.
  intros Hd. unfold place_torch, axis_normals. cbv zeta.
  assert (Hc : wp_direction wall = 0 \/ wp_direction wall = 1 \/
               wp_direction wall = 2 \/ wp_direction wall = 3) by lia.
  destruct Hc as [-> | [-> | [-> | ->]]]; cbn [Z.eqb Pos.eqb fst t_position t_normal py];
    (split; [reflexivity|]); rewrite !elem_of_cons; auto.
Qed.

(** [Torches_Generate] and its two buffers, for a maze whose
    [width * height * 4] fits an [int].  The wall positions collected are at
    most [4 * width * height], the room asked for.  The call writes no torch
    and draws nothing when [maxTorches <= 0] or the allocation of the
    torches fails.  Otherwise, if the allocation of the wall positions
    failed, which the source does not test, the first wall found is written
    through the null pointer: this happens exactly when some wall is
    collected, and every walled side of a cell of the grid is.  A call that
    returns has written at most [maxTorches] torches, at most one for each
    wall position it looked at; every torch is at height 2 with one of the
    four axis normals; and it has drawn one number for each position looked
    at and three more for each torch. *)
Theorem Torches_Generate_bounds :
  forall (F : Type) (HF : CFloat F) (rand_src : nat -> Z) (RAND_MAX : Z)
         (ok_torches ok_walls : bool) (maze : Maze F) (maxTorches : Z)
         (junk : Torch F) (rng : nat),
    1 <= width maze -> 1 <= height maze ->
    4 * (width maze * height maze) <= INT_MAX ->
    let walls := collect_rows (Z.to_nat (height maze)) 0 maze [] in
    let r := Torches_Generate rand_src RAND_MAX ok_torches ok_walls maze maxTorches
               junk rng in
    Z.of_nat (length walls) <= 4 * (width maze * height maze) /\
    (forall x y d, in_grid maze x y -> d ∈ directions ->
       Maze_HasWall maze x y d = true -> walls <> []) /\
    (maxTorches <= 0 \/ ok_torches = false -> r = Returns ([], rng)) /\
    (r = NullWrite <->
     0 < maxTorches /\ ok_torches = true /\ ok_walls = false /\ walls <> []) /\
    (forall torches rng', r = Returns (torches, rng') ->
       Z.of_nat (length torches) <= Z.max 0 maxTorches /\
       (forall t, t ∈ torches ->
          py (t_position t) = torchHeight /\ t_normal t ∈ axis_normals) /\
       exists examined : nat,
         (length torches <= examined)%nat /\
         (examined <= length walls)%nat /\
         rng' = (rng + examined + 3 * length torches)%nat).
Proof.
  intros F HF rand_src RAND_MAX ok_torches ok_walls maze maxTorches junk rng
    Hw Hh Hb walls r.
  destruct (collect_rows_spec maze (Z.to_nat (height maze)) 0 [] ltac:(lia) ltac:(lia))
    as (ws & Ew & Lw & Fw).
  cbn [app] in Ew. fold walls in Ew.
  split; [rewrite Ew; nia|].
  split.
  { intros x y d Hg Hd Hwall Hnil.
    pose proof (collect_rows_grows maze x y d (Z.to_nat (height maze)) 0 []
                  ltac:(destruct Hg; lia) ltac:(destruct Hg; lia) Hg Hd Hwall) as G.
    fold walls in G. rewrite Hnil in G. cbn [length] in G. lia. }
  assert (Hpos : (0 <? Z.of_nat (length walls)) = true <-> walls <> []).
  { rewrite Z.ltb_lt. destruct walls; cbn [length]; split; intros; (lia || congruence). }
  subst r. unfold Torches_Generate. fold walls. cbv zeta.
  destruct (Z.leb_spec maxTorches 0) as [Hle | Hgt].
  { split; [reflexivity|]. split; [split; [discriminate | lia]|].
    intros torches rng' E. injection E as <- <-. cbn [length].
    split; [lia|].
    split; [intros t Ht; apply elem_of_nil in Ht; contradiction|].
    exists O. repeat split; lia. }
  destruct ok_torches; cbn [negb].
  2: { split; [reflexivity|].
       split; [split; [discriminate | intros (_ & A & _); discriminate A]|].
       intros torches rng' E. injection E as <- <-. cbn [length].
       split; [lia|].
       split; [intros t Ht; apply elem_of_nil in Ht; contradiction|].
       exists O. repeat split; lia. }
  split; [intros [Hc | Hc]; [lia | discriminate Hc]|].
  destruct (torches_from_spec rand_src RAND_MAX maze walls (Z.of_nat (length walls))
              maxTorches junk
              (fun t => py (t_position t) = torchHeight /\ t_normal t ∈ axis_normals)
              (Z.to_nat (Z.of_nat (length walls)))) with (i := 0) (out := @nil (Torch F))
              (rng := rng)
    as (A & B & C & ex & D1 & D2 & D3 & D4).
  { intros i rng0 Hi. apply place_torch_shape.
    rewrite Ew in *. rewrite Forall_forall in Fw.
    apply (Fw (aget ws i)). unfold aget. apply list_elem_of_lookup_total_2. lia. }
  { lia. }
  { constructor. }
  cbn [length] in B, C, D3, D4.
  assert (Hret : forall torches rng',
            torches_from rand_src RAND_MAX (Z.to_nat (Z.of_nat (length walls))) 0 maze
              walls (Z.of_nat (length walls)) maxTorches junk [] rng = (torches, rng') ->
            Z.of_nat (length torches) <= Z.max 0 maxTorches /\
            (forall t, t ∈ torches ->
               py (t_position t) = torchHeight /\ t_normal t ∈ axis_normals) /\
            exists examined : nat,
              (length torches <= examined)%nat /\
              (examined <= length walls)%nat /\
              rng' = (rng + examined + 3 * length torches)%nat).
  { intros torches rng' E. rewrite E in A, C, D3, D4. cbn [fst snd] in A, C, D3, D4.
    split; [lia|].
    split; [intros t Ht; rewrite Forall_forall in A; apply A; exact Ht|].
    exists ex. split; [lia|]. split; [lia|]. rewrite D4. lia. }
  destruct ok_walls; cbn [negb andb].
  - split; [split; [discriminate | intros (_ & _ & A' & _); discriminate A']|].
    intros torches rng' E. injection E as E. apply Hret. exact E.
  - destruct (0 <? Z.of_nat (length walls)) eqn:Epos.
    + split; [split; [intros _; repeat split; try lia; apply Hpos; reflexivity
                     | reflexivity]|].
      intros torches rng' E. discriminate E.
    + split.
      * split; [discriminate|]. intros (_ & _ & _ & Hne).
        apply Hpos in Hne. discriminate Hne.
      * intros torches rng' E. injection E as E. apply Hret. exact E.
Qed.

Lemma Torches_Generate_bounds_witness :
  1 <= width demo_maze /\ 1 <= height demo_maze /\
  4 * (width demo_maze * height demo_maze) <= INT_MAX /\
  Torches_Generate demo_rand 32767 true false demo_maze 25 inhabitant 0 = NullWrite /\
  exists torches rng',
    Torches_Generate demo_rand 32767 true true demo_maze 25 inhabitant 0
    = Returns (torches, rng') /\
    Z.of_nat (length torches) <= Z.max 0 25.
Proof.
  assert (Hw : 1 <= width demo_maze) by (cbn; lia).
  assert (Hh : 1 <= height demo_maze) by (cbn; lia).
  assert (Hb : 4 * (width demo_maze * height demo_maze) <= INT_MAX)
    by (vm_compute; discriminate).
  split; [exact Hw|]. split; [exact Hh|]. split; [exact Hb|].
  split; [vm_compute; reflexivity|].
  destruct (Torches_Generate demo_rand 32767 true true demo_maze 25 inhabitant 0)
    as [[torches rng']|] eqn:E; [|vm_compute in E; discriminate E].
  exists torches, rng'. split; [reflexivity|].
  destruct (Torches_Generate_bounds spec_float binary32 demo_rand 32767 true true
              demo_maze 25 inhabitant 0%nat Hw Hh Hb) as (_ & _ & _ & _ & Hret).
  exact (proj1 (Hret torches rng' E)).
Defined.

(** In binary32 and for every value [rand()] can return, every torch
    [Torches_Generate] writes has a flicker phase in [[0, 6.28)] and a base
    intensity in [[0.6, 0.9)]. *)
Theorem torch_parameters_in_range (rand_src : nat -> Z) (RAND_MAX : Z)
  (ok_torches ok_walls : bool) (maze : Maze spec_float) (maxTorches : Z)
  (junk : Torch spec_float) (rng : nat) :
  (forall n, 0 <= rand_src n) ->
  forall (torches : list (Torch spec_float)) (rng' : nat),
    Torches_Generate rand_src RAND_MAX ok_torches ok_walls maze maxTorches junk rng
    = Returns (torches, rng') ->
    forall t, t ∈ torches ->
      SFleb (f_lit 0 1) (flickerTime t) && SFltb (flickerTime t) (f_lit 628 100) = true /\
      SFleb (f_lit 6 10) (baseIntensity t) && SFltb (baseIntensity t) (f_lit 9 10) = true.
Proof.
  intros Hrand torches rng'. unfold Torches_Generate.
  destruct (maxTorches <=? 0);
    [intros E; injection E as <- <-; intros t Ht; apply elem_of_nil in Ht;
     contradiction|].
  destruct ok_torches; cbn [negb];
    [|intros E; injection E as <- <-; intros t Ht; apply elem_of_nil in Ht;
      contradiction].
  cbv zeta.
  destruct (negb ok_walls && _); [discriminate|].
  intros E. injection E as E. intros t Ht.
  match type of E with
  | torches_from _ _ ?n 0 maze ?walls ?wc maxTorches junk [] rng = _ =>
      destruct (torches_from_spec rand_src RAND_MAX maze walls wc maxTorches junk
                  (fun t =>
                     SFleb (f_lit 0 1) (flickerTime t)
                     && SFltb (flickerTime t) (f_lit 628 100) = true /\
                     SFleb (f_lit 6 10) (baseIntensity t)
                     && SFltb (baseIntensity t) (f_lit 9 10) = true) n)
        with (i := 0) (out := @nil (Torch spec_float)) (rng := rng) as (A & _)
  end.
  - intros i rng0 _. unfold place_torch. cbv zeta.
    destruct (if wp_direction _ =? 0 then _ else _) as [position normal].
    cbn [fst flickerTime baseIntensity].
    pose proof (rem_range (rand_src (S rng0)) 1000 (Hrand _) ltac:(lia)) as H1.
    pose proof (rem_range (rand_src (S (S rng0))) 30 (Hrand _) ltac:(lia)) as H2.
    split.
    + apply (range_forall (fun k =>
        SFleb (f_lit 0 1) (f_of_int k / f_lit 1000 1 * f_lit 628 100)%F
        && SFltb (f_of_int k / f_lit 1000 1 * f_lit 628 100)%F (f_lit 628 100))
        1000); [vm_compute; reflexivity | exact H1].
    + apply (range_forall (fun k =>
        SFleb (f_lit 6 10) (f_lit 6 10 + f_of_int k / f_lit 100 1)%F
        && SFltb (f_lit 6 10 + f_of_int k / f_lit 100 1)%F (f_lit 9 10))
        30); [vm_compute; reflexivity | exact H2].
  - lia.
  - constructor.
  - rewrite E in A. cbn [fst] in A. rewrite Forall_forall in A. apply A. exact Ht.
Qed.

Lemma torch_parameters_in_range_witness :
  (forall n, 0 <= demo_rand n) /\
  exists torches rng',
    Torches_Generate demo_rand 32767 true true demo_maze 25 inhabitant 0
    = Returns (torches, rng') /\
    forall t, t ∈ torches ->
      SFleb (f_lit 0 1) (flickerTime t) && SFltb (flickerTime t) (f_lit 628 100) = true /\
      SFleb (f_lit 6 10) (baseIntensity t) && SFltb (baseIntensity t) (f_lit 9 10) = true.
Proof.
  split; [exact demo_rand_nonneg|].
  destruct (Torches_Generate demo_rand 32767 true true demo_maze 25 inhabitant 0)
    as [[torches rng']|] eqn:E; [|vm_compute in E; discriminate E].
  exists torches, rng'. split; [reflexivity|].
  exact (torch_parameters_in_range demo_rand 32767 true true demo_maze 25 inhabitant
           0%nat demo_rand_nonneg torches rng' E).
Defined.

(** * [Torches_Update] *)

Ltac split_comparisons :=
  repeat match goal with
         | |- context [?a <? ?b] => destruct (Z.ltb_spec a b)
         | |- context [?a <=? ?b] => destruct (Z.leb_spec a b)
         end;
  cbn [andb]; try reflexivity; try lia.

Lemma torches_update_from_spec {F : Type} `{CFloat F} (sinf : F -> F) (count : Z)
  (dt : F) (n : nat) : forall i (torches : list (Torch F)),
  0 <= i -> count <= Z.of_nat (length torches) ->
  let r := torches_update_from sinf n i torches count dt in
  length r = length torches /\
  forall j, 0 <= j ->
    aget r j = if (i <=? j) && (j <? count) && (j <? i + Z.of_nat n)
               then update_torch sinf (aget torches j) dt
               else aget torches j.
Proof.
  induction n as [|n IH]; intros i torches Hi Hlen r; subst r;
    cbn [torches_update_from].
  - split; [reflexivity|]. intros j Hj. split_comparisons.
  - destruct (Z.ltb_spec i count) as [Hlt | Hge].
    + destruct (IH (i + 1) (aset torches i (update_torch sinf (aget torches i) dt)))
        as [L A]; [lia | rewrite length_aset; exact Hlen|].
      rewrite length_aset in L. split; [exact L|].
      intros j Hj. rewrite A by exact Hj.
      destruct (Z.eq_dec j i) as [-> | Hne].
      * rewrite aget_aset_eq by lia. split_comparisons.
      * rewrite aget_aset_ne by lia. split_comparisons.
    + split; [reflexivity|]. intros j Hj. split_comparisons.
Qed.

(** [Torches_Update] changes the flicker phase of the first [count] torches
    and nothing else: the array keeps its length, a torch keeps its
    position, normal and base intensity, and the torches from [count] on
    are untouched.  In exact arithmetic, if [sinf] stays within [[-1, 1]],
    the time step is not negative and at most 0.628, and a phase is within
    [[0, 6.28]], it is within [[0, 6.28]] after the call. *)
Theorem Torches_Update_moves_phase_only :
  (forall (F : Type) (HF : CFloat F) (sinf : F -> F) (torches : list (Torch F))
          (count : Z) (dt : F),
     count <= Z.of_nat (length torches) ->
     let r := Torches_Update sinf torches count dt in
     length r = length torches /\
     (forall j, 0 <= j ->
        t_position (aget r j) = t_position (aget torches j) /\
        t_normal (aget r j) = t_normal (aget torches j) /\
        baseIntensity (aget r j) = baseIntensity (aget torches j)) /\
     (forall j, count <= j -> 0 <= j -> aget r j = aget torches j)) /\
  (forall (sinf : Q -> Q) (torches : list (Torch Q)) (count : Z) (dt : Q),
     (forall x, (- (1) <= sinf x <= 1)%Q) ->
     count <= Z.of_nat (length torches) ->
     (0 <= dt <= 628 # 1000)%Q ->
     forall j, 0 <= j < count ->
       (0 <= flickerTime (aget torches j) <= 628 # 100)%Q ->
       (0 <= flickerTime (aget (Torches_Update sinf torches count dt) j)
        <= 628 # 100)%Q).
Proof.
  split.
  - intros F HF sinf torches count dt Hlen r. subst r. unfold Torches_Update.
    destruct (torches_update_from_spec sinf count dt (Z.to_nat count) 0 torches
                ltac:(lia) Hlen) as [L A].
    split; [exact L|]. split.
    + intros j Hj. rewrite A by exact Hj.
      destruct (_ && _); [cbn [update_torch t_position t_normal baseIntensity]|];
        auto.
    + intros j Hj Hj0. rewrite A by exact Hj0.
      split_comparisons.
  - intros sinf torches count dt Hsin Hlen Hdt j Hj Hft. unfold Torches_Update.
    destruct (torches_update_from_spec sinf count dt (Z.to_nat count) 0 torches
                ltac:(lia) Hlen) as [_ A].
    rewrite A by lia.
    destruct (Z.leb_spec 0 j); [|lia]. destruct (Z.ltb_spec j count); [|lia].
    destruct (Z.ltb_spec j (0 + Z.of_nat (Z.to_nat count))); [|lia]. cbn [andb].
    unfold update_torch. cbn [flickerTime fadd fsub fmul f_lit exactQ].
    pose proof (Hsin (flickerTime (aget torches j) * (1 # 2))%Q) as Hs.
    set (s := sinf (flickerTime (aget torches j) * (1 # 2))%Q) in *.
    set (ft := flickerTime (aget torches j)) in *.
    assert (Hlo : (0 <= dt * ((6 # 1) + (4 # 1) * s))%Q)
      by (apply Qmult_le_0_compat; lra).
    assert (Hhi : (0 <= ((628 # 1000) - dt) * ((6 # 1) + (4 # 1) * s))%Q)
      by (apply Qmult_le_0_compat; lra).
    assert (Hhi2 : (0 <= dt * ((10 # 1) - ((6 # 1) + (4 # 1) * s)))%Q)
      by (apply Qmult_le_0_compat; lra).
    destruct (Qfltb_spec (628 # 100) (ft + dt * ((6 # 1) + (4 # 1) * s))%Q)
      as [Hover | Hin]; lra.
Qed.

Lemma Torches_Update_moves_phase_only_witness :
  let torches : list (Torch Q) :=
    [mkTorch (mkVector3 (1 # 1) (2 # 1) (3 # 1)) (mkVector3 0%Q 0%Q 1%Q) (6 # 1) (7 # 10)] in
  (forall x : Q, (- (1) <= 0 <= 1)%Q) /\
  1 <= Z.of_nat (length torches) /\
  (0 <= 1 # 60 <= 628 # 1000)%Q /\
  0 <= 0 < 1 /\
  (0 <= flickerTime (aget torches 0) <= 628 # 100)%Q /\
  (0 <= flickerTime (aget (Torches_Update (fun _ => 0%Q) torches 1 (1 # 60)) 0)
   <= 628 # 100)%Q.
Proof.
  intros torches.
  assert (H1 : forall x : Q, (- (1) <= 0 <= 1)%Q)
    by (intros _; split; intros E; discriminate E).
  assert (H2 : 1 <= Z.of_nat (length torches)) by (cbn; lia).
  assert (H3 : (0 <= 1 # 60 <= 628 # 1000)%Q) by (split; intros E; discriminate E).
  assert (H4 : 0 <= 0 < 1) by lia.
  assert (H5 : (0 <= flickerTime (aget torches 0) <= 628 # 100)%Q)
    by (split; intros E; discriminate E).
  split; [exact H1|]. split; [exact H2|]. split; [exact H3|]. split; [exact H4|].
  split; [exact H5|].
  exact (proj2 Torches_Update_moves_phase_only (fun _ => 0%Q) torches 1 (1 # 60)
           H1 H2 H3 0 H4 H5).
Defined.

(** * [InitGame] *)

Section InitFacts.
Context {F : Type} `{CFloat F}.

Variable rand_src : nat -> Z.
Hypothesis rand_nonneg : forall n, 0 <= rand_src n.

(** [Maze_Generate] changes the cells of the maze and nothing else. *)
Lemma generate_step_frame (st : GenState F) :
  let m := gs_maze (generate_step rand_src st) in
  width m = width (gs_maze st) /\ height m = height (gs_maze st) /\
  cellSize m = cellSize (gs_maze st) /\ startPos m = startPos (gs_maze st) /\
  exitPos m = exitPos (gs_maze st).
Proof.
  unfold generate_step. destruct (gs_stack st) as [|[x y] below]; [auto|].
  destruct (GetRandomNeighbor _ _ _ _ _ _) as [[d|] rng]; cbn; auto.
Qed.

Lemma generate_loop_frame n : forall st : GenState F,
  let m := gs_maze (generate_loop rand_src n st) in
  width m = width (gs_maze st) /\ height m = height (gs_maze st) /\
  cellSize m = cellSize (gs_maze st) /\ startPos m = startPos (gs_maze st) /\
  exitPos m = exitPos (gs_maze st).
Proof.
  induction n as [|n IH]; intros st; cbn [generate_loop]; [auto|].
  destruct (gs_stack st) as [|c below] eqn:Hs; [auto|].
  destruct (IH (generate_step rand_src st)) as (A & B & C & D & E).
  destruct (generate_step_frame st) as (A' & B' & C' & D' & E').
  cbv zeta in *. rewrite A, B, C, D, E. auto.
Qed.

Lemma Maze_Generate_frame ok_visited ok_stack (maze : Maze F) rng :
  let m := fst (Maze_Generate rand_src ok_visited ok_stack maze rng) in
  width m = width maze /\ height m = height maze /\
  cellSize m = cellSize maze /\ startPos m = startPos maze /\
  exitPos m = exitPos maze.
Proof.
  unfold Maze_Generate. destruct ok_visited; cbn [negb]; [|cbn; auto].
  destruct ok_stack; cbn [negb]; [|cbn; auto].
  cbn [fst]. apply (generate_loop_frame _ (generate_init maze rng)).
Qed.

Variable sqrtf : F -> F.

(** The characters placed by [place_from] are those of the source: at the
    centre of a cell of the grid, with the speed, radius and height of the
    constants. *)
Lemma place_from_chars (maze : Maze F) start n :
  1 <= width maze -> 1 <= height maze ->
  forall i count (scaryChars : list (ScaryCharacter F)) rng,
  0 <= i -> i + Z.of_nat n = count -> count <= Z.of_nat (length scaryChars) ->
  let r := place_from rand_src sqrtf n i count maze scaryChars start rng in
  length r.1 = length scaryChars /\
  (forall j, 0 <= j < i -> aget r.1 j = aget scaryChars j) /\
  (forall j, i <= j < count ->
     exists cx cy,
       (0 <= cx < width maze /\ 0 <= cy < height maze) /\
       aget r.1 j
       = mkScaryCharacter
           (mkVector3 (vx (Maze_CellToWorld maze cx cy)) (f_lit 0 1)
                      (vy (Maze_CellToWorld maze cx cy)))
           SCARY_CHAR_SPEED SCARY_CHAR_RADIUS SCARY_CHAR_HEIGHT).
Proof.
  intros Hw Hh.
  induction n as [|n IH]; intros i count scaryChars rng Hi Hn Hlen; cbn [place_from].
  - cbn [fst]. split; [reflexivity|]. split; [auto|]. intros j Hj. lia.
  - destruct (Z.ltb_spec i count); [|lia].
    pose proof (place_cell_spec rand_src sqrtf maze scaryChars i start rng) as P.
    cbv zeta in P.
    destruct (place_cell rand_src sqrtf maze scaryChars i start rng) as [[cx cy] rng1].
    cbn [fst snd] in P.
    apply (placed_in_grid rand_src rand_nonneg sqrtf maze Hw Hh) in P.
    destruct P as [Hg _]. cbn [fst snd] in Hg.
    match goal with |- context [place_from _ _ n (i + 1) count maze ?cs start rng1] =>
      specialize (IH (i + 1) count cs rng1 ltac:(lia) ltac:(lia));
      destruct (place_from rand_src sqrtf n (i + 1) count maze cs start rng1)
        as [chars' rng'] end.
    rewrite length_aset in IH. cbn [fst] in IH |- *.
    destruct (IH Hlen) as (A & B & C). clear IH.
    split; [exact A|]. split.
    + intros j Hj. rewrite B by lia. apply aget_aset_ne; lia.
    + intros j Hj. destruct (Z.eq_dec j i) as [-> | Hne].
      * rewrite B by lia. rewrite aget_aset_eq by lia.
        exists cx, cy. split; [exact Hg | reflexivity].
      * apply C. lia.
Qed.

End InitFacts.

Lemma Torches_Generate_returns {F : Type} `{CFloat F} (rand_src : nat -> Z)
  (RAND_MAX : Z) (ok_torches ok_walls : bool) (maze : Maze F) (maxTorches : Z)
  (junk : Torch F) (rng : nat) :
  ok_torches = false \/ ok_walls = true ->
  exists torches rng',
    Torches_Generate rand_src RAND_MAX ok_torches ok_walls maze maxTorches junk rng
    = Returns (torches, rng') /\
    Z.of_nat (length torches) <= Z.max 0 maxTorches.
Proof.
  intros Hok. unfold Torches_Generate.
  destruct (Z.leb_spec maxTorches 0); [exists [], rng; split; [reflexivity | cbn; lia]|].
  destruct ok_torches; cbn [negb];
    [|exists [], rng; split; [reflexivity | cbn; lia]].
  destruct Hok as [Hok | ->]; [discriminate Hok|]. cbn [negb andb]. cbv zeta.
  match goal with |- context [torches_from _ _ ?n 0 maze ?walls ?wc maxTorches junk [] rng] =>
    destruct (torches_from_spec rand_src RAND_MAX maze walls wc maxTorches junk
                (fun _ => True) n (fun _ _ _ => I) 0 [] rng ltac:(lia) (Forall_nil_2 _))
      as (_ & _ & C & _);
    destruct (torches_from rand_src RAND_MAX n 0 maze walls wc maxTorches junk [] rng)
      as [torches rng'] end.
  cbn [fst length] in C. exists torches, rng'. split; [reflexivity | lia].
Qed.

Lemma Torches_Generate_faults {F : Type} `{CFloat F} (rand_src : nat -> Z)
  (RAND_MAX : Z) (maze : Maze F) (maxTorches : Z) (junk : Torch F) (rng : nat)
  (x y d : Z) :
  0 < maxTorches -> in_grid maze x y -> d ∈ directions ->
  Maze_HasWall maze x y d = true ->
  Torches_Generate rand_src RAND_MAX true false maze maxTorches junk rng = NullWrite.
Proof.
  intros Hmax Hg Hd Hwall. unfold Torches_Generate.
  destruct (Z.leb_spec maxTorches 0); [lia|]. cbn [negb andb]. cbv zeta.
  pose proof (collect_rows_grows maze x y d (Z.to_nat (height maze)) 0 []
                ltac:(destruct Hg; lia) ltac:(destruct Hg; lia) Hg Hd Hwall) as G.
  cbn [length] in G.
  destruct (Z.ltb_spec 0 (Z.of_nat (length (collect_rows (Z.to_nat (height maze)) 0
                                              maze [])))); [reflexivity | lia].
Qed.

(** A call of [InitGame] in which the maze, the two arrays of the generator
    and the wall rectangles are allocated, in binary32 and whatever [rand()]
    returns.  If the torches are allocated and the wall positions of
    [Torches_Generate] are not, the call writes through a null pointer.
    Otherwise it returns, and then: the maze is 15 by 15; the wall list
    holds the rectangle of every wall of the maze, 256 of them, which is
    less than the [maxWalls] allocated; the player stands at the centre of
    cell (0, 0) and touches no wall; each of the three characters has the
    speed, radius and height of the constants, stands at the centre of a
    cell of the grid and touches no wall; at most 25 torches are made; the
    state is [GAME_STATE_PLAYING] and the timer, yaw and pitch are 0. *)
Theorem InitGame_starts_in_free_space :
  forall (rand_src : nat -> Z) (sqrtf : spec_float -> spec_float) (RAND_MAX : Z)
         (al : Allocs) (junkTorch : Torch spec_float)
         (junkParticle : Particle spec_float) (g : Game spec_float) (rng : nat),
    (forall n, 0 <= rand_src n) ->
    al_maze al = true -> al_cells al = true ->
    al_visited al = true -> al_stack al = true -> al_walls al = true ->
    SCARY_CHAR_COUNT <= Z.of_nat (length (g_scaryChars g)) ->
    let r := InitGame rand_src sqrtf RAND_MAX al junkTorch junkParticle g
               SCARY_CHAR_COUNT rng in
    (al_torches al = true -> al_wallpos al = false -> r = NullWrite) /\
    (al_torches al = false \/ al_wallpos al = true ->
     exists g' rng' maze walls,
      r = Returns (g', rng') /\
      g_maze g' = Some maze /\ width maze = MAZE_WIDTH /\ height maze = MAZE_HEIGHT /\
      g_walls g' = Some walls /\
      walls = rect_of maze <$> emitted_walls maze /\
      g_wallCount g' = Z.of_nat (length walls) /\ g_wallCount g' = 256 /\
      g_playerPos g'
      = mkVector3 (vx (Maze_CellToWorld maze 0 0)) (f_lit 0 1)
                  (vy (Maze_CellToWorld maze 0 0)) /\
      CollidesAny (mkVector2 (px (g_playerPos g')) (pz (g_playerPos g')))
                  PLAYER_RADIUS walls (g_wallCount g') = false /\
      length (g_scaryChars g') = length (g_scaryChars g) /\
      (forall j, 0 <= j < SCARY_CHAR_COUNT ->
         let ch := aget (g_scaryChars g') j in
         sc_speed ch = SCARY_CHAR_SPEED /\ sc_radius ch = SCARY_CHAR_RADIUS /\
         sc_height ch = SCARY_CHAR_HEIGHT /\
         (exists cx cy, 0 <= cx < MAZE_WIDTH /\ 0 <= cy < MAZE_HEIGHT /\
            sc_position ch
            = mkVector3 (vx (Maze_CellToWorld maze cx cy)) (f_lit 0 1)
                        (vy (Maze_CellToWorld maze cx cy))) /\
         char_clear walls (g_wallCount g') ch) /\
      0 <= g_torchCount g' <= 25 /\
      g_gameState g' = GAME_STATE_PLAYING /\
      g_gameTimer g' = f_lit 0 1 /\ g_yaw g' = f_lit 0 1 /\ g_pitch g' = f_lit 0 1).
Proof.
  intros rand_src sqrtf RAND_MAX al junkTorch junkParticle g rng Hrand
    Hm Hc Hv Hs Hwl Hlen r. subst r.
  assert (Hbound : MAZE_WIDTH * MAZE_HEIGHT <= INT_MAX) by (vm_compute; discriminate).
  unfold InitGame. rewrite Hm, Hc, Hv, Hs, Hwl, game_maze_created. cbn [negb].
  destruct (Maze_Generate_frame rand_src true true game_maze rng)
    as (Ew & Eh & Ecs & Est & _).
  destruct (generated_wall_list rand_src Hrand true true MAZE_WIDTH MAZE_HEIGHT
              CELL_SIZE game_maze rng (MAZE_WIDTH * MAZE_HEIGHT * 4)
              Hbound game_maze_created ltac:(reflexivity)) as [Ewalls Ecount].
  pose proof (generated_boundary rand_src Hrand true true MAZE_WIDTH MAZE_HEIGHT
                CELL_SIZE game_maze rng Hbound game_maze_created
                (generate_fuel game_maze) 0 0 MAZE_NORTH) as Hnorth.
  assert (Enorth : gs_maze (generate_loop rand_src (generate_fuel game_maze)
                              (generate_init game_maze rng))
                   = fst (Maze_Generate rand_src true true game_maze rng))
    by reflexivity.
  rewrite Enorth in Hnorth.
  cbv zeta in Ew, Eh, Ecs, Est, Ewalls, Ecount.
  destruct (Maze_Generate rand_src true true game_maze rng) as [maze rng1].
  cbn [fst] in Ew, Eh, Ecs, Est, Ewalls, Ecount, Hnorth.
  split.
  { intros Ht Hp. rewrite Ht, Hp.
    rewrite (Torches_Generate_faults rand_src RAND_MAX maze 25 junkTorch rng1
               0 0 MAZE_NORTH); [reflexivity | lia | | | ].
    - unfold in_grid. rewrite Ew, Eh. cbn [width height game_maze]. lia.
    - apply direction_elem. tauto.
    - apply Hnorth.
      + apply direction_elem. tauto.
      + unfold MAZE_WIDTH. lia.
      + unfold MAZE_HEIGHT. lia.
      + cbn. unfold MAZE_HEIGHT. lia. }
  intros Hok.
  destruct (Torches_Generate_returns rand_src RAND_MAX (al_torches al) (al_wallpos al)
              maze 25 junkTorch rng1 Hok) as (torches & rng2 & Etorch & Htorch).
  rewrite Etorch.
  assert (Hw1 : 1 <= width maze) by (rewrite Ew; cbn [width game_maze]; lia).
  assert (Hh1 : 1 <= height maze) by (rewrite Eh; cbn [height game_maze]; lia).
  pose proof (place_from_chars rand_src Hrand sqrtf maze
                (Maze_CellToWorld maze (f_to_int (vx (startPos maze)))
                                       (f_to_int (vy (startPos maze))))
                (Z.to_nat SCARY_CHAR_COUNT) Hw1 Hh1 0 SCARY_CHAR_COUNT
                (g_scaryChars g) rng2 ltac:(lia) ltac:(reflexivity) Hlen)
    as (Lchars & _ & Hchars).
  unfold place_scary_chars. change (0 <? SCARY_CHAR_COUNT) with true. cbv iota.
  destruct (place_from rand_src sqrtf (Z.to_nat SCARY_CHAR_COUNT) 0 SCARY_CHAR_COUNT
              maze (g_scaryChars g) _ rng2) as [chars rng3].
  cbn [fst] in Lchars, Hchars.
  destruct (game_cells_clear maze (MAZE_WIDTH * MAZE_HEIGHT * 4) Ew Eh Ecs)
    as [Hcells Hstart].
  cbv zeta in Hcells, Hstart.
  assert (Elen : Z.of_nat (length (Maze_GetWallRects maze (MAZE_WIDTH * MAZE_HEIGHT * 4)))
                 = 256).
  { rewrite Ewalls, length_fmap, Ecount. reflexivity. }
  assert (Estart : f_to_int (vx (startPos maze)) = 0 /\ f_to_int (vy (startPos maze)) = 0).
  { rewrite Est. split; reflexivity. }
  destruct Estart as [Esx Esy]. rewrite Esx, Esy.
  eexists _, rng3, maze, (Maze_GetWallRects maze (MAZE_WIDTH * MAZE_HEIGHT * 4)).
  split; [reflexivity|].
  cbn [g_maze g_walls g_wallCount g_playerPos g_scaryChars g_torchCount
       g_gameState g_gameTimer g_yaw g_pitch px pz].
  split; [reflexivity|]. split; [exact Ew|]. split; [exact Eh|].
  split; [reflexivity|]. split; [exact Ewalls|]. split; [reflexivity|].
  split; [exact Elen|]. split; [reflexivity|].
  split.
  { destruct (Maze_CellToWorld maze 0 0) as [sx sy] eqn:Ec0. exact Hstart. }
  split; [exact Lchars|].
  split.
  { intros j Hj. destruct (Hchars j Hj) as (cx & cy & [Hcx Hcy] & Ech).
    cbv zeta. rewrite Ech.
    cbn [sc_speed sc_radius sc_height sc_position].
    split; [reflexivity|]. split; [reflexivity|]. split; [reflexivity|].
    rewrite Ew in Hcx. rewrite Eh in Hcy.
    split; [exists cx, cy; auto|].
    unfold char_clear, char_pos2d. cbn [sc_radius sc_position px pz].
    specialize (Hcells cx cy Hcx Hcy).
    destruct (Maze_CellToWorld maze cx cy) as [wx wy]. exact Hcells. }
  split; [lia|]. repeat split; reflexivity.
Qed.

Lemma InitGame_starts_in_free_space_witness :
  let junkTorch : Torch spec_float :=
    mkTorch (mkVector3 (f_lit 0 1) (f_lit 0 1) (f_lit 0 1))
            (mkVector3 (f_lit 0 1) (f_lit 0 1) (f_lit 0 1))
            (f_lit 0 1) (f_lit 0 1) in
  let junkParticle : Particle spec_float :=
    mkParticle (mkVector3 (f_lit 0 1) (f_lit 0 1) (f_lit 0 1))
               (mkVector3 (f_lit 0 1) (f_lit 0 1) (f_lit 0 1))
               (f_lit 0 1) (f_lit 0 1) (f_lit 0 1) (mkColor 0 0 0 0) in
  (forall n, 0 <= demo_rand n) /\
  SCARY_CHAR_COUNT <= Z.of_nat (length (g_scaryChars game_start)) /\
  exists g' rng',
    InitGame demo_rand (fun x => x) 32767 all_ok junkTorch junkParticle game_start
      SCARY_CHAR_COUNT 0 = Returns (g', rng') /\
    g_gameState g' = GAME_STATE_PLAYING /\ g_wallCount g' = 256 /\
    0 <= g_torchCount g' <= 25.
Proof.
  intros junkTorch junkParticle.
  assert (Hlen : SCARY_CHAR_COUNT <= Z.of_nat (length (g_scaryChars game_start)))
    by (unfold SCARY_CHAR_COUNT; simpl; lia).
  split; [exact demo_rand_nonneg|]. split; [exact Hlen|].
  destruct (proj2 (InitGame_starts_in_free_space demo_rand (fun x => x) 32767 all_ok
              junkTorch junkParticle game_start 0%nat demo_rand_nonneg
              eq_refl eq_refl eq_refl eq_refl eq_refl Hlen) (or_intror eq_refl))
    as (g' & rng' & maze & walls & E & _ & _ & _ & _ & _ & _ & Hcount & _ & _ & _ & _
        & Ht & Hst & _).
  exists g', rng'. split; [exact E|].
  split; [exact Hst|]. split; [exact Hcount | exact Ht].
Defined.
